(** * Land-subdivision editor: geometry kernel, snapping, frontage,
      edit engine and undo history

    A shallow embedding of the editor component (the revision with
    select/edit/delete and undo/redo) and of the pure helpers it calls.

    JavaScript numbers are reached through the interface [JSNumber]: the
    kernel is written once against it, as the source is written against
    [Number] and [Math].  Two instances are given.  [Float64] is IEEE
    binary64 on Rocq's primitive floats: arithmetic, comparisons,
    [Math.sqrt], [Math.round] and [toFixed] evaluate as the code does, bit
    for bit; [Math.hypot], which the language leaves to the engine, is a
    parameter of the instance.  [Exact] is the field of rationals, used
    where a statement rests on the laws of arithmetic, which rounding
    breaks.  Statements that only follow the control flow are proved for
    every instance. *)

From Stdlib Require Import ZArith QArith Qabs Qround Floats List Bool Sorted Lia Lra Psatz.
From stdpp Require Import base list strings pretty.
Import ListNotations.

Set Warnings "-inexact-float".

(** ** The number interface *)

Class JSNumber (num : Type) := {
  nadd : num -> num -> num;
  nsub : num -> num -> num;
  nmul : num -> num -> num;
  ndiv : num -> num -> num;
  nltb : num -> num -> bool;          (* a < b *)
  nleb : num -> num -> bool;          (* a <= b *)
  neqb : num -> num -> bool;          (* a === b *)
  nofZ : Z -> num;                    (* integer literals, array lengths *)
  ninfinity : num;                    (* Infinity *)
  nabs : num -> num;                  (* Math.abs *)
  nmax : num -> num -> num;           (* Math.max *)
  nmin : num -> num -> num;           (* Math.min *)
  nsqrt : num -> num;                 (* Math.sqrt *)
  nhypot : num -> num -> num;         (* Math.hypot, two arguments *)
  nround : num -> num;                (* Math.round *)
  ntoFixed : nat -> num -> num;       (* Number(x.toFixed(d)), d = 1 or 2 *)
  nisFinite : num -> bool;            (* isFinite *)
  njson : num -> num                  (* JSON.parse(JSON.stringify(x)) *)
}.

Declare Scope num_scope.
Delimit Scope num_scope with num.
Notation "a + b" := (nadd a b) : num_scope.
Notation "a - b" := (nsub a b) : num_scope.
Notation "a * b" := (nmul a b) : num_scope.
Notation "a / b" := (ndiv a b) : num_scope.
Notation "a <? b" := (nltb a b) : num_scope.
Notation "a <=? b" := (nleb a b) : num_scope.
Notation "a >? b" := (nltb b a) : num_scope.
Notation "a >=? b" := (nleb b a) : num_scope.
Notation "a === b" := (neqb a b) (at level 70, no associativity) : num_scope.
Notation "a !== b" := (negb (neqb a b)) (at level 70, no associativity) : num_scope.
Abbreviation n0 := (nofZ 0%Z).
Abbreviation n1 := (nofZ 1%Z).
Abbreviation n2 := (nofZ 2%Z).
Abbreviation n3 := (nofZ 3%Z).
Abbreviation n6 := (nofZ 6%Z).

(** ** IEEE binary64 *)

Module Float64.

Local Open Scope Z_scope.

(** A finite double as [m * 2^e], exactly. *)
Definition toZE (x : float) : option (Z * Z) :=
  match Prim2SF x with
  | S754_zero _ => Some (0, 0)
  | S754_finite s m e => Some (if s then Z.neg m else Z.pos m, e)
  | _ => None
  end.

(** A non-negative integer below 2^63 as a double (exact below 2^53). *)
Definition ofN (n : Z) : float := PrimFloat.of_uint63 (Uint63.of_Z n).

Definition ofZ (z : Z) : float :=
  if z <? 0 then PrimFloat.opp (ofN (- z)) else ofN z.

Definition isNegZero (x : float) : bool :=
  match Prim2SF x with S754_zero true => true | _ => false end.

Definition isFinite (x : float) : bool :=
  negb (PrimFloat.is_nan x) && negb (PrimFloat.is_infinity x).

(** [floor (m * 2^e * 10^d + 1/2)] for [0 <= m]: the integer [n] for which
    [n / 10^d] is nearest to the value, the larger one on a tie. *)
Definition scaledHalfUp (d : nat) (m e : Z) : Z :=
  let t := m * 10 ^ Z.of_nat d in
  if 0 <=? e then t * 2 ^ e
  else (2 * t + 2 ^ (- e)) / 2 ^ (- e + 1).

(** Math.round: nearest integer, ties toward +Infinity; an integral value
    (every double from 2^52 on) is returned as it is. *)
Definition round (x : float) : float :=
  match toZE x with
  | None => x
  | Some (m, e) =>
      if 0 <=? e then x
      else
        let n := (2 * m + 2 ^ (- e)) / 2 ^ (- e + 1) in
        if n =? 0 then (if m <? 0 then (-0)%float else 0%float)
        else ofZ n
  end.

(** Number(x.toFixed(d)): the decimal with [d] digits nearest to [x] (ties
    away from zero, the sign taken off first), read back as a double.  The
    quotient of two exactly represented integers is correctly rounded, as
    the parse of the decimal string is.  When the scaled integer leaves
    2^53 the spacing of doubles there exceeds [10^-d], [d <= 2], and the
    string reads back as [x]. *)
Definition toFixed (d : nat) (x : float) : float :=
  match toZE x with
  | None => x
  | Some (m, e) =>
      let n := scaledHalfUp d (Z.abs m) e in
      if 2 ^ 53 <=? n then x
      else
        let r := PrimFloat.div (ofN n) (ofN (10 ^ Z.of_nat d)) in
        if m <? 0 then PrimFloat.opp r else r
  end.

(** Math.max and Math.min: NaN is contagious and +0 is above -0. *)
Definition max (a b : float) : float :=
  if PrimFloat.is_nan a || PrimFloat.is_nan b then PrimFloat.nan
  else if PrimFloat.ltb a b then b
  else if PrimFloat.ltb b a then a
  else if isNegZero a then b else a.

Definition min (a b : float) : float :=
  if PrimFloat.is_nan a || PrimFloat.is_nan b then PrimFloat.nan
  else if PrimFloat.ltb a b then a
  else if PrimFloat.ltb b a then b
  else if isNegZero a then a else b.

(** JSON writes NaN and the infinities as null, which every arithmetic
    use reads back as +0, and -0 as 0. *)
Definition json (x : float) : float :=
  if isFinite x then (if PrimFloat.eqb x 0 then 0%float else x) else 0%float.

(** The rational a finite double stands for (0 for NaN and the
    infinities). *)
Definition toQ (x : float) : Q :=
  match toZE x with
  | Some (m, e) =>
      if 0 <=? e then inject_Z (m * 2 ^ e) else (inject_Z m / inject_Z (2 ^ (- e)))%Q
  | None => 0%Q
  end.

(** Math.hypot is implementation-approximated: engines differ in the
    last bit, and none returns the rounded square root of the rounded sum
    of squares throughout.  It is a parameter of the instance. *)
Class MathLib := {
  hypot : float -> float -> float
}.

(** The Math.hypot of V8, for two arguments: an infinity wins over NaN;
    otherwise the magnitudes are divided by the larger one, their squares
    are added with Kahan's compensation, and the square root of the sum is
    multiplied back. *)
Definition hypotV8 (x y : float) : float :=
  let ax := PrimFloat.abs x in
  let ay := PrimFloat.abs y in
  let mx := if PrimFloat.ltb 0%float ax then ax else 0%float in
  let mx := if PrimFloat.ltb mx ay then ay else mx in
  if PrimFloat.is_infinity ax || PrimFloat.is_infinity ay then PrimFloat.infinity
  else if PrimFloat.is_nan x || PrimFloat.is_nan y then PrimFloat.nan
  else if PrimFloat.eqb mx 0%float then 0%float
  else
    let step (st : float * float) (a : float) : float * float :=
      let n := PrimFloat.div a mx in
      let summand := PrimFloat.sub (PrimFloat.mul n n) st.2 in
      let preliminary := PrimFloat.add st.1 summand in
      (preliminary, PrimFloat.sub (PrimFloat.sub preliminary st.1) summand) in
    PrimFloat.mul (PrimFloat.sqrt (step (step (0%float, 0%float) ax) ay).1) mx.

#[global] Instance v8 : MathLib := {| hypot := hypotV8 |}.

#[global] Instance number {m : MathLib} : JSNumber float := {
  nadd := PrimFloat.add;
  nsub := PrimFloat.sub;
  nmul := PrimFloat.mul;
  ndiv := PrimFloat.div;
  nltb := PrimFloat.ltb;
  nleb := PrimFloat.leb;
  neqb := PrimFloat.eqb;
  nofZ := ofZ;
  ninfinity := PrimFloat.infinity;
  nabs := PrimFloat.abs;
  nmax := max;
  nmin := min;
  nsqrt := PrimFloat.sqrt;
  nhypot := hypot;

  nround := round;
  ntoFixed := toFixed;
  nisFinite := isFinite;
  njson := json
}.

End Float64.

(** ** Exact arithmetic

    The rationals with their own order.  [Math.sqrt], [Math.hypot] and a
    stand-in for [Infinity] leave the rationals and are supplied by the user
    of the instance; nothing is assumed about them except where a statement
    says so. *)

Module Exact.

Local Open Scope Q_scope.

Class MathLib := {
  sqrt : Q -> Q;
  hypot : Q -> Q -> Q;
  infinity : Q
}.

Definition ltb (a b : Q) : bool := negb (Qle_bool b a).

Definition max (a b : Q) : Q := if Qle_bool a b then b else a.

Definition min (a b : Q) : Q := if Qle_bool a b then a else b.

Definition round (x : Q) : Q := inject_Z (Qfloor (x + (1 # 2))).

Definition toFixed (d : nat) (x : Q) : Q :=
  let s := inject_Z (10 ^ Z.of_nat d) in
  if Qle_bool 0 x then inject_Z (Qfloor (x * s + (1 # 2))) / s
  else - (inject_Z (Qfloor (- x * s + (1 # 2))) / s).

#[global] Instance number {m : MathLib} : JSNumber Q := {
  nadd := Qplus;
  nsub := Qminus;
  nmul := Qmult;
  ndiv := Qdiv;
  nltb := ltb;
  nleb := Qle_bool;
  neqb := Qeq_bool;
  nofZ := inject_Z;
  ninfinity := infinity;
  nabs := Qabs;
  nmax := max;
  nmin := min;
  nsqrt := sqrt;
  nhypot := hypot;
  nround := round;
  ntoFixed := toFixed;
  nisFinite := fun _ => true;
  njson := fun x => x
}.

End Exact.

(** ** Geometry helpers *)

Section Geometry.
Context {num : Type} {N : JSNumber num}.
Local Open Scope num_scope.

Definition Point : Type := (num * num)%type.
Definition Segment : Type := (Point * Point)%type.

(** [points[i]]; every index the code reads is in range. *)
Definition at_ (points : list Point) (i : nat) : Point := nth i points (n0, n0).

(** Decimal literals of the source, as the quotient of two integers: the
    exact value for [Exact], the correctly rounded one, which is the
    literal, for [Float64]. *)
Definition lit_half : num := n1 / n2.
Definition lit_1e6 : num := n1 / nofZ 1000000.
Definition lit_1e9 : num := n1 / nofZ 1000000000.
Definition lit_1e12 : num := n1 / nofZ 1000000000000.

Definition shoelaceArea (points : list Point) : num :=
  if (length points <? 3)%nat then n0
  else
    let s :=
      fold_left
        (fun s i =>
           let '(x1, y1) := at_ points i in
           let '(x2, y2) := at_ points ((i + 1) mod length points)%nat in
           s + (x1 * y2 - x2 * y1))
        (seq 0 (length points)) n0 in
    nabs s / n2.

Definition distance (a b : Point) : num :=
  let dx := a.1 - b.1 in
  let dy := a.2 - b.2 in
  nhypot dx dy.

Definition dist2 (a b : Point) : num :=
  let dx := a.1 - b.1 in
  let dy := a.2 - b.2 in
  dx * dx + dy * dy.

Definition dedupPush (lst : list Point) (p : Point) : list Point :=
  match last lst with
  | None => lst ++ [p]
  | Some last => if nsqrt (dist2 last p) <=? lit_1e6 then lst else lst ++ [p]
  end.

Record ProjInfo := { proj : Point; d2 : num; t : num }.

Definition pointSegProjection (p a b : Point) : ProjInfo :=
  let vx := b.1 - a.1 in
  let vy := b.2 - a.2 in
  let wx := p.1 - a.1 in
  let wy := p.2 - a.2 in
  let vv := vx * vx + vy * vy in
  if vv <=? lit_1e12 then {| proj := a; d2 := dist2 p a; t := n0 |}
  else
    let t := (wx * vx + wy * vy) / vv in
    let t := nmax n0 (nmin n1 t) in
    let proj := (a.1 + t * vx, a.2 + t * vy) in
    let d2 := dist2 p proj in
    {| proj := proj; d2 := d2; t := t |}.

(** The loop of [snapToNearestSegment]: [best] and [bestD2], updated on a
    strictly smaller squared distance. *)
Definition nearestSegStep (p : Point) (st : option ProjInfo * num) (seg : Segment)
  : option ProjInfo * num :=
  let info := pointSegProjection p seg.1 seg.2 in
  if d2 info <? st.2 then (Some info, d2 info) else st.

Definition snapToNearestSegment (p : Point) (segments : list Segment) (tolUnits : num)
  : option Point :=
  match segments with
  | [] => None
  | _ =>
      match (fold_left (nearestSegStep p) segments (None, ninfinity)).1 with
      | Some best => if nsqrt (d2 best) <=? tolUnits then Some (proj best) else None
      | None => None
      end
  end.

Definition nearestPoolStep (p : Point) (st : option Point * num) (q : Point)
  : option Point * num :=
  let d2 := dist2 p q in
  if d2 <? st.2 then (Some q, d2) else st.

Definition snapToPools (p : Point) (pools : list (list Point)) (tolUnits : num) : Point :=
  let '(best, bestD2) :=
    fold_left (fun st pool => fold_left (nearestPoolStep p) pool st) pools (None, ninfinity) in
  match best with
  | Some best => if nsqrt bestD2 <=? tolUnits then best else p
  | None => p
  end.

Definition axisAlign (prev : option Point) (p : Point) : Point :=
  match prev with
  | None => p
  | Some prev =>
      let dx := nabs (p.1 - prev.1) in
      let dy := nabs (p.2 - prev.2) in
      if dx >=? dy then (p.1, prev.2) else (prev.1, p.2)
  end.

Definition meanOfPoints (points : list Point) : Point :=
  let sx := fold_left (fun a p => a + p.1) points n0 in
  let sy := fold_left (fun a p => a + p.2) points n0 in
  (sx / nofZ (Z.of_nat (length points)), sy / nofZ (Z.of_nat (length points))).

Definition polygonCentroid (points : list Point) : Point :=
  if (length points <? 3)%nat then
    match points with
    | [] => (n0, n0)
    | _ => meanOfPoints points
    end
  else
    let '(a, cx, cy) :=
      fold_left
        (fun '(a, cx, cy) i =>
           let '(x1, y1) := at_ points i in
           let '(x2, y2) := at_ points ((i + 1) mod length points)%nat in
           let cross := x1 * y2 - x2 * y1 in
           (a + cross, cx + (x1 + x2) * cross, cy + (y1 + y2) * cross))
        (seq 0 (length points)) (n0, n0, n0) in
    let a := a * lit_half in
    if nabs a <? lit_1e12 then meanOfPoints points
    else (cx / (n6 * a), cy / (n6 * a)).

Definition transformPoint (p : Point) (s cx cy : num) : Point :=
  let x := cx + s * (p.1 - cx) in
  let y := cy + s * (p.2 - cy) in
  (ntoFixed 2 x, ntoFixed 2 y).

Definition scalePolygonToArea (poly : list Point) (targetArea : num) : list Point :=
  let A := shoelaceArea poly in
  if negb (nisFinite targetArea) || (targetArea <=? n0) || (A <=? n0) then poly
  else
    let s := nsqrt (targetArea / A) in
    let '(cx, cy) := polygonCentroid poly in
    map (fun pt => transformPoint pt s cx cy) poly.

Definition EPS : num := lit_1e9.

Definition ptsEqual (a b : Point) : bool :=
  (nabs (a.1 - b.1) <=? EPS) && (nabs (a.2 - b.2) <=? EPS).

(** [poly.slice(0, -1)] *)
Definition dropLast {A} (l : list A) : list A := take (length l - 1) l.

Definition stripClosingDuplicate (poly : list Point) : list Point :=
  if (length poly <? 2)%nat then poly
  else
    let first := at_ poly 0 in
    let last := at_ poly (length poly - 1) in
    if ptsEqual first last then dropLast poly else poly.

(** Array.prototype.sort: stable, and the comparator's result counts by
    its sign alone (a NaN result counts as 0).  An element moves behind its
    successor only when the comparator is positive on the pair. *)
Fixpoint insertSorted {A} (cmp : A -> A -> num) (x : A) (l : list A) : list A :=
  match l with
  | [] => [x]
  | y :: l' => if cmp x y >? n0 then y :: insertSorted cmp x l' else x :: l
  end.

Definition jsSort {A} (cmp : A -> A -> num) (l : list A) : list A :=
  fold_right (insertSorted cmp) [] l.

Definition _cross (o a b : Point) : num :=
  (a.1 - o.1) * (b.2 - o.2) - (a.2 - o.2) * (b.1 - o.1).

Definition cmpXY (A B : Point) : num :=
  if A.1 === B.1 then A.2 - B.2 else A.1 - B.1.

(** The inner [while] of [convexHull]: pop while the last two points and
    [pt] do not turn left.  Each round pops one point, so fuel equal to the
    length of the stack is never used up ([popWhile_fuel]). *)
Fixpoint popWhile (fuel : nat) (stack : list Point) (pt : Point) : list Point :=
  match fuel with
  | O => stack
  | S fuel' =>
      if (2 <=? length stack)%nat
         && (_cross (at_ stack (length stack - 2)) (at_ stack (length stack - 1)) pt <=? n0)
      then popWhile fuel' (dropLast stack) pt
      else stack
  end.

Definition hullPush (stack : list Point) (pt : Point) : list Point :=
  popWhile (length stack) stack pt ++ [pt].

Definition convexHull (points : list Point) : list Point :=
  let pts := stripClosingDuplicate points in
  if (length pts <=? 1)%nat then pts
  else
    let p := jsSort cmpXY pts in
    let lower := fold_left hullPush p [] in
    let upper := fold_left hullPush (rev p) [] in
    dropLast lower ++ dropLast upper.

Definition signedArea (poly : list Point) : num :=
  if (length poly <? 3)%nat then n0
  else
    let s :=
      fold_left
        (fun s i =>
           let '(x1, y1) := at_ poly i in
           let '(x2, y2) := at_ poly ((i + 1) mod length poly)%nat in
           s + (x1 * y2 - x2 * y1))
        (seq 0 (length poly)) n0 in
    s / n2.

Definition toCCW (openPoly : list Point) : list Point :=
  if (length openPoly <? 3)%nat then openPoly
  else if signedArea openPoly >? n0 then openPoly else rev openPoly.

Definition ensureClosedLoop (polyOpen : list Point) : list Point :=
  if (length polyOpen <? 3)%nat then polyOpen
  else
    let first := at_ polyOpen 0 in
    let last := at_ polyOpen (length polyOpen - 1) in
    if ptsEqual first last then polyOpen else polyOpen ++ [first].

(** [Math.atan2], which neither instance can compute, is a parameter of
    the two definitions that call it. *)
Variable atan2 : num -> num -> num.

Definition cmpAngle (cx cy : num) (a b : Point) : num :=
  let angA := atan2 (a.2 - cy) (a.1 - cx) in
  let angB := atan2 (b.2 - cy) (b.1 - cx) in
  if angA !== angB then angA - angB
  else
    let ra := (a.1 - cx) * (a.1 - cx) + (a.2 - cy) * (a.2 - cy) in
    let rb := (b.1 - cx) * (b.1 - cx) + (b.2 - cy) * (b.2 - cy) in
    ra - rb.

Definition normalizeCCW (points : list Point) : list Point :=
  let poly := stripClosingDuplicate points in
  if (length poly <? 3)%nat then poly
  else
    let '(cx, cy) := polygonCentroid poly in
    let sorted := jsSort (cmpAngle cx cy) poly in
    if signedArea sorted >? n0 then sorted else rev sorted.

(** ** Frontage helpers *)

Definition orient (a b c : Point) : Z :=
  let v1x := b.1 - a.1 in
  let v1y := b.2 - a.2 in
  let v2x := c.1 - a.1 in
  let v2y := c.2 - a.2 in
  let cross := v1x * v2y - v1y * v2x in
  if nabs cross <? lit_1e9 then 0%Z else if cross >? n0 then 1%Z else (-1)%Z.

Definition onSegment (a b p : Point) : bool :=
  let minx := nmin a.1 b.1 - lit_1e9 in
  let maxx := nmax a.1 b.1 + lit_1e9 in
  let miny := nmin a.2 b.2 - lit_1e9 in
  let maxy := nmax a.2 b.2 + lit_1e9 in
  if (p.1 <? minx) || (p.1 >? maxx) || (p.2 <? miny) || (p.2 >? maxy) then false
  else nabs ((b.1 - a.1) * (p.2 - a.2) - (b.2 - a.2) * (p.1 - a.1)) <? lit_1e9.

Definition segmentsIntersectOrTouch (a b c d : Point) : bool :=
  let o1 := orient a b c in
  let o2 := orient a b d in
  let o3 := orient c d a in
  let o4 := orient c d b in
  if negb (o1 =? o2)%Z && negb (o3 =? o4)%Z then true
  else if (o1 =? 0)%Z && onSegment a b c then true
  else if (o2 =? 0)%Z && onSegment a b d then true
  else if (o3 =? 0)%Z && onSegment c d a then true
  else if (o4 =? 0)%Z && onSegment c d b then true
  else false.

Definition edgesFromPolygon (poly : list Point) (closed : bool) : list Segment :=
  if (length poly <? 2)%nat then []
  else
    let segs := map (fun i => (at_ poly i, at_ poly (i + 1))) (seq 0 (length poly - 1)) in
    if closed && (3 <=? length poly)%nat
    then segs ++ [(at_ poly (length poly - 1), at_ poly 0)]
    else segs.

(** The [while (i !== iTo)] walk of [pathSegsBetweenIndices].  [None] is
    fuel used up; for two indices of the ring the walk ends within
    [length boundary] rounds ([pathSegsBetweenIndices_returns]). *)
Fixpoint pathSegsLoop (fuel : nat) (boundary : list Point) (i iTo : nat)
    (segs : list Segment) : option (list Segment) :=
  match fuel with
  | O => None
  | S fuel' =>
      if (i =? iTo)%nat then Some segs
      else
        let j := ((i + 1) mod length boundary)%nat in
        pathSegsLoop fuel' boundary j iTo (segs ++ [(at_ boundary i, at_ boundary j)])
  end.

Definition pathSegsBetweenIndices (boundary : list Point) (iFrom iTo : nat)
  : option (list Segment) :=
  pathSegsLoop (S (length boundary)) boundary iFrom iTo [].

(** [bestI = -1] is [None]. *)
Definition nearestBoundaryIndex (pt : Point) (boundary : list Point) : option nat :=
  (fold_left
     (fun '(bestI, bestD) i =>
        let d := distance pt (at_ boundary i) in
        if d <? bestD then (Some i, d) else (bestI, bestD))
     (seq 0 (length boundary)) (None, ninfinity)).1.

Definition segmentDistance (a b c d : Point) : num :=
  let d1 := d2 (pointSegProjection a c d) in
  let d2_ := d2 (pointSegProjection b c d) in
  let d3 := d2 (pointSegProjection c a b) in
  let d4 := d2 (pointSegProjection d a b) in
  nsqrt (nmin (nmin (nmin d1 d2_) d3) d4).

End Geometry.

(** ** Scene entities

    The fields that never change after creation ([is_public],
    [connected_to_public_road], the empty [road_to_lot_mapping] and the null
    [front_road] of the stored objects) are left out; the export writes them
    afresh. *)

Record InternalRoad {num : Type} := {
  ir_road_id : string;
  ir_polygon : list (@Point num);
  ir_width : option num
}.
Arguments InternalRoad : clear implicits.

Record PublicRoad {num : Type} := {
  pr_road_id : string;
  pr_width : option num;
  pr_entry_points : list (@Point num)
}.
Arguments PublicRoad : clear implicits.

Record Lot {num : Type} := {
  lot_id : option string;
  lot_polygon : list (@Point num)
}.
Arguments Lot : clear implicits.

(** The [ctx] argument of [computeFrontRoadForLot]. *)
Record FrontCtx {num : Type} := {
  ctx_boundary : list (@Point num);
  ctx_boundaryClosed : bool;
  ctx_publicRoads : list (PublicRoad num);
  ctx_internalRoads : list (InternalRoad num)
}.
Arguments FrontCtx : clear implicits.

Section Frontage.
Context {num : Type} {N : JSNumber num}.
Local Open Scope num_scope.

(** The two tests made on a pair of edges, in the order of the source. *)
Definition edgePairHit (tolUnits : num) (ab cd : @Segment num) : bool :=
  if segmentsIntersectOrTouch ab.1 ab.2 cd.1 cd.2 then true
  else if (tolUnits >? n0) && (segmentDistance ab.1 ab.2 cd.1 cd.2 <=? tolUnits) then true
  else false.

(** [for (const [c, d] of roadEdges)]: left at the first hit. *)
Fixpoint roadEdgeLoop (tolUnits : num) (ab : @Segment num) (roadEdges : list (@Segment num))
  : bool :=
  match roadEdges with
  | [] => false
  | cd :: rest => if edgePairHit tolUnits ab cd then true else roadEdgeLoop tolUnits ab rest
  end.

(** [for (const [a, b] of lotEdges)]: left at the first hit. *)
Fixpoint lotEdgeLoop (tolUnits : num) (lotEdges roadEdges : list (@Segment num)) : bool :=
  match lotEdges with
  | [] => false
  | ab :: rest =>
      if roadEdgeLoop tolUnits ab roadEdges then true
      else lotEdgeLoop tolUnits rest roadEdges
  end.

(** [for (const r of internalRoads)]: the id of the first road touched. *)
Fixpoint internalRoadLoop (tolUnits : num) (lotEdges : list (@Segment num))
    (internalRoads : list (InternalRoad num)) : option string :=
  match internalRoads with
  | [] => None
  | r :: rest =>
      let roadEdges := edgesFromPolygon (ir_polygon r) true in
      let touch := lotEdgeLoop tolUnits lotEdges roadEdges in
      if touch then Some (ir_road_id r) else internalRoadLoop tolUnits lotEdges rest
  end.

Definition len (ss : list (@Segment num)) : num :=
  fold_left (fun s seg => s + nhypot (seg.2.1 - seg.1.1) (seg.2.2 - seg.1.2)) ss n0.

(** [for (const pr of publicRoads)].  The outer [option] is the walk of
    [pathSegsBetweenIndices] running out of fuel. *)
Fixpoint publicRoadLoop (tolUnits : num) (lotEdges : list (@Segment num))
    (boundary : list (@Point num)) (publicRoads : list (PublicRoad num))
  : option (option string) :=
  match publicRoads with
  | [] => Some None
  | pr :: rest =>
      if (length (pr_entry_points pr) <? 2)%nat
      then publicRoadLoop tolUnits lotEdges boundary rest
      else
        let iA := nearestBoundaryIndex (at_ (pr_entry_points pr) 0) boundary in
        let iB := nearestBoundaryIndex (at_ (pr_entry_points pr) 1) boundary in
        match iA, iB with
        | Some iA, Some iB =>
            if (iA =? iB)%nat then publicRoadLoop tolUnits lotEdges boundary rest
            else
              segsAB ← pathSegsBetweenIndices boundary iA iB;
              segsBA ← pathSegsBetweenIndices boundary iB iA;
              let pubSegs := if len segsAB <=? len segsBA then segsAB else segsBA in
              if lotEdgeLoop tolUnits lotEdges pubSegs then Some (Some (pr_road_id pr))
              else publicRoadLoop tolUnits lotEdges boundary rest
        | _, _ => publicRoadLoop tolUnits lotEdges boundary rest
        end
  end.

(** Front road of a lot: internal roads first, then the public roads by the
    boundary between their first two entry points. *)
Definition computeFrontRoadForLot (lotPoly : list (@Point num)) (ctx : FrontCtx num)
    (tolUnits : num) : option (option string) :=
  if (length lotPoly <? 3)%nat then Some None
  else
    let lotEdges := edgesFromPolygon lotPoly true in
    match internalRoadLoop tolUnits lotEdges (ctx_internalRoads ctx) with
    | Some id => Some (Some id)
    | None =>
        if ctx_boundaryClosed ctx && (3 <=? length (ctx_boundary ctx))%nat
        then publicRoadLoop tolUnits lotEdges (ctx_boundary ctx) (ctx_publicRoads ctx)
        else Some None
    end.

End Frontage.

(** ** The editor component

    The [useState] cells the modelled handlers read or write, grouped: the
    five cells a history snapshot holds, the two history stacks, the
    transient editing cells, and the settings, which no handler below
    writes. *)

Inductive Mode := boundaryMode | publicRoadMode | internalRoadMode | lotMode | selectMode.

Inductive Kind := Kboundary | Kinternal | Klot | KpublicEP.

(** [{ kind, index, vertexIndex?, edgeIndex? }]; the hit tests always set
    [index] (0 for the boundary). *)
Record Selection := {
  sel_kind : Kind;
  sel_index : nat;
  sel_vertexIndex : option nat;
  sel_edgeIndex : option nat
}.

Record Snapshot {num : Type} := {
  boundary : list (@Point num);
  boundaryClosed : bool;
  publicRoads : list (PublicRoad num);
  internalRoads : list (InternalRoad num);
  lots : list (Lot num)
}.
Arguments Snapshot : clear implicits.

Record Settings {num : Type} := {
  landId : string;
  snapTol : num;
  lineTol : num;
  gridSnap : bool;
  gridStep : num;
  gridTol : num;
  gridStrict : bool;
  gridOrigin : @Point num;
  unitsPerPx : @Point num;
  defaultPublicWidth : num;
  internalWidthDefault : num
}.
Arguments Settings : clear implicits.

Record Scene {num : Type} := {
  persist : Snapshot num;
  history : list (Snapshot num);
  future : list (Snapshot num);
  mode : Mode;
  current : list (@Point num);
  activePublicIdx : option nat;          (* [None] is -1 *)
  selection : option Selection;
  settings : Settings num
}.
Arguments Scene : clear implicits.

(** What a handler reads of the pointer event: [clientToSvg(e)] and
    [e.shiftKey]. *)
Record PointerEvt {num : Type} := {
  raw0 : option (@Point num);
  shiftKey : bool
}.
Arguments PointerEvt : clear implicits.

(** The exported document. *)
Record ExportPublicRoad {num : Type} := {
  xp_road_id : string;
  xp_is_public : bool;
  xp_width : num;
  xp_entry_points : list (@Point num);
  xp_connected_to_public_road : option bool;
  xp_road_to_lot_mapping : list string
}.
Arguments ExportPublicRoad : clear implicits.

Record ExportInternalRoad {num : Type} := {
  xi_road_id : string;
  xi_polygon : list (@Point num);
  xi_is_public : bool;
  xi_width : num;
  xi_connected_to_public_road : option bool;
  xi_road_to_lot_mapping : list string
}.
Arguments ExportInternalRoad : clear implicits.

Record ExportLot {num : Type} := {
  xl_lot_id : string;
  xl_polygon : list (@Point num);
  xl_area : num;
  xl_front_road : option string
}.
Arguments ExportLot : clear implicits.

Record ExportDoc {num : Type} := {
  x_land_id : string;
  x_boundary : list (@Point num);
  x_roads : list (ExportPublicRoad num);
  x_internal_roads : list (ExportInternalRoad num);
  x_lots : list (ExportLot num)
}.
Arguments ExportDoc : clear implicits.

Section Component.
Context {num : Type} {N : JSNumber num}.
Variable atan2 : num -> num -> num.
Local Open Scope num_scope.

Definition set_persist (p : Snapshot num) (st : Scene num) : Scene num :=
  {| persist := p; history := history st; future := future st; mode := mode st;
     current := current st; activePublicIdx := activePublicIdx st;
     selection := selection st; settings := settings st |}.

Definition set_history (h : list (Snapshot num)) (st : Scene num) : Scene num :=
  {| persist := persist st; history := h; future := future st; mode := mode st;
     current := current st; activePublicIdx := activePublicIdx st;
     selection := selection st; settings := settings st |}.

Definition set_future (f : list (Snapshot num)) (st : Scene num) : Scene num :=
  {| persist := persist st; history := history st; future := f; mode := mode st;
     current := current st; activePublicIdx := activePublicIdx st;
     selection := selection st; settings := settings st |}.

Definition set_selection (s : option Selection) (st : Scene num) : Scene num :=
  {| persist := persist st; history := history st; future := future st; mode := mode st;
     current := current st; activePublicIdx := activePublicIdx st;
     selection := s; settings := settings st |}.

Definition set_activePublicIdx (i : option nat) (st : Scene num) : Scene num :=
  {| persist := persist st; history := history st; future := future st; mode := mode st;
     current := current st; activePublicIdx := i;
     selection := selection st; settings := settings st |}.

Definition setBoundary (b : list (@Point num)) (st : Scene num) : Scene num :=
  set_persist
    {| boundary := b; boundaryClosed := boundaryClosed (persist st);
       publicRoads := publicRoads (persist st);
       internalRoads := internalRoads (persist st); lots := lots (persist st) |} st.

Definition setBoundaryClosed (c : bool) (st : Scene num) : Scene num :=
  set_persist
    {| boundary := boundary (persist st); boundaryClosed := c;
       publicRoads := publicRoads (persist st);
       internalRoads := internalRoads (persist st); lots := lots (persist st) |} st.

Definition setPublicRoads (r : list (PublicRoad num)) (st : Scene num) : Scene num :=
  set_persist
    {| boundary := boundary (persist st); boundaryClosed := boundaryClosed (persist st);
       publicRoads := r;
       internalRoads := internalRoads (persist st); lots := lots (persist st) |} st.

Definition setInternalRoads (r : list (InternalRoad num)) (st : Scene num) : Scene num :=
  set_persist
    {| boundary := boundary (persist st); boundaryClosed := boundaryClosed (persist st);
       publicRoads := publicRoads (persist st);
       internalRoads := r; lots := lots (persist st) |} st.

Definition setLots (l : list (Lot num)) (st : Scene num) : Scene num :=
  set_persist
    {| boundary := boundary (persist st); boundaryClosed := boundaryClosed (persist st);
       publicRoads := publicRoads (persist st);
       internalRoads := internalRoads (persist st); lots := l |} st.

(** [Math.max((unitsPerPx.x + unitsPerPx.y) / 2, 1e-6)] *)
Definition __avgUP (env : Scene num) : num :=
  nmax (((unitsPerPx (settings env)).1 + (unitsPerPx (settings env)).2) / n2) lit_1e6.

(** [!step]: a number is falsy when it is 0 or NaN. *)
Definition falsy (x : num) : bool := (x === n0) || (x !== x).

Definition snapToGrid (p : @Point num) (step : num) (origin : @Point num) (tolUnits : num)
    (always : bool) : @Point num :=
  if falsy step || (step <=? n0) then p
  else
    let gx := nround ((p.1 - origin.1) / step) * step + origin.1 in
    let gy := nround ((p.2 - origin.2) / step) * step + origin.2 in
    let g := (ntoFixed 2 gx, ntoFixed 2 gy) in
    if always then g
    else if distance p g <=? tolUnits then g else p.

(** *** History (undo / redo)

    A handler runs against the render it was created in: [env] is the state
    its closure reads, [st] the state its queued updates have built so far.
    An updater passed to a setter sees [st]; a bare variable sees [env]. *)

(** [JSON.parse(JSON.stringify(obj))] *)
Definition copyPoint (p : @Point num) : @Point num := (njson p.1, njson p.2).

Definition copyPublicRoad (r : PublicRoad num) : PublicRoad num :=
  {| pr_road_id := pr_road_id r; pr_width := njson <$> pr_width r;
     pr_entry_points := copyPoint <$> pr_entry_points r |}.

Definition copyInternalRoad (r : InternalRoad num) : InternalRoad num :=
  {| ir_road_id := ir_road_id r; ir_polygon := copyPoint <$> ir_polygon r;
     ir_width := njson <$> ir_width r |}.

Definition copyLot (l : Lot num) : Lot num :=
  {| lot_id := lot_id l; lot_polygon := copyPoint <$> lot_polygon l |}.

Definition makeSnapshot (env : Scene num) : Snapshot num :=
  {| boundary := copyPoint <$> boundary (persist env);
     boundaryClosed := boundaryClosed (persist env);
     publicRoads := copyPublicRoad <$> publicRoads (persist env);
     internalRoads := copyInternalRoad <$> internalRoads (persist env);
     lots := copyLot <$> lots (persist env) |}.

Definition restoreSnapshot (s : Snapshot num) (st : Scene num) : Scene num :=
  setLots (lots s)
    (setInternalRoads (internalRoads s)
       (setPublicRoads (publicRoads s)
          (setBoundaryClosed (boundaryClosed s)
             (setBoundary (boundary s) st)))).

(** Called before the data changes. *)
Definition pushHistory (env st : Scene num) : Scene num :=
  set_future [] (set_history (history st ++ [makeSnapshot env]) st).

Definition undoHistory (env st : Scene num) : Scene num :=
  match last (history st) with
  | None => st
  | Some prev =>
      let st := set_future (makeSnapshot env :: future st) st in
      let st := restoreSnapshot prev st in
      set_history (dropLast (history st)) st
  end.

Definition redoHistory (env st : Scene num) : Scene num :=
  match future st with
  | [] => st
  | next :: rest =>
      let st := set_history (history st ++ [makeSnapshot env]) st in
      let st := restoreSnapshot next st in
      set_future rest st
  end.

Definition smartUndo (env st : Scene num) : Scene num :=
  match current env, mode env with
  | _ :: _, (boundaryMode | internalRoadMode | lotMode) =>
      {| persist := persist st; history := history st; future := future st;
         mode := mode st; current := dropLast (current st);
         activePublicIdx := activePublicIdx st; selection := selection st;
         settings := settings st |}
  | _, _ => undoHistory env st
  end.

(** *** Snapping *)

(** The local [addSegs] of [collectSegments] has the body of
    [edgesFromPolygon]. *)
Definition collectSegments (boundary : list (@Point num)) (boundaryClosed : bool)
    (current : list (@Point num)) (internalRoads : list (InternalRoad num))
    (lots : list (Lot num)) : list (@Segment num) :=
  edgesFromPolygon boundary boundaryClosed
  ++ edgesFromPolygon current false
  ++ concat (map (fun r => edgesFromPolygon (ir_polygon r) true) internalRoads)
  ++ concat (map (fun l => edgesFromPolygon (lot_polygon l) true) lots).

(** The anchor of the axis lock. *)
Definition previewPrev (env : Scene num) : option (@Point num) :=
  match mode env with
  | boundaryMode =>
      if negb (boundaryClosed (persist env)) then last (current env) else None
  | internalRoadMode | lotMode => last (current env)
  | publicRoadMode =>
      match activePublicIdx env with
      | Some idx =>
          match publicRoads (persist env) !! idx with
          | Some act => last (pr_entry_points act)
          | None => None
          end
      | None => None
      end
  | selectMode => None
  end.

Definition previewAligned (env : Scene num) (e : PointerEvt num) (raw0 : @Point num)
  : @Point num :=
  match previewPrev env with
  | Some prev =>
      if shiftKey e && negb (match mode env with selectMode => true | _ => false end)
      then axisAlign (Some prev) raw0 else raw0
  | None => raw0
  end.

(** [p1]: the grid candidate, or [aligned] itself. *)
Definition previewGrid (env : Scene num) (aligned : @Point num) : @Point num :=
  let tolUnitsGrid := gridTol (settings env) * __avgUP env in
  if gridSnap (settings env)
  then snapToGrid aligned (gridStep (settings env)) (gridOrigin (settings env))
         tolUnitsGrid (gridStrict (settings env))
  else aligned.

(** [p2]: the choice between the grid and the line candidate. *)
Definition previewLine (env : Scene num) (aligned p1 : @Point num) : @Point num :=
  let segments :=
    collectSegments (boundary (persist env)) (boundaryClosed (persist env)) (current env)
      (internalRoads (persist env)) (lots (persist env)) in
  match segments with
  | [] => p1
  | _ =>
      match snapToNearestSegment aligned segments (lineTol (settings env) * __avgUP env) with
      | Some proj =>
          let dGrid := distance aligned p1 in
          let dLine := distance aligned proj in
          if dLine <=? dGrid then (ntoFixed 2 proj.1, ntoFixed 2 proj.2) else p1
      | None => p1
      end
  end.

Definition previewPools (env : Scene num) : list (list (@Point num)) :=
  (match boundary (persist env) with [] => [] | b => [b] end)
  ++ List.filter (fun eps => match eps with [] => false | _ => true end)
       (map pr_entry_points (publicRoads (persist env)))
  ++ (match current env with
      | [] => []
      | cur => match dropLast cur with [] => [] | poolExceptLast => [poolExceptLast] end
      end)
  ++ map ir_polygon (internalRoads (persist env))
  ++ map lot_polygon (lots (persist env)).

Definition computePreviewPoint (env : Scene num) (e : PointerEvt num)
  : option (@Point num) :=
  match raw0 e with
  | None => None
  | Some raw0 =>
      let aligned := previewAligned env e raw0 in
      let p1 := previewGrid env aligned in
      let p2 := previewLine env aligned p1 in
      Some (snapToPools p2 (previewPools env) (snapTol (settings env) * __avgUP env))
  end.

(** *** Export *)

(** [String(n).padStart(2, "0")] *)
Definition padStart2 (s : string) : string :=
  if (String.length s <? 2)%nat then ("0" +:+ s)%string else s.

Definition fallbackLotId (landId : string) (idx : nat) : string :=
  (landId +:+ "-" +:+ padStart2 (pretty (idx + 1)%nat))%string.

Record LotInfo := {
  li_id : string;
  li_polygonOpen : list (@Point num);
  li_area : num;
  li_front : option string
}.

(** [polyOpen.length >= 3 ? ensureClosedLoop(polyOpen) : polyOpen] *)
Definition closedForExport (polyOpen : list (@Point num)) : list (@Point num) :=
  if (3 <=? length polyOpen)%nat then ensureClosedLoop polyOpen else polyOpen.

Definition exportLotInfo (env : Scene num) (ctx : FrontCtx num) (tolUnits : num)
    (idx : nat) (l : Lot num) : option LotInfo :=
  let id := default (fallbackLotId (landId (settings env)) idx) (lot_id l) in
  let polyOpen := normalizeCCW atan2 (lot_polygon l) in
  let area := ntoFixed 1 (shoelaceArea polyOpen) in
  front ← computeFrontRoadForLot polyOpen ctx tolUnits;
  Some {| li_id := id; li_polygonOpen := polyOpen; li_area := area; li_front := front |}.

(** [li.front === road_id] *)
Definition frontIs (road_id : string) (front : option string) : bool :=
  match front with
  | Some id => String.eqb id road_id
  | None => false
  end.

(** The document handed to [JSON.stringify]; [None] only if a frontage
    computation runs out of fuel, which does not happen
    ([exportJSON_returns]). *)
Definition exportJSON (env : Scene num) : option (ExportDoc num) :=
  let boundaryOpen := normalizeCCW atan2 (boundary (persist env)) in
  let boundaryClosedLoop := closedForExport boundaryOpen in
  let ctx :=
    {| ctx_boundary := boundaryOpen;
       ctx_boundaryClosed := (3 <=? length boundaryOpen)%nat;
       ctx_publicRoads := publicRoads (persist env);
       ctx_internalRoads := internalRoads (persist env) |} in
  let tolUnits := n3 * __avgUP env in
  lotInfos ← mapM (fun '(idx, l) => exportLotInfo env ctx tolUnits idx l)
               (imap (fun idx l => (idx, l)) (lots (persist env)));
  let publicRoadsOut :=
    map (fun pr =>
           let lotIds := map li_id (List.filter (fun li => frontIs (pr_road_id pr) (li_front li)) lotInfos) in
           {| xp_road_id := pr_road_id pr;
              xp_is_public := true;
              xp_width := default (defaultPublicWidth (settings env)) (pr_width pr);
              xp_entry_points := pr_entry_points pr;
              xp_connected_to_public_road := None;
              xp_road_to_lot_mapping := lotIds |})
        (publicRoads (persist env)) in
  let internalRoadsOut :=
    map (fun r =>
           let polyOpen := normalizeCCW atan2 (ir_polygon r) in
           let lotIds := map li_id (List.filter (fun li => frontIs (ir_road_id r) (li_front li)) lotInfos) in
           {| xi_road_id := ir_road_id r;
              xi_polygon := closedForExport polyOpen;
              xi_is_public := false;
              xi_width := default (internalWidthDefault (settings env)) (ir_width r);
              xi_connected_to_public_road := Some true;
              xi_road_to_lot_mapping := lotIds |})
        (internalRoads (persist env)) in
  Some
    {| x_land_id := landId (settings env);
       x_boundary := boundaryClosedLoop;
       x_roads := publicRoadsOut;
       x_internal_roads := internalRoadsOut;
       x_lots :=
         map (fun li =>
                {| xl_lot_id := li_id li;
                   xl_polygon := closedForExport (li_polygonOpen li);
                   xl_area := li_area li;
                   xl_front_road := li_front li |})
             lotInfos |}.

(** *** Deletion *)

(** [u.filter((_, i) => i !== index)] *)
Definition filterOutIndex {A} (index : nat) (u : list A) : list A :=
  map snd (List.filter (fun ix => negb (ix.1 =? index)%nat) (imap (fun i x => (i, x)) u)).

(** [poly.splice(rm, 1)]: stdpp's [delete], which like [splice] leaves the
    array alone when [rm] is past its end. *)
Definition splice1 {A} (rm : nat) (poly : list A) : list A := delete rm poly.

Definition withLotPolygon (l : Lot num) (poly : list (@Point num)) : Lot num :=
  {| lot_id := lot_id l; lot_polygon := poly |}.

Definition withRoadPolygon (r : InternalRoad num) (poly : list (@Point num))
  : InternalRoad num :=
  {| ir_road_id := ir_road_id r; ir_polygon := poly; ir_width := ir_width r |}.

Definition withEntryPoints (r : PublicRoad num) (eps : list (@Point num)) : PublicRoad num :=
  {| pr_road_id := pr_road_id r; pr_width := pr_width r; pr_entry_points := eps |}.

(** The updater [deleteEdge] passes to [setLots].  [None] is the TypeError
    of reading [u[index].polygon] with [index] out of range. *)
Definition deleteEdgeLots (index edgeIndex : nat) (ls : list (Lot num))
  : option (list (Lot num)) :=
  l ← ls !! index;
  let poly := lot_polygon l in
  let n := length poly in
  if (n <? 3)%nat then Some ls
  else
    let rm := ((edgeIndex + 1) mod n)%nat in
    let poly := splice1 rm poly in
    if (length poly <? 3)%nat then Some (filterOutIndex index ls)
    else Some (<[index := withLotPolygon l poly]> ls).

Definition deleteEdgeRoads (index edgeIndex : nat) (rs : list (InternalRoad num))
  : option (list (InternalRoad num)) :=
  r ← rs !! index;
  let poly := ir_polygon r in
  let n := length poly in
  if (n <? 3)%nat then Some rs
  else
    let rm := ((edgeIndex + 1) mod n)%nat in
    let poly := splice1 rm poly in
    if (length poly <? 3)%nat then Some (filterOutIndex index rs)
    else Some (<[index := withRoadPolygon r poly]> rs).

(** Deleting an edge deletes the vertex [(edgeIndex + 1) mod n]. *)
Definition deleteEdge (env : Scene num) (kind : Kind) (index edgeIndex : nat)
    (st : Scene num) : option (Scene num) :=
  let st := pushHistory env st in
  match kind with
  | KpublicEP => Some st
  | Klot =>
      ls ← deleteEdgeLots index edgeIndex (lots (persist st));
      Some (setLots ls st)
  | Kinternal =>
      rs ← deleteEdgeRoads index edgeIndex (internalRoads (persist st));
      Some (setInternalRoads rs st)
  | Kboundary =>
      let poly := boundary (persist env) in
      let n := length poly in
      if (n <? 3)%nat then Some st
      else
        let rm := ((edgeIndex + 1) mod n)%nat in
        let poly := splice1 rm poly in
        if (length poly <? 3)%nat
        then Some (setBoundaryClosed false (setBoundary [] st))
        else Some (setBoundaryClosed true (setBoundary poly st))
  end.

Definition deleteVertexLots (index vertexIndex : nat) (ls : list (Lot num))
  : option (list (Lot num)) :=
  l ← ls !! index;
  let poly := splice1 vertexIndex (lot_polygon l) in
  if (length poly <? 3)%nat then Some (filterOutIndex index ls)
  else Some (<[index := withLotPolygon l poly]> ls).

Definition deleteVertexRoads (index vertexIndex : nat) (rs : list (InternalRoad num))
  : option (list (InternalRoad num)) :=
  r ← rs !! index;
  let poly := splice1 vertexIndex (ir_polygon r) in
  if (length poly <? 3)%nat then Some (filterOutIndex index rs)
  else Some (<[index := withRoadPolygon r poly]> rs).

Definition onDeleteSelection (env : Scene num) : option (Scene num) :=
  match selection env with
  | None => Some env
  | Some sel =>
      let st := pushHistory env env in
      match sel_edgeIndex sel with
      | Some edgeIndex =>
          st ← deleteEdge env (sel_kind sel) (sel_index sel) edgeIndex st;
          Some (set_selection None st)
      | None =>
          st ←
            match sel_kind sel with
            | Klot =>
                match sel_vertexIndex sel with
                | Some v =>
                    ls ← deleteVertexLots (sel_index sel) v (lots (persist st));
                    Some (setLots ls st)
                | None => Some (setLots (filterOutIndex (sel_index sel) (lots (persist st))) st)
                end
            | Kinternal =>
                match sel_vertexIndex sel with
                | Some v =>
                    rs ← deleteVertexRoads (sel_index sel) v (internalRoads (persist st));
                    Some (setInternalRoads rs st)
                | None =>
                    Some (setInternalRoads
                            (filterOutIndex (sel_index sel) (internalRoads (persist st))) st)
                end
            | Kboundary =>
                match sel_vertexIndex sel with
                | Some v =>
                    let poly := splice1 v (boundary (persist env)) in
                    if (length poly <? 3)%nat
                    then Some (setBoundaryClosed false (setBoundary [] st))
                    else Some (setBoundaryClosed true (setBoundary poly st))
                | None => Some (setBoundaryClosed false (setBoundary [] st))
                end
            | KpublicEP =>
                match sel_vertexIndex sel with
                | Some v =>
                    r ← publicRoads (persist st) !! sel_index sel;
                    let eps := splice1 v (pr_entry_points r) in
                    Some (setPublicRoads
                            (<[sel_index sel := withEntryPoints r eps]> (publicRoads (persist st)))
                            st)
                | None =>
                    Some (set_activePublicIdx None
                            (setPublicRoads
                               (splice1 (sel_index sel) (publicRoads (persist st))) st))
                end
            end;
          Some (set_selection None st)
      end
  end.

End Component.
(** ** Drawing, selecting and dragging

    The handlers of the component that create, pick and move geometry.
    They read two more groups of cells than the ones above: the auto-scale
    options and the transient [hover] and [dragging] cells. *)

(** [autoScaleNew], [autoTargetArea], [autoApplyTo] and
    [autoInternalWidth]. *)
Record AutoOptions {num : Type} := {
  autoScaleNew : bool;
  autoTargetArea : num;
  autoApplyLot : bool;
  autoApplyBoundary : bool;
  autoApplyInternalRoad : bool;
  autoInternalWidth : bool
}.
Arguments AutoOptions : clear implicits.

(** [{ type: "vertex", vertexIndex }] or [{ type: "edge", edgeIndex }]. *)
Inductive DragHandle := DragVertex (vertexIndex : nat) | DragEdge (edgeIndex : nat).

Record Dragging {num : Type} := {
  d_handle : DragHandle;
  d_kind : Kind;
  d_index : nat;
  d_startMouse : @Point num;
  d_startGeom : list (@Point num);
  d_shiftEdge : bool
}.
Arguments Dragging : clear implicits.

Record Editor {num : Type} := {
  ed_scene : Scene num;
  ed_hover : option (@Point num);
  ed_dragging : option (Dragging num);
  ed_auto : AutoOptions num
}.
Arguments Editor : clear implicits.

(** The anchor of the scale panel: [anchorType], [anchorX] and
    [anchorY]. *)
Inductive AnchorType := anchorCentroid | anchorOrigin | anchorCustom.

Record ScalePanel {num : Type} := {
  anchorType : AnchorType;
  anchorX : num;
  anchorY : num
}.
Arguments ScalePanel : clear implicits.

Record ViewBox {num : Type} := { vb_x : num; vb_y : num; vb_w : num; vb_h : num }.
Arguments ViewBox : clear implicits.

Section Ids.
Context {num : Type}.

(** [String(n).padStart(3, "0")] *)
Fixpoint zeros (k : nat) : string :=
  match k with
  | O => EmptyString
  | S k' => ("0" +:+ zeros k')%string
  end.

Definition padStart3 (s : string) : string := (zeros (3 - String.length s) +:+ s)%string.

(** [`R${String(n).padStart(3, "0")}`] *)
Definition roadIdOf (n : nat) : string := ("R" +:+ padStart3 (pretty n))%string.

(** [ids.has(id)] *)
Definition hasId (ids : list string) (id : string) : bool := existsb (String.eqb id) ids.

(** [while (ids.has(...)) n++].  [None] is fuel used up; one round more
    than there are ids is enough ([nextGlobalRoadId_returns_free]). *)
Fixpoint nextRoadIdLoop (fuel : nat) (ids : list string) (n : nat) : option string :=
  match fuel with
  | O => None
  | S fuel' =>
      if hasId ids (roadIdOf n) then nextRoadIdLoop fuel' ids (S n)
      else Some (roadIdOf n)
  end.

Definition roadIds (env : Scene num) : list string :=
  map ir_road_id (internalRoads (persist env)) ++ map pr_road_id (publicRoads (persist env)).

Definition nextGlobalRoadId (env : Scene num) : option string :=
  nextRoadIdLoop (S (length (roadIds env))) (roadIds env) 1.

Definition nextInternalRoadId (env : Scene num) : option string := nextGlobalRoadId env.

(** [`${landId}-${String(lots.length + 1).padStart(2, "0")}`] *)
Definition nextLotId (env : Scene num) : string :=
  (landId (settings env) +:+ "-"
   +:+ padStart2 (pretty (length (lots (persist env)) + 1)%nat))%string.

End Ids.

Section Drawing.
Context {num : Type} {N : JSNumber num}.
Local Open Scope num_scope.

(** [estimateRoadWidth] rests on [Math.atan2], [Math.cos] and [Math.sin];
    it is a parameter of the two handlers that store its result as the
    width of a road. *)
Variable estimateRoadWidth : list (@Point num) -> num.

Definition setCurrent (c : list (@Point num)) (st : Scene num) : Scene num :=
  {| persist := persist st; history := history st; future := future st; mode := mode st;
     current := c; activePublicIdx := activePublicIdx st;
     selection := selection st; settings := settings st |}.

Definition with_scene (f : Scene num -> Scene num) (ed : Editor num) : Editor num :=
  {| ed_scene := f (ed_scene ed); ed_hover := ed_hover ed;
     ed_dragging := ed_dragging ed; ed_auto := ed_auto ed |}.

Definition setHover (h : option (@Point num)) (ed : Editor num) : Editor num :=
  {| ed_scene := ed_scene ed; ed_hover := h;
     ed_dragging := ed_dragging ed; ed_auto := ed_auto ed |}.

Definition setDragging (d : option (Dragging num)) (ed : Editor num) : Editor num :=
  {| ed_scene := ed_scene ed; ed_hover := ed_hover ed;
     ed_dragging := d; ed_auto := ed_auto ed |}.

(** [poly] of [closeShape]: the drawn points, scaled to the target area
    when auto-scale is on for the kind of shape. *)
Definition closePoly (auto : AutoOptions num) (applies : bool) (cur : list (@Point num))
  : list (@Point num) :=
  if autoScaleNew auto && applies then scalePolygonToArea cur (autoTargetArea auto) else cur.

(** [closeShape]; [None] only if [nextGlobalRoadId] runs out of fuel, which
    does not happen. *)
Definition closeShape (ed : Editor num) : option (Editor num) :=
  let env := ed_scene ed in
  let auto := ed_auto ed in
  if (3 <=? length (current env))%nat then
    match mode env with
    | boundaryMode =>
        let poly := closePoly auto (autoApplyBoundary auto) (current env) in
        let st := pushHistory env env in
        let st := setBoundary poly st in
        let st := setBoundaryClosed true st in
        let st := setCurrent [] st in
        Some (setHover None (with_scene (fun _ => st) ed))
    | internalRoadMode =>
        let poly := closePoly auto (autoApplyInternalRoad auto) (current env) in
        id ← nextInternalRoadId env;
        let computedW :=
          if autoInternalWidth auto then estimateRoadWidth poly
          else internalWidthDefault (settings env) in
        let st :=
          setInternalRoads
            (internalRoads (persist env)
             ++ [{| ir_road_id := id; ir_polygon := poly; ir_width := Some computedW |}])
            env in
        let st := setCurrent [] st in
        Some (setHover None (with_scene (fun _ => st) ed))
    | lotMode =>
        let poly := closePoly auto (autoApplyLot auto) (current env) in
        let id := nextLotId env in
        let st :=
          setLots (lots (persist env) ++ [{| lot_id := Some id; lot_polygon := poly |}]) env in
        let st := setCurrent [] st in
        Some (setHover None (with_scene (fun _ => st) ed))
    | _ => Some ed
    end
  else Some ed.

(** The updater [onCanvasClick] passes to [setPublicRoads], with the index
    it hands to [setActivePublicIdx].  The outer [None] is the TypeError of
    reading [roads[idx].entry_points] with [idx] past the end, or fuel used
    up in [nextGlobalRoadId]. *)
Definition addEntryPoint (env : Scene num) (point : @Point num)
    (roads : list (PublicRoad num)) : option (list (PublicRoad num) * option nat) :=
  '(roads, idx) ←
    match activePublicIdx env with
    | Some idx => Some (roads, idx)
    | None =>
        id ← nextGlobalRoadId env;
        let newRoad :=
          {| pr_road_id := id; pr_width := Some (defaultPublicWidth (settings env));
             pr_entry_points := [] |} in
        Some (roads ++ [newRoad], length roads)
    end;
  r ← roads !! idx;
  let snapped :=
    snapToPools point [boundary (persist env); pr_entry_points r]
      (snapTol (settings env) * __avgUP env) in
  if existsb (fun q => nsqrt (dist2 q snapped) <=? lit_1e6) (pr_entry_points r)
  then Some (roads, Some idx)
  else Some (<[idx := withEntryPoints r (pr_entry_points r ++ [snapped])]> roads, Some idx).

Definition onCanvasClick (env : Scene num) (e : PointerEvt num) : option (Scene num) :=
  match mode env with
  | selectMode => Some env
  | m =>
      match computePreviewPoint env e with
      | None => Some env
      | Some p =>
          match m with
          | boundaryMode =>
              if boundaryClosed (persist env) then Some env
              else Some (setCurrent (dedupPush (current env) p) env)
          | publicRoadMode =>
              let point :=
                if boundaryClosed (persist env) && (2 <=? length (boundary (persist env)))%nat
                then
                  let segs := collectSegments (boundary (persist env)) true [] [] [] in
                  match snapToNearestSegment p segs (lineTol (settings env) * __avgUP env) with
                  | Some proj => proj
                  | None => p
                  end
                else p in
              '(roads, idx) ← addEntryPoint env point (publicRoads (persist env));
              Some (set_activePublicIdx idx (setPublicRoads roads env))
          | _ => Some (setCurrent (dedupPush (current env) p) env)
          end
      end
  end.

(** *** Hit tests *)

(** [for (let j = 0; j < poly.length; j++) if (distance(poly[j], p) <= tol)
    return j] *)
Definition vertexWithin (p : @Point num) (tol : num) (poly : list (@Point num))
  : option nat :=
  List.find (fun j => distance (at_ poly j) p <=? tol) (seq 0 (length poly)).

(** The loop over the polygons of one kind: the first polygon with a hit,
    and the hit; [i] is the index of the head of [polys]. *)
Fixpoint firstHit (hit : list (@Point num) -> option nat) (polys : list (list (@Point num)))
    (i : nat) : option (nat * nat) :=
  match polys with
  | [] => None
  | poly :: rest =>
      match hit poly with
      | Some j => Some (i, j)
      | None => firstHit hit rest (S i)
      end
  end.

Definition vertexSel (kind : Kind) (ij : nat * nat) : Selection :=
  {| sel_kind := kind; sel_index := ij.1; sel_vertexIndex := Some ij.2;
     sel_edgeIndex := None |}.

Definition edgeSel (kind : Kind) (ik : nat * nat) : Selection :=
  {| sel_kind := kind; sel_index := ik.1; sel_vertexIndex := None;
     sel_edgeIndex := Some ik.2 |}.

Definition hitTestVertex (env : Scene num) (p : @Point num) (tol : num) : option Selection :=
  match firstHit (vertexWithin p tol) (map lot_polygon (lots (persist env))) 0 with
  | Some ij => Some (vertexSel Klot ij)
  | None =>
      match firstHit (vertexWithin p tol) (map ir_polygon (internalRoads (persist env))) 0 with
      | Some ij => Some (vertexSel Kinternal ij)
      | None =>
          match (if boundaryClosed (persist env)
                 then vertexWithin p tol (boundary (persist env)) else None) with
          | Some j => Some (vertexSel Kboundary (0%nat, j))
          | None =>
              match firstHit (vertexWithin p tol)
                      (map pr_entry_points (publicRoads (persist env))) 0 with
              | Some rj => Some (vertexSel KpublicEP rj)
              | None => None
              end
          end
      end
  end.

(** The local [checkPoly] of [hitTestEdge]. *)
Definition checkPoly (p : @Point num) (tol : num) (poly : list (@Point num)) : option nat :=
  if (length poly <? 2)%nat then None
  else
    let n := length poly in
    List.find
      (fun k =>
         nsqrt (d2 (pointSegProjection p (at_ poly k) (at_ poly ((k + 1) mod n)%nat))) <=? tol)
      (seq 0 n).

Definition hitTestEdge (env : Scene num) (p : @Point num) (tol : num) : option Selection :=
  match firstHit (checkPoly p tol) (map lot_polygon (lots (persist env))) 0 with
  | Some ik => Some (edgeSel Klot ik)
  | None =>
      match firstHit (checkPoly p tol) (map ir_polygon (internalRoads (persist env))) 0 with
      | Some ik => Some (edgeSel Kinternal ik)
      | None =>
          match (if boundaryClosed (persist env)
                 then checkPoly p tol (boundary (persist env)) else None) with
          | Some k => Some (edgeSel Kboundary (0%nat, k))
          | None => None
          end
      end
  end.

(** *** Dragging *)

(** [getGeomSnapshot(sel)]; [None] is the TypeError of reading the polygon
    of an entity that is not there. *)
Definition getGeomSnapshot (env : Scene num) (sel : Selection) : option (list (@Point num)) :=
  match sel_kind sel with
  | Klot => l ← lots (persist env) !! sel_index sel; Some (copyPoint <$> lot_polygon l)
  | Kinternal =>
      r ← internalRoads (persist env) !! sel_index sel; Some (copyPoint <$> ir_polygon r)
  | Kboundary => Some (copyPoint <$> boundary (persist env))
  | KpublicEP =>
      r ← publicRoads (persist env) !! sel_index sel; Some (copyPoint <$> pr_entry_points r)
  end.

Definition startDrag (ed : Editor num) (sel : Selection) (handle : DragHandle)
    (p : @Point num) (shift : bool) : option (Editor num) :=
  let env := ed_scene ed in
  geom ← getGeomSnapshot env sel;
  let st := set_selection (Some sel) env in
  let st := pushHistory env st in
  Some (setDragging
          (Some {| d_handle := handle; d_kind := sel_kind sel; d_index := sel_index sel;
                   d_startMouse := p; d_startGeom := geom; d_shiftEdge := shift |})
          (with_scene (fun _ => st) ed)).

Definition onPointerDown (ed : Editor num) (e : PointerEvt num) : option (Editor num) :=
  let env := ed_scene ed in
  match mode env with
  | selectMode =>
      match raw0 e with
      | None => Some ed
      | Some p =>
          let tol := n6 * __avgUP env in
          match hitTestVertex env p tol with
          | Some vhit =>
              startDrag ed vhit (DragVertex (default 0%nat (sel_vertexIndex vhit))) p false
          | None =>
              match hitTestEdge env p tol with
              | Some ehit =>
                  startDrag ed ehit (DragEdge (default 0%nat (sel_edgeIndex ehit))) p
                    (shiftKey e)
              | None => Some (with_scene (set_selection None) ed)
              end
          end
      end
  | _ => Some ed
  end.

(** [arr[i] = x]: inside the array the element is replaced, at its end
    it is appended, and past its end the array is left with holes, which
    is [None] here. *)
Definition assignAt {A} (i : nat) (x : A) (arr : list A) : option (list A) :=
  if (i <? length arr)%nat then Some (<[i := x]> arr)
  else if (i =? length arr)%nat then Some (arr ++ [x])
  else None.

(** [u[index] = { ...u[index], polygon }] and the like.  Past the end of
    the lots the object assigned has a polygon and no [lot_id]; past the
    end of the roads it has no [road_id] and is no road, which is [None]
    here. *)
Definition applyGeom (kind : Kind) (index : nat) (newPolyOrEPs : list (@Point num))
    (st : Scene num) : option (Scene num) :=
  match kind with
  | Klot =>
      let l :=
        match lots (persist st) !! index with
        | Some l => withLotPolygon l newPolyOrEPs
        | None => {| lot_id := None; lot_polygon := newPolyOrEPs |}
        end in
      ls ← assignAt index l (lots (persist st));
      Some (setLots ls st)
  | Kinternal =>
      r ← internalRoads (persist st) !! index;
      Some (setInternalRoads
              (<[index := withRoadPolygon r newPolyOrEPs]> (internalRoads (persist st))) st)
  | Kboundary =>
      Some (setBoundaryClosed (3 <=? length newPolyOrEPs)%nat (setBoundary newPolyOrEPs st))
  | KpublicEP =>
      r ← publicRoads (persist st) !! index;
      Some (setPublicRoads
              (<[index := withEntryPoints r newPolyOrEPs]> (publicRoads (persist st))) st)
  end.

(** [Math.hypot(vx, vy) || 1] *)
Definition lengthOrOne (vx vy : num) : num :=
  let len := nhypot vx vy in if falsy len then n1 else len.

(** The displacement of the two ends of a dragged edge: the pointer's own,
    or with Shift its part along the left normal of the edge.  The unary
    minus of [-vy / len] is the product by -1, which is exact. *)
Definition edgeMove (shift : bool) (a0 b0 : @Point num) (dx dy : num) : @Point num :=
  if shift then
    let vx := b0.1 - a0.1 in
    let vy := b0.2 - a0.2 in
    let len := lengthOrOne vx vy in
    let nx := (nofZ (-1) * vy) / len in
    let ny := vx / len in
    let proj := dx * nx + dy * ny in
    (nx * proj, ny * proj)
  else (dx, dy).

Definition moveEdge (startPoly : list (@Point num)) (i i2 : nat) (mv : @Point num)
  : list (@Point num) :=
  imap (fun idx pt =>
          if (idx =? i)%nat then (pt.1 + mv.1, pt.2 + mv.2)
          else if (idx =? i2)%nat then (pt.1 + mv.1, pt.2 + mv.2)
          else pt)
       startPoly.

(** [onDragMove]; [None] is a TypeError (an edge index past the end) or
    an assignment that leaves an array with holes. *)
Definition onDragMove (ed : Editor num) (e : PointerEvt num) : option (Editor num) :=
  let env := ed_scene ed in
  match ed_dragging ed with
  | None => Some ed
  | Some d =>
      match raw0 e with
      | None => Some ed
      | Some p =>
          let dx := p.1 - (d_startMouse d).1 in
          let dy := p.2 - (d_startMouse d).2 in
          match d_handle d with
          | DragVertex vertexIndex =>
              let snapped := default p (computePreviewPoint env e) in
              let polyOrEP := copyPoint <$> d_startGeom d in
              polyOrEP ← assignAt vertexIndex snapped polyOrEP;
              st ← applyGeom (d_kind d) (d_index d) polyOrEP env;
              Some (with_scene (fun _ => st) ed)
          | DragEdge i =>
              match d_kind d with
              | KpublicEP => Some ed
              | _ =>
                  let startPoly := copyPoint <$> d_startGeom d in
                  let n := length startPoly in
                  if (n <? 2)%nat then Some ed
                  else
                    let i2 := ((i + 1) mod n)%nat in
                    a0 ← startPoly !! i;
                    b0 ← startPoly !! i2;
                    let mv := edgeMove (d_shiftEdge d) a0 b0 dx dy in
                    st ← applyGeom (d_kind d) (d_index d) (moveEdge startPoly i i2 mv) env;
                    Some (with_scene (fun _ => st) ed)
              end
          end
      end
  end.

(** [endDrag]: the drag ends, and the width of a selected internal road
    is estimated again when [autoInternalWidth] is on.  [None] is the
    assignment of a width to a road that is not there. *)
Definition endDrag (ed : Editor num) : option (Editor num) :=
  let env := ed_scene ed in
  let ed := setDragging None ed in
  match selection env with
  | Some sel =>
      match sel_kind sel with
      | Kinternal =>
          if autoInternalWidth (ed_auto ed) then
            let rs := internalRoads (persist env) in
            let poly := default [] (ir_polygon <$> rs !! sel_index sel) in
            let w := estimateRoadWidth poly in
            if nisFinite w && (w >? n0) then
              r ← rs !! sel_index sel;
              Some (with_scene
                      (setInternalRoads
                         (<[sel_index sel :=
                              {| ir_road_id := ir_road_id r; ir_polygon := ir_polygon r;
                                 ir_width := Some w |}]> rs))
                      ed)
            else Some ed
          else Some ed
      | _ => Some ed
      end
  | None => Some ed
  end.

Definition onPointerUp (ed : Editor num) : option (Editor num) :=
  match ed_dragging ed with
  | Some _ => endDrag ed
  | None => Some ed
  end.

(** *** Scaling *)

(** [Number(x) || 0] *)
Definition orZero (x : num) : num := if falsy x then n0 else x.

Definition getAnchor (panel : ScalePanel num) (env : Scene num) : @Point num :=
  match anchorType panel with
  | anchorOrigin => (n0, n0)
  | anchorCustom => (orZero (anchorX panel), orZero (anchorY panel))
  | anchorCentroid =>
      if (1 <=? length (boundary (persist env)))%nat
      then polygonCentroid (boundary (persist env))
      else
        let all :=
          boundary (persist env)
          ++ concat (map pr_entry_points (publicRoads (persist env)))
          ++ concat (map ir_polygon (internalRoads (persist env)))
          ++ concat (map lot_polygon (lots (persist env))) in
        match all with
        | [] => (n0, n0)
        | _ => meanOfPoints all
        end
  end.

Definition applyScaleFactor (panel : ScalePanel num) (env : Scene num) (s : num)
  : Scene num :=
  if negb (nisFinite s) || (s <=? n0) then env
  else
    let '(cx, cy) := getAnchor panel env in
    let tr := fun pt => transformPoint pt s cx cy in
    let st := setBoundary (map tr (boundary (persist env))) env in
    let st := setCurrent (map tr (current st)) st in
    let st :=
      setPublicRoads
        (map (fun r => withEntryPoints r (map tr (pr_entry_points r)))
             (publicRoads (persist st))) st in
    let st :=
      setInternalRoads
        (map (fun r => withRoadPolygon r (map tr (ir_polygon r)))
             (internalRoads (persist st))) st in
    setLots (map (fun l => withLotPolygon l (map tr (lot_polygon l))) (lots (persist st))) st.

(** *** View box *)

Definition zoomAt (ux uy factor : num) (vb : ViewBox num) : ViewBox num :=
  let w2 := vb_w vb / factor in
  let h2 := vb_h vb / factor in
  let ax := (ux - vb_x vb) / vb_w vb in
  let ay := (uy - vb_y vb) / vb_h vb in
  let x2 := ux - ax * w2 in
  let y2 := uy - ay * h2 in
  {| vb_x := x2; vb_y := y2; vb_w := w2; vb_h := h2 |}.

Definition zoomOutCenter (vb : ViewBox num) : ViewBox num :=
  let cx := vb_x vb + vb_w vb / n2 in
  let cy := vb_y vb + vb_h vb / n2 in
  let factor := nofZ 12 / nofZ 10 in
  let w2 := vb_w vb * factor in
  let h2 := vb_h vb * factor in
  {| vb_x := cx - w2 / n2; vb_y := cy - h2 / n2; vb_w := w2; vb_h := h2 |}.

End Drawing.

(** ** Reference definitions

    What the specification says, in its own words, to compare the code
    with. *)

(** Deleting an edge of a polygon: the vertex after the edge goes. *)
Definition collapseEdge {A} (edgeIndex : nat) (poly : list A) : list A :=
  delete ((edgeIndex + 1) mod length poly) poly.

Section FrontageTests.
Context {num : Type} {N : JSNumber num}.
Local Open Scope num_scope.

(** What the resolver tests, on any number type: the pair test of the two
    inner loops succeeds for some edge of the lot and some of the
    segments. *)
Definition HitsSegments (tol : num) (lotPoly : list (@Point num))
    (segs : list (@Segment num)) : Prop :=
  exists ab cd,
    ab ∈ edgesFromPolygon lotPoly true /\ cd ∈ segs /\ edgePairHit tol ab cd = true.

Definition HitsInternal (tol : num) (lotPoly : list (@Point num))
    (r : InternalRoad num) : Prop :=
  HitsSegments tol lotPoly (edgesFromPolygon (ir_polygon r) true).

(** The edges of a closed polygon: from each vertex to the next, and
    from the last back to the first; two points make one edge. *)
Definition polygonEdges (poly : list (@Point num)) : list (@Segment num) :=
  match poly with
  | [] | [_] => []
  | [p; q] => [(p, q)]
  | _ => map (fun i => (at_ poly i, at_ poly ((i + 1) mod length poly))) (seq 0 (length poly))
  end.

(** The walk along the ring from vertex [i] forward to vertex [j]: the
    [(j - i) mod n] consecutive ring edges that start at [i]. *)
Definition ringWalk (boundary : list (@Point num)) (i j : nat) : list (@Segment num) :=
  let n := length boundary in
  map (fun t => (at_ boundary ((i + t) mod n), at_ boundary ((i + t + 1) mod n)))
      (seq 0 ((j + n - i) mod n)).

(** The walk the resolver keeps, by the comparison it makes. *)
Definition chosenWalk (boundary : list (@Point num)) (iA iB : nat) : list (@Segment num) :=
  if len (ringWalk boundary iA iB) <=? len (ringWalk boundary iB iA)
  then ringWalk boundary iA iB
  else ringWalk boundary iB iA.

(** The test made on a public road with two entry points or more. *)
Definition HitsPublic (tol : num) (lotPoly boundary : list (@Point num))
    (pr : PublicRoad num) : Prop :=
  2 <= length (pr_entry_points pr)
  /\ exists iA iB,
       nearestBoundaryIndex (at_ (pr_entry_points pr) 0) boundary = Some iA
       /\ nearestBoundaryIndex (at_ (pr_entry_points pr) 1) boundary = Some iB
       /\ HitsSegments tol lotPoly (chosenWalk boundary iA iB).

(** The first entry of a list that satisfies [P] decides the result. *)
Definition FirstMatch {A} (P : A -> Prop) (id : A -> string) (l : list A)
    (res : option string) : Prop :=
  (res = None /\ Forall (fun x => ~ P x) l)
  \/ exists pre x post,
       l = pre ++ x :: post /\ Forall (fun y => ~ P y) pre /\ P x /\ res = Some (id x).

End FrontageTests.


Section ExportSpec.
Context {num : Type} {N : JSNumber num}.
Variable atan2 : num -> num -> num.

(** The vertices of a polygon, its closing duplicate stripped, sorted by
    angle about their centroid: what [normalizeCCW] orients. *)
Definition angularSort (poly : list (@Point num)) : list (@Point num) :=
  let open := stripClosingDuplicate poly in
  jsSort (cmpAngle atan2 (polygonCentroid open).1 (polygonCentroid open).2) open.

(** What the export does to a polygon of the scene. *)
Definition exportRing (poly : list (@Point num)) : list (@Point num) :=
  closedForExport (normalizeCCW atan2 poly).

(** The polygons of a scene: the boundary, the internal roads, the
    lots. *)
Definition ScenePolygon (env : Scene num) (poly : list (@Point num)) : Prop :=
  poly = boundary (persist env)
  \/ (exists r, r ∈ internalRoads (persist env) /\ poly = ir_polygon r)
  \/ (exists l, l ∈ lots (persist env) /\ poly = lot_polygon l).

(** The polygons of an exported document. *)
Definition SerializedPolygon (doc : ExportDoc num) (ring : list (@Point num)) : Prop :=
  ring = x_boundary doc
  \/ (exists r, r ∈ x_internal_roads doc /\ ring = xi_polygon r)
  \/ (exists l, l ∈ x_lots doc /\ ring = xl_polygon l).

End ExportSpec.

(** The shoelace sum of an open path in exact arithmetic: the sum of
    [x1 * y2 - x2 * y1] over its consecutive pairs of points. *)
Definition edgeCross (a b : @Point Q) : Q := (a.1 * b.2 - b.1 * a.2)%Q.

Fixpoint pathSum (l : list (@Point Q)) : Q :=
  match l with
  | a :: ((b :: _) as t) => (edgeCross a b + pathSum t)%Q
  | _ => 0%Q
  end.

Section HullSpec.
Context {num : Type} {N : JSNumber num}.

(** The monotone chain as a function on lists.  The stack is kept with its
    top first: [b] is the top, [a] the point below it. *)
Fixpoint popNonLeft (stack : list (@Point num)) (pt : @Point num) : list (@Point num) :=
  match stack with
  | b :: rest =>
      match rest with
      | a :: _ => if nleb (_cross a b pt) n0 then popNonLeft rest pt else stack
      | [] => stack
      end
  | [] => stack
  end.

Definition chainPush (stack : list (@Point num)) (pt : @Point num) : list (@Point num) :=
  pt :: popNonLeft stack pt.

(** One chain, from its first point to its last. *)
Definition halfHull (pts : list (@Point num)) : list (@Point num) :=
  rev (fold_left chainPush pts []).

(** Lower chain, then upper chain, each without its last point, which is
    the first point of the other. *)
Definition monotoneChain (sorted : list (@Point num)) : list (@Point num) :=
  removelast (halfHull sorted) ++ removelast (halfHull (rev sorted)).

(** Every three consecutive points of the chain make a left turn: their
    cross product is not [<= 0]. *)
Definition TurnsLeft (chain : list (@Point num)) : Prop :=
  forall pre a b c post,
    chain = pre ++ a :: b :: c :: post -> nleb (_cross a b c) n0 = false.

End HullSpec.

(** *** The hull property, in exact arithmetic *)

(** Twice the signed area of the triangle [o a b]: positive when [b] lies
    to the left of the line from [o] to [a]. *)
Definition cr (o a b : @Point Q) : Q :=
  ((a.1 - o.1) * (b.2 - o.2) - (a.2 - o.2) * (b.1 - o.1))%Q.

(** The order of the sort: by [x], then by [y]. *)
Definition lexLe (a b : @Point Q) : Prop :=
  (a.1 < b.1 \/ (a.1 == b.1 /\ a.2 <= b.2))%Q.

Definition samePoint (a b : @Point Q) : Prop := (a.1 == b.1 /\ a.2 == b.2)%Q.

(** The point reflection in the origin: it keeps every cross product and
    reverses the order. *)
Definition reflect (a : @Point Q) : @Point Q := (- a.1, - a.2)%Q.

(** The pairs of neighbours along a list, and round a ring. *)
Fixpoint consecutive {A} (l : list A) : list (A * A) :=
  match l with
  | a :: ((b :: _) as t) => (a, b) :: consecutive t
  | _ => []
  end.

Definition ringPairs {A} (h : list A) : list (A * A) := consecutive (h ++ take 1 h).

(** The state of one chain of the scan: [S] is the stack, top first, after
    the points [Q] have been pushed in the order [R]. *)
Record ChainInv (R : @Point Q -> @Point Q -> Prop) (Q S : list (@Point Q)) : Prop := {
  inv_empty : S = [] <-> Q = [];
  inv_sub : forall x, In x S -> In x Q;
  inv_top : forall top rest, S = top :: rest -> forall q, In q Q -> R q top;
  inv_top_last : forall top rest, S = top :: rest -> exists Q', Q = Q' ++ [top];
  inv_bot : forall rest bot, S = rest ++ [bot] -> forall q, In q Q -> R bot q;
  inv_bot_first : forall rest bot, S = rest ++ [bot] -> exists Q', Q = bot :: Q';
  inv_turn : forall pre c b a post, S = pre ++ c :: b :: a :: post -> (0 < cr a b c)%Q;
  inv_mono : forall b a, In (b, a) (consecutive S) -> R a b;
  inv_left : forall b a, In (b, a) (consecutive S) -> forall q, In q Q -> (0 <= cr a b q)%Q;
  inv_same : forall b a, In (b, a) (consecutive S) -> samePoint a b ->
             forall q, In q Q -> samePoint q a
}.

(** *** Frontage in the plane

    What the specification says, over the rationals: points of segments,
    their distance, the length of a walk, the nearest vertex. *)

Section FrontageSpec.
Context {m : Exact.MathLib}.
Local Open Scope Q_scope.

(** All that is asked of the library's square root. *)
Definition SqrtMonotone : Prop :=
  forall x y : Q, x <= y -> Exact.sqrt x <= Exact.sqrt y.

(** [p] is a point of the segment. *)
Definition OnSeg (ab : @Segment Q) (p : @Point Q) : Prop :=
  exists s, 0 <= s <= 1
            /\ p.1 == ab.1.1 + s * (ab.2.1 - ab.1.1)
            /\ p.2 == ab.1.2 + s * (ab.2.2 - ab.1.2).

Definition pointDistance (p q : @Point Q) : Q :=
  Exact.sqrt ((p.1 - q.1) * (p.1 - q.1) + (p.2 - q.2) * (p.2 - q.2)).

(** Some point of one segment lies within [tol] of some point of the
    other. *)
Definition Within (tol : Q) (ab cd : @Segment Q) : Prop :=
  exists p q, OnSeg ab p /\ OnSeg cd q /\ pointDistance p q <= tol.

(** The segments have a point in common. *)
Definition Cross (ab cd : @Segment Q) : Prop :=
  exists x, OnSeg ab x /\ OnSeg cd x.

(** The test as it is made: the edges pass the orientation test of
    [segmentsIntersectOrTouch] or, the tolerance being positive, lie within
    it of each other. *)
Definition EdgesMeet (tol : Q) (ab cd : @Segment Q) : Prop :=
  segmentsIntersectOrTouch ab.1 ab.2 cd.1 cd.2 = true
  \/ (0 < tol /\ Within tol ab cd).

(** The segment is longer than 1e-6. *)
Definition Long (ab : @Segment Q) : Prop :=
  1 # 1000000000000
  < (ab.2.1 - ab.1.1) * (ab.2.1 - ab.1.1) + (ab.2.2 - ab.1.2) * (ab.2.2 - ab.1.2).

(** A cross product on which the orientation test gives its sign: zero,
    or 1e-9 and more in absolute value. *)
Definition Clear (v : Q) : Prop := v == 0 \/ 1 # 1000000000 <= Qabs v.

(** A pair of edges on which the resolver can be relied on: both longer
    than 1e-6, and the four cross products of an end point of one with the
    other clear. *)
Definition Regular (ab cd : @Segment Q) : Prop :=
  Long ab /\ Long cd
  /\ Clear (cr ab.1 ab.2 cd.1) /\ Clear (cr ab.1 ab.2 cd.2)
  /\ Clear (cr cd.1 cd.2 ab.1) /\ Clear (cr cd.1 cd.2 ab.2).

(** The two edges intersect or, the tolerance being positive, lie within
    it of each other. *)
Definition Meets (tol : Q) (ab cd : @Segment Q) : Prop :=
  Cross ab cd \/ (0 < tol /\ Within tol ab cd).

(** Some edge of the lot meets some of the segments. *)
Definition FrontsSegments (tol : Q) (lotPoly : list (@Point Q))
    (segs : list (@Segment Q)) : Prop :=
  exists ab cd,
    ab ∈ polygonEdges lotPoly /\ cd ∈ segs /\ EdgesMeet tol ab cd.

(** Some edge of the lot and some of the segments make a regular pair
    and intersect or lie within the tolerance of each other. *)
Definition FrontsRegularly (tol : Q) (lotPoly : list (@Point Q))
    (segs : list (@Segment Q)) : Prop :=
  exists ab cd,
    ab ∈ polygonEdges lotPoly /\ cd ∈ segs
    /\ Meets tol ab cd /\ Regular ab cd.

Definition FrontsInternal (tol : Q) (lotPoly : list (@Point Q)) (r : InternalRoad Q) : Prop :=
  FrontsSegments tol lotPoly (polygonEdges (ir_polygon r)).

Definition FrontsInternalRegularly (tol : Q) (lotPoly : list (@Point Q))
    (r : InternalRoad Q) : Prop :=
  FrontsRegularly tol lotPoly (polygonEdges (ir_polygon r)).

(** The squared distance between the points at parameters [s] and [t] of
    the lines through [a], [b] and through [c], [d]. *)
Definition paramDist2 (a b c d : @Point Q) (s t : Q) : Q :=
  (a.1 + s * (b.1 - a.1) - (c.1 + t * (d.1 - c.1)))
  * (a.1 + s * (b.1 - a.1) - (c.1 + t * (d.1 - c.1)))
  + (a.2 + s * (b.2 - a.2) - (c.2 + t * (d.2 - c.2)))
    * (a.2 + s * (b.2 - a.2) - (c.2 + t * (d.2 - c.2))).

(** The length of a walk: the sum of the lengths of its segments. *)
Fixpoint walkLength (segs : list (@Segment Q)) : Q :=
  match segs with
  | [] => 0
  | seg :: rest => Exact.hypot (seg.2.1 - seg.1.1) (seg.2.2 - seg.1.2) + walkLength rest
  end.

(** The public-frontage arc: the shorter of the two walks between the two
    vertices, the walk from the first to the second on equal lengths. *)
Definition publicArc (boundary : list (@Point Q)) (iA iB : nat) : list (@Segment Q) :=
  if Qle_bool (walkLength (ringWalk boundary iA iB)) (walkLength (ringWalk boundary iB iA))
  then ringWalk boundary iA iB
  else ringWalk boundary iB iA.

(** Vertex [i] is the vertex of the boundary nearest to [pt], the first of
    them when several are as near; its distance is below the stand-in for
    [Infinity]. *)
Definition NearestVertex (boundary : list (@Point Q)) (pt : @Point Q) (i : nat) : Prop :=
  let dist v := Exact.hypot (pt.1 - v.1) (pt.2 - v.2) in
  (i < length boundary)%nat
  /\ dist (at_ boundary i) < Exact.infinity
  /\ (forall j, (j < length boundary)%nat -> dist (at_ boundary i) <= dist (at_ boundary j))
  /\ (forall j, (j < i)%nat -> dist (at_ boundary i) < dist (at_ boundary j)).

(** A lot fronts a public road with two entry points or more when it meets
    the arc between the boundary vertices nearest to the first two;
    [Fronts] is [FrontsSegments] or [FrontsRegularly]. *)
Definition FrontsPublic
    (Fronts : Q -> list (@Point Q) -> list (@Segment Q) -> Prop)
    (tol : Q) (lotPoly boundary : list (@Point Q)) (pr : PublicRoad Q) : Prop :=
  (2 <= length (pr_entry_points pr))%nat
  /\ exists iA iB,
       NearestVertex boundary (at_ (pr_entry_points pr) 0) iA
       /\ NearestVertex boundary (at_ (pr_entry_points pr) 1) iB
       /\ Fronts tol lotPoly (publicArc boundary iA iB).

End FrontageSpec.
(** What a selection stands for: the points of the entity of a kind at an
    index, when there is one. *)
Definition entityPoints {num : Type} (env : Scene num) (kind : Kind) (index : nat)
  : option (list (@Point num)) :=
  match kind with
  | Klot => lot_polygon <$> lots (persist env) !! index
  | Kinternal => ir_polygon <$> internalRoads (persist env) !! index
  | Kboundary => Some (boundary (persist env))
  | KpublicEP => pr_entry_points <$> publicRoads (persist env) !! index
  end.

(** A gesture: the pointer goes down, moves any number of times and goes
    up.  [None] as soon as one of the handlers throws. *)
Definition dragGesture {num : Type} {N : JSNumber num}
    (estimateRoadWidth : list (@Point num) -> num) (ed : Editor num)
    (down : PointerEvt num) (moves : list (PointerEvt num)) : option (Editor num) :=
  ed ← onPointerDown ed down;
  ed ← foldl (fun acc e => ed ← acc; onDragMove ed e) (Some ed) moves;
  onPointerUp estimateRoadWidth ed.

(** A drag in progress that fits the scene: the entity dragged is there and
    is the one selected, and the handle is a vertex or an edge of the
    polygon recorded when the drag began. *)
Definition DragInRange {num : Type} (st : Scene num) (d : Dragging num) : Prop :=
  is_Some (entityPoints st (d_kind d) (d_index d))
  /\ match d_handle d with
     | DragVertex v => v < length (d_startGeom d)
     | DragEdge i => i < length (d_startGeom d)
     end
  /\ exists sel,
       selection st = Some sel /\ sel_kind sel = d_kind d /\ sel_index sel = d_index d.


(** ** Example scenes

    Scenes on IEEE doubles, with the editor's default settings (grid step 1,
    strict grid, tolerances of 4, 4 and 8 pixels at 0.125 units per
    pixel). *)

Module Examples.

Local Open Scope float_scope.

Definition defaults : Settings float :=
  {| landId := "L001"; snapTol := 4; lineTol := 4; gridSnap := true; gridStep := 1;
     gridTol := 8; gridStrict := true; gridOrigin := (0, 0);
     unitsPerPx := (0.125, 0.125); defaultPublicWidth := 12; internalWidthDefault := 6 |}.

Definition square10 : list (@Point float) := [(0, 0); (10, 0); (10, 10); (0, 10)].

Definition boundary20 : list (@Point float) := [(0, 0); (20, 0); (20, 10); (0, 10)].

Definition roadR003 : PublicRoad float :=
  {| pr_road_id := "R003"; pr_width := Some 12; pr_entry_points := [(0, 0); (20, 0)] |}.

(** The two frontage cases of the component's own smoke tests. *)
Definition lotRight : list (@Point float) := [(11, 1); (19, 1); (19, 9); (11, 9)].

Definition roadR001 : InternalRoad float :=
  {| ir_road_id := "R001"; ir_polygon := [(9, 3); (11, 3); (11, 7); (9, 7)];
     ir_width := Some 6 |}.

Definition lotBottom : list (@Point float) := [(2, -1); (6, -1); (6, 1); (2, 1)].

Definition ctxPublic : FrontCtx float :=
  {| ctx_boundary := boundary20; ctx_boundaryClosed := true;
     ctx_publicRoads := [roadR003]; ctx_internalRoads := [] |}.

(** [lotBottom] lies on the public arc and touches the second internal
    road; the first internal road is far away. *)
Definition roadFar : InternalRoad float :=
  {| ir_road_id := "R002"; ir_polygon := [(30, 30); (31, 30); (31, 31); (30, 31)];
     ir_width := Some 6 |}.

Definition roadBeside : InternalRoad float :=
  {| ir_road_id := "R004"; ir_polygon := [(6, -1); (8, -1); (8, 1); (6, 1)];
     ir_width := Some 6 |}.

Definition ctxBoth : FrontCtx float :=
  {| ctx_boundary := boundary20; ctx_boundaryClosed := true;
     ctx_publicRoads := [roadR003]; ctx_internalRoads := [roadFar; roadBeside] |}.

(** A scene with one lot, the edge from its vertex 3 back to vertex 0
    selected. *)
Definition lotA : Lot float := {| lot_id := Some "L001-01"; lot_polygon := lotRight |}.

Definition selEdge3 : Selection :=
  {| sel_kind := Klot; sel_index := 0%nat; sel_vertexIndex := None; sel_edgeIndex := Some 3%nat |}.

Definition sceneA : Scene float :=
  {| persist :=
       {| boundary := boundary20; boundaryClosed := true; publicRoads := [roadR003];
          internalRoads := [roadR001]; lots := [lotA] |};
     history := []; future := []; mode := selectMode; current := [];
     activePublicIdx := None; selection := Some selEdge3; settings := defaults |}.

(** The pointer halfway between a grid point and the left boundary edge. *)
Definition sceneTie : Scene float :=
  {| persist :=
       {| boundary := square10; boundaryClosed := true; publicRoads := [];
          internalRoads := []; lots := [] |};
     history := []; future := []; mode := lotMode; current := [];
     activePublicIdx := None; selection := None; settings := defaults |}.

Definition evTie : PointerEvt float := {| raw0 := Some (0.5, 5); shiftKey := false |}.

(** A lot being drawn from (0, 0) with Shift held, below the edge y = 0.25
    of a finished lot. *)
Definition sceneShift : Scene float :=
  {| persist :=
       {| boundary := []; boundaryClosed := false; publicRoads := []; internalRoads := [];
          lots := [ {| lot_id := Some "L001-01";
                       lot_polygon := [(0, 0.25); (10, 0.25); (10, 5); (0, 5)] |} ] |};
     history := []; future := []; mode := lotMode; current := [(0, 0)];
     activePublicIdx := None; selection := None; settings := defaults |}.

Definition evShift : PointerEvt float := {| raw0 := Some (3.5, -1); shiftKey := true |}.

(** Three collinear vertices. *)
Definition collinear : list (@Point float) := [(0, 0); (1, 0); (2, 0)].

(** [Math.atan2(y, x)] for [y = +0], which is all the export of
    [collinear] asks for: pi left of the origin, 0 elsewhere. *)
Definition atan2_y0 (y x : float) : float :=
  if PrimFloat.ltb x 0 then 0x1.921fb54442d18p+1 else 0.

(** [Math.atan2(y, x)] on the two axes: 0 and pi on the x axis, pi/2
    and -pi/2 on the y axis. *)
Definition atan2_axes (y x : float) : float :=
  if PrimFloat.eqb y 0 then (if PrimFloat.ltb x 0 then 0x1.921fb54442d18p+1 else 0)
  else if PrimFloat.ltb 0 y then 0x1.921fb54442d18p+0 else -0x1.921fb54442d18p+0.

(** A sliver at the magnitude of projected coordinates, 16 units long and
    2^-16 wide, counter-clockwise from its lowest vertex. *)
Definition sliver : list (@Point float) :=
  [(500000, 4000000 - 0x1p-17); (500008, 4000000); (500000, 4000000 + 0x1p-17);
   (499992, 4000000)].

Definition sceneSliver : Scene float :=
  {| persist :=
       {| boundary := sliver; boundaryClosed := true; publicRoads := [];
          internalRoads := []; lots := [] |};
     history := []; future := []; mode := selectMode; current := [];
     activePublicIdx := None; selection := None; settings := defaults |}.

(** Two public roads with the same entry points. *)
Definition roadR005 : PublicRoad float :=
  {| pr_road_id := "R005"; pr_width := Some 12; pr_entry_points := [(0, 0); (20, 0)] |}.

Definition ctxTwoRoads : FrontCtx float :=
  {| ctx_boundary := boundary20; ctx_boundaryClosed := true;
     ctx_publicRoads := [roadR003; roadR005]; ctx_internalRoads := [] |}.

Definition ctxSecondRoad : FrontCtx float :=
  {| ctx_boundary := boundary20; ctx_boundaryClosed := true;
     ctx_publicRoads := [roadR005]; ctx_internalRoads := [] |}.

(** [lotBottom] lies on the public arc, 0.3 away from the second
    internal road; the first internal road is far away. *)
Definition roadNear : InternalRoad float :=
  {| ir_road_id := "R004"; ir_polygon := [(6.3, -1); (8, -1); (8, 1); (6.3, 1)];
     ir_width := Some 6 |}.

Definition ctxNear : FrontCtx float :=
  {| ctx_boundary := boundary20; ctx_boundaryClosed := true;
     ctx_publicRoads := [roadR003]; ctx_internalRoads := [roadFar; roadNear] |}.

(** A lot 0.3 inside the left edge of the boundary; the entry points of
    the first public road are the ends of the right edge, those of the
    second the ends of the left edge, which is the shorter of the two walks
    between them. *)
Definition lotLeft : list (@Point float) := [(0.3, 2); (3, 2); (3, 6); (0.3, 6)].

Definition roadEast : PublicRoad float :=
  {| pr_road_id := "R005"; pr_width := Some 12; pr_entry_points := [(20, 0); (20, 10)] |}.

Definition roadWest : PublicRoad float :=
  {| pr_road_id := "R007"; pr_width := Some 12; pr_entry_points := [(0, 0); (0, 10)] |}.

Definition ctxWest : FrontCtx float :=
  {| ctx_boundary := boundary20; ctx_boundaryClosed := true;
     ctx_publicRoads := [roadEast; roadWest]; ctx_internalRoads := [] |}.

(** A road whose edge from (0, 0) to (2^-16, 0) is crossed by two edges
    of a lot 2^-17 wide. *)
Definition roadTiny : InternalRoad float :=
  {| ir_road_id := "R001"; ir_polygon := [(0, 0); (0x1p-16, 0); (0x1p-17, -0x1p-8)];
     ir_width := Some 6 |}.

Definition lotTiny : list (@Point float) :=
  [(0x1p-17, -0x1p-16); (0x1.8p-17, 0x1p-16); (0x1p-18, 0x1p-16)].

Definition ctxTiny : FrontCtx float :=
  {| ctx_boundary := []; ctx_boundaryClosed := false;
     ctx_publicRoads := []; ctx_internalRoads := [roadTiny] |}.

(** A scene whose boundary is the three collinear vertices. *)
Definition sceneCollinear : Scene float :=
  {| persist :=
       {| boundary := collinear; boundaryClosed := true; publicRoads := [];
          internalRoads := []; lots := [] |};
     history := []; future := []; mode := selectMode; current := [];
     activePublicIdx := None; selection := None; settings := defaults |}.

(** For [Exact]: a Math library with square roots to nine decimals and
    10^30 for Infinity, and in the place of [Math.atan2] a function with
    the same order on the directions of the plane (the position on the unit
    diamond, from -2 just below the negative x axis round to 2 on it). *)
Definition sqrtQ (x : Q) : Q :=
  (inject_Z (Z.sqrt (Qnum x * 10 ^ 18 / Zpos (Qden x))) / inject_Z (10 ^ 9))%Q.

Definition sampleLib : Exact.MathLib :=
  {| Exact.sqrt := sqrtQ;
     Exact.hypot := fun x y => sqrtQ (x * x + y * y)%Q;
     Exact.infinity := inject_Z (10 ^ 30) |}.

Definition diamondAngle (y x : Q) : Q :=
  (if Qle_bool 0 y
   then (if Qle_bool 0 x
         then (if Qeq_bool (x + y) 0 then 0 else y / (x + y))
         else 1 + (- x) / (- x + y))
   else (if Qle_bool 0 x
         then - ((- y) / (x - y))
         else - (1 + (- x) / (- x - y))))%Q.

Definition triangleQ : list (@Point Q) := [(0, 0); (4, 0); (0, 3)]%Q.

Definition sceneQ : Scene Q :=
  {| persist :=
       {| boundary := triangleQ; boundaryClosed := true; publicRoads := [];
          internalRoads := []; lots := [] |};
     history := []; future := []; mode := selectMode; current := [];
     activePublicIdx := None; selection := None;
     settings :=
       {| landId := "L001"; snapTol := 4; lineTol := 4; gridSnap := true; gridStep := 1;
          gridTol := 8; gridStrict := true; gridOrigin := (0, 0);
          unitsPerPx := (1 # 8, 1 # 8); defaultPublicWidth := 12;
          internalWidthDefault := 6 |}%Q |}.

(** The editor on [sceneA], no drag in progress, auto-scale off. *)
Definition autoOff : AutoOptions float :=
  {| autoScaleNew := false; autoTargetArea := 200; autoApplyLot := false;
     autoApplyBoundary := false; autoApplyInternalRoad := false;
     autoInternalWidth := false |}.

Definition editorA : Editor float :=
  {| ed_scene := sceneA; ed_hover := None; ed_dragging := None; ed_auto := autoOff |}.

(** The pointer on vertex 0 of the lot, then dragged to (12, 2). *)
Definition evDown : PointerEvt float := {| raw0 := Some (11, 1); shiftKey := false |}.

Definition evMove : PointerEvt float := {| raw0 := Some (12, 2); shiftKey := false |}.

(** Vertex 1 of the lot of [sceneA] selected. *)
Definition selVertex1 : Selection :=
  {| sel_kind := Klot; sel_index := 0%nat; sel_vertexIndex := Some 1%nat;
     sel_edgeIndex := None |}.

Definition sceneVertex : Scene float :=
  {| persist := persist sceneA; history := []; future := []; mode := selectMode;
     current := []; activePublicIdx := None; selection := Some selVertex1;
     settings := defaults |}.

(** [sceneA] after its lot was deleted with one snapshot pushed. *)
Definition sceneAfterEdit : Scene float :=
  {| persist :=
       {| boundary := boundary20; boundaryClosed := true; publicRoads := [roadR003];
          internalRoads := [roadR001]; lots := [] |};
     history := [persist sceneA]; future := []; mode := selectMode; current := [];
     activePublicIdx := None; selection := None; settings := defaults |}.

(** [sceneA] in public-road mode with its road active, and a click on
    the bottom edge of the boundary. *)
Definition scenePublic : Scene float :=
  {| persist := persist sceneA; history := []; future := []; mode := publicRoadMode;
     current := []; activePublicIdx := Some 0%nat; selection := None;
     settings := defaults |}.

Definition evEntry : PointerEvt float := {| raw0 := Some (10, 0); shiftKey := false |}.

(** [ctxNear] and [ctxWest] with their lots over the rationals. *)
Definition lotBottomQ : list (@Point Q) := [(2, -1); (6, -1); (6, 1); (2, 1)]%Q.

Definition roadFarQ : InternalRoad Q :=
  {| ir_road_id := "R002"; ir_polygon := [(30, 30); (31, 30); (31, 31); (30, 31)]%Q;
     ir_width := Some 6%Q |}.

Definition roadNearQ : InternalRoad Q :=
  {| ir_road_id := "R004";
     ir_polygon := [(63 # 10, -1); (8, -1); (8, 1); (63 # 10, 1)]%Q;
     ir_width := Some 6%Q |}.

Definition boundary20Q : list (@Point Q) := [(0, 0); (20, 0); (20, 10); (0, 10)]%Q.

Definition roadR003Q : PublicRoad Q :=
  {| pr_road_id := "R003"; pr_width := Some 12%Q;
     pr_entry_points := [(0, 0); (20, 0)]%Q |}.

Definition ctxNearQ : FrontCtx Q :=
  {| ctx_boundary := boundary20Q; ctx_boundaryClosed := true;
     ctx_publicRoads := [roadR003Q]; ctx_internalRoads := [roadFarQ; roadNearQ] |}.

Definition lotLeftQ : list (@Point Q) := [(3 # 10, 2); (3, 2); (3, 6); (3 # 10, 6)]%Q.

Definition roadEastQ : PublicRoad Q :=
  {| pr_road_id := "R005"; pr_width := Some 12%Q;
     pr_entry_points := [(20, 0); (20, 10)]%Q |}.

Definition roadWestQ : PublicRoad Q :=
  {| pr_road_id := "R007"; pr_width := Some 12%Q;
     pr_entry_points := [(0, 0); (0, 10)]%Q |}.

Definition ctxWestQ : FrontCtx Q :=
  {| ctx_boundary := boundary20Q; ctx_boundaryClosed := true;
     ctx_publicRoads := [roadEastQ; roadWestQ]; ctx_internalRoads := [] |}.

(** [roadTiny], [lotTiny] and [ctxTiny] over the rationals. *)
Definition roadTinyQ : InternalRoad Q :=
  {| ir_road_id := "R001";
     ir_polygon := [(0, 0); (1 # 65536, 0); (1 # 131072, - (1 # 256))]%Q;
     ir_width := Some 6%Q |}.

Definition lotTinyQ : list (@Point Q) :=
  [(1 # 131072, - (1 # 65536)); (3 # 262144, 1 # 65536); (1 # 262144, 1 # 65536)]%Q.

Definition ctxTinyQ : FrontCtx Q :=
  {| ctx_boundary := []; ctx_boundaryClosed := false;
     ctx_publicRoads := []; ctx_internalRoads := [roadTinyQ] |}.

Definition viewQ : ViewBox Q := {| vb_x := 0; vb_y := 0; vb_w := 125; vb_h := 80 |}%Q.

End Examples.

(** * Properties *)

(** ** Lists as arrays *)

Lemma dropLast_snoc {A} (l : list A) (x : A) : dropLast (l ++ [x]) = l.
Proof.
  unfold dropLast. rewrite length_app. simpl.
  replace (length l + 1 - 1) with (length l) by lia.
  rewrite take_app_length. reflexivity.
Qed.

Lemma filterOutIndex_from {A} (index k : nat) (u : list A) :
  map snd (List.filter (fun ix : nat * A => negb (ix.1 =? index))
             (imap (fun i x => (k + i, x)) u))
  = match decide (k <= index) with
    | left _ => delete (index - k) u
    | right _ => u
    end.
Proof.
  revert k. induction u as [|x u IH]; intros k.
  - simpl. destruct (decide (k <= index)); reflexivity.
  - rewrite imap_cons.
    rewrite (imap_ext _ (fun i y => (S k + i, y))) by (intros; simpl; f_equal; lia).
    cbn [List.filter fst]. replace (k + 0) with k by lia.
    destruct (Nat.eqb_spec k index) as [->|Hne]; cbn [negb map snd]; rewrite IH.
    + replace (index - index) with 0 by lia.
      destruct (decide (index <= index)); [|lia].
      destruct (decide (S index <= index)); [lia|]. reflexivity.
    + destruct (decide (k <= index)), (decide (S k <= index)); try lia.
      * replace (index - k) with (S (index - S k)) by lia. reflexivity.
      * reflexivity.
Qed.

(** Filtering out one index is deleting it. *)
Lemma filterOutIndex_delete {A} (index : nat) (u : list A) :
  filterOutIndex index u = delete index u.
Proof.
  unfold filterOutIndex.
  pose proof (filterOutIndex_from index 0 u) as H.
  destruct (decide (0 <= index)); [|lia].
  replace (index - 0) with index in H by lia.
  exact H.
Qed.

(** ** History *)

Section HistoryProperties.
Context {num : Type} {N : JSNumber num}.

Lemma restoreSnapshot_persist (s : Snapshot num) (st : Scene num) :
  persist (restoreSnapshot s st) = s.
Proof. destruct s. reflexivity. Qed.

Lemma restoreSnapshot_history (s : Snapshot num) (st : Scene num) :
  history (restoreSnapshot s st) = history st.
Proof. reflexivity. Qed.

Lemma restoreSnapshot_future (s : Snapshot num) (st : Scene num) :
  future (restoreSnapshot s st) = future st.
Proof. reflexivity. Qed.

Lemma pushHistory_spec (env st : Scene num) :
  history (pushHistory env st) = history st ++ [makeSnapshot env]
  /\ future (pushHistory env st) = []
  /\ persist (pushHistory env st) = persist st.
Proof. repeat split. Qed.

Lemma undoHistory_spec (env st : Scene num) (h : list (Snapshot num)) (top : Snapshot num) :
  history st = h ++ [top] ->
  history (undoHistory env st) = h
  /\ future (undoHistory env st) = makeSnapshot env :: future st
  /\ persist (undoHistory env st) = top.
Proof.
  intros Hh. unfold undoHistory. rewrite Hh, last_snoc.
  cbn [set_history history future persist].
  rewrite restoreSnapshot_history, restoreSnapshot_future, restoreSnapshot_persist.
  cbn [set_future history future]. rewrite Hh, dropLast_snoc. auto.
Qed.

Lemma undoHistory_empty (env st : Scene num) :
  history st = [] -> undoHistory env st = st.
Proof. intros Hh. unfold undoHistory. rewrite Hh. reflexivity. Qed.

(** C5.  [pushHistory] appends the snapshot of the state its handler was
    created in and empties the redo stack; [undoHistory] pops the top of the
    undo stack, puts the snapshot of the current state in front of the redo
    stack and restores what it popped.  So when an event called
    [pushHistory] and then changed the scene into [s1], one undo brings the
    five persistent cells back to the snapshot taken, which is the state
    before the event whenever that state survives the JSON round trip of
    [deepCopy] unchanged. *)
Theorem pushHistory_then_undo_restores (env s1 : Scene num) :
  makeSnapshot env = persist env ->
  history s1 = history (pushHistory env env) ->
  (forall st : Scene num,
     history (pushHistory env st) = history st ++ [makeSnapshot env]
     /\ future (pushHistory env st) = [])
  /\ (forall (st : Scene num) h top,
        history st = h ++ [top] ->
        history (undoHistory s1 st) = h
        /\ future (undoHistory s1 st) = makeSnapshot s1 :: future st
        /\ persist (undoHistory s1 st) = top)
  /\ persist (undoHistory s1 s1) = persist env
  /\ history (undoHistory s1 s1) = history env
  /\ future (undoHistory s1 s1) = makeSnapshot s1 :: future s1.
Proof.
  intros Hstable Hh.
  split; [|split].
  - intros st. destruct (pushHistory_spec env st) as (? & ? & _). auto.
  - intros st h top Hst. apply undoHistory_spec. exact Hst.
  - destruct (pushHistory_spec env env) as (Hp & _ & _). rewrite Hp in Hh.
    destruct (undoHistory_spec s1 s1 _ _ Hh) as (H1 & H2 & H3).
    rewrite H1, H2, H3, Hstable. auto.
Qed.

End HistoryProperties.

(** ** Deletion *)

Section DeletionProperties.
Context {num : Type} {N : JSNumber num}.

Lemma collapseEdge_length {A} (edgeIndex : nat) (poly : list A) :
  poly <> [] -> length (collapseEdge edgeIndex poly) = length poly - 1.
Proof.
  intros Hne. unfold collapseEdge.
  assert (length poly <> 0) by (destruct poly; simpl; congruence).
  assert ((edgeIndex + 1) mod length poly < length poly)
    by (apply Nat.mod_upper_bound; assumption).
  apply length_delete. apply lookup_lt_is_Some_2. assumption.
Qed.

Lemma deleteEdgeLots_spec (index k : nat) (ls : list (Lot num)) (l : Lot num) :
  ls !! index = Some l ->
  3 <= length (lot_polygon l) ->
  deleteEdgeLots index k ls
  = Some (if (3 <? length (lot_polygon l))%nat
          then <[index := withLotPolygon l (collapseEdge k (lot_polygon l))]> ls
          else delete index ls).
Proof.
  intros Hl Hn. unfold deleteEdgeLots. rewrite Hl. cbn [mbind option_bind].
  destruct (Nat.ltb_spec (length (lot_polygon l)) 3) as [|_]; [lia|].
  unfold splice1. fold (collapseEdge k (lot_polygon l)).
  rewrite collapseEdge_length by (destruct (lot_polygon l); simpl in *; [lia|congruence]).
  destruct (Nat.ltb_spec (length (lot_polygon l) - 1) 3),
           (Nat.ltb_spec 3 (length (lot_polygon l))); try lia.
  - rewrite filterOutIndex_delete. reflexivity.
  - reflexivity.
Qed.

Lemma deleteEdgeRoads_spec (index k : nat) (rs : list (InternalRoad num))
    (r : InternalRoad num) :
  rs !! index = Some r ->
  3 <= length (ir_polygon r) ->
  deleteEdgeRoads index k rs
  = Some (if (3 <? length (ir_polygon r))%nat
          then <[index := withRoadPolygon r (collapseEdge k (ir_polygon r))]> rs
          else delete index rs).
Proof.
  intros Hr Hn. unfold deleteEdgeRoads. rewrite Hr. cbn [mbind option_bind].
  destruct (Nat.ltb_spec (length (ir_polygon r)) 3) as [|_]; [lia|].
  unfold splice1. fold (collapseEdge k (ir_polygon r)).
  rewrite collapseEdge_length by (destruct (ir_polygon r); simpl in *; [lia|congruence]).
  destruct (Nat.ltb_spec (length (ir_polygon r) - 1) 3),
           (Nat.ltb_spec 3 (length (ir_polygon r))); try lia.
  - rewrite filterOutIndex_delete. reflexivity.
  - reflexivity.
Qed.


(** Deleting an edge through [onDeleteSelection] pushes the same snapshot
    twice. *)
Lemma onDeleteSelection_edge_history (env st : Scene num) (sel : Selection) (k : nat) :
  selection env = Some sel ->
  sel_edgeIndex sel = Some k ->
  onDeleteSelection env = Some st ->
  history st = history env ++ [makeSnapshot env; makeSnapshot env].
Proof.
  intros Hsel Hk. unfold onDeleteSelection. rewrite Hsel, Hk.
  unfold deleteEdge.
  assert (Hh : history (pushHistory env (pushHistory env env))
               = history env ++ [makeSnapshot env; makeSnapshot env]).
  { cbn. rewrite <- app_assoc. reflexivity. }
  destruct (sel_kind sel).
  - destruct (length (boundary (persist env)) <? 3)%nat;
      [|destruct (length (splice1 _ _) <? 3)%nat];
      cbn [mbind option_bind]; intros [= <-]; exact Hh.
  - destruct (deleteEdgeRoads _ _ _); cbn [mbind option_bind]; [|discriminate].
    intros [= <-]. exact Hh.
  - destruct (deleteEdgeLots _ _ _); cbn [mbind option_bind]; [|discriminate].
    intros [= <-]. exact Hh.
  - cbn [mbind option_bind]. intros [= <-]. exact Hh.
Qed.

(** C10, amended.  A selected edge deleted through [onDeleteSelection]
    leaves two copies of the snapshot taken before the deletion on the undo
    stack.  The first undo already restores that snapshot and leaves the
    second copy on the stack; a second undo restores the same snapshot
    again. *)
Theorem onDeleteSelection_edge_pushes_twice (env st : Scene num) (sel : Selection)
    (k : nat) :
  selection env = Some sel ->
  sel_edgeIndex sel = Some k ->
  onDeleteSelection env = Some st ->
  let st1 := undoHistory st st in
  let st2 := undoHistory st1 st1 in
  history st = history env ++ [makeSnapshot env; makeSnapshot env]
  /\ persist st1 = makeSnapshot env
  /\ history st1 = history env ++ [makeSnapshot env]
  /\ persist st2 = makeSnapshot env
  /\ history st2 = history env.
Proof.
  intros Hsel Hk Hdel st1 st2.
  pose proof (onDeleteSelection_edge_history env st sel k Hsel Hk Hdel) as Hh.
  assert (Hh' : history st = (history env ++ [makeSnapshot env]) ++ [makeSnapshot env])
    by (rewrite Hh, <- app_assoc; reflexivity).
  destruct (undoHistory_spec st st _ _ Hh') as (H1 & _ & H3).
  fold st1 in H1, H3.
  destruct (undoHistory_spec st1 st1 _ _ H1) as (H4 & _ & H6).
  fold st2 in H4, H6. auto.
Qed.

End DeletionProperties.

(** ** Frontage *)

Section FrontageProperties.
Context {num : Type} {N : JSNumber num}.

(** [edgesFromPolygon] on a closed polygon gives its edges. *)
Lemma edgesFromPolygon_closed (poly : list (@Point num)) :
  edgesFromPolygon poly true = polygonEdges poly.
Proof.
  unfold edgesFromPolygon, polygonEdges.
  destruct poly as [|p [|q [|r poly]]]; [reflexivity..|].
  set (l := p :: q :: r :: poly).
  assert (Hn : 3 <= length l) by (cbn; lia).
  destruct (Nat.ltb_spec (length l) 2) as [|_]; [lia|].
  destruct (Nat.leb_spec 3 (length l)) as [_|]; [|lia]. cbn [andb].
  replace (seq 0 (length l)) with (seq 0 (length l - 1) ++ [length l - 1]).
  2:{ replace (length l) with (length l - 1 + 1) at 3 by lia.
      rewrite seq_app. reflexivity. }
  rewrite map_app. cbn [map]. f_equal.
  - apply map_ext_in. intros i Hi. apply in_seq in Hi.
    rewrite (Nat.mod_small (i + 1)) by lia. reflexivity.
  - replace (length l - 1 + 1) with (length l) by lia.
    rewrite Nat.Div0.mod_same. reflexivity.
Qed.

Lemma roadEdgeLoop_spec (tol : num) (ab : @Segment num) (segs : list (@Segment num)) :
  roadEdgeLoop tol ab segs = true <-> exists cd, cd ∈ segs /\ edgePairHit tol ab cd = true.
Proof.
  induction segs as [|cd segs IH]; simpl.
  - split; [discriminate|]. intros (cd & Hin & _). inversion Hin.
  - destruct (edgePairHit tol ab cd) eqn:Hhit.
    + split; [intros _|reflexivity].
      exists cd. split; [left|exact Hhit].
    + rewrite IH. split.
      * intros (cd' & Hin & Hm). exists cd'. split; [right; exact Hin|exact Hm].
      * intros (cd' & Hin & Hm). apply elem_of_cons in Hin as [->|Hin].
        -- congruence.
        -- exists cd'. auto.
Qed.

(** The two nested loops with their early exits decide whether some lot
    edge meets some segment. *)
Lemma lotEdgeLoop_spec (tol : num) (lotEdges segs : list (@Segment num)) :
  lotEdgeLoop tol lotEdges segs = true
  <-> exists ab cd, ab ∈ lotEdges /\ cd ∈ segs /\ edgePairHit tol ab cd = true.
Proof.
  induction lotEdges as [|ab lotEdges IH]; simpl.
  - split; [discriminate|]. intros (ab & cd & Hin & _). inversion Hin.
  - destruct (roadEdgeLoop tol ab segs) eqn:Hhit.
    + split; [intros _|reflexivity].
      apply roadEdgeLoop_spec in Hhit as (cd & Hin & Hm).
      exists ab, cd. split; [left|]. auto.
    + rewrite IH. split.
      * intros (ab' & cd & Hin & Hm). exists ab', cd. split; [right; exact Hin|exact Hm].
      * intros (ab' & cd & Hin & Hcd & Hm). apply elem_of_cons in Hin as [->|Hin].
        -- assert (roadEdgeLoop tol ab segs = true)
             by (apply roadEdgeLoop_spec; eauto).
           congruence.
        -- exists ab', cd. auto.
Qed.

Lemma lotEdgeLoop_hits (tol : num) (lotPoly : list (@Point num))
    (segs : list (@Segment num)) :
  lotEdgeLoop tol (edgesFromPolygon lotPoly true) segs = true
  <-> HitsSegments tol lotPoly segs.
Proof. apply lotEdgeLoop_spec. Qed.

Lemma lotEdgeLoop_misses (tol : num) (lotPoly : list (@Point num))
    (segs : list (@Segment num)) :
  lotEdgeLoop tol (edgesFromPolygon lotPoly true) segs = false
  <-> ~ HitsSegments tol lotPoly segs.
Proof.
  rewrite <- lotEdgeLoop_hits.
  destruct (lotEdgeLoop _ _ _); intuition congruence.
Qed.

(** The loop over the internal roads returns the id of the first road the
    lot fronts. *)
Lemma internalRoadLoop_spec (tol : num) (lotPoly : list (@Point num))
    (roads : list (InternalRoad num)) :
  FirstMatch (HitsInternal tol lotPoly) ir_road_id roads
    (internalRoadLoop tol (edgesFromPolygon lotPoly true) roads).
Proof.
  induction roads as [|r roads IH]; simpl.
  - left. split; [reflexivity|constructor].
  - destruct (lotEdgeLoop _ _ _) eqn:Hhit.
    + right. exists [], r, roads.
      split; [reflexivity|]. split; [constructor|]. split; [|reflexivity].
      apply lotEdgeLoop_hits. exact Hhit.
    + apply lotEdgeLoop_misses in Hhit.
      destruct IH as [(Hres & Hall)|(pre & x & post & Hl & Hpre & Hx & Hres)].
      * left. split; [exact Hres|]. constructor; assumption.
      * right. exists (r :: pre), x, post.
        split; [simpl; f_equal; exact Hl|].
        split; [constructor; assumption|]. split; assumption.
Qed.

Lemma first_split_unique {A} (P : A -> Prop) (pre1 pre2 post1 post2 : list A) (x1 x2 : A) :
  pre1 ++ x1 :: post1 = pre2 ++ x2 :: post2 ->
  Forall (fun y => ~ P y) pre1 -> P x1 ->
  Forall (fun y => ~ P y) pre2 -> P x2 ->
  x1 = x2.
Proof.
  revert pre2. induction pre1 as [|a pre1 IH]; intros [|b pre2] Heq H1 Hx1 H2 Hx2;
    simpl in Heq; injection Heq as Hhd Htl; subst.
  - reflexivity.
  - inversion H2; subst. contradiction.
  - inversion H1; subst. contradiction.
  - inversion H1; subst. inversion H2; subst. eapply IH; eassumption.
Qed.

(** [FirstMatch] has one result. *)
Lemma FirstMatch_unique {A} (P : A -> Prop) (id : A -> string) (l : list A)
    (r1 r2 : option string) :
  FirstMatch P id l r1 -> FirstMatch P id l r2 -> r1 = r2.
Proof.
  intros [(-> & Hn1)|(pre1 & x1 & post1 & Hl1 & Hpre1 & Hx1 & ->)]
         [(-> & Hn2)|(pre2 & x2 & post2 & Hl2 & Hpre2 & Hx2 & ->)].
  - reflexivity.
  - exfalso. rewrite Hl2 in Hn1. apply Forall_app in Hn1 as [_ Hn1].
    inversion Hn1; subst. contradiction.
  - exfalso. rewrite Hl1 in Hn2. apply Forall_app in Hn2 as [_ Hn2].
    inversion Hn2; subst. contradiction.
  - rewrite Hl1 in Hl2.
    rewrite (first_split_unique P _ _ _ _ _ _ Hl2 Hpre1 Hx1 Hpre2 Hx2). reflexivity.
Qed.

(** On every number type a lot of three vertices or more is assigned the
    first internal road, in list order, for which the pair test succeeds;
    the boundary and the public roads are not read. *)
Lemma internal_first_hit (lotPoly : list (@Point num)) (ctx : FrontCtx num)
    (tol : num) (pre post : list (InternalRoad num)) (r : InternalRoad num) :
  3 <= length lotPoly ->
  ctx_internalRoads ctx = pre ++ r :: post ->
  Forall (fun r' => ~ HitsInternal tol lotPoly r') pre ->
  HitsInternal tol lotPoly r ->
  computeFrontRoadForLot lotPoly ctx tol = Some (Some (ir_road_id r)).
Proof.
  intros Hlen Hroads Hpre Hr. unfold computeFrontRoadForLot.
  destruct (Nat.ltb_spec (length lotPoly) 3) as [|_]; [lia|].
  assert (Hfm : FirstMatch (HitsInternal tol lotPoly) ir_road_id (ctx_internalRoads ctx)
                  (Some (ir_road_id r))).
  { right. exists pre, r, post. auto. }
  rewrite (FirstMatch_unique _ _ _ _ _ (internalRoadLoop_spec tol lotPoly _) Hfm).
  reflexivity.
Qed.

(** *** The walk along the boundary ring *)

Lemma mod_below_twice (n x : nat) :
  0 < n -> x < 2 * n -> x mod n = if (x <? n)%nat then x else x - n.
Proof.
  intros Hn Hx. destruct (Nat.ltb_spec x n).
  - apply Nat.mod_small. assumption.
  - replace x with ((x - n) + 1 * n) at 1 by lia.
    rewrite Nat.Div0.mod_add. apply Nat.mod_small. lia.
Qed.

Lemma nearestBoundaryIndex_lt (pt : @Point num) (boundary : list (@Point num)) (i : nat) :
  nearestBoundaryIndex pt boundary = Some i -> i < length boundary.
Proof.
  unfold nearestBoundaryIndex.
  assert (Hgen : forall (l : list nat) (st : option nat * num) (bound : nat),
             Forall (fun j => j < bound) l ->
             (forall j, st.1 = Some j -> j < bound) ->
             forall j,
               (fold_left
                  (fun '(bestI, bestD) i =>
                     let d := distance pt (at_ boundary i) in
                     if nltb d bestD then (Some i, d) else (bestI, bestD)) l st).1 = Some j ->
               j < bound).
  { induction l as [|a l IH]; intros [bi bd] bound Hl Hst j; simpl.
    - apply Hst.
    - inversion Hl; subst. apply IH; [assumption|].
      destruct (nltb _ bd); simpl; intros j'.
      + intros [= <-]. assumption.
      + apply Hst. }
  apply Hgen.
  - apply Forall_forall. intros j Hj. apply elem_of_seq in Hj. lia.
  - simpl. discriminate.
Qed.

Lemma pathSegsLoop_walk (boundary : list (@Point num)) (j : nat) :
  j < length boundary ->
  forall (k fuel i : nat) (segs : list (@Segment num)),
    i < length boundary ->
    (j + length boundary - i) mod length boundary = k ->
    k < fuel ->
    pathSegsLoop fuel boundary i j segs
    = Some (segs ++ map (fun t => (at_ boundary ((i + t) mod length boundary),
                                   at_ boundary ((i + t + 1) mod length boundary)))
                        (seq 0 k)).
Proof.
  intros Hj. set (n := length boundary) in *.
  induction k as [|k IH]; intros fuel i segs Hi Hk Hfuel;
    (destruct fuel as [|fuel]; [lia|]); cbn [pathSegsLoop]; fold n.
  - assert (i = j); [|subst i].
    { rewrite mod_below_twice in Hk by lia.
      destruct (Nat.ltb_spec (j + n - i) n); lia. }
    rewrite Nat.eqb_refl, app_nil_r. reflexivity.
  - destruct (Nat.eqb_spec i j) as [->|Hne].
    { replace (j + n - j) with (0 + 1 * n) in Hk by lia.
      rewrite Nat.Div0.mod_add, Nat.mod_small in Hk by lia. discriminate. }
    assert (Hi' : (i + 1) mod n < n) by (apply Nat.mod_upper_bound; lia).
    rewrite (IH fuel ((i + 1) mod n) _ Hi'); [| |lia].
    + rewrite <- app_assoc. do 2 f_equal. cbn [seq map app].
      rewrite Nat.add_0_r, (Nat.mod_small i n) by lia. f_equal.
      rewrite <- seq_shift, map_map. apply map_ext. intros t.
      rewrite <- (Nat.add_assoc _ t 1), !Nat.Div0.add_mod_idemp_l.
      replace (i + 1 + t) with (i + S t) by lia.
      replace (i + 1 + (t + 1)) with (i + S t + 1) by lia. reflexivity.
    + rewrite mod_below_twice in Hk by lia.
      rewrite (mod_below_twice n (i + 1)) by lia.
      rewrite mod_below_twice by (destruct (Nat.ltb_spec (i + 1) n); lia).
      destruct (Nat.ltb_spec (j + n - i) n), (Nat.ltb_spec (i + 1) n);
        match goal with |- context [(?a <? ?b)%nat] => destruct (Nat.ltb_spec a b) end;
        lia.
Qed.

(** For two vertices of the ring the walk of the source ends, and is the
    walk of the specification. *)
Lemma pathSegsBetweenIndices_returns (boundary : list (@Point num)) (i j : nat) :
  i < length boundary -> j < length boundary ->
  pathSegsBetweenIndices boundary i j = Some (ringWalk boundary i j).
Proof.
  intros Hi Hj. unfold pathSegsBetweenIndices, ringWalk.
  rewrite (pathSegsLoop_walk boundary j Hj _ _ i [] Hi eq_refl).
  - reflexivity.
  - assert ((j + length boundary - i) mod length boundary < length boundary)
      by (apply Nat.mod_upper_bound; lia).
    lia.
Qed.

Lemma ringWalk_same (boundary : list (@Point num)) (i : nat) :
  i < length boundary -> ringWalk boundary i i = [].
Proof.
  intros Hi. unfold ringWalk.
  replace (i + length boundary - i) with (0 + 1 * length boundary) by lia.
  rewrite Nat.Div0.mod_add, Nat.mod_small by lia. reflexivity.
Qed.

Lemma HitsSegments_nil (tol : num) (lotPoly : list (@Point num)) :
  ~ HitsSegments tol lotPoly [].
Proof. intros (ab & cd & _ & Hin & _). inversion Hin. Qed.

(** One round of the loop over the public roads decides [HitsPublic]. *)
Lemma publicRoadLoop_spec (tol : num) (lotPoly boundary : list (@Point num))
    (roads : list (PublicRoad num)) :
  exists res,
    publicRoadLoop tol (edgesFromPolygon lotPoly true) boundary roads = Some res
    /\ FirstMatch (HitsPublic tol lotPoly boundary) pr_road_id roads res.
Proof.
  induction roads as [|pr roads (res & Hres & Hfm)]; cbn [publicRoadLoop].
  - exists None. split; [reflexivity|]. left. split; [reflexivity|constructor].
  - assert (Hskip : ~ HitsPublic tol lotPoly boundary pr ->
                    exists res',
                      publicRoadLoop tol (edgesFromPolygon lotPoly true) boundary roads
                      = Some res'
                      /\ FirstMatch (HitsPublic tol lotPoly boundary) pr_road_id
                           (pr :: roads) res').
    { intros Hnot. exists res. split; [exact Hres|].
      destruct Hfm as [(-> & Hall)|(pre & x & post & Hl & Hpre & Hx & ->)].
      - left. split; [reflexivity|]. constructor; assumption.
      - right. exists (pr :: pre), x, post.
        split; [simpl; f_equal; exact Hl|].
        split; [constructor; assumption|]. split; [assumption|reflexivity]. }
    destruct (Nat.ltb_spec (length (pr_entry_points pr)) 2) as [Hlt|Hge].
    { apply Hskip. intros (Hlen & _). lia. }
    destruct (nearestBoundaryIndex (at_ (pr_entry_points pr) 0) boundary) as [iA|] eqn:HA.
    2:{ apply Hskip. intros (_ & iA & iB & HA' & _). congruence. }
    destruct (nearestBoundaryIndex (at_ (pr_entry_points pr) 1) boundary) as [iB|] eqn:HB.
    2:{ apply Hskip. intros (_ & iA' & iB & _ & HB' & _). congruence. }
    pose proof (nearestBoundaryIndex_lt _ _ _ HA) as HiA.
    pose proof (nearestBoundaryIndex_lt _ _ _ HB) as HiB.
    destruct (Nat.eqb_spec iA iB) as [->|Hne].
    { apply Hskip. intros (_ & iA' & iB' & HA' & HB' & Hf).
      rewrite HA in HA'. rewrite HB in HB'. injection HA' as <-. injection HB' as <-.
      unfold chosenWalk in Hf. rewrite ringWalk_same in Hf by assumption.
      destruct (nleb _ _); apply (HitsSegments_nil _ _ Hf). }
    rewrite (pathSegsBetweenIndices_returns boundary iA iB HiA HiB).
    rewrite (pathSegsBetweenIndices_returns boundary iB iA HiB HiA).
    cbn [mbind option_bind]. fold (chosenWalk boundary iA iB).
    destruct (lotEdgeLoop tol (edgesFromPolygon lotPoly true) (chosenWalk boundary iA iB))
      eqn:Hhit.
    + exists (Some (pr_road_id pr)). split; [reflexivity|].
      right. exists [], pr, roads.
      split; [reflexivity|]. split; [constructor|]. split; [|reflexivity].
      split; [lia|]. exists iA, iB. split; [exact HA|]. split; [exact HB|].
      apply lotEdgeLoop_hits. exact Hhit.
    + apply Hskip. intros (_ & iA' & iB' & HA' & HB' & Hf).
      rewrite HA in HA'. rewrite HB in HB'. injection HA' as <-. injection HB' as <-.
      apply lotEdgeLoop_misses in Hhit. contradiction.
Qed.

(** With the boundary closed on three vertices or more and no internal
    road hit, the resolver returns what the loop over the public roads
    returns. *)
Lemma computeFrontRoadForLot_public (lotPoly : list (@Point num)) (ctx : FrontCtx num)
    (tol : num) :
  3 <= length lotPoly ->
  ctx_boundaryClosed ctx = true ->
  3 <= length (ctx_boundary ctx) ->
  Forall (fun r => ~ HitsInternal tol lotPoly r) (ctx_internalRoads ctx) ->
  computeFrontRoadForLot lotPoly ctx tol
  = publicRoadLoop tol (edgesFromPolygon lotPoly true) (ctx_boundary ctx)
      (ctx_publicRoads ctx).
Proof.
  intros Hlen Hclosed Hb Hint. unfold computeFrontRoadForLot.
  destruct (Nat.ltb_spec (length lotPoly) 3) as [|_]; [lia|].
  assert (Hnone : FirstMatch (HitsInternal tol lotPoly) ir_road_id
                    (ctx_internalRoads ctx) None) by (left; auto).
  rewrite (FirstMatch_unique _ _ _ _ _ (internalRoadLoop_spec tol lotPoly _) Hnone).
  rewrite Hclosed.
  destruct (Nat.leb_spec 3 (length (ctx_boundary ctx))) as [_|]; [|lia].
  reflexivity.
Qed.

(** On every number type the public roads are then tried in list order,
    and the first one hit decides. *)
Lemma public_first_hit (lotPoly : list (@Point num)) (ctx : FrontCtx num) (tol : num) :
  3 <= length lotPoly ->
  ctx_boundaryClosed ctx = true ->
  3 <= length (ctx_boundary ctx) ->
  Forall (fun r => ~ HitsInternal tol lotPoly r) (ctx_internalRoads ctx) ->
  exists res,
    computeFrontRoadForLot lotPoly ctx tol = Some res
    /\ FirstMatch (HitsPublic tol lotPoly (ctx_boundary ctx)) pr_road_id
         (ctx_publicRoads ctx) res.
Proof.
  intros Hlen Hclosed Hb Hint.
  rewrite (computeFrontRoadForLot_public lotPoly ctx tol Hlen Hclosed Hb Hint).
  apply publicRoadLoop_spec.
Qed.

(** The resolver always returns. *)
Lemma computeFrontRoadForLot_returns (lotPoly : list (@Point num)) (ctx : FrontCtx num)
    (tol : num) :
  exists res, computeFrontRoadForLot lotPoly ctx tol = Some res.
Proof.
  unfold computeFrontRoadForLot.
  destruct (length lotPoly <? 3)%nat; [eauto|].
  destruct (internalRoadLoop _ _ _); [eauto|].
  destruct (ctx_boundaryClosed ctx && _); [|eauto].
  destruct (publicRoadLoop_spec tol lotPoly (ctx_boundary ctx) (ctx_publicRoads ctx))
    as (res & Hres & _).
  eauto.
Qed.

End FrontageProperties.

(** ** Export *)

Section ExportProperties.
Context {num : Type} {N : JSNumber num}.
Variable atan2 : num -> num -> num.

Lemma frontIs_spec (road_id : string) (front : option string) :
  frontIs road_id front = true <-> front = Some road_id.
Proof.
  destruct front as [id|]; simpl.
  - rewrite String.eqb_eq. split; congruence.
  - split; discriminate.
Qed.

(** The ids the export collects for a road are those of the exported lots
    whose [front_road] is the road. *)
Lemma collected_lot_ids (road_id : string) (lotInfos : list (@LotInfo num)) :
  map li_id (List.filter (fun li => frontIs road_id (li_front li)) lotInfos)
  = xl_lot_id
    <$> filter (fun l : ExportLot num => xl_front_road l = Some road_id)
          (map (fun li =>
                  {| xl_lot_id := li_id li;
                     xl_polygon := closedForExport (li_polygonOpen li);
                     xl_area := li_area li;
                     xl_front_road := li_front li |})
               lotInfos).
Proof.
  induction lotInfos as [|li lotInfos IH]; [reflexivity|].
  cbn [List.filter map].
  destruct (frontIs road_id (li_front li)) eqn:Hf.
  - apply frontIs_spec in Hf.
    rewrite filter_cons_True by exact Hf.
    cbn [map fmap list_fmap]. f_equal. exact IH.
  - rewrite filter_cons_False; [exact IH|].
    cbn [xl_front_road]. intros Hf'. apply frontIs_spec in Hf'. congruence.
Qed.

(** The export always produces its document. *)
Lemma exportJSON_returns (env : Scene num) :
  exists doc, exportJSON atan2 env = Some doc.
Proof.
  unfold exportJSON.
  match goal with
  | |- context [mapM ?f ?l] =>
      destruct (mapM_is_Some_2 f l) as [lotInfos Hinfos]
  end.
  - apply Forall_forall. intros [idx l] _. unfold compose, exportLotInfo.
    match goal with
    | |- context [computeFrontRoadForLot ?p ?c ?t] =>
        destruct (computeFrontRoadForLot_returns p c t) as [front ->]
    end.
    cbn [mbind option_bind]. eauto.
  - rewrite Hinfos. cbn [mbind option_bind]. eauto.
Qed.

(** C6.  The export returns a document in which the [road_to_lot_mapping]
    of every public road of [input.roads] and of every internal road of
    [output.internal_roads] is the list of the [lot_id]s of the exported
    lots whose [front_road] is that road's [road_id], in the order of the
    lots. *)
Theorem export_road_to_lot_mapping (env : Scene num) :
  exists doc,
    exportJSON atan2 env = Some doc
    /\ Forall
         (fun r : ExportPublicRoad num =>
            xp_road_to_lot_mapping r
            = xl_lot_id
              <$> filter (fun l : ExportLot num => xl_front_road l = Some (xp_road_id r))
                    (x_lots doc))
         (x_roads doc)
    /\ Forall
         (fun r : ExportInternalRoad num =>
            xi_road_to_lot_mapping r
            = xl_lot_id
              <$> filter (fun l : ExportLot num => xl_front_road l = Some (xi_road_id r))
                    (x_lots doc))
         (x_internal_roads doc).
Proof.
  destruct (exportJSON_returns env) as [doc Hdoc].
  exists doc. split; [exact Hdoc|].
  unfold exportJSON in Hdoc.
  match type of Hdoc with
  | context [mapM ?f ?l] => destruct (mapM f l) as [lotInfos|]; [|discriminate]
  end.
  cbn [mbind option_bind] in Hdoc. injection Hdoc as <-.
  cbn [x_roads x_internal_roads x_lots]. split.
  - apply Forall_forall. intros r Hr.
    apply list_elem_of_In, in_map_iff in Hr as (pr & <- & _).
    cbn [xp_road_to_lot_mapping xp_road_id]. apply collected_lot_ids.
  - apply Forall_forall. intros r Hr.
    apply list_elem_of_In, in_map_iff in Hr as (ir & <- & _).
    cbn [xi_road_to_lot_mapping xi_road_id]. apply collected_lot_ids.
Qed.

End ExportProperties.

(** ** Winding and closing of exported rings *)

Section ExportedRings.
Context {num : Type} {N : JSNumber num}.
Variable atan2 : num -> num -> num.

Lemma exportLotInfo_polygon (env : Scene num) (ctx : FrontCtx num) (tol : num) (idx : nat)
    (l : Lot num) (li : @LotInfo num) :
  exportLotInfo atan2 env ctx tol idx l = Some li ->
  li_polygonOpen li = normalizeCCW atan2 (lot_polygon l).
Proof.
  unfold exportLotInfo. destruct (computeFrontRoadForLot _ _ _); [|discriminate].
  cbn [mbind option_bind]. intros [= <-]. reflexivity.
Qed.

(** Every polygon of the exported document is [exportRing] of a polygon of
    the scene. *)
Lemma exportJSON_rings (env : Scene num) (doc : ExportDoc num) (ring : list (@Point num)) :
  exportJSON atan2 env = Some doc ->
  SerializedPolygon doc ring ->
  exists poly, ScenePolygon env poly /\ ring = exportRing atan2 poly.
Proof.
  unfold exportJSON.
  match goal with
  | |- context [mapM ?f ?l] => destruct (mapM f l) as [lotInfos|] eqn:Hinfos; [|discriminate]
  end.
  cbn [mbind option_bind]. intros [= <-].
  intros [->|[(r & Hr & ->)|(l & Hl & ->)]]; cbn [x_boundary x_internal_roads x_lots] in *.
  - eexists. split; [left; reflexivity|reflexivity].
  - apply list_elem_of_In, in_map_iff in Hr as (ir & <- & Hir).
    exists (ir_polygon ir). split; [|reflexivity].
    right. left. exists ir. split; [apply list_elem_of_In, Hir|reflexivity].
  - apply list_elem_of_In, in_map_iff in Hl as (li & <- & Hli).
    apply mapM_Some_1 in Hinfos.
    apply list_elem_of_In, list_elem_of_lookup in Hli as [i Hi].
    destruct (Forall2_lookup_r _ _ _ _ _ Hinfos Hi) as ([idx l] & Hil & Hf).
    cbn [xl_polygon]. rewrite (exportLotInfo_polygon _ _ _ _ _ _ Hf).
    exists (lot_polygon l). split; [|reflexivity].
    right. right. exists l. split; [|reflexivity].
    rewrite list_lookup_imap in Hil.
    destruct (lots (persist env) !! i) as [l'|] eqn:Hl'; [|discriminate].
    cbn in Hil. injection Hil as _ <-.
    apply list_elem_of_lookup. exists i. exact Hl'.
Qed.

End ExportedRings.

(** ** Signed area in exact arithmetic *)

Section ExactArea.
Context {m : Exact.MathLib}.
Local Open Scope Q_scope.

Lemma edgeCross_antisym (a b : Q * Q) : edgeCross a b == - edgeCross b a.
Proof. unfold edgeCross. ring. Qed.

Lemma edgeCross_same (a : Q * Q) : edgeCross a a == 0.
Proof. unfold edgeCross. ring. Qed.

Lemma pathSum_snoc (l : list (@Point Q)) (a b : Q * Q) :
  pathSum ((l ++ [a]) ++ [b]) == pathSum (l ++ [a]) + edgeCross a b.
Proof.
  induction l as [|x l IH].
  - simpl. ring.
  - destruct l as [|y l].
    + simpl. ring.
    + change (pathSum (((x :: y :: l) ++ [a]) ++ [b]))
        with (edgeCross x y + pathSum (((y :: l) ++ [a]) ++ [b])).
      change (pathSum ((x :: y :: l) ++ [a]))
        with (edgeCross x y + pathSum ((y :: l) ++ [a])).
      rewrite IH. ring.
Qed.

Lemma pathSum_rev (l : list (@Point Q)) : pathSum (rev l) == - pathSum l.
Proof.
  induction l as [|a l IH]; [reflexivity|].
  destruct l as [|b l]; [reflexivity|].
  change (rev (a :: b :: l)) with ((rev l ++ [b]) ++ [a]).
  rewrite pathSum_snoc.
  change (rev l ++ [b]) with (rev (b :: l)).
  rewrite IH.
  change (pathSum (a :: b :: l)) with (edgeCross a b + pathSum (b :: l)).
  rewrite (edgeCross_antisym b a). ring.
Qed.

Lemma fold_left_pointwise {A B} (f g : A -> B -> A) (l : list B) (a : A) :
  (forall s i, f s i = g s i) -> fold_left f l a = fold_left g l a.
Proof.
  intros H. revert a. induction l as [|i l IH]; intros a; simpl; [reflexivity|].
  rewrite H. apply IH.
Qed.

(** The sum a left fold builds is the sum of its terms. *)
Lemma fold_left_Qplus (f : nat -> Q) (l : list nat) (s : Q) :
  fold_left (fun s i => s + f i) l s == s + fold_right (fun i acc => f i + acc) 0 l.
Proof.
  revert s. induction l as [|i l IH]; intros s; simpl.
  - ring.
  - rewrite IH. ring.
Qed.

Lemma fold_right_Qplus_ext (f g : nat -> Q) (l : list nat) :
  (forall i, In i l -> f i == g i) ->
  fold_right (fun i acc => f i + acc) 0 l == fold_right (fun i acc => g i + acc) 0 l.
Proof.
  induction l as [|i l IH]; intros H; simpl; [reflexivity|].
  rewrite (H i) by (left; reflexivity).
  rewrite IH by (intros; apply H; right; assumption).
  reflexivity.
Qed.

Lemma fold_right_seq_shift (f : nat -> Q) (a k : nat) :
  fold_right (fun i acc => f i + acc) 0 (seq (S a) k)
  = fold_right (fun i acc => f (S i) + acc) 0 (seq a k).
Proof.
  revert a. induction k as [|k IH]; intros a; simpl; [reflexivity|].
  rewrite IH. reflexivity.
Qed.

Lemma pathSum_indexed (l : list (@Point Q)) (d : Q * Q) :
  pathSum l
  == fold_right (fun i acc => edgeCross (nth i l d) (nth (S i) l d) + acc) 0
       (seq 0 (length l - 1)).
Proof.
  induction l as [|a l IH]; [reflexivity|].
  destruct l as [|b l]; [reflexivity|].
  change (pathSum (a :: b :: l)) with (edgeCross a b + pathSum (b :: l)).
  rewrite IH.
  replace (length (a :: b :: l) - 1)%nat with (S (length (b :: l) - 1)) by (simpl; lia).
  cbn [seq fold_right]. cbn [nth].
  apply Qplus_comp; [reflexivity|].
  rewrite (fold_right_seq_shift (fun i => edgeCross (nth i (a :: b :: l) d) (nth (S i) (a :: b :: l) d))).
  reflexivity.
Qed.

(** The sum [signedArea] computes round the ring is the path sum of the
    ring closed by its first point. *)
Lemma ring_fold_pathSum (l : list (@Point Q)) :
  l <> [] ->
  fold_left
    (fun s i =>
       let '(x1, y1) := at_ l i in
       let '(x2, y2) := at_ l ((i + 1) mod length l)%nat in
       s + (x1 * y2 - x2 * y1))
    (seq 0 (length l)) 0
  == pathSum (l ++ [at_ l 0]).
Proof.
  intros Hne.
  assert (Hn : (0 < length l)%nat) by (destruct l; simpl; [congruence|lia]).
  rewrite (fold_left_pointwise _
             (fun s i => s + edgeCross (at_ l i) (at_ l ((i + 1) mod length l)%nat))).
  2:{ intros s i. destruct (at_ l i), (at_ l ((i + 1) mod length l)%nat). reflexivity. }
  rewrite (fold_left_Qplus (fun i => edgeCross (at_ l i) (at_ l ((i + 1) mod length l)%nat))).
  rewrite (pathSum_indexed _ (inject_Z 0, inject_Z 0)).
  rewrite length_app. cbn [length].
  replace (length l + 1 - 1)%nat with (length l) by lia.
  rewrite Qplus_0_l.
  apply fold_right_Qplus_ext. intros i Hi. apply in_seq in Hi.
  unfold at_. cbn [nofZ Exact.number].
  rewrite (app_nth1 l _ _ (proj2 Hi : (i < length l)%nat)).
  destruct (Nat.eq_dec (S i) (length l)) as [Heq|Hneq].
  - replace ((i + 1) mod length l)%nat with 0%nat
      by (replace (i + 1)%nat with (length l) by lia; rewrite Nat.Div0.mod_same; reflexivity).
    rewrite app_nth2 by lia. replace (S i - length l)%nat with 0%nat by lia.
    reflexivity.
  - rewrite app_nth1 by lia.
    rewrite Nat.mod_small by lia. replace (i + 1)%nat with (S i) by lia. reflexivity.
Qed.

Lemma signedArea_ring (l : list (@Point Q)) :
  (3 <= length l)%nat -> signedArea l == pathSum (l ++ [at_ l 0]) / 2.
Proof.
  intros Hn. unfold signedArea.
  destruct (Nat.ltb_spec (length l) 3) as [|_]; [lia|].
  refine (Qdiv_comp _ _ _ _ _ (Qeq_refl _)).
  apply ring_fold_pathSum. destruct l; simpl in *; [lia|congruence].
Qed.

Lemma ringPath_rev (a z : @Point Q) (mid : list (@Point Q)) :
  pathSum (rev (a :: mid ++ [z]) ++ [z]) == - pathSum ((a :: mid ++ [z]) ++ [a]).
Proof.
  change (rev (a :: mid ++ [z]) ++ [z]) with (rev (z :: a :: mid ++ [z])).
  rewrite pathSum_rev.
  change (pathSum (z :: a :: mid ++ [z])) with (edgeCross z a + pathSum (a :: mid ++ [z])).
  rewrite (pathSum_snoc (a :: mid) z a).
  change ((a :: mid) ++ [z]) with (a :: mid ++ [z]). ring.
Qed.

Lemma signedArea_rev (l : list (@Point Q)) :
  (3 <= length l)%nat -> signedArea (rev l) == - signedArea l.
Proof.
  intros Hn.
  rewrite !signedArea_ring by (rewrite ?length_rev; assumption).
  destruct l as [|a l]; [simpl in Hn; lia|].
  destruct (exists_last (l := l)) as (mid & z & ->).
  { intros ->. simpl in Hn. lia. }
  replace (at_ (rev (a :: mid ++ [z])) 0) with z
    by (cbn [rev]; rewrite rev_unit; reflexivity).
  change (at_ (a :: mid ++ [z]) 0) with a.
  rewrite ringPath_rev. unfold Qdiv. ring.
Qed.

Lemma signedArea_closed (l : list (@Point Q)) :
  (3 <= length l)%nat -> signedArea (l ++ [at_ l 0]) == signedArea l.
Proof.
  intros Hn.
  rewrite !signedArea_ring by (rewrite ?length_app; simpl; lia).
  destruct l as [|a l]; [simpl in Hn; lia|].
  change (at_ ((a :: l) ++ [at_ (a :: l) 0]) 0) with a.
  change (at_ (a :: l) 0) with a.
  destruct (exists_last (l := l)) as (mid & z & ->).
  { intros ->. simpl in Hn. lia. }
  change (((a :: mid ++ [z]) ++ [a]) ++ [a]) with (((a :: mid ++ [z]) ++ [a]) ++ [a]).
  rewrite (pathSum_snoc (a :: mid ++ [z]) a a), edgeCross_same, Qplus_0_r. reflexivity.
Qed.

End ExactArea.

(** ** Exported rings in exact arithmetic *)

Section ExactExport.
Context {m : Exact.MathLib}.
Variable atan2 : Q -> Q -> Q.
Local Open Scope Q_scope.

Lemma exact_ltb_lt (a b : Q) : nltb a b = true <-> a < b.
Proof.
  cbn [nltb Exact.number]. unfold Exact.ltb.
  rewrite negb_true_iff, <- not_true_iff_false, Qle_bool_iff. split.
  - apply Qnot_le_lt.
  - apply Qlt_not_le.
Qed.

Lemma exact_ptsEqual_refl (a : @Point Q) : ptsEqual a a = true.
Proof.
  unfold ptsEqual, EPS, lit_1e9. cbn [nleb nabs nsub ndiv nofZ Exact.number].
  assert (H : forall x : Q, Qle_bool (Qabs (x - x)) (inject_Z 1 / inject_Z 1000000000) = true).
  { intros x. apply Qle_bool_iff.
    assert (Hx : x - x == 0) by ring.
    rewrite Hx. vm_compute. discriminate. }
  rewrite !H. reflexivity.
Qed.

Lemma normalizeCCW_cases (poly : list (@Point Q)) :
  (3 <= length (normalizeCCW atan2 poly))%nat ->
  (3 <= length (angularSort atan2 poly))%nat
  /\ ((0 < signedArea (angularSort atan2 poly)
       /\ normalizeCCW atan2 poly = angularSort atan2 poly)
      \/ (signedArea (angularSort atan2 poly) <= 0
          /\ normalizeCCW atan2 poly = rev (angularSort atan2 poly))).
Proof.
  unfold normalizeCCW, angularSort.
  destruct (Nat.ltb_spec (length (stripClosingDuplicate poly)) 3) as [Hlt|Hge]; [lia|].
  destruct (polygonCentroid (stripClosingDuplicate poly)) as [cx cy]. cbn [fst snd].
  destruct (nltb n0 (signedArea (jsSort (cmpAngle atan2 cx cy) (stripClosingDuplicate poly))))
    eqn:Hpos; intros Hlen.
  - split; [exact Hlen|]. left. split; [|reflexivity].
    apply exact_ltb_lt in Hpos. exact Hpos.
  - rewrite length_rev in Hlen. split; [exact Hlen|]. right. split; [|reflexivity].
    apply Qnot_lt_le. intros Hlt.
    assert (Htrue : nltb n0 (signedArea (jsSort (cmpAngle atan2 cx cy)
                                          (stripClosingDuplicate poly))) = true)
      by (apply exact_ltb_lt; exact Hlt).
    congruence.
Qed.

(** The open ring [normalizeCCW] returns has the absolute value of the
    signed area of the sorted vertices. *)
Lemma normalizeCCW_area (poly : list (@Point Q)) :
  (3 <= length (normalizeCCW atan2 poly))%nat ->
  signedArea (normalizeCCW atan2 poly) == Qabs (signedArea (angularSort atan2 poly)).
Proof.
  intros Hlen.
  destruct (normalizeCCW_cases poly Hlen) as (Hs & [(Hpos & ->)|(Hneg & ->)]).
  - rewrite Qabs_pos; [reflexivity|]. apply Qlt_le_weak. exact Hpos.
  - rewrite signedArea_rev by exact Hs.
    rewrite Qabs_neg by exact Hneg. reflexivity.
Qed.

(** In exact arithmetic the closed ring has the absolute value of the
    signed area of the angularly sorted vertices, and its two ends pass
    [ptsEqual]. *)
Lemma exported_ring_exact (env : Scene Q) (doc : ExportDoc Q)
    (ring : list (@Point Q)) :
  exportJSON atan2 env = Some doc ->
  SerializedPolygon doc ring ->
  (3 <= length ring)%nat ->
  exists poly,
    ScenePolygon env poly
    /\ ring = exportRing atan2 poly
    /\ (ring = normalizeCCW atan2 poly
        \/ ring = normalizeCCW atan2 poly ++ [at_ (normalizeCCW atan2 poly) 0])
    /\ ptsEqual (at_ ring 0) (at_ ring (length ring - 1)) = true
    /\ signedArea ring == Qabs (signedArea (angularSort atan2 poly))
    /\ 0 <= signedArea ring.
Proof.
  intros Hdoc Hring Hlen.
  destruct (exportJSON_rings atan2 env doc ring Hdoc Hring) as (poly & Hscene & ->).
  exists poly. split; [exact Hscene|]. split; [reflexivity|].
  unfold exportRing, closedForExport in *.
  set (o := normalizeCCW atan2 poly) in *.
  destruct (Nat.leb_spec 3 (length o)) as [Ho|Ho]; [|lia].
  assert (Harea : signedArea o == Qabs (signedArea (angularSort atan2 poly)))
    by (apply normalizeCCW_area; exact Ho).
  unfold ensureClosedLoop in *.
  destruct (Nat.ltb_spec (length o) 3) as [|_]; [lia|].
  destruct (ptsEqual (at_ o 0) (at_ o (length o - 1))) eqn:Heq.
  - split; [left; reflexivity|]. split; [exact Heq|]. split; [exact Harea|].
    rewrite Harea. apply Qabs_nonneg.
  - assert (Hclosed : signedArea (o ++ [at_ o 0]) == Qabs (signedArea (angularSort atan2 poly)))
      by (rewrite signedArea_closed by exact Ho; exact Harea).
    split; [right; reflexivity|]. split; [|split; [exact Hclosed|]].
    + rewrite length_app. cbn [length].
      replace (length o + 1 - 1)%nat with (length o) by lia.
      unfold at_. rewrite (app_nth1 o _ _ (ltac:(lia) : (0 < length o)%nat)).
      rewrite (app_nth2 o _ _ (ltac:(lia) : (length o >= length o)%nat)).
      replace (length o - length o)%nat with 0%nat by lia. cbn [nth].
      apply exact_ptsEqual_refl.
    + rewrite Hclosed. apply Qabs_nonneg.
Qed.

End ExactExport.

(** On every number type a serialized polygon of three points or more is
    the [normalizeCCW] ring of a polygon of the scene, either as it is,
    its own last point passing [ptsEqual] with its first, or with its first
    point appended, which is then its last point. *)
Section ClosedRings.
Context {num : Type} {N : JSNumber num}.
Variable atan2 : num -> num -> num.

Lemma exported_ring_closed (env : Scene num) (doc : ExportDoc num)
    (ring : list (@Point num)) :
  exportJSON atan2 env = Some doc ->
  SerializedPolygon doc ring ->
  3 <= length ring ->
  exists poly,
    ScenePolygon env poly
    /\ ring = exportRing atan2 poly
    /\ 3 <= length (normalizeCCW atan2 poly)
    /\ ((ring = normalizeCCW atan2 poly
         /\ ptsEqual (at_ ring 0) (at_ ring (length ring - 1)) = true)
        \/ (ring = normalizeCCW atan2 poly ++ [at_ (normalizeCCW atan2 poly) 0]
            /\ at_ ring (length ring - 1) = at_ ring 0)).
Proof.
  intros Hdoc Hring Hlen.
  destruct (exportJSON_rings atan2 env doc ring Hdoc Hring) as (poly & Hscene & ->).
  exists poly. split; [exact Hscene|]. split; [reflexivity|].
  unfold exportRing, closedForExport in *.
  set (o := normalizeCCW atan2 poly) in *.
  destruct (Nat.leb_spec 3 (length o)) as [Ho|Ho]; [|lia].
  split; [exact Ho|].
  unfold ensureClosedLoop in *.
  destruct (Nat.ltb_spec (length o) 3) as [|_]; [lia|].
  destruct (ptsEqual (at_ o 0) (at_ o (length o - 1))) eqn:Heq.
  - left. split; [reflexivity|exact Heq].
  - right. split; [reflexivity|].
    rewrite length_app. cbn [length].
    replace (length o + 1 - 1) with (length o) by lia.
    unfold at_. rewrite (app_nth1 o _ _ (ltac:(lia) : 0 < length o)).
    rewrite (app_nth2 o _ _ (ltac:(lia) : length o >= length o)).
    replace (length o - length o) with 0 by lia. reflexivity.
Qed.

End ClosedRings.

(** C7, amended.  On every number type, every polygon of the exported
    document that has three points or more is the [normalizeCCW] ring of a
    scene polygon, closed by [ensureClosedLoop]: kept as it is when its own
    last point lies within 1e-9 of its first in both coordinates, and with
    its first point appended as its last otherwise.  In exact arithmetic its
    signed area is the absolute value of the signed area of the vertices
    sorted by angle about the centroid [polygonCentroid] computes: never
    negative, and positive exactly when the sorted ring is not
    degenerate. *)
Theorem exported_ring_closed_and_not_clockwise :
  (forall (num : Type) (N : JSNumber num) (atan2 : num -> num -> num) (env : Scene num)
          (doc : ExportDoc num) (ring : list (@Point num)),
     exportJSON atan2 env = Some doc ->
     SerializedPolygon doc ring ->
     3 <= length ring ->
     exists poly,
       ScenePolygon env poly
       /\ ring = exportRing atan2 poly
       /\ 3 <= length (normalizeCCW atan2 poly)
       /\ ((ring = normalizeCCW atan2 poly
            /\ ptsEqual (at_ ring 0) (at_ ring (length ring - 1)) = true)
           \/ (ring = normalizeCCW atan2 poly ++ [at_ (normalizeCCW atan2 poly) 0]
               /\ at_ ring (length ring - 1) = at_ ring 0)))
  /\ (forall (m : Exact.MathLib) (atan2 : Q -> Q -> Q) (env : Scene Q) (doc : ExportDoc Q)
             (ring : list (@Point Q)),
        exportJSON atan2 env = Some doc ->
        SerializedPolygon doc ring ->
        3 <= length ring ->
        exists poly,
          ScenePolygon env poly
          /\ ring = exportRing atan2 poly
          /\ ptsEqual (at_ ring 0) (at_ ring (length ring - 1)) = true
          /\ (signedArea ring == Qabs (signedArea (angularSort atan2 poly)))%Q
          /\ (0 <= signedArea ring)%Q).
Proof.
  split.
  - intros num N atan2. apply exported_ring_closed.
  - intros m atan2 env doc ring Hdoc Hring Hlen.
    destruct (exported_ring_exact atan2 env doc ring Hdoc Hring Hlen)
      as (poly & H0 & H1 & _ & H3 & H4 & H5).
    exists poly. auto.
Qed.

(** ** Snapping *)

Section SnapProperties.
Context {num : Type} {N : JSNumber num}.

(** C2, amended.  When the line candidate exists, the point handed on to
    the vertex snap is chosen by the distances from the pointer position
    after the axis lock ([aligned]), not before it: the line candidate,
    rounded to two decimals, when it is no farther from [aligned] than the
    grid candidate [p1], and [p1] otherwise.  On equal distances the line
    candidate is taken. *)
Theorem preview_prefers_line_on_tie (env : Scene num) (e : PointerEvt num)
    (r proj : @Point num) :
  raw0 e = Some r ->
  let aligned := previewAligned env e r in
  let p1 := previewGrid env aligned in
  let segments :=
    collectSegments (boundary (persist env)) (boundaryClosed (persist env)) (current env)
      (internalRoads (persist env)) (lots (persist env)) in
  let tolVertex := nmul (snapTol (settings env)) (__avgUP env) in
  snapToNearestSegment aligned segments (nmul (lineTol (settings env)) (__avgUP env))
  = Some proj ->
  (nleb (distance aligned proj) (distance aligned p1) = true ->
   computePreviewPoint env e
   = Some (snapToPools (ntoFixed 2 proj.1, ntoFixed 2 proj.2) (previewPools env) tolVertex))
  /\ (nleb (distance aligned proj) (distance aligned p1) = false ->
      computePreviewPoint env e = Some (snapToPools p1 (previewPools env) tolVertex)).
Proof.
  intros Hraw aligned p1 segments tolVertex Hproj.
  unfold computePreviewPoint. rewrite Hraw.
  fold aligned. fold p1. unfold previewLine. fold segments.
  destruct segments as [|s segs] eqn:Hsegs.
  { simpl in Hproj. discriminate. }
  rewrite Hproj.
  split; intros ->; reflexivity.
Qed.

End SnapProperties.

(** ** Convex hull *)

Section HullProperties.
Context {num : Type} {N : JSNumber num}.

Lemma dropLast_removelast {A} (l : list A) : dropLast l = removelast l.
Proof.
  unfold dropLast. rewrite removelast_firstn_len.
  replace (Init.Nat.pred (length l)) with (length l - 1) by lia. reflexivity.
Qed.

Lemma at_snoc2_last (s : list (@Point num)) (a b : @Point num) :
  at_ (s ++ [a; b]) (length (s ++ [a; b]) - 1) = b
  /\ at_ (s ++ [a; b]) (length (s ++ [a; b]) - 2) = a.
Proof.
  unfold at_. rewrite length_app. cbn [length]. split.
  - rewrite app_nth2 by lia.
    replace (length s + 2 - 1 - length s) with 1 by lia. reflexivity.
  - rewrite app_nth2 by lia.
    replace (length s + 2 - 2 - length s) with 0 by lia. reflexivity.
Qed.

(** The [while] loop of the source, given fuel for every point of the
    stack, pops what the functional chain pops. *)
Lemma popWhile_popNonLeft (fuel : nat) (stack : list (@Point num)) (pt : @Point num) :
  length stack <= fuel ->
  popWhile fuel stack pt = rev (popNonLeft (rev stack) pt).
Proof.
  revert stack. induction fuel as [|fuel IH]; intros stack Hfuel.
  - destruct stack; [reflexivity|simpl in Hfuel; lia].
  - cbn [popWhile].
    destruct (rev stack) as [|b [|a s]] eqn:Hrev;
      apply (f_equal (@rev _)) in Hrev; rewrite rev_involutive in Hrev; subst stack.
    + reflexivity.
    + reflexivity.
    + rewrite length_rev in Hfuel. cbn [length] in Hfuel.
      cbn [rev]. rewrite <- app_assoc. cbn [app].
      destruct (at_snoc2_last (rev s) a b) as [-> ->].
      rewrite length_app. cbn [length].
      destruct (Nat.leb_spec 2 (length (rev s) + 2)) as [_|]; [|lia].
      cbn [andb popNonLeft].
      destruct (nleb (_cross a b pt) n0).
      * replace (rev s ++ [a; b]) with ((rev s ++ [a]) ++ [b])
          by (rewrite <- app_assoc; reflexivity).
        rewrite dropLast_snoc.
        rewrite IH.
        -- rewrite rev_unit, rev_involutive. reflexivity.
        -- rewrite length_app, length_rev. cbn [length]. lia.
      * cbn [rev]. rewrite <- app_assoc. reflexivity.
Qed.

(** Fuel beyond the length of the stack changes nothing: the loop has left
    by its own test. *)
Lemma popWhile_fuel (fuel : nat) (stack : list (@Point num)) (pt : @Point num) :
  length stack <= fuel -> popWhile fuel stack pt = popWhile (length stack) stack pt.
Proof.
  intros Hfuel. rewrite !popWhile_popNonLeft by lia. reflexivity.
Qed.

Lemma hullPush_chainPush (stack : list (@Point num)) (pt : @Point num) :
  hullPush stack pt = rev (chainPush (rev stack) pt).
Proof.
  unfold hullPush, chainPush. rewrite popWhile_popNonLeft by lia. reflexivity.
Qed.

Lemma fold_hullPush (pts stack : list (@Point num)) :
  fold_left hullPush pts stack = rev (fold_left chainPush pts (rev stack)).
Proof.
  revert stack. induction pts as [|pt pts IH]; intros stack; cbn [fold_left].
  - rewrite rev_involutive. reflexivity.
  - rewrite IH, hullPush_chainPush, rev_involutive. reflexivity.
Qed.

(** The code computes the monotone chain of the sorted points. *)
Lemma convexHull_monotoneChain (points : list (@Point num)) :
  convexHull points
  = if (length (stripClosingDuplicate points) <=? 1)%nat
    then stripClosingDuplicate points
    else monotoneChain (jsSort cmpXY (stripClosingDuplicate points)).
Proof.
  unfold convexHull, monotoneChain, halfHull.
  destruct (length (stripClosingDuplicate points) <=? 1)%nat; [reflexivity|].
  rewrite !fold_hullPush, !dropLast_removelast. reflexivity.
Qed.

(** *** Left turns along each chain *)

Lemma popNonLeft_suffix (stack : list (@Point num)) (pt : @Point num) :
  exists pre, stack = pre ++ popNonLeft stack pt.
Proof.
  induction stack as [|b [|a s] IH]; cbn [popNonLeft].
  - exists []. reflexivity.
  - exists []. reflexivity.
  - destruct (nleb (_cross a b pt) n0).
    + destruct IH as [pre Hpre]. exists (b :: pre). cbn [app]. f_equal. exact Hpre.
    + exists []. reflexivity.
Qed.

Lemma popNonLeft_top (stack : list (@Point num)) (pt a b : @Point num)
    (rest : list (@Point num)) :
  popNonLeft stack pt = b :: a :: rest -> nleb (_cross a b pt) n0 = false.
Proof.
  induction stack as [|b' [|a' s] IH]; cbn [popNonLeft].
  - discriminate.
  - discriminate.
  - destruct (nleb (_cross a' b' pt) n0) eqn:Hc.
    + exact IH.
    + intros [= -> -> ->]. exact Hc.
Qed.

Lemma TurnsLeft_prefix (l1 l2 : list (@Point num)) :
  TurnsLeft (l1 ++ l2) -> TurnsLeft l2.
Proof.
  intros H pre a b c post ->. apply (H (l1 ++ pre) a b c post).
  rewrite <- app_assoc. reflexivity.
Qed.

Lemma TurnsLeft_snoc (l : list (@Point num)) (pt : @Point num) :
  TurnsLeft l ->
  (forall s a b, l = s ++ [a; b] -> nleb (_cross a b pt) n0 = false) ->
  TurnsLeft (l ++ [pt]).
Proof.
  intros Hl Hlast pre a b c post Heq.
  induction post as [|z post' _] using rev_ind.
  - replace (pre ++ [a; b; c]) with ((pre ++ [a; b]) ++ [c]) in Heq
      by (rewrite <- app_assoc; reflexivity).
    apply app_inj_tail in Heq as [-> ->]. eapply Hlast. reflexivity.
  - replace (pre ++ a :: b :: c :: post' ++ [z])
      with ((pre ++ a :: b :: c :: post') ++ [z]) in Heq
      by (rewrite <- app_assoc; reflexivity).
    apply app_inj_tail in Heq as [-> _]. eapply Hl. reflexivity.
Qed.

Lemma chainPush_TurnsLeft (stack : list (@Point num)) (pt : @Point num) :
  TurnsLeft (rev stack) -> TurnsLeft (rev (chainPush stack pt)).
Proof.
  intros H. unfold chainPush. cbn [rev].
  destruct (popNonLeft_suffix stack pt) as [pre Hpre].
  apply TurnsLeft_snoc.
  - rewrite Hpre, rev_app_distr in H.
    intros pre' a b c post Heq. apply (H pre' a b c (post ++ rev pre)).
    rewrite Heq, <- app_assoc. reflexivity.
  - intros s a b Heq. apply (f_equal (@rev _)) in Heq.
    rewrite rev_involutive, rev_app_distr in Heq. cbn [rev app] in Heq.
    eapply popNonLeft_top. exact Heq.
Qed.

Lemma halfHull_TurnsLeft (pts : list (@Point num)) : TurnsLeft (halfHull pts).
Proof.
  unfold halfHull.
  assert (Hgen : forall stack, TurnsLeft (rev stack) ->
                               TurnsLeft (rev (fold_left chainPush pts stack))).
  { induction pts as [|pt pts IH]; intros stack Hs; cbn [fold_left]; [exact Hs|].
    apply IH, chainPush_TurnsLeft, Hs. }
  apply Hgen. intros [|? [|? [|? ?]]] a b c post Heq; discriminate.
Qed.

(** Two points come back in the order of the sort. *)
Lemma monotoneChain_two (a b : @Point num) : monotoneChain [a; b] = [a; b].
Proof. reflexivity. Qed.

Lemma insertSorted_length {A} (cmp : A -> A -> num) (x : A) (s : list A) :
  length (insertSorted cmp x s) = S (length s).
Proof.
  induction s as [|y s IHs]; cbn [insertSorted]; [reflexivity|].
  destruct (nltb n0 (cmp x y)); cbn [length]; [rewrite IHs|]; reflexivity.
Qed.

Lemma jsSort_length {A} (cmp : A -> A -> num) (l : list A) :
  length (jsSort cmp l) = length l.
Proof.
  induction l as [|x l IH]; [reflexivity|].
  cbn [jsSort fold_right length]. fold (jsSort cmp l).
  rewrite insertSorted_length, IH. reflexivity.
Qed.

Lemma jsSort_two (a b : @Point num) :
  jsSort cmpXY [a; b] = [a; b] \/ jsSort cmpXY [a; b] = [b; a].
Proof.
  cbn [jsSort fold_right insertSorted].
  destruct (nltb n0 (cmpXY a b)); [right|left]; reflexivity.
Qed.

(** What [convexHull] returns, by the number of points left after the
    closing duplicate is stripped: none or one, the points themselves; two,
    the two points in the order of the sort; more, the monotone chain of
    the sorted points. *)
Lemma convexHull_cases (points : list (@Point num)) :
  convexHull points
  = match stripClosingDuplicate points with
    | [] => []
    | [a] => [a]
    | [a; b] => jsSort cmpXY [a; b]
    | pts => monotoneChain (jsSort cmpXY pts)
    end.
Proof.
  rewrite convexHull_monotoneChain.
  destruct (stripClosingDuplicate points) as [|a [|b [|c pts]]]; try reflexivity.
  cbn [length Nat.leb].
  destruct (jsSort_two a b) as [-> | ->]; reflexivity.
Qed.

End HullProperties.

(** ** The convex hull in exact arithmetic *)

Section PlaneAlgebra.
Local Open Scope Q_scope.

Lemma cr_turn_extends (a b c p : @Point Q) :
  lexLe a b -> lexLe b c -> lexLe c p ->
  0 < cr a b c -> 0 < cr b c p -> 0 < cr a b p.
Proof.
  unfold lexLe, cr.
  destruct a as [ax ay], b as [bx by_], c as [cx cy], p as [px py]; cbn [fst snd].
  intros Hab Hbc Hcp H1 H2.
  assert (0 <= px - bx) by (destruct Hbc as [?|[? ?]], Hcp as [?|[? ?]]; lra).
  assert (0 <= bx - ax) by (destruct Hab as [?|[? ?]]; lra).
  assert (cx - bx <= px - bx) by (destruct Hcp as [?|[? ?]]; lra).
  assert (Hid : ((bx-ax)*(py-by_) - (by_-ay)*(px-bx)) * (cx-bx)
                == ((bx-ax)*(cy-by_) - (by_-ay)*(cx-bx)) * (px-bx)
                   + ((cx-bx)*(py-by_) - (cy-by_)*(px-bx)) * (bx-ax)) by ring.
  destruct Hbc as [Hbc|[Hbc Hbc']]; nra.
Qed.

Lemma cr_behind (a t q p : @Point Q) :
  lexLe a t -> lexLe q t -> lexLe t p ->
  0 <= cr a t q -> 0 < cr a t p -> 0 <= cr t p q.
Proof.
  unfold lexLe, cr.
  destruct a as [ax ay], t as [tx ty], q as [qx qy], p as [px py]; cbn [fst snd].
  intros Hat Hqt Htp H1 H2.
  assert (Hid : ((px-tx)*(qy-ty) - (py-ty)*(qx-tx)) * (ax-tx)
                == ((px-tx)*(ay-ty) - (py-ty)*(ax-tx)) * (qx-tx)
                   - ((qx-tx)*(ay-ty) - (qy-ty)*(ax-tx)) * (px-tx)) by ring.
  assert (0 <= px - tx) by (destruct Htp as [?|[? ?]]; lra).
  assert (qx - tx <= 0) by (destruct Hqt as [?|[? ?]]; lra).
  destruct Hat as [Hat|[Hat Hat']]; nra.
Qed.

Lemma cr_ahead (t v q p : @Point Q) :
  lexLe t v -> lexLe t q -> lexLe t p ->
  ~ samePoint t v ->
  0 <= cr t v q -> cr t v p <= 0 -> 0 <= cr t p q.
Proof.
  unfold lexLe, samePoint, cr.
  destruct v as [vx vy], t as [tx ty], q as [qx qy], p as [px py]; cbn [fst snd].
  intros Htv Htq Htp Hne H1 H2.
  assert (Hid : ((px-tx)*(qy-ty) - (py-ty)*(qx-tx)) * (vx-tx)
                == ((px-tx)*(vy-ty) - (py-ty)*(vx-tx)) * (qx-tx)
                   - ((qx-tx)*(vy-ty) - (qy-ty)*(vx-tx)) * (px-tx)) by ring.
  assert (0 <= px - tx) by (destruct Htp as [?|[? ?]]; lra).
  assert (0 <= qx - tx) by (destruct Htq as [?|[? ?]]; lra).
  destruct Htv as [Htv|[Htv Htv']].
  - nra.
  - assert (ty < vy).
    { destruct (Qlt_le_dec ty vy); [assumption|]. exfalso. apply Hne. split; lra. }
    assert (qx - tx == 0) by nra.
    assert (0 <= qy - ty) by (destruct Htq as [?|[? ?]]; lra).
    nra.
Qed.

Lemma cr_reflect (o a b : @Point Q) : cr (reflect o) (reflect a) (reflect b) == cr o a b.
Proof. unfold cr, reflect. cbn [fst snd]. ring. Qed.

Lemma lexLe_reflect (a b : @Point Q) : lexLe b a <-> lexLe (reflect a) (reflect b).
Proof. unfold lexLe, reflect. cbn [fst snd]. split; intros [?|[? ?]]; [left|right|left|right]; lra. Qed.

Lemma samePoint_reflect (a b : @Point Q) : samePoint a b <-> samePoint (reflect a) (reflect b).
Proof. unfold samePoint, reflect. cbn [fst snd]. split; intros [? ?]; split; lra. Qed.

Lemma lexLe_refl (a : @Point Q) : lexLe a a.
Proof. right. split; [reflexivity|apply Qle_refl]. Qed.

Lemma lexLe_total (a b : @Point Q) : lexLe a b \/ lexLe b a.
Proof.
  unfold lexLe.
  destruct (Q_dec a.1 b.1) as [[?|?]|?]; [left; left; assumption|right; left; assumption|].
  destruct (Qlt_le_dec b.2 a.2).
  - right. right. split; lra.
  - left. right. split; lra.
Qed.

Lemma lexLe_antisym (a b : @Point Q) : lexLe a b -> lexLe b a -> samePoint a b.
Proof. unfold lexLe, samePoint. intros [?|[? ?]] [?|[? ?]]; split; lra. Qed.

Lemma lexLe_same_r (q p t : @Point Q) : lexLe q p -> samePoint t p -> lexLe q t.
Proof. unfold lexLe, samePoint. intros [?|[? ?]] [? ?]; [left|right; split]; lra. Qed.

Lemma classic_samePoint (a b : @Point Q) : samePoint a b \/ ~ samePoint a b.
Proof.
  unfold samePoint.
  destruct (Qeq_dec a.1 b.1), (Qeq_dec a.2 b.2); [left; split; assumption| | |];
    right; intros [? ?]; contradiction.
Qed.

Lemma classic_lexLe (a b : @Point Q) : lexLe a b \/ ~ lexLe a b.
Proof.
  unfold lexLe.
  destruct (Q_dec a.1 b.1) as [[?|?]|?].
  - left. left. assumption.
  - right. intros [?|[? ?]]; lra.
  - destruct (Qlt_le_dec b.2 a.2).
    + right. intros [?|[? ?]]; lra.
    + left. right. split; assumption.
Qed.

Lemma cr_same_end (t p q : @Point Q) : samePoint q t -> cr t p q == 0.
Proof.
  unfold samePoint, cr. intros [H1 H2].
  destruct t, p, q; cbn [fst snd] in *. nra.
Qed.

Lemma cr_same_edge (a b q : @Point Q) : samePoint a b -> cr a b q == 0.
Proof.
  unfold samePoint, cr. intros [H1 H2].
  destruct a, b, q; cbn [fst snd] in *. nra.
Qed.

Lemma cr_same_tip (a t p : @Point Q) : samePoint t p -> cr a t p == 0.
Proof.
  unfold samePoint, cr. intros [H1 H2].
  destruct a, t, p; cbn [fst snd] in *. nra.
Qed.

End PlaneAlgebra.

(** *** Neighbours along a list *)

Lemma consecutive_suffix {A} (U T : list A) (x : A * A) :
  In x (consecutive T) -> In x (consecutive (U ++ T)).
Proof.
  induction U as [|u U IH]; intros Hx; [exact Hx|].
  cbn [app]. destruct (U ++ T) as [|y l] eqn:Heq.
  - destruct U, T; try discriminate. destruct Hx.
  - change (consecutive (u :: y :: l)) with ((u, y) :: consecutive (y :: l)).
    right. apply IH. exact Hx.
Qed.

Lemma consecutive_middle {A} (U T : list A) (v t : A) :
  In (v, t) (consecutive (U ++ v :: t :: T)).
Proof. apply consecutive_suffix. left. reflexivity. Qed.

Lemma consecutive_overlap {A} (l u : list A) (z : A) :
  consecutive (l ++ z :: u) = consecutive (l ++ [z]) ++ consecutive (z :: u).
Proof.
  induction l as [|a l IH]; [reflexivity|].
  cbn [app]. destruct l as [|b l].
  - reflexivity.
  - cbn [app consecutive] in *. rewrite IH. reflexivity.
Qed.

Lemma consecutive_rev {A} (l : list A) (a b : A) :
  In (a, b) (consecutive (rev l)) <-> In (b, a) (consecutive l).
Proof.
  induction l as [|x l IH]; [reflexivity|].
  destruct l as [|y l]; [reflexivity|].
  change (rev (x :: y :: l)) with ((rev l ++ [y]) ++ [x]).
  rewrite <- app_assoc. cbn [app]. rewrite consecutive_overlap.
  change (rev l ++ [y]) with (rev (y :: l)).
  cbn [consecutive]. rewrite in_app_iff, IH. cbn [In]. split.
  - intros [H|[H|[]]]; [right; exact H|left; congruence].
  - intros [H|H]; [right; left; congruence|left; exact H].
Qed.

(** *** The scan of one chain *)

Section ChainStep.
Context {m : Exact.MathLib}.
Local Open Scope Q_scope.

Lemma exact_cross (o a b : @Point Q) : _cross o a b = cr o a b.
Proof. reflexivity. Qed.

Lemma exact_nleb_zero (x : Q) :
  (nleb x n0 = true <-> x <= 0) /\ (nleb x n0 = false <-> 0 < x).
Proof.
  cbn [nleb nofZ Exact.number]. split.
  - apply Qle_bool_iff.
  - rewrite <- not_true_iff_false, Qle_bool_iff. split.
    + apply Qnot_le_lt.
    + apply Qlt_not_le.
Qed.

(** What the pops leave: a suffix [T] of the stack, not empty unless the
    stack was; its two top points and [p] turn left; and the last point
    popped, if any, did not turn left over the top of [T]. *)
Lemma popNonLeft_spec (S : list (@Point Q)) (p : @Point Q) :
  exists U,
    S = U ++ popNonLeft S p
    /\ (S <> [] -> popNonLeft S p <> [])
    /\ (forall b a rest, popNonLeft S p = b :: a :: rest -> 0 < cr a b p)
    /\ (forall U' v, U = U' ++ [v] ->
        exists t T', popNonLeft S p = t :: T' /\ cr t v p <= 0).
Proof.
  induction S as [|b [|a s] IH].
  - exists []. cbn. split; [reflexivity|]. split; [congruence|]. split; [discriminate|].
    intros [|? ?] v H; discriminate.
  - exists []. cbn. split; [reflexivity|]. split; [congruence|]. split; [discriminate|].
    intros [|? ?] v H; discriminate.
  - cbn [popNonLeft]. destruct (nleb (_cross a b p) n0) eqn:Hc.
    + destruct IH as (U & HU & Hne & Hexit & Hlast).
      exists (b :: U). split; [cbn [app]; f_equal; exact HU|].
      split; [intros _; apply Hne; discriminate|]. split; [exact Hexit|].
      intros U' v HU'. destruct U as [|u U].
      * destruct U' as [|? [|? ?]]; try discriminate. injection HU' as <-.
        cbn [app] in HU. exists a, s. split; [symmetry; exact HU|].
        apply exact_nleb_zero. exact Hc.
      * destruct U' as [|u' U']; [destruct U; discriminate|].
        injection HU' as <- HU'. apply (Hlast U' v). exact HU'.
    + exists []. split; [reflexivity|]. split; [congruence|].
      split.
      * intros b' a' rest [= <- <- <-]. apply exact_nleb_zero. exact Hc.
      * intros [|? ?] v H; discriminate.
Qed.

End ChainStep.

Section ChainScan.
Context {m : Exact.MathLib}.
Local Open Scope Q_scope.

Variable R : @Point Q -> @Point Q -> Prop.
Hypothesis R_refl : forall a, R a a.
Hypothesis R_total : forall a b, R a b \/ R b a.
Hypothesis R_antisym : forall a b, R a b -> R b a -> samePoint a b.
Hypothesis R_same_r : forall q p t, R q p -> samePoint t p -> R q t.
Hypothesis R_turn : forall a b c p,
  R a b -> R b c -> R c p -> 0 < cr a b c -> 0 < cr b c p -> 0 < cr a b p.
Hypothesis R_behind : forall a t q p,
  R a t -> R q t -> R t p -> 0 <= cr a t q -> 0 < cr a t p -> 0 <= cr t p q.
Hypothesis R_ahead : forall t v q p,
  R t v -> R t q -> R t p -> ~ samePoint t v ->
  0 <= cr t v q -> cr t v p <= 0 -> 0 <= cr t p q.

(** When the two top points of a left-turning stack turn left with [p],
    every edge of the stack has [p] strictly on its left. *)
Lemma stack_edges_left_of (T : list (@Point Q)) (p : @Point Q) :
  (forall x, In x T -> R x p) ->
  (forall pre c b a post, T = pre ++ c :: b :: a :: post -> 0 < cr a b c) ->
  (forall b a, In (b, a) (consecutive T) -> R a b) ->
  (forall b a rest, T = b :: a :: rest -> 0 < cr a b p) ->
  forall b a, In (b, a) (consecutive T) -> 0 < cr a b p.
Proof using R_turn.
  induction T as [|b0 T IH]; intros Hp Hturn Hmono Hexit b a Hin; [destruct Hin|].
  destruct T as [|a0 T]; [destruct Hin|].
  change (consecutive (b0 :: a0 :: T)) with ((b0, a0) :: consecutive (a0 :: T)) in Hin.
  destruct Hin as [Heq|Hin].
  - injection Heq as <- <-. eapply Hexit. reflexivity.
  - apply IH; [| | | |exact Hin].
    + intros x Hx. apply Hp. right. exact Hx.
    + intros pre c b' a' post Heq. apply (Hturn (b0 :: pre) c b' a' post).
      rewrite Heq. reflexivity.
    + intros b' a' Hin'. apply Hmono.
      change (consecutive (b0 :: a0 :: T)) with ((b0, a0) :: consecutive (a0 :: T)).
      right. exact Hin'.
    + intros b' a' rest Heq. injection Heq as <- ->.
      apply (R_turn a' a0 b0 p).
      * apply Hmono.
        change (consecutive (b0 :: a0 :: a' :: rest))
          with ((b0, a0) :: (a0, a') :: consecutive (a' :: rest)).
        right. left. reflexivity.
      * apply Hmono. left. reflexivity.
      * apply Hp. left. reflexivity.
      * apply (Hturn [] b0 a0 a' rest). reflexivity.
      * eapply Hexit. reflexivity.
Qed.

(** The new edge from the top [t] of what is left to [p] has every point
    pushed so far on its left or on it. *)
Lemma new_edge_left (Qs S U T' : list (@Point Q)) (t p q : @Point Q) :
  ChainInv R Qs S ->
  (forall x, In x Qs -> R x p) ->
  S = U ++ t :: T' ->
  (forall b a rest, t :: T' = b :: a :: rest -> 0 < cr a b p) ->
  (forall U' v, U = U' ++ [v] -> cr t v p <= 0) ->
  In q Qs ->
  0 <= cr t p q.
Proof using R_total R_antisym R_behind R_ahead.
  intros Hinv Hp HS Hexit Hlast Hq.
  assert (Ht : In t S) by (rewrite HS; apply in_or_app; right; left; reflexivity).
  assert (Htp : R t p) by (apply Hp, (inv_sub _ _ _ Hinv), Ht).
  assert (Hbehind : R q t -> 0 <= cr t p q).
  { intros Hqt. destruct T' as [|a T'].
    - assert (Htq : R t q) by (apply (inv_bot _ _ _ Hinv U t HS q Hq)).
      rewrite (cr_same_end t p q (R_antisym _ _ Hqt Htq)). apply Qle_refl.
    - assert (Hpair : In (t, a) (consecutive S))
        by (rewrite HS; apply consecutive_middle).
      apply (R_behind a t q p).
      + apply (inv_mono _ _ _ Hinv _ _ Hpair).
      + exact Hqt.
      + exact Htp.
      + apply (inv_left _ _ _ Hinv _ _ Hpair q Hq).
      + eapply Hexit. reflexivity. }
  destruct (R_total q t) as [Hqt|Htq]; [apply Hbehind; exact Hqt|].
  destruct U as [|u U] using rev_ind.
  - apply Hbehind. apply (inv_top _ _ _ Hinv t T' HS q Hq).
  - clear IHU.
    assert (Hpair : In (u, t) (consecutive S)).
    { rewrite HS, <- app_assoc. apply consecutive_middle. }
    destruct (classic_samePoint t u) as [Hsame|Hdiff].
    + rewrite (cr_same_end t p q); [apply Qle_refl|].
      apply (inv_same _ _ _ Hinv _ _ Hpair Hsame q Hq).
    + apply (R_ahead t u q p).
      * apply (inv_mono _ _ _ Hinv _ _ Hpair).
      * exact Htq.
      * exact Htp.
      * exact Hdiff.
      * apply (inv_left _ _ _ Hinv _ _ Hpair q Hq).
      * apply (Hlast U u). reflexivity.
Qed.

(** Pushing the next point of the order keeps the invariant. *)
Lemma chainPush_inv (Qs S : list (@Point Q)) (p : @Point Q) :
  ChainInv R Qs S ->
  (forall x, In x Qs -> R x p) ->
  ChainInv R (Qs ++ [p]) (chainPush S p).
Proof using R_refl R_total R_antisym R_same_r R_turn R_behind R_ahead.
  intros Hinv Hp. unfold chainPush.
  destruct (popNonLeft_spec S p) as (U & HU & Hne & Hexit & Hlast).
  set (T := popNonLeft S p) in *.
  assert (HsubT : forall x, In x T -> In x Qs).
  { intros x Hx. apply (inv_sub _ _ _ Hinv). rewrite HU. apply in_or_app. right. exact Hx. }
  assert (HpairT : forall x, In x (consecutive T) -> In x (consecutive S)).
  { intros x Hx. rewrite HU. apply consecutive_suffix. exact Hx. }
  assert (HturnT : forall pre c b a post, T = pre ++ c :: b :: a :: post -> 0 < cr a b c).
  { intros pre c b a post Heq. apply (inv_turn _ _ _ Hinv (U ++ pre) c b a post).
    rewrite HU, Heq, <- app_assoc. reflexivity. }
  assert (Hstrict : forall b a, In (b, a) (consecutive T) -> 0 < cr a b p).
  { apply stack_edges_left_of.
    - intros x Hx. apply Hp, HsubT, Hx.
    - exact HturnT.
    - intros b a Hin. apply (inv_mono _ _ _ Hinv), HpairT, Hin.
    - exact Hexit. }
  assert (HTnil : T = [] -> Qs = []).
  { intros HT. apply (inv_empty _ _ _ Hinv).
    destruct S as [|s S]; [reflexivity|]. exfalso. apply Hne; [discriminate|exact HT]. }
  constructor.
  - split; [discriminate|]. intros H. destruct Qs; discriminate.
  - intros x [<-|Hx]; apply in_or_app; [right; left; reflexivity|left; apply HsubT, Hx].
  - intros top rest [= <- <-] q Hq. apply in_app_or in Hq as [Hq|[<-|[]]].
    + apply Hp, Hq.
    + apply R_refl.
  - intros top rest [= <- <-]. exists Qs. reflexivity.
  - intros rest bot Heq q Hq.
    destruct T as [|t T'] using rev_ind.
    + rewrite (HTnil eq_refl) in Hq. destruct rest as [|? [|? ?]]; try discriminate.
      injection Heq as <-. destruct Hq as [<-|[]]. apply R_refl.
    + clear IHT'. change (p :: T' ++ [t]) with ((p :: T') ++ [t]) in Heq.
      apply app_inj_tail in Heq as [_ <-].
      apply in_app_or in Hq as [Hq|[<-|[]]].
      * apply (inv_bot _ _ _ Hinv (U ++ T') t); [|exact Hq].
        rewrite HU, app_assoc. reflexivity.
      * apply Hp, HsubT, in_or_app. right. left. reflexivity.
  - intros rest bot Heq.
    destruct T as [|t T'] using rev_ind.
    + rewrite (HTnil eq_refl). destruct rest as [|? [|? ?]]; try discriminate.
      injection Heq as <-. exists []. reflexivity.
    + clear IHT'. change (p :: T' ++ [t]) with ((p :: T') ++ [t]) in Heq.
      apply app_inj_tail in Heq as [_ <-].
      destruct (inv_bot_first _ _ _ Hinv (U ++ T') t) as [Q' HQ'].
      { rewrite HU, app_assoc. reflexivity. }
      exists (Q' ++ [p]). rewrite HQ'. reflexivity.
  - intros [|x pre] c b a post Heq.
    + injection Heq as <- HT. eapply Hexit. exact HT.
    + injection Heq as _ HT. eapply HturnT. exact HT.
  - intros b a Hin. destruct T as [|t T']; [destruct Hin|].
    change (consecutive (p :: t :: T')) with ((p, t) :: consecutive (t :: T')) in Hin.
    destruct Hin as [[= <- <-]|Hin].
    + apply Hp, HsubT. left. reflexivity.
    + apply (inv_mono _ _ _ Hinv), HpairT, Hin.
  - intros b a Hin q Hq. destruct T as [|t T']; [destruct Hin|].
    change (consecutive (p :: t :: T')) with ((p, t) :: consecutive (t :: T')) in Hin.
    destruct Hin as [[= <- <-]|Hin]; apply in_app_or in Hq as [Hq|[<-|[]]].
    + apply (new_edge_left Qs S U T' t p q Hinv Hp HU Hexit); [|exact Hq].
      intros U' v HU'. destruct (Hlast U' v HU') as (t' & T'' & [= <- <-] & Hle). exact Hle.
    + unfold cr. destruct t, p. cbn [fst snd]. nra.
    + apply (inv_left _ _ _ Hinv _ _ (HpairT _ Hin) q Hq).
    + apply Qlt_le_weak, Hstrict, Hin.
  - intros b a Hin Hsame q Hq. destruct T as [|t T']; [destruct Hin|].
    change (consecutive (p :: t :: T')) with ((p, t) :: consecutive (t :: T')) in Hin.
    destruct Hin as [[= <- <-]|Hin].
    + destruct T' as [|a' T'].
      * assert (Hbot : forall x, In x Qs -> R t x).
        { intros x Hx. apply (inv_bot _ _ _ Hinv U t HU x Hx). }
        apply in_app_or in Hq as [Hq|[<-|[]]].
        -- apply R_antisym; [|apply Hbot, Hq].
           apply (R_same_r q p t); [apply Hp, Hq|exact Hsame].
        -- destruct Hsame. split; symmetry; assumption.
      * exfalso. assert (Hpos : 0 < cr a' t p) by (eapply Hexit; reflexivity).
        rewrite (cr_same_tip a' t p Hsame) in Hpos. apply (Qlt_irrefl 0 Hpos).
    + exfalso. pose proof (Hstrict _ _ Hin) as Hpos.
      rewrite (cr_same_edge a b p Hsame) in Hpos. apply (Qlt_irrefl 0 Hpos).
Qed.

Lemma ChainInv_nil : ChainInv R [] [].
Proof using Type.
  constructor.
  - split; reflexivity.
  - intros x [].
  - intros top rest H. discriminate.
  - intros top rest H. discriminate.
  - intros rest bot H. destruct rest; discriminate.
  - intros rest bot H. destruct rest; discriminate.
  - intros pre c b a post H. destruct pre; discriminate.
  - intros b a [].
  - intros b a [].
  - intros b a [].
Qed.

(** The scan of a list ordered by [R], all of it above what was pushed
    before, keeps the invariant. *)
Lemma scan_inv (rest Qs S : list (@Point Q)) :
  ChainInv R Qs S ->
  (forall q p, In q Qs -> In p rest -> R q p) ->
  StronglySorted R rest ->
  ChainInv R (Qs ++ rest) (fold_left chainPush rest S).
Proof using R_refl R_total R_antisym R_same_r R_turn R_behind R_ahead.
  revert Qs S. induction rest as [|p rest IH]; intros Qs S Hinv Hbefore Hsorted.
  - rewrite app_nil_r. exact Hinv.
  - cbn [fold_left]. replace (Qs ++ p :: rest) with ((Qs ++ [p]) ++ rest)
      by (rewrite <- app_assoc; reflexivity).
    inversion Hsorted as [|? ? Hsorted' Hall]; subst.
    apply IH.
    + apply chainPush_inv; [exact Hinv|].
      intros x Hx. apply Hbefore; [exact Hx|left; reflexivity].
    + intros q p' Hq Hp'. apply in_app_or in Hq as [Hq|[<-|[]]].
      * apply Hbefore; [exact Hq|right; exact Hp'].
      * rewrite List.Forall_forall in Hall. apply Hall, Hp'.
    + exact Hsorted'.
Qed.

(** The whole chain: a list from the first point of the order to the last,
    made of points of the list, with every point of the list on the left of
    each of its edges or on it. *)
Lemma halfHull_inv (pts : list (@Point Q)) :
  StronglySorted R pts ->
  ChainInv R pts (rev (halfHull pts)).
Proof using R_refl R_total R_antisym R_same_r R_turn R_behind R_ahead.
  intros Hsorted. unfold halfHull. rewrite rev_involutive.
  apply (scan_inv pts [] []); [apply ChainInv_nil|intros ? ? []|exact Hsorted].
Qed.

End ChainScan.

(** *** The sort *)

Section SortProperties.
Context {num : Type} {N : JSNumber num}.

Lemma insertSorted_In {A} (cmp : A -> A -> num) (x z : A) (l : list A) :
  In z (insertSorted cmp x l) <-> z = x \/ In z l.
Proof.
  induction l as [|y l IH]; cbn [insertSorted].
  - cbn [In]. intuition congruence.
  - destruct (nltb n0 (cmp x y)); cbn [In]; [rewrite IH|]; intuition congruence.
Qed.

(** The sort returns the points it was given. *)
Lemma jsSort_In {A} (cmp : A -> A -> num) (z : A) (l : list A) :
  In z (jsSort cmp l) <-> In z l.
Proof.
  induction l as [|x l IH]; [reflexivity|].
  cbn [jsSort fold_right]. fold (jsSort cmp l).
  rewrite insertSorted_In, IH. cbn [In]. intuition congruence.
Qed.

End SortProperties.

Section ExactSort.
Context {m : Exact.MathLib}.
Local Open Scope Q_scope.

Lemma lexLe_trans (a b c : @Point Q) : lexLe a b -> lexLe b c -> lexLe a c.
Proof.
  unfold lexLe. intros [?|[? ?]] [?|[? ?]]; [left|left|left|right; split]; lra.
Qed.

Lemma lexLe_same_l (p q t : @Point Q) : lexLe p q -> samePoint t p -> lexLe t q.
Proof. unfold lexLe, samePoint. intros [?|[? ?]] [? ?]; [left|right; split]; lra. Qed.

(** The comparator is positive exactly when its first argument comes
    strictly after its second. *)
Lemma exact_cmpXY_positive (x y : @Point Q) :
  nltb n0 (cmpXY x y) = true <-> ~ lexLe x y.
Proof.
  rewrite exact_ltb_lt. unfold cmpXY, lexLe.
  cbn [neqb nsub nofZ Exact.number].
  destruct (Qeq_bool x.1 y.1) eqn:Heq.
  - apply Qeq_bool_iff in Heq. change (inject_Z 0) with 0. split.
    + intros H [?|[? ?]]; lra.
    + intros H. destruct (Qlt_le_dec y.2 x.2); [lra|]. exfalso. apply H. right. split; lra.
  - apply Qeq_bool_neq in Heq. change (inject_Z 0) with 0. split.
    + intros H [?|[? ?]]; [lra|contradiction].
    + intros H. destruct (Qlt_le_dec y.1 x.1) as [|Hle]; [lra|]. exfalso. apply H.
      left. apply Qle_lteq in Hle as [?|?]; [assumption|contradiction].
Qed.

Lemma insertSorted_sorted (x : @Point Q) (l : list (@Point Q)) :
  StronglySorted lexLe l -> StronglySorted lexLe (insertSorted cmpXY x l).
Proof.
  induction l as [|y l IH]; intros Hs; cbn [insertSorted].
  - constructor; constructor.
  - inversion Hs as [|? ? Hs' Hall]; subst.
    destruct (nltb n0 (cmpXY x y)) eqn:Hc.
    + apply exact_cmpXY_positive in Hc.
      assert (Hyx : lexLe y x) by (destruct (lexLe_total x y); [contradiction|assumption]).
      constructor; [apply IH, Hs'|].
      rewrite List.Forall_forall in *. intros z Hz.
      apply insertSorted_In in Hz as [->|Hz]; [exact Hyx|apply Hall, Hz].
    + assert (Hxy : lexLe x y).
      { destruct (lexLe_total x y) as [H|H]; [exact H|].
        destruct (classic_lexLe x y) as [H'|H']; [exact H'|].
        apply exact_cmpXY_positive in H'. congruence. }
      constructor; [exact Hs|].
      constructor; [exact Hxy|].
      rewrite List.Forall_forall in *. intros z Hz.
      apply (lexLe_trans x y z Hxy), Hall, Hz.
Qed.

(** In exact arithmetic the sort orders the points by [x], then [y]. *)
Lemma jsSort_sorted (l : list (@Point Q)) : StronglySorted lexLe (jsSort cmpXY l).
Proof.
  induction l as [|x l IH]; [constructor|].
  cbn [jsSort fold_right]. apply insertSorted_sorted. exact IH.
Qed.

Lemma StronglySorted_snoc {A} (R : A -> A -> Prop) (l : list A) (x : A) :
  StronglySorted R l -> (forall y, In y l -> R y x) -> StronglySorted R (l ++ [x]).
Proof.
  induction l as [|a l IH]; intros Hs Hx; cbn [app].
  - constructor; constructor.
  - inversion Hs as [|? ? Hs' Hall]; subst.
    constructor.
    + apply IH; [exact Hs'|]. intros y Hy. apply Hx. right. exact Hy.
    + rewrite List.Forall_forall in *. intros z Hz.
      apply in_app_or in Hz as [Hz|[<-|[]]]; [apply Hall, Hz|].
      apply Hx. left. reflexivity.
Qed.

Lemma StronglySorted_rev {A} (R : A -> A -> Prop) (l : list A) :
  StronglySorted R l -> StronglySorted (fun a b => R b a) (rev l).
Proof.
  induction l as [|a l IH]; intros Hs; [constructor|].
  inversion Hs as [|? ? Hs' Hall]; subst. cbn [rev].
  apply StronglySorted_snoc; [apply IH, Hs'|].
  intros y Hy. apply in_rev in Hy.
  rewrite List.Forall_forall in Hall. apply Hall, Hy.
Qed.

End ExactSort.
(** *** Both chains, and the ring they make *)

Section ChainLength.
Context {num : Type} {N : JSNumber num}.

Lemma popNonLeft_nonempty (S : list (@Point num)) (p : @Point num) :
  S <> [] -> popNonLeft S p <> [].
Proof.
  induction S as [|b S IH]; intros HS; [contradiction|].
  cbn [popNonLeft]. destruct S as [|a S]; [discriminate|].
  destruct (nleb (_cross a b p) n0); [apply IH|]; discriminate.
Qed.

Lemma fold_chainPush_length (l S : list (@Point num)) :
  S <> [] -> l <> [] -> (2 <= length (fold_left chainPush l S))%nat.
Proof.
  revert S. induction l as [|p l IH]; intros S HS Hl; [contradiction|].
  cbn [fold_left]. destruct l as [|p' l].
  - cbn [fold_left]. unfold chainPush. cbn [length].
    pose proof (popNonLeft_nonempty S p HS) as Hne.
    destruct (popNonLeft S p); [contradiction|cbn [length]; lia].
  - apply IH; discriminate.
Qed.

(** A chain over two points or more has two points or more. *)
Lemma halfHull_length (pts : list (@Point num)) :
  (2 <= length pts)%nat -> (2 <= length (halfHull pts))%nat.
Proof.
  intros Hlen. unfold halfHull. rewrite length_rev.
  destruct pts as [|a [|b pts]]; cbn [length] in Hlen; try lia.
  apply (fold_chainPush_length (b :: pts) (chainPush [] a)); [unfold chainPush|]; discriminate.
Qed.

End ChainLength.

Section HullRing.
Context {m : Exact.MathLib}.
Local Open Scope Q_scope.

(** What the invariant says of a finished chain [L], read from its first
    point to its last. *)
Lemma ChainInv_digest (R : @Point Q -> @Point Q -> Prop) (Qs L : list (@Point Q)) :
  ChainInv R Qs (rev L) -> L <> [] ->
  (exists f L1 Q1, L = f :: L1 /\ Qs = f :: Q1) /\
  (exists l L2 Q2, L = L2 ++ [l] /\ Qs = Q2 ++ [l]) /\
  (forall x, In x L -> In x Qs) /\
  (forall a b q, In (a, b) (consecutive L) -> In q Qs -> 0 <= cr a b q).
Proof.
  intros Hinv HL. split; [|split; [|split]].
  - destruct L as [|f L1]; [contradiction|].
    destruct (inv_bot_first _ _ _ Hinv (rev L1) f eq_refl) as [Q1 HQ].
    exists f, L1, Q1. split; [reflexivity|exact HQ].
  - destruct (exists_last HL) as [L2 [l ->]].
    assert (Hrev : rev (L2 ++ [l]) = l :: rev L2) by (rewrite rev_app_distr; reflexivity).
    destruct (inv_top_last _ _ _ Hinv l (rev L2) Hrev) as [Q2 HQ].
    exists l, L2, Q2. split; [reflexivity|exact HQ].
  - intros x Hx. apply (inv_sub _ _ _ Hinv). apply -> in_rev. exact Hx.
  - intros a b q Hab Hq. apply (inv_left _ _ _ Hinv b a); [|exact Hq].
    apply consecutive_rev. exact Hab.
Qed.

(** The lower chain is scanned in the order of the sort. *)
Lemma lower_chain_inv (sorted : list (@Point Q)) :
  StronglySorted lexLe sorted -> ChainInv lexLe sorted (rev (halfHull sorted)).
Proof.
  apply halfHull_inv.
  - exact lexLe_refl.
  - exact lexLe_total.
  - exact lexLe_antisym.
  - exact lexLe_same_r.
  - exact cr_turn_extends.
  - exact cr_behind.
  - exact cr_ahead.
Qed.

(** The upper chain is scanned in the reverse order: the point reflection
    carries it to the order of the sort and keeps the cross products. *)
Lemma upper_chain_inv (sorted : list (@Point Q)) :
  StronglySorted lexLe sorted ->
  ChainInv (fun a b => lexLe b a) (rev sorted) (rev (halfHull (rev sorted))).
Proof.
  intros Hs. apply halfHull_inv.
  - intros a. apply lexLe_refl.
  - intros a b. apply lexLe_total.
  - intros a b Hab Hba. apply lexLe_antisym; assumption.
  - intros q p t Hqp Ht. apply (lexLe_same_l p q t); assumption.
  - intros a b c p Hab Hbc Hcp H1 H2.
    rewrite <- cr_reflect in *.
    apply lexLe_reflect in Hab, Hbc, Hcp.
    exact (cr_turn_extends _ _ _ _ Hab Hbc Hcp H1 H2).
  - intros a t q p Hat Hqt Htp H1 H2.
    rewrite <- cr_reflect in *.
    apply lexLe_reflect in Hat, Hqt, Htp.
    exact (cr_behind _ _ _ _ Hat Hqt Htp H1 H2).
  - intros t v q p Htv Htq Htp Hne H1 H2.
    rewrite <- cr_reflect in *.
    apply lexLe_reflect in Htv, Htq, Htp.
    apply (cr_ahead _ (reflect v)); try assumption.
    intros Hsame. apply Hne. apply samePoint_reflect. exact Hsame.
  - apply StronglySorted_rev. exact Hs.
Qed.

(** The ring of the two chains of a sorted list of two points or more:
    its points are points of the list, and every point of the list is on
    the left of each of its edges, or on it. *)
Lemma monotoneChain_ring (sorted : list (@Point Q)) :
  StronglySorted lexLe sorted -> (2 <= length sorted)%nat ->
  (forall x, In x (monotoneChain sorted) -> In x sorted) /\
  (forall a b q, In (a, b) (ringPairs (monotoneChain sorted)) -> In q sorted ->
                 0 <= cr a b q).
Proof.
  intros Hs Hlen.
  pose proof (halfHull_length sorted Hlen) as HlenL.
  assert (HlenR : (2 <= length (rev sorted))%nat) by (rewrite length_rev; exact Hlen).
  pose proof (halfHull_length (rev sorted) HlenR) as HlenU.
  assert (HL : halfHull sorted <> []) by (intros E; rewrite E in HlenL; cbn in HlenL; lia).
  assert (HU : halfHull (rev sorted) <> [])
    by (intros E; rewrite E in HlenU; cbn in HlenU; lia).
  destruct (ChainInv_digest _ _ _ (lower_chain_inv sorted Hs) HL)
    as [[f [L1 [Q1 [EL1 EQ1]]]] [[l [L2 [Q2 [EL2 EQ2]]]] [HsubL HleftL]]].
  destruct (ChainInv_digest _ _ _ (upper_chain_inv sorted Hs) HU)
    as [[f' [U1 [Q1' [EU1 EQ1']]]] [[l' [U2 [Q2' [EU2 EQ2']]]] [HsubU HleftU]]].
  assert (Hf' : f' = l).
  { rewrite EQ2, rev_app_distr in EQ1'. cbn [rev app] in EQ1'. congruence. }
  assert (Hl' : l' = f).
  { rewrite EQ1 in EQ2'. cbn [rev] in EQ2'. apply app_inj_tail in EQ2' as [_ E].
    symmetry. exact E. }
  subst f' l'.
  assert (Hhull : monotoneChain sorted = L2 ++ U2).
  { unfold monotoneChain. rewrite EL2, EU2, !removelast_last. reflexivity. }
  split.
  - intros x Hx. rewrite Hhull in Hx. apply in_app_or in Hx as [Hx|Hx].
    + apply HsubL. rewrite EL2. apply in_or_app. left. exact Hx.
    + apply in_rev, HsubU. rewrite EU2. apply in_or_app. left. exact Hx.
  - intros a b q Hab Hq.
    assert (Hring : ringPairs (monotoneChain sorted)
                    = consecutive (halfHull sorted) ++ consecutive (halfHull (rev sorted))).
    { unfold ringPairs. rewrite Hhull.
      destruct L2 as [|f0 L2'].
      { rewrite EL2 in HlenL. cbn in HlenL. lia. }
      assert (f0 = f) by (rewrite EL2 in EL1; cbn [app] in EL1; congruence). subst f0.
      change (take 1 ((f :: L2') ++ U2)) with [f].
      rewrite <- app_assoc, <- EU2.
      rewrite EU1 at 1. rewrite consecutive_overlap, <- EL2, <- EU1. reflexivity. }
    rewrite Hring in Hab. apply in_app_or in Hab as [Hab|Hab].
    + apply (HleftL a b q Hab Hq).
    + apply (HleftU a b q Hab). apply -> in_rev. exact Hq.
Qed.

(** The hull of any list of points, in exact arithmetic. *)
Lemma convexHull_ring (points : list (@Point Q)) :
  (forall x, In x (convexHull points) -> In x (stripClosingDuplicate points)) /\
  (forall a b q, In (a, b) (ringPairs (convexHull points)) ->
                 In q (stripClosingDuplicate points) -> 0 <= cr a b q).
Proof.
  rewrite convexHull_monotoneChain.
  destruct (length (stripClosingDuplicate points) <=? 1)%nat eqn:Hlen.
  - apply Nat.leb_le in Hlen. split; [intros x Hx; exact Hx|].
    intros a b q Hab Hq.
    destruct (stripClosingDuplicate points) as [|z [|z' rest]].
    + destruct Hab.
    + destruct Hab as [E|[]]. injection E as <- <-.
      rewrite (cr_same_edge z z q); [apply Qle_refl|split; reflexivity].
    + cbn [length] in Hlen. lia.
  - apply Nat.leb_gt in Hlen.
    destruct (monotoneChain_ring (jsSort cmpXY (stripClosingDuplicate points)))
      as [Hsub Hleft].
    + apply jsSort_sorted.
    + rewrite jsSort_length. lia.
    + split.
      * intros x Hx. apply (jsSort_In cmpXY). apply Hsub. exact Hx.
      * intros a b q Hab Hq. apply (Hleft a b q Hab). apply jsSort_In. exact Hq.
Qed.

End HullRing.

(** C9, amended.  [convexHull] first strips a duplicate closing point from
    its input.  With no point or one point left it returns what is left;
    with two points left it returns them in the order of the sort (by [x],
    then [y]), so swapped when the first comes after the second; with more
    it returns the monotone chain of the sorted points, the lower chain then
    the upper chain, each without its last point, and every three
    consecutive points of either chain turn left.  In exact arithmetic the
    result is a counter-clockwise hull: its points are input points, and
    every input point is on the left of each edge of the returned ring, or
    on it. *)
Theorem convexHull_monotone_chain_ccw :
  (forall (num : Type) (N : JSNumber num) (points : list (@Point num)),
     convexHull points
     = match stripClosingDuplicate points with
       | [] => []
       | [a] => [a]
       | [a; b] => if nltb n0 (cmpXY a b) then [b; a] else [a; b]
       | pts => monotoneChain (jsSort cmpXY pts)
       end
     /\ TurnsLeft (halfHull (jsSort cmpXY (stripClosingDuplicate points)))
     /\ TurnsLeft (halfHull (rev (jsSort cmpXY (stripClosingDuplicate points)))))
  /\ (forall (m : Exact.MathLib) (points : list (@Point Q)),
        (forall x, In x (convexHull points) -> In x (stripClosingDuplicate points))
        /\ (forall a b q,
               In (a, b) (ringPairs (convexHull points)) ->
               In q (stripClosingDuplicate points) -> (0 <= cr a b q)%Q)).
Proof.
  split.
  - intros num N points. split; [|split; apply halfHull_TurnsLeft].
    rewrite convexHull_cases.
    destruct (stripClosingDuplicate points) as [|a [|b [|c pts]]]; reflexivity.
  - intros m points. apply convexHull_ring.
Qed.
(** ** Further properties of the geometry helpers *)

Section ExactOrder.
Context {m : Exact.MathLib}.
Local Open Scope Q_scope.

Lemma exact_leb_le (a b : Q) : nleb a b = true <-> a <= b.
Proof. cbn [nleb Exact.number]. apply Qle_bool_iff. Qed.

Lemma exact_leb_gt (a b : Q) : nleb a b = false <-> b < a.
Proof.
  cbn [nleb Exact.number]. rewrite <- not_true_iff_false, Qle_bool_iff. split.
  - apply Qnot_le_lt.
  - apply Qlt_not_le.
Qed.

Lemma exact_ltb_ge (a b : Q) : nltb a b = false <-> b <= a.
Proof.
  cbn [nltb Exact.number]. unfold Exact.ltb.
  rewrite negb_false_iff. apply Qle_bool_iff.
Qed.

Lemma exact_max_spec (a b : Q) :
  (a <= b /\ nmax a b = b) \/ (b < a /\ nmax a b = a).
Proof.
  cbn [nmax Exact.number]. unfold Exact.max.
  destruct (Qle_bool a b) eqn:H.
  - left. split; [apply Qle_bool_iff; exact H|reflexivity].
  - right. split; [|reflexivity].
    apply Qnot_le_lt. intros Hle. apply Qle_bool_iff in Hle. congruence.
Qed.

Lemma exact_min_spec (a b : Q) :
  (a <= b /\ nmin a b = a) \/ (b < a /\ nmin a b = b).
Proof.
  cbn [nmin Exact.number]. unfold Exact.min.
  destruct (Qle_bool a b) eqn:H.
  - left. split; [apply Qle_bool_iff; exact H|reflexivity].
  - right. split; [|reflexivity].
    apply Qnot_le_lt. intros Hle. apply Qle_bool_iff in Hle. congruence.
Qed.

End ExactOrder.

Section AreaProperties.
Context {m : Exact.MathLib}.
Local Open Scope Q_scope.

Lemma pathSum_overlap (l u : list (@Point Q)) (z : @Point Q) :
  pathSum (l ++ z :: u) == pathSum (l ++ [z]) + pathSum (z :: u).
Proof.
  induction l as [|a l IH].
  - cbn [app pathSum]. ring.
  - destruct l as [|b l].
    + cbn [app]. change (pathSum (a :: z :: u)) with (edgeCross a z + pathSum (z :: u)).
      cbn [pathSum]. ring.
    + change (pathSum ((a :: b :: l) ++ z :: u))
        with (edgeCross a b + pathSum ((b :: l) ++ z :: u)).
      change (pathSum ((a :: b :: l) ++ [z]))
        with (edgeCross a b + pathSum ((b :: l) ++ [z])).
      rewrite IH. ring.
Qed.

(** The shoelace sum round a ring does not depend on the vertex the ring
    starts from. *)
Lemma ringSum_rotate (l1 l2 : list (@Point Q)) :
  l1 <> [] -> l2 <> [] ->
  pathSum ((l2 ++ l1) ++ [at_ (l2 ++ l1) 0]) == pathSum ((l1 ++ l2) ++ [at_ (l1 ++ l2) 0]).
Proof.
  intros H1 H2.
  destruct l1 as [|a l1]; [contradiction|]. destruct l2 as [|b l2]; [contradiction|].
  change (at_ ((b :: l2) ++ a :: l1) 0) with b.
  change (at_ ((a :: l1) ++ b :: l2) 0) with a.
  rewrite <- !app_assoc.
  change ((a :: l1) ++ [b]) with (a :: l1 ++ [b]).
  change ((b :: l2) ++ [a]) with (b :: l2 ++ [a]).
  rewrite (pathSum_overlap (b :: l2) (l1 ++ [b]) a).
  rewrite (pathSum_overlap (a :: l1) (l2 ++ [a]) b).
  change ((a :: l1) ++ [b]) with (a :: l1 ++ [b]).
  change ((b :: l2) ++ [a]) with (b :: l2 ++ [a]).
  ring.
Qed.

Lemma signedArea_rotate (l1 l2 : list (@Point Q)) :
  signedArea (l2 ++ l1) == signedArea (l1 ++ l2).
Proof.
  destruct l1 as [|a l1]; [rewrite app_nil_r; reflexivity|].
  destruct l2 as [|b l2]; [rewrite app_nil_r; reflexivity|].
  destruct (Nat.ltb_spec (length ((a :: l1) ++ b :: l2)) 3) as [Hlt|Hge].
  - unfold signedArea.
    assert (Hlen : length ((b :: l2) ++ a :: l1) = length ((a :: l1) ++ b :: l2))
      by (rewrite !length_app; lia).
    rewrite Hlen.
    destruct (Nat.ltb_spec (length ((a :: l1) ++ b :: l2)) 3); [reflexivity|lia].
  - rewrite !signedArea_ring by (rewrite length_app in *; cbn [length] in *; lia).
    rewrite ringSum_rotate by discriminate. reflexivity.
Qed.

Lemma shoelaceArea_abs (l : list (@Point Q)) : shoelaceArea l == Qabs (signedArea l).
Proof.
  unfold shoelaceArea, signedArea.
  destruct (length l <? 3)%nat; [reflexivity|].
  cbn [nabs ndiv nofZ nadd nsub nmul Exact.number].
  set (s := fold_left _ _ _).
  unfold Qdiv. rewrite Qabs_Qmult.
  rewrite (Qabs_pos (/ inject_Z 2)); [reflexivity|]. vm_compute. discriminate.
Qed.

(** X1.  In exact arithmetic [shoelaceArea] is the absolute value of
    [signedArea]: it is never negative, and it is the same for a ring read
    backwards or read from another of its vertices. *)
Theorem shoelaceArea_unsigned_and_ring_invariant (l l1 l2 : list (@Point Q)) :
  shoelaceArea l == Qabs (signedArea l)
  /\ 0 <= shoelaceArea l
  /\ shoelaceArea (rev l) == shoelaceArea l
  /\ shoelaceArea (l2 ++ l1) == shoelaceArea (l1 ++ l2).
Proof.
  split; [apply shoelaceArea_abs|]. split; [|split].
  - rewrite shoelaceArea_abs. apply Qabs_nonneg.
  - rewrite !shoelaceArea_abs.
    destruct (Nat.ltb_spec (length l) 3) as [Hlt|Hge].
    + unfold signedArea. rewrite length_rev.
      destruct (Nat.ltb_spec (length l) 3); [reflexivity|lia].
    + rewrite signedArea_rev by exact Hge. apply Qabs_opp.
  - rewrite !shoelaceArea_abs, signedArea_rotate. reflexivity.
Qed.

End AreaProperties.
(** ** Projection on a segment *)

Section ProjectionProperties.
Context {m : Exact.MathLib}.
Local Open Scope Q_scope.

(** The point of the segment [a b] at parameter [s]. *)
Lemma exact_lit_1e12 : @lit_1e12 Q _ == 1 # 1000000000000.
Proof. vm_compute. reflexivity. Qed.

Lemma clamp_unit (x : Q) :
  (x <= 0 /\ nmax n0 (nmin n1 x) == 0)
  \/ (0 <= x <= 1 /\ nmax n0 (nmin n1 x) == x)
  \/ (1 <= x /\ nmax n0 (nmin n1 x) == 1).
Proof.
  change (@nofZ Q _ 0) with (inject_Z 0). change (@nofZ Q _ 1) with (inject_Z 1).
  change (inject_Z 0) with 0. change (inject_Z 1) with 1.
  destruct (exact_min_spec 1 x) as [[H1 ->]|[H1 ->]].
  - right. right. split; [exact H1|].
    destruct (exact_max_spec 0 1) as [[_ ->]|[H _]]; [reflexivity|].
    exfalso. revert H. vm_compute. discriminate.
  - destruct (exact_max_spec 0 x) as [[H0 ->]|[H0 ->]].
    + right. left. split; [split; [exact H0|apply Qlt_le_weak; exact H1]|reflexivity].
    + left. split; [apply Qlt_le_weak; exact H0|reflexivity].
Qed.

(** The squared distance from [p] to the point at parameter [s] of the
    line through [a] and [b], as a quadratic in [s]. *)
Lemma dist2_along (p a b : @Point Q) (s : Q) :
  dist2 p (a.1 + s * (b.1 - a.1), a.2 + s * (b.2 - a.2))
  == dist2 p a
     - 2 * s * ((p.1 - a.1) * (b.1 - a.1) + (p.2 - a.2) * (b.2 - a.2))
     + s * s * ((b.1 - a.1) * (b.1 - a.1) + (b.2 - a.2) * (b.2 - a.2)).
Proof.
  unfold dist2. cbn [nadd nsub nmul Exact.number fst snd]. ring.
Qed.

(** X2.  In exact arithmetic [pointSegProjection] returns a point of the
    segment: its parameter [t] lies between 0 and 1, [proj] is
    [a + t (b - a)] and [d2] is the squared distance from [p] to [proj].
    When the segment is longer than 1e-6 (squared length above 1e-12) no
    point of the segment is nearer to [p]; a shorter segment is treated as
    its first end point. *)
Theorem pointSegProjection_nearest_on_segment (p a b : @Point Q) :
  let info := pointSegProjection p a b in
  let vv := (b.1 - a.1) * (b.1 - a.1) + (b.2 - a.2) * (b.2 - a.2) in
  0 <= t info <= 1
  /\ (proj info).1 == a.1 + t info * (b.1 - a.1)
  /\ (proj info).2 == a.2 + t info * (b.2 - a.2)
  /\ d2 info == dist2 p (proj info)
  /\ (vv <= 1 # 1000000000000 -> proj info = a /\ t info == 0)
  /\ (1 # 1000000000000 < vv ->
      forall s, 0 <= s <= 1 ->
        d2 info <= dist2 p (a.1 + s * (b.1 - a.1), a.2 + s * (b.2 - a.2))).
Proof.
  intros info vv. subst info. unfold pointSegProjection.
  cbn [nadd nsub nmul ndiv Exact.number]. fold vv.
  set (c := (p.1 - a.1) * (b.1 - a.1) + (p.2 - a.2) * (b.2 - a.2)).
  destruct (nleb vv lit_1e12) eqn:Hvv.
  - apply exact_leb_le in Hvv. rewrite exact_lit_1e12 in Hvv.
    cbn [proj d2 t]. change (@nofZ Q _ 0) with 0.
    split; [split; [apply Qle_refl|discriminate]|].
    split; [ring|]. split; [ring|]. split; [reflexivity|].
    split; [intros _; split; reflexivity|].
    intros Hlt. exfalso. apply (Qlt_irrefl vv).
    apply (Qle_lt_trans _ (1 # 1000000000000)); assumption.
  - apply exact_leb_gt in Hvv. rewrite exact_lit_1e12 in Hvv.
    cbn [proj d2 t fst snd].
    set (tt := nmax n0 (nmin n1 (c / vv))).
    assert (Hvv0 : 0 < vv) by (apply (Qlt_trans _ (1 # 1000000000000)); [reflexivity|exact Hvv]).
    assert (Hc : c / vv * vv == c) by (field; intros E; rewrite E in Hvv0; discriminate).
    assert (Hclamp := clamp_unit (c / vv)). fold tt in Hclamp.
    assert (Htt : 0 <= tt <= 1).
    { destruct Hclamp as [[_ E]|[[[H0 H1] E]|[_ E]]]; rewrite E; split;
        try assumption; try apply Qle_refl; discriminate. }
    split; [exact Htt|]. split; [reflexivity|]. split; [reflexivity|].
    split; [reflexivity|].
    split.
    { intros Hle. exfalso. apply (Qlt_irrefl vv).
      apply (Qle_lt_trans _ (1 # 1000000000000)); assumption. }
    intros _ s [Hs0 Hs1].
    fold (fst a) (snd a).
    rewrite (dist2_along p a b tt), (dist2_along p a b s).
    fold c. fold vv.
    set (s0 := c / vv) in *. clearbody tt s0. clearbody c vv.
    assert (Hgoal : 0 <= (s - tt) * (vv * (s + tt) - 2 * (s0 * vv))).
    { destruct Hclamp as [[Hx E]|[[[H0 H1] E]|[Hx E]]]; rewrite E.
      - assert (0 <= vv * s) by nra.
        assert (0 <= - (s0 * vv)) by nra. nra.
      - assert (Hsq : (s - s0) * (vv * (s + s0) - 2 * (s0 * vv)) == vv * ((s - s0) * (s - s0)))
          by ring.
        rewrite Hsq. apply Qmult_le_0_compat; [apply Qlt_le_weak; exact Hvv0|].
        generalize (s - s0). intros x. clear. nra.
      - assert (0 <= (1 - s) * vv) by nra.
        assert (0 <= (s0 - 1) * vv) by nra. nra. }
    rewrite Hc in Hgoal. nra.
Qed.

End ProjectionProperties.
(** ** Snapping helpers *)

Section SnapSound.
Context {num : Type} {N : JSNumber num}.

(** What the loop of [snapToNearestSegment] holds in [best]: what it
    started with, or the projection on one of the segments. *)
Lemma nearestSeg_fold_origin (p : @Point num) (segs : list (@Segment num))
    (st : option ProjInfo * num) (info : ProjInfo) :
  (fold_left (nearestSegStep p) segs st).1 = Some info ->
  st.1 = Some info
  \/ exists seg, In seg segs /\ info = pointSegProjection p seg.1 seg.2.
Proof.
  revert st. induction segs as [|seg segs IH]; intros st H; cbn [fold_left] in H.
  - left. exact H.
  - apply IH in H as [H|(seg' & Hin & ->)].
    + unfold nearestSegStep in H.
      destruct (nltb (d2 (pointSegProjection p seg.1 seg.2)) st.2).
      * right. exists seg. split; [left; reflexivity|]. cbn in H. congruence.
      * left. exact H.
    + right. exists seg'. split; [right; exact Hin|reflexivity].
Qed.

Lemma nearestPool_fold_origin (p : @Point num) (pool : list (@Point num))
    (st : option (@Point num) * num) (q : @Point num) :
  (fold_left (nearestPoolStep p) pool st).1 = Some q ->
  (st.1 = Some q /\ (fold_left (nearestPoolStep p) pool st).2 = st.2)
  \/ (In q pool /\ (fold_left (nearestPoolStep p) pool st).2 = dist2 p q).
Proof.
  revert st. induction pool as [|x pool IH]; intros st H; cbn [fold_left] in *.
  - left. split; [exact H|reflexivity].
  - apply IH in H as [[H E]|[Hin E]].
    + unfold nearestPoolStep in H, E |- *.
      destruct (nltb (dist2 p x) st.2).
      * right. cbn in H, E. injection H as <-. split; [left; reflexivity|exact E].
      * left. split; [exact H|exact E].
    + right. split; [right; exact Hin|exact E].
Qed.

Lemma nearestPools_fold_origin (p : @Point num) (pools : list (list (@Point num)))
    (st : option (@Point num) * num) (q : @Point num) :
  let out := fold_left (fun st pool => fold_left (nearestPoolStep p) pool st) pools st in
  out.1 = Some q ->
  (st.1 = Some q /\ out.2 = st.2)
  \/ ((exists pool, In pool pools /\ In q pool) /\ out.2 = dist2 p q).
Proof.
  revert st. induction pools as [|pool pools IH]; intros st out H; subst out;
    cbn [fold_left] in *.
  - left. split; [exact H|reflexivity].
  - apply IH in H as [[H E]|[(pool' & Hin & Hq) E]].
    + apply nearestPool_fold_origin in H as [[H E']|[Hin E']].
      * left. split; [exact H|]. rewrite E. exact E'.
      * right. split; [|rewrite E; exact E'].
        exists pool. split; [left; reflexivity|exact Hin].
    + right. split; [|exact E]. exists pool'. split; [right; exact Hin|exact Hq].
Qed.

End SnapSound.

Section SnapNearest.
Context {m : Exact.MathLib}.
Local Open Scope Q_scope.

(** In exact arithmetic the loops keep the least squared distance seen. *)
Lemma nearestSeg_fold_least (p : @Point Q) (segs : list (@Segment Q))
    (st : option ProjInfo * Q) :
  let out := fold_left (nearestSegStep p) segs st in
  out.2 <= st.2
  /\ (forall seg, In seg segs -> out.2 <= d2 (pointSegProjection p seg.1 seg.2))
  /\ ((forall i, st.1 = Some i -> d2 i == st.2) -> forall i, out.1 = Some i -> d2 i == out.2).
Proof.
  revert st. induction segs as [|seg segs IH]; intros st out; subst out; cbn [fold_left].
  - split; [apply Qle_refl|]. split; [intros ? []|]. intros H. exact H.
  - destruct (IH (nearestSegStep p st seg)) as (Hle & Hall & Hbest).
    assert (Hstep : (nearestSegStep p st seg).2 <= st.2
                    /\ (nearestSegStep p st seg).2 <= d2 (pointSegProjection p seg.1 seg.2)
                    /\ ((forall i, st.1 = Some i -> d2 i == st.2) ->
                        forall i, (nearestSegStep p st seg).1 = Some i ->
                                  d2 i == (nearestSegStep p st seg).2)).
    { unfold nearestSegStep.
      destruct (nltb (d2 (pointSegProjection p seg.1 seg.2)) st.2) eqn:Hlt; cbn [fst snd].
      - apply exact_ltb_lt in Hlt. split; [apply Qlt_le_weak; exact Hlt|].
        split; [apply Qle_refl|]. intros _ i [= <-]. reflexivity.
      - apply exact_ltb_ge in Hlt. split; [apply Qle_refl|]. split; [exact Hlt|].
        intros H. exact H. }
    destruct Hstep as (Hs1 & Hs2 & Hs3).
    split; [apply (Qle_trans _ _ _ Hle Hs1)|]. split.
    + intros seg' [<-|Hin]; [apply (Qle_trans _ _ _ Hle Hs2)|apply Hall, Hin].
    + intros H. apply Hbest, Hs3, H.
Qed.

Lemma nearestPool_fold_least (p : @Point Q) (pool : list (@Point Q))
    (st : option (@Point Q) * Q) :
  let out := fold_left (nearestPoolStep p) pool st in
  out.2 <= st.2 /\ (forall q, In q pool -> out.2 <= dist2 p q).
Proof.
  revert st. induction pool as [|x pool IH]; intros st out; subst out; cbn [fold_left].
  - split; [apply Qle_refl|intros ? []].
  - destruct (IH (nearestPoolStep p st x)) as (Hle & Hall).
    assert (Hstep : (nearestPoolStep p st x).2 <= st.2
                    /\ (nearestPoolStep p st x).2 <= dist2 p x).
    { unfold nearestPoolStep.
      destruct (nltb (dist2 p x) st.2) eqn:Hlt; cbn [fst snd].
      - apply exact_ltb_lt in Hlt. split; [apply Qlt_le_weak; exact Hlt|apply Qle_refl].
      - apply exact_ltb_ge in Hlt. split; [apply Qle_refl|exact Hlt]. }
    destruct Hstep as (Hs1 & Hs2).
    split; [apply (Qle_trans _ _ _ Hle Hs1)|].
    intros q [<-|Hin]; [apply (Qle_trans _ _ _ Hle Hs2)|apply Hall, Hin].
Qed.

Lemma nearestPools_fold_least (p : @Point Q) (pools : list (list (@Point Q)))
    (st : option (@Point Q) * Q) :
  let out := fold_left (fun st pool => fold_left (nearestPoolStep p) pool st) pools st in
  out.2 <= st.2 /\ (forall pool q, In pool pools -> In q pool -> out.2 <= dist2 p q).
Proof.
  revert st. induction pools as [|pool pools IH]; intros st out; subst out; cbn [fold_left].
  - split; [apply Qle_refl|intros ? ? []].
  - destruct (IH (fold_left (nearestPoolStep p) pool st)) as (Hle & Hall).
    destruct (nearestPool_fold_least p pool st) as (Hs1 & Hs2).
    split; [apply (Qle_trans _ _ _ Hle Hs1)|].
    intros pool' q [<-|Hin] Hq; [apply (Qle_trans _ _ _ Hle), Hs2, Hq|apply (Hall pool' q Hin Hq)].
Qed.

End SnapNearest.

(** X3.  [snapToNearestSegment] answers [null] on an empty list; a point
    it returns is the projection of [p] on one of the segments given, and
    the square root of its squared distance is within the tolerance.  In
    exact arithmetic no other segment has a projection nearer to [p]. *)
Theorem snapToNearestSegment_projection_within_tolerance :
  (forall (num : Type) (N : JSNumber num) (p : @Point num) (segments : list (@Segment num))
          (tolUnits : num),
     snapToNearestSegment p [] tolUnits = None
     /\ forall q, snapToNearestSegment p segments tolUnits = Some q ->
        exists seg,
          In seg segments
          /\ q = proj (pointSegProjection p seg.1 seg.2)
          /\ nleb (nsqrt (d2 (pointSegProjection p seg.1 seg.2))) tolUnits = true)
  /\ (forall (m : Exact.MathLib) (p : @Point Q) (segments : list (@Segment Q)) (tolUnits : Q),
        forall q, snapToNearestSegment p segments tolUnits = Some q ->
        exists seg,
          In seg segments
          /\ q = proj (pointSegProjection p seg.1 seg.2)
          /\ forall seg', In seg' segments ->
               (d2 (pointSegProjection p seg.1 seg.2)
                <= d2 (pointSegProjection p seg'.1 seg'.2))%Q).
Proof.
  split.
  - intros num N p segments tolUnits. split; [reflexivity|].
    intros q H. unfold snapToNearestSegment in H.
    destruct segments as [|s0 segs]; [discriminate|].
    destruct (fold_left (nearestSegStep p) (s0 :: segs) (None, ninfinity)).1 as [best|] eqn:Hb;
      [|discriminate].
    destruct (nleb (nsqrt (d2 best)) tolUnits) eqn:Htol; [|discriminate].
    injection H as <-.
    apply nearestSeg_fold_origin in Hb as [Hb|(seg & Hin & ->)]; [discriminate|].
    exists seg. split; [exact Hin|]. split; [reflexivity|exact Htol].
  - intros m p segments tolUnits q H. unfold snapToNearestSegment in H.
    destruct segments as [|s0 segs]; [discriminate|].
    destruct (fold_left (nearestSegStep p) (s0 :: segs) (None, ninfinity)).1 as [best|] eqn:Hb;
      [|discriminate].
    destruct (nleb (nsqrt (d2 best)) tolUnits); [|discriminate].
    injection H as <-.
    destruct (nearestSeg_fold_least p (s0 :: segs) (None, ninfinity)) as (_ & Hall & Hbest).
    pose proof (Hbest (fun i (H : None = Some i) => ltac:(discriminate)) best Hb) as Hd.
    apply nearestSeg_fold_origin in Hb as [Hb|(seg & Hin & ->)]; [discriminate|].
    exists seg. split; [exact Hin|]. split; [reflexivity|].
    intros seg' Hin'. rewrite Hd. apply Hall, Hin'.
Qed.

(** X4.  [snapToPools] returns the point it was given or a point of one of
    the pools whose distance from it (the square root of the squared
    distance) is within the tolerance: it never invents a point.  In exact
    arithmetic a point it snaps to is a nearest one: no point of any pool is
    nearer. *)
Theorem snapToPools_returns_pool_point_within_tolerance :
  (forall (num : Type) (N : JSNumber num) (p : @Point num) (pools : list (list (@Point num)))
          (tolUnits : num),
     snapToPools p pools tolUnits = p
     \/ exists pool,
          In pool pools /\ In (snapToPools p pools tolUnits) pool
          /\ nleb (nsqrt (dist2 p (snapToPools p pools tolUnits))) tolUnits = true)
  /\ (forall (m : Exact.MathLib) (p : @Point Q) (pools : list (list (@Point Q)))
             (tolUnits : Q),
        snapToPools p pools tolUnits = p
        \/ forall pool q, In pool pools -> In q pool ->
             (dist2 p (snapToPools p pools tolUnits) <= dist2 p q)%Q).
Proof.
  split.
  - intros num N p pools tolUnits. unfold snapToPools.
    pose proof (nearestPools_fold_origin p pools (None, ninfinity)) as Ho. cbn zeta in Ho.
    destruct (fold_left _ pools (None, ninfinity)) as [[best|] bestD2]; [|left; reflexivity].
    destruct (nleb (nsqrt bestD2) tolUnits) eqn:Htol; [|left; reflexivity].
    destruct (Ho best eq_refl) as [[Hb _]|[(pool & Hin & Hq) E]]; [discriminate|].
    right. exists pool. cbn [snd] in E. subst bestD2.
    split; [exact Hin|]. split; [exact Hq|exact Htol].
  - intros m p pools tolUnits. unfold snapToPools.
    pose proof (nearestPools_fold_origin p pools (None, ninfinity)) as Ho.
    pose proof (nearestPools_fold_least p pools (None, ninfinity)) as Hl.
    cbn zeta in Ho, Hl.
    destruct (fold_left _ pools (None, ninfinity)) as [[best|] bestD2]; [|left; reflexivity].
    destruct (nleb (nsqrt bestD2) tolUnits); [|left; reflexivity].
    destruct (Ho best eq_refl) as [[Hb _]|[_ E]]; [discriminate|].
    right. intros pool q Hin Hq. cbn [snd] in E, Hl. rewrite <- E.
    apply (proj2 Hl pool q Hin Hq).
Qed.
(** ** Axis lock, ring closure and winding *)

Section AxisLock.
Context {m : Exact.MathLib}.
Local Open Scope Q_scope.

Lemma Qabs_self_zero (x : Q) : Qabs (x - x) == 0.
Proof. assert (H : x - x == 0) by ring. rewrite H. reflexivity. Qed.

Lemma Qabs_square (x : Q) : Qabs x * Qabs x == x * x.
Proof.
  rewrite <- Qabs_Qmult. apply Qabs_pos.
  destruct (Qlt_le_dec x 0); nra.
Qed.

(** X5.  In exact arithmetic the axis lock keeps one coordinate of the
    pointer and takes the other from the anchor, along the axis of the
    larger displacement (the horizontal one on a tie); of the two locked
    candidates it returns the one nearer to the pointer, and locking a
    locked point again changes nothing. *)
Theorem axisAlign_locks_major_axis (prev p : @Point Q) :
  let r := axisAlign (Some prev) p in
  (r = (p.1, prev.2) \/ r = (prev.1, p.2))
  /\ (Qabs (p.2 - prev.2) <= Qabs (p.1 - prev.1) <-> r = (p.1, prev.2))
  /\ dist2 p r <= dist2 p (p.1, prev.2)
  /\ dist2 p r <= dist2 p (prev.1, p.2)
  /\ axisAlign (Some prev) r = r.
Proof.
  intros r. subst r. unfold axisAlign.
  cbn [nabs nsub nleb Exact.number].
  assert (Hd1 : dist2 p (p.1, prev.2) == Qabs (p.2 - prev.2) * Qabs (p.2 - prev.2)).
  { unfold dist2. cbn [nadd nsub nmul Exact.number fst snd].
    rewrite Qabs_square. ring. }
  assert (Hd2 : dist2 p (prev.1, p.2) == Qabs (p.1 - prev.1) * Qabs (p.1 - prev.1)).
  { unfold dist2. cbn [nadd nsub nmul Exact.number fst snd].
    rewrite Qabs_square. ring. }
  pose proof (Qabs_nonneg (p.1 - prev.1)) as Hx.
  pose proof (Qabs_nonneg (p.2 - prev.2)) as Hy.
  destruct (Qle_bool (Qabs (p.2 - prev.2)) (Qabs (p.1 - prev.1))) eqn:Hle.
  - apply Qle_bool_iff in Hle.
    split; [left; reflexivity|]. split; [tauto|]. split; [apply Qle_refl|].
    split; [rewrite Hd1, Hd2; nra|].
    cbn [fst snd].
    assert (Hb : Qle_bool (Qabs (prev.2 - prev.2)) (Qabs (p.1 - prev.1)) = true).
    { apply Qle_bool_iff. rewrite Qabs_self_zero. exact Hx. }
    rewrite Hb. reflexivity.
  - assert (Hlt : Qabs (p.1 - prev.1) < Qabs (p.2 - prev.2)).
    { apply Qnot_le_lt. intros H. apply Qle_bool_iff in H. congruence. }
    split; [right; reflexivity|]. split.
    { split; [intros H; exfalso; apply (Qlt_not_le _ _ Hlt H)|].
      intros E. exfalso.
      assert (E1 : prev.1 == p.1) by (injection E as E1 _; rewrite E1; reflexivity).
      assert (Hz : Qabs (p.1 - prev.1) == 0) by (rewrite E1; apply Qabs_self_zero).
      assert (E2 : p.2 == prev.2) by (injection E as _ E2; rewrite E2; reflexivity).
      assert (Hz2 : Qabs (p.2 - prev.2) == 0) by (rewrite E2; apply Qabs_self_zero).
      rewrite Hz, Hz2 in Hlt. discriminate. }
    split; [rewrite Hd1, Hd2; nra|]. split; [apply Qle_refl|].
    cbn [fst snd].
    assert (Hb : Qle_bool (Qabs (p.2 - prev.2)) (Qabs (prev.1 - prev.1)) = false).
    { apply not_true_iff_false. intros H. apply Qle_bool_iff in H.
      rewrite Qabs_self_zero in H. apply (Qlt_not_le _ _ Hlt).
      apply (Qle_trans _ 0); assumption. }
    rewrite Hb. reflexivity.
Qed.

End AxisLock.

Section RingClosure.
Context {m : Exact.MathLib}.

Lemma ensureClosedLoop_cases (l : list (@Point Q)) :
  (ensureClosedLoop l = l
   /\ (length l < 3 \/ ptsEqual (at_ l 0) (at_ l (length l - 1)) = true))
  \/ (3 <= length l
      /\ ptsEqual (at_ l 0) (at_ l (length l - 1)) = false
      /\ ensureClosedLoop l = l ++ [at_ l 0]).
Proof.
  unfold ensureClosedLoop.
  destruct (Nat.ltb_spec (length l) 3) as [Hlt|Hge].
  - left. split; [reflexivity|left; exact Hlt].
  - destruct (ptsEqual (at_ l 0) (at_ l (length l - 1))) eqn:Heq.
    + left. split; [reflexivity|right; reflexivity].
    + right. split; [exact Hge|]. split; reflexivity.
Qed.

(** X6.  In exact arithmetic closing a ring twice is closing it once, and
    stripping the closing point after closing a ring gives what stripping
    the ring itself gives: the point [ensureClosedLoop] appends is the
    point [stripClosingDuplicate] removes. *)
Theorem ensureClosedLoop_then_strip (l : list (@Point Q)) :
  ensureClosedLoop (ensureClosedLoop l) = ensureClosedLoop l
  /\ stripClosingDuplicate (ensureClosedLoop l) = stripClosingDuplicate l
  /\ (ptsEqual (at_ l 0) (at_ l (length l - 1)) = false ->
      stripClosingDuplicate (ensureClosedLoop l) = l).
Proof.
  assert (Hopen : ptsEqual (at_ l 0) (at_ l (length l - 1)) = false ->
                  stripClosingDuplicate l = l).
  { intros H. unfold stripClosingDuplicate. rewrite H.
    destruct (length l <? 2); reflexivity. }
  destruct (ensureClosedLoop_cases l) as [[E _]|(Hge & Heq & E)].
  - rewrite !E. split; [reflexivity|]. split; [reflexivity|exact Hopen].
  - rewrite E.
    assert (H0 : at_ (l ++ [at_ l 0]) 0 = at_ l 0) by (destruct l; reflexivity).
    assert (Hlast : at_ (l ++ [at_ l 0]) (length (l ++ [at_ l 0]) - 1) = at_ l 0).
    { rewrite length_app. cbn [length].
      replace (length l + 1 - 1) with (length l) by lia.
      unfold at_ at 1. rewrite app_nth2 by lia.
      replace (length l - length l) with 0 by lia. reflexivity. }
    assert (Hlen : length (l ++ [at_ l 0]) = S (length l))
      by (rewrite length_app; cbn [length]; lia).
    assert (Hstrip : stripClosingDuplicate (l ++ [at_ l 0]) = l).
    { unfold stripClosingDuplicate.
      destruct (Nat.ltb_spec (length (l ++ [at_ l 0])) 2); [lia|].
      rewrite H0, Hlast, exact_ptsEqual_refl. apply dropLast_snoc. }
    split; [|split].
    + unfold ensureClosedLoop.
      destruct (Nat.ltb_spec (length (l ++ [at_ l 0])) 3); [lia|].
      rewrite H0, Hlast, exact_ptsEqual_refl. reflexivity.
    + rewrite Hstrip. symmetry. apply Hopen, Heq.
    + intros _. exact Hstrip.
Qed.

End RingClosure.

Section WindingPermutation.
Context {num : Type} {N : JSNumber num}.
Variable atan2 : num -> num -> num.

Lemma insertSorted_Permutation {A} (cmp : A -> A -> num) (x : A) (l : list A) :
  insertSorted cmp x l ≡ₚ x :: l.
Proof.
  induction l as [|y l IH]; cbn [insertSorted]; [reflexivity|].
  destruct (nltb n0 (cmp x y)); [|reflexivity].
  rewrite IH. apply Permutation_swap.
Qed.

Lemma jsSort_Permutation {A} (cmp : A -> A -> num) (l : list A) : jsSort cmp l ≡ₚ l.
Proof.
  induction l as [|x l IH]; [reflexivity|].
  cbn [jsSort fold_right]. fold (jsSort cmp l).
  rewrite insertSorted_Permutation, IH. reflexivity.
Qed.

(** X7.  [normalizeCCW] returns the vertices left after the closing
    duplicate is stripped, each as often as it occurs there: it reorders
    vertices, it never adds, drops or moves one. *)
Theorem normalizeCCW_permutes_vertices (points : list (@Point num)) :
  normalizeCCW atan2 points ≡ₚ stripClosingDuplicate points
  /\ length (normalizeCCW atan2 points) = length (stripClosingDuplicate points).
Proof using Type*.
  assert (H : normalizeCCW atan2 points ≡ₚ stripClosingDuplicate points).
  { unfold normalizeCCW.
    destruct (length (stripClosingDuplicate points) <? 3); [reflexivity|].
    destruct (polygonCentroid (stripClosingDuplicate points)) as [cx cy].
    destruct (nltb n0 (signedArea _)).
    - apply jsSort_Permutation.
    - rewrite <- Permutation_rev. apply jsSort_Permutation. }
  split; [exact H|]. apply Permutation_length. exact H.
Qed.

End WindingPermutation.
(** ** Segment tests *)

Section IntersectSymmetry.
Context {num : Type} {N : JSNumber num}.

Lemma segmentsIntersectOrTouch_swap (a b c d : @Point num) :
  segmentsIntersectOrTouch a b c d = segmentsIntersectOrTouch c d a b.
Proof.
  unfold segmentsIntersectOrTouch.
  destruct (orient a b c =? orient a b d)%Z, (orient c d a =? orient c d b)%Z,
    (orient a b c =? 0)%Z, (orient a b d =? 0)%Z, (orient c d a =? 0)%Z,
    (orient c d b =? 0)%Z, (onSegment a b c), (onSegment a b d), (onSegment c d a),
    (onSegment c d b); reflexivity.
Qed.

End IntersectSymmetry.

Section IntersectEndpoints.
Context {m : Exact.MathLib}.
Local Open Scope Q_scope.

Lemma exact_lit_1e9 : @lit_1e9 Q _ == 1 # 1000000000.
Proof. vm_compute. reflexivity. Qed.

Lemma exact_small_zero (x : Q) : x == 0 -> nltb (nabs x) lit_1e9 = true.
Proof.
  intros H. apply exact_ltb_lt. cbn [nabs Exact.number].
  rewrite H, exact_lit_1e9. reflexivity.
Qed.

(** The orientation of a point that is an end of the segment. *)
Lemma orient_first_end (a b : @Point Q) : orient a b a = 0%Z.
Proof.
  unfold orient. cbn [nsub nmul Exact.number].
  rewrite exact_small_zero; [reflexivity|ring].
Qed.

Lemma orient_second_end (a b : @Point Q) : orient a b b = 0%Z.
Proof.
  unfold orient. cbn [nsub nmul Exact.number].
  rewrite exact_small_zero; [reflexivity|ring].
Qed.

Lemma exact_min_le (a b : Q) : nmin a b <= a /\ nmin a b <= b.
Proof.
  destruct (exact_min_spec a b) as [[H ->]|[H ->]]; split;
    try apply Qle_refl; try assumption. apply Qlt_le_weak. exact H.
Qed.

Lemma exact_max_ge (a b : Q) : a <= nmax a b /\ b <= nmax a b.
Proof.
  destruct (exact_max_spec a b) as [[H ->]|[H ->]]; split;
    try apply Qle_refl; try assumption. apply Qlt_le_weak. exact H.
Qed.

(** A point within the box of the segment and on its line is on it. *)
Lemma onSegment_intro (a b p : @Point Q) :
  nmin a.1 b.1 <= p.1 <= nmax a.1 b.1 ->
  nmin a.2 b.2 <= p.2 <= nmax a.2 b.2 ->
  (b.1 - a.1) * (p.2 - a.2) - (b.2 - a.2) * (p.1 - a.1) == 0 ->
  onSegment a b p = true.
Proof.
  intros [Hx1 Hx2] [Hy1 Hy2] Hline. unfold onSegment.
  cbn [nsub nadd nmul Exact.number].
  assert (He : 0 < @lit_1e9 Q _) by (rewrite exact_lit_1e9; reflexivity).
  assert (H1 : nltb p.1 (nmin a.1 b.1 - lit_1e9) = false) by (apply exact_ltb_ge; lra).
  assert (H2 : nltb (nmax a.1 b.1 + lit_1e9) p.1 = false) by (apply exact_ltb_ge; lra).
  assert (H3 : nltb p.2 (nmin a.2 b.2 - lit_1e9) = false) by (apply exact_ltb_ge; lra).
  assert (H4 : nltb (nmax a.2 b.2 + lit_1e9) p.2 = false) by (apply exact_ltb_ge; lra).
  rewrite H1, H2, H3, H4. cbn [orb].
  apply exact_small_zero. exact Hline.
Qed.

Lemma onSegment_first_end (a b : @Point Q) : onSegment a b a = true.
Proof.
  apply onSegment_intro.
  - split; [apply exact_min_le|apply exact_max_ge].
  - split; [apply exact_min_le|apply exact_max_ge].
  - ring.
Qed.

Lemma onSegment_second_end (a b : @Point Q) : onSegment a b b = true.
Proof.
  apply onSegment_intro.
  - split; [apply exact_min_le|apply exact_max_ge].
  - split; [apply exact_min_le|apply exact_max_ge].
  - ring.
Qed.

End IntersectEndpoints.

(** X8.  [segmentsIntersectOrTouch] gives the same answer when the two
    segments are exchanged.  In exact arithmetic two segments that share an
    end point always touch, whatever the other two end points are. *)
Theorem segmentsIntersectOrTouch_symmetric_and_shared_end :
  (forall (num : Type) (N : JSNumber num) (a b c d : @Point num),
     segmentsIntersectOrTouch a b c d = segmentsIntersectOrTouch c d a b)
  /\ (forall (m : Exact.MathLib) (a b e : @Point Q),
        segmentsIntersectOrTouch a b a e = true
        /\ segmentsIntersectOrTouch a b e a = true
        /\ segmentsIntersectOrTouch a b b e = true
        /\ segmentsIntersectOrTouch a b e b = true).
Proof.
  split.
  - intros num N a b c d. apply segmentsIntersectOrTouch_swap.
  - intros m a b e. repeat split; unfold segmentsIntersectOrTouch;
      rewrite ?orient_first_end, ?orient_second_end, ?onSegment_first_end,
        ?onSegment_second_end; cbn [Z.eqb andb];
      repeat match goal with
             | |- context [if ?c then _ else _] => destruct c
             end; reflexivity.
Qed.
(** ** Walks along the boundary ring *)

Section RingWalks.
Context {num : Type} {N : JSNumber num}.

Lemma seq_from (k c : nat) : map (fun t => k + t) (seq 0 c) = seq k c.
Proof.
  revert k. induction c as [|c IH]; intros k; [reflexivity|].
  cbn [seq map]. f_equal; [lia|].
  rewrite <- (IH (S k)). rewrite <- seq_shift, map_map.
  apply map_ext. intros t. lia.
Qed.

Lemma ringWalk_length (boundary : list (@Point num)) (i j : nat) :
  length (ringWalk boundary i j) = (j + length boundary - i) mod length boundary.
Proof. unfold ringWalk. rewrite length_map, length_seq. reflexivity. Qed.

Lemma ringWalk_two_arcs (boundary : list (@Point num)) (i j : nat) :
  i < length boundary -> j < length boundary -> i <> j ->
  ringWalk boundary i j ++ ringWalk boundary j i
  = map (fun t => (at_ boundary ((i + t) mod length boundary),
                   at_ boundary ((i + t + 1) mod length boundary)))
        (seq 0 (length boundary)).
Proof.
  intros Hi Hj Hne. unfold ringWalk. set (n := length boundary) in *.
  set (k := (j + n - i) mod n).
  assert (Hk : k = if (i <? j)%nat then j - i else j + n - i).
  { subst k. rewrite mod_below_twice by lia.
    destruct (Nat.ltb_spec (j + n - i) n), (Nat.ltb_spec i j); lia. }
  assert (Hk' : (i + n - j) mod n = n - k).
  { rewrite mod_below_twice by lia. rewrite Hk.
    destruct (Nat.ltb_spec (i + n - j) n), (Nat.ltb_spec i j); lia. }
  rewrite Hk'.
  replace (seq 0 n) with (seq 0 k ++ seq k (n - k)).
  2:{ rewrite <- seq_app. f_equal. rewrite Hk. destruct (Nat.ltb_spec i j); lia. }
  rewrite map_app. f_equal.
  replace (seq k (n - k)) with (map (fun t => k + t) (seq 0 (n - k))).
  2:{ apply seq_from. }
  rewrite map_map. apply map_ext. intros t.
  assert (Hmod : forall x, (j + x) mod n = (i + (k + x)) mod n).
  { intros x. rewrite Hk. destruct (Nat.ltb_spec i j).
    - f_equal. lia.
    - replace (i + (j + n - i + x)) with (j + x + 1 * n) by lia.
      rewrite Nat.Div0.mod_add. reflexivity. }
  rewrite <- (Nat.add_assoc j t 1), !Hmod. do 2 f_equal. f_equal. lia.
Qed.

(** X9.  Between two different vertices of the boundary ring both walks
    of [pathSegsBetweenIndices] end; together they hold every edge of the
    ring once, in ring order from the first vertex, so their numbers of
    segments add up to the number of vertices.  A walk from a vertex to
    itself is empty. *)
Theorem pathSegsBetweenIndices_arcs_partition_ring (boundary : list (@Point num))
    (i j : nat) :
  i < length boundary -> j < length boundary -> i <> j ->
  exists segsAB segsBA,
    pathSegsBetweenIndices boundary i j = Some segsAB
    /\ pathSegsBetweenIndices boundary j i = Some segsBA
    /\ pathSegsBetweenIndices boundary i i = Some []
    /\ segsAB ++ segsBA
       = map (fun t => (at_ boundary ((i + t) mod length boundary),
                        at_ boundary ((i + t + 1) mod length boundary)))
             (seq 0 (length boundary))
    /\ length segsAB + length segsBA = length boundary
    /\ 0 < length segsAB /\ 0 < length segsBA.
Proof.
  intros Hi Hj Hne.
  exists (ringWalk boundary i j), (ringWalk boundary j i).
  rewrite !pathSegsBetweenIndices_returns by assumption.
  rewrite ringWalk_same by assumption.
  split; [reflexivity|]. split; [reflexivity|]. split; [reflexivity|].
  split; [apply ringWalk_two_arcs; assumption|].
  pose proof (ringWalk_two_arcs boundary i j Hi Hj Hne) as H.
  apply (f_equal length) in H. rewrite length_app, length_map, length_seq in H.
  split; [exact H|].
  rewrite !ringWalk_length.
  rewrite !mod_below_twice by lia.
  destruct (Nat.ltb_spec (j + length boundary - i) (length boundary)),
    (Nat.ltb_spec (i + length boundary - j) (length boundary)); lia.
Qed.

(** X10.  When the target of the walk is not an index of the ring, the
    [while (i !== iTo)] loop of [pathSegsBetweenIndices] never ends: the
    index stays inside the ring and never meets the target, whatever the
    number of rounds. *)
Theorem pathSegsBetweenIndices_target_outside_never_ends
    (boundary : list (@Point num)) (i iTo : nat) :
  i < length boundary -> length boundary <= iTo ->
  (forall fuel segs, pathSegsLoop fuel boundary i iTo segs = None)
  /\ pathSegsBetweenIndices boundary i iTo = None.
Proof.
  intros Hi Hto.
  assert (H : forall fuel i segs, i < length boundary ->
                pathSegsLoop fuel boundary i iTo segs = None).
  { induction fuel as [|fuel IH]; intros i' segs Hi'; [reflexivity|].
    cbn [pathSegsLoop]. destruct (Nat.eqb_spec i' iTo) as [->|_]; [lia|].
    apply IH. apply Nat.mod_upper_bound. lia. }
  split; [intros fuel segs; apply H, Hi|apply H, Hi].
Qed.

End RingWalks.

Lemma seq_split_at (n i : nat) (pre post : list nat) :
  seq 0 n = pre ++ i :: post -> pre = seq 0 i.
Proof.
  intros H.
  assert (Hlen : length pre < n).
  { apply (f_equal length) in H. rewrite length_seq, length_app in H.
    cbn [length] in H. lia. }
  replace n with (length pre + S (n - S (length pre))) in H by lia.
  rewrite seq_app in H. cbn [seq Nat.add] in H.
  apply app_inj_1 in H as [H1 H2]; [|rewrite length_seq; reflexivity].
  injection H2 as <- _. symmetry. exact H1.
Qed.

Section NearestVertex.
Context {m : Exact.MathLib}.
Local Open Scope Q_scope.

Lemma nearestBoundary_fold (pt : @Point Q) (boundary : list (@Point Q)) (l : list nat)
    (st : option nat * Q) :
  let step := fun '(bestI, bestD) i =>
                let d := distance pt (at_ boundary i) in
                if nltb d bestD then (Some i, d) else (bestI, bestD) in
  let out := fold_left step l st in
  out.2 <= st.2
  /\ (forall j, In j l -> out.2 <= distance pt (at_ boundary j))
  /\ (out.1 = st.1 /\ out.2 == st.2
      \/ exists pre i post,
           l = pre ++ i :: post /\ out.1 = Some i
           /\ out.2 == distance pt (at_ boundary i)
           /\ (forall j, In j pre -> distance pt (at_ boundary i) < distance pt (at_ boundary j))
           /\ distance pt (at_ boundary i) < st.2).
Proof.
  intros step. revert st. induction l as [|a l IH]; intros st out; subst out; cbn [fold_left].
  - split; [apply Qle_refl|]. split; [intros ? []|]. left. split; reflexivity.
  - destruct (IH (step st a)) as (Hle & Hall & Hcase).
    destruct st as [bi bd]. cbn [fst snd] in *.
    assert (Hstep : step (bi, bd) a
                    = if nltb (distance pt (at_ boundary a)) bd
                      then (Some a, distance pt (at_ boundary a)) else (bi, bd))
      by reflexivity.
    rewrite Hstep in Hle, Hall, Hcase |- *. clear Hstep.
    destruct (nltb (distance pt (at_ boundary a)) bd) eqn:Hlt; cbn [fst snd] in *.
    + apply exact_ltb_lt in Hlt.
      split; [apply (Qle_trans _ _ _ Hle), Qlt_le_weak, Hlt|].
      split; [intros j [<-|Hin]; [exact Hle|apply Hall, Hin]|].
      right. destruct Hcase as [[H1 H2]|(pre & i & post & -> & H1 & H2 & H3 & H4)].
      * exists [], a, l. split; [reflexivity|]. split; [exact H1|]. split; [exact H2|].
        split; [intros ? []|exact Hlt].
      * exists (a :: pre), i, post. split; [reflexivity|]. split; [exact H1|].
        split; [exact H2|]. split.
        -- intros j [<-|Hin]; [exact H4|apply H3, Hin].
        -- apply (Qlt_trans _ _ _ H4 Hlt).
    + apply exact_ltb_ge in Hlt.
      split; [exact Hle|].
      split; [intros j [<-|Hin]; [apply (Qle_trans _ _ _ Hle Hlt)|apply Hall, Hin]|].
      destruct Hcase as [[H1 H2]|(pre & i & post & -> & H1 & H2 & H3 & H4)].
      * left. split; assumption.
      * right. exists (a :: pre), i, post. split; [reflexivity|]. split; [exact H1|].
        split; [exact H2|]. split; [|exact H4].
        intros j [<-|Hin]; [apply (Qlt_le_trans _ _ _ H4 Hlt)|apply H3, Hin].
Qed.

End NearestVertex.

(** X11.  [nearestBoundaryIndex] answers -1 (here [None]) on an empty
    boundary, and an index it returns is an index of the boundary.  In exact
    arithmetic the vertex at that index is a nearest one by [distance], and
    the first of the nearest: every vertex is at least as far, and every
    vertex before it is farther. *)
Theorem nearestBoundaryIndex_first_nearest_vertex :
  (forall (num : Type) (N : JSNumber num) (pt : @Point num) (boundary : list (@Point num)),
     nearestBoundaryIndex pt [] = None
     /\ forall i, nearestBoundaryIndex pt boundary = Some i -> i < length boundary)
  /\ (forall (m : Exact.MathLib) (pt : @Point Q) (boundary : list (@Point Q)) (i : nat),
        nearestBoundaryIndex pt boundary = Some i ->
        (forall j, j < length boundary ->
           (distance pt (at_ boundary i) <= distance pt (at_ boundary j))%Q)
        /\ (forall j, j < i ->
              (distance pt (at_ boundary i) < distance pt (at_ boundary j))%Q)).
Proof.
  split.
  - intros num N pt boundary. split; [reflexivity|].
    intros i. apply nearestBoundaryIndex_lt.
  - intros m pt boundary i H.
    pose proof (nearestBoundaryIndex_lt pt boundary i H) as Hi.
    unfold nearestBoundaryIndex in H.
    destruct (nearestBoundary_fold pt boundary (seq 0 (length boundary)) (None, ninfinity))
      as (_ & Hall & Hcase).
    cbn zeta in Hall, Hcase.
    destruct Hcase as [[H1 _]|(pre & i' & post & Hseq & H1 & H2 & H3 & _)].
    { rewrite H in H1. discriminate. }
    rewrite H in H1. injection H1 as <-.
    split.
    + intros j Hj. rewrite <- H2. apply Hall. apply in_seq. lia.
    + intros j Hj. apply H3.
      assert (Hpre : pre = seq 0 i) by (apply (seq_split_at _ _ _ _ Hseq)).
      rewrite Hpre. apply in_seq. lia.
Qed.
(** ** Road identifiers *)

Section RoadIds.
Import Stdlib.Strings.Ascii.

(** A string that starts with a character other than the digit 0. *)
Lemma pretty_N_go_head (x : N) (s : string) :
  (0 < x)%N ->
  exists c r, pretty_N_go x s = String c r /\ c <> "0"%char.
Proof.
  revert s. induction (N.lt_wf_0 x) as [x _ IH]; intros s Hx.
  rewrite pretty_N_go_step by exact Hx.
  destruct (N.eq_dec (x `div` 10)%N 0%N) as [E|E].
  - rewrite E, pretty_N_go_0.
    exists (pretty_N_char (x `mod` 10)), s. split; [reflexivity|].
    assert (Hlt : (x < 10)%N) by (apply N.div_small_iff; [lia|exact E]).
    rewrite N.mod_small by exact Hlt.
    assert (x = 1 \/ x = 2 \/ x = 3 \/ x = 4 \/ x = 5 \/ x = 6 \/ x = 7 \/ x = 8 \/ x = 9)%N
      as Hc by lia.
    destruct Hc as [->|[->|[->|[->|[->|[->|[->|[->| ->]]]]]]]]; discriminate.
  - apply IH; [apply N.div_lt; lia|].
    destruct (x `div` 10)%N; [congruence|reflexivity].
Qed.

Lemma pretty_nat_head (n : nat) :
  0 < n -> exists c r, pretty n = String c r /\ c <> "0"%char.
Proof.
  intros Hn. unfold pretty, pretty_nat, pretty, pretty_N.
  destruct (decide (N.of_nat n = 0%N)) as [E|_]; [lia|].
  apply pretty_N_go_head. lia.
Qed.

Lemma zeros_app_inj (a b : nat) (s t : string) :
  (exists c r, s = String c r /\ c <> "0"%char) ->
  (exists c r, t = String c r /\ c <> "0"%char) ->
  (zeros a +:+ s)%string = (zeros b +:+ t)%string -> s = t.
Proof.
  intros (c & r & -> & Hc) (c' & r' & -> & Hc').
  revert b. induction a as [|a IH]; intros [|b] H; cbn in H.
  - exact H.
  - injection H as H _. congruence.
  - injection H as H _. congruence.
  - injection H as H. apply (IH b). exact H.
Qed.

Lemma roadIdOf_inj (x y : nat) : 0 < x -> 0 < y -> roadIdOf x = roadIdOf y -> x = y.
Proof.
  intros Hx Hy H. unfold roadIdOf, padStart3 in H. cbn in H. injection H as H.
  apply zeros_app_inj in H; [|apply pretty_nat_head; assumption..].
  apply (inj pretty). exact H.
Qed.

Lemma hasId_In (ids : list string) (id : string) : hasId ids id = true <-> In id ids.
Proof.
  unfold hasId. rewrite existsb_exists. split.
  - intros (x & Hin & Heq). apply String.eqb_eq in Heq. subst. exact Hin.
  - intros Hin. exists id. split; [exact Hin|apply String.eqb_refl].
Qed.

(** What the loop finds within its fuel: the first number from [n] on
    whose identifier is free, or none. *)
Lemma nextRoadIdLoop_spec (ids : list string) (fuel n : nat) :
  (nextRoadIdLoop fuel ids n = None
   /\ forall k, n <= k < n + fuel -> In (roadIdOf k) ids)
  \/ exists n',
       n <= n' < n + fuel
       /\ nextRoadIdLoop fuel ids n = Some (roadIdOf n')
       /\ ~ In (roadIdOf n') ids
       /\ forall k, n <= k < n' -> In (roadIdOf k) ids.
Proof.
  revert n. induction fuel as [|fuel IH]; intros n; cbn [nextRoadIdLoop].
  - left. split; [reflexivity|]. intros k Hk. lia.
  - destruct (hasId ids (roadIdOf n)) eqn:Hhas.
    + apply hasId_In in Hhas.
      destruct (IH (S n)) as [[Hnone Hall]|(n' & Hn' & Hsome & Hfree & Hall)].
      * left. split; [exact Hnone|]. intros k Hk.
        destruct (Nat.eq_dec k n) as [->|Hne]; [exact Hhas|apply Hall; lia].
      * right. exists n'. split; [lia|]. split; [exact Hsome|]. split; [exact Hfree|].
        intros k Hk. destruct (Nat.eq_dec k n) as [->|Hne]; [exact Hhas|apply Hall; lia].
    + right. exists n. split; [lia|]. split; [reflexivity|]. split.
      * intros Hin. apply hasId_In in Hin. congruence.
      * intros k Hk. lia.
Qed.

Lemma NoDup_map_inj_on {A B} (f : A -> B) (l : list A) :
  (forall x y, In x l -> In y l -> f x = f y -> x = y) ->
  List.NoDup l -> List.NoDup (map f l).
Proof.
  intros Hinj Hnd. induction Hnd as [|x l Hx Hnd IH]; cbn [map]; constructor.
  - intros Hin. apply in_map_iff in Hin as (y & Hfy & Hy).
    assert (y = x) by (apply Hinj; [right; exact Hy|left; reflexivity|exact Hfy]).
    subst y. apply Hx. exact Hy.
  - apply IH. intros a b Ha Hb. apply Hinj; right; assumption.
Qed.

(** More identifiers than there are roads cannot all be taken. *)
Lemma roadIds_pigeonhole (ids : list string) :
  ~ (forall k, 1 <= k < 1 + S (length ids) -> In (roadIdOf k) ids).
Proof.
  intros Hall.
  assert (Hnd : List.NoDup (map roadIdOf (seq 1 (S (length ids))))).
  { apply NoDup_map_inj_on; [|apply List.seq_NoDup].
    intros x y Hx Hy. apply in_seq in Hx, Hy. apply roadIdOf_inj; lia. }
  assert (Hincl : incl (map roadIdOf (seq 1 (S (length ids)))) ids).
  { intros id Hin. apply in_map_iff in Hin as (k & <- & Hk).
    apply in_seq in Hk. apply Hall. lia. }
  pose proof (List.NoDup_incl_length Hnd Hincl) as Hlen.
  rewrite length_map, length_seq in Hlen. lia.
Qed.

(** The identifier [nextGlobalRoadId] returns, and that it is free. *)
Lemma nextGlobalRoadId_returns_free {num : Type} (env : Scene num) :
  exists n, nextGlobalRoadId env = Some (roadIdOf n) /\ ~ In (roadIdOf n) (roadIds env).
Proof.
  unfold nextGlobalRoadId.
  destruct (nextRoadIdLoop_spec (roadIds env) (S (length (roadIds env))) 1)
    as [[_ Hall]|(n & Hn & Hsome & Hfree & Hall)].
  - exfalso. apply (roadIds_pigeonhole (roadIds env)). exact Hall.
  - exists n. split; [exact Hsome|exact Hfree].
Qed.

End RoadIds.

(** X12.  [nextGlobalRoadId] always returns: it answers the identifier
    [R001], [R002], ... of the least number from 1 on that no internal or
    public road of the scene carries, which is at most one more than the
    number of roads.  The identifier it returns is never one in use. *)
Theorem nextGlobalRoadId_fresh_and_least {num : Type} (env : Scene num) :
  exists n,
    1 <= n <= length (roadIds env) + 1
    /\ nextGlobalRoadId env = Some (roadIdOf n)
    /\ ~ In (roadIdOf n) (roadIds env)
    /\ forall k, 1 <= k < n -> In (roadIdOf k) (roadIds env).
Proof.
  unfold nextGlobalRoadId.
  destruct (nextRoadIdLoop_spec (roadIds env) (S (length (roadIds env))) 1)
    as [[_ Hall]|(n & Hn & Hsome & Hfree & Hall)].
  - exfalso. apply (roadIds_pigeonhole (roadIds env)). exact Hall.
  - exists n. split; [lia|]. split; [exact Hsome|]. split; [exact Hfree|exact Hall].
Qed.
(** ** Road identifiers stay distinct *)

Section DistinctRoadIds.
Context {num : Type} {N : JSNumber num}.
Variable estimateRoadWidth : list (@Point num) -> num.

Lemma insert_road_ids (rs : list (InternalRoad num)) (i : nat) (r : InternalRoad num)
    (poly : list (@Point num)) :
  rs !! i = Some r ->
  map ir_road_id (<[i := withRoadPolygon r poly]> rs) = map ir_road_id rs.
Proof.
  intros Hr. change (map ir_road_id) with (fmap (M := list) (@ir_road_id num)).
  rewrite list_fmap_insert. apply list_insert_id.
  rewrite list_lookup_fmap, Hr. reflexivity.
Qed.

Lemma insert_public_ids (rs : list (PublicRoad num)) (i : nat) (r : PublicRoad num)
    (eps : list (@Point num)) :
  rs !! i = Some r ->
  map pr_road_id (<[i := withEntryPoints r eps]> rs) = map pr_road_id rs.
Proof.
  intros Hr. change (map pr_road_id) with (fmap (M := list) (@pr_road_id num)).
  rewrite list_fmap_insert. apply list_insert_id.
  rewrite list_lookup_fmap, Hr. reflexivity.
Qed.

Lemma delete_ids_sublist {A} (f : A -> string) (i : nat) (l : list A) :
  map f (delete i l) `sublist_of` map f l.
Proof.
  change (map f) with (fmap (M := list) f).
  rewrite list_fmap_delete. apply sublist_delete.
Qed.

Lemma deleteEdgeRoads_ids (index k : nat) (rs rs' : list (InternalRoad num)) :
  deleteEdgeRoads index k rs = Some rs' ->
  map ir_road_id rs' `sublist_of` map ir_road_id rs.
Proof.
  unfold deleteEdgeRoads. destruct (rs !! index) as [r|] eqn:Hr; [|discriminate].
  cbn [mbind option_bind].
  destruct (length (ir_polygon r) <? 3); [intros [= <-]; reflexivity|].
  destruct (length (splice1 _ _) <? 3); intros [= <-].
  - rewrite filterOutIndex_delete. apply delete_ids_sublist.
  - rewrite insert_road_ids by exact Hr. reflexivity.
Qed.

Lemma deleteVertexRoads_ids (index v : nat) (rs rs' : list (InternalRoad num)) :
  deleteVertexRoads index v rs = Some rs' ->
  map ir_road_id rs' `sublist_of` map ir_road_id rs.
Proof.
  unfold deleteVertexRoads. destruct (rs !! index) as [r|] eqn:Hr; [|discriminate].
  cbn [mbind option_bind].
  destruct (length (splice1 _ _) <? 3); intros [= <-].
  - rewrite filterOutIndex_delete. apply delete_ids_sublist.
  - rewrite insert_road_ids by exact Hr. reflexivity.
Qed.

(** No deletion adds a road or renames one. *)
Lemma onDeleteSelection_roadIds (env st : Scene num) :
  onDeleteSelection env = Some st -> roadIds st `sublist_of` roadIds env.
Proof.
  unfold onDeleteSelection, roadIds.
  destruct (selection env) as [sel|]; [|intros [= <-]; reflexivity].
  destruct (sel_edgeIndex sel) as [k|].
  - unfold deleteEdge. destruct (sel_kind sel); cbn [mbind option_bind].
    + destruct (length (boundary (persist env)) <? 3);
        [|destruct (length (splice1 _ _) <? 3)]; intros [= <-]; reflexivity.
    + cbn [pushHistory set_future set_history persist].
      destruct (deleteEdgeRoads _ _ _) as [rs'|] eqn:Hrs; [|discriminate].
      cbn [mbind option_bind]. intros [= <-]. cbn.
      apply sublist_app; [|reflexivity]. apply (deleteEdgeRoads_ids _ _ _ _ Hrs).
    + cbn [pushHistory set_future set_history persist].
      destruct (deleteEdgeLots _ _ _) as [ls'|]; [|discriminate].
      cbn [mbind option_bind]. intros [= <-]. reflexivity.
    + intros [= <-]. reflexivity.
  - destruct (sel_kind sel), (sel_vertexIndex sel) as [v|];
      cbn [pushHistory set_future set_history persist mbind option_bind].
    + destruct (length (splice1 _ _) <? 3); intros [= <-]; reflexivity.
    + intros [= <-]. reflexivity.
    + destruct (deleteVertexRoads _ _ _) as [rs'|] eqn:Hrs; [|discriminate].
      cbn [mbind option_bind]. intros [= <-]. cbn.
      apply sublist_app; [|reflexivity]. apply (deleteVertexRoads_ids _ _ _ _ Hrs).
    + intros [= <-]. cbn. apply sublist_app; [|reflexivity].
      rewrite filterOutIndex_delete. apply delete_ids_sublist.
    + destruct (deleteVertexLots _ _ _) as [ls'|]; [|discriminate].
      cbn [mbind option_bind]. intros [= <-]. reflexivity.
    + intros [= <-]. reflexivity.
    + destruct (publicRoads (persist env) !! sel_index sel) as [r|] eqn:Hr; [|discriminate].
      cbn [mbind option_bind]. intros [= <-]. cbn.
      rewrite insert_public_ids by exact Hr. reflexivity.
    + intros [= <-]. cbn. apply sublist_app; [reflexivity|].
      apply delete_ids_sublist.
Qed.

(** The public roads after a click in public-road mode: the same
    identifiers, with one that was free in front of none and behind all
    when a road is created. *)
Lemma addEntryPoint_ids (env : Scene num) (point : @Point num)
    (roads' : list (PublicRoad num)) (idx : option nat) :
  addEntryPoint env point (publicRoads (persist env)) = Some (roads', idx) ->
  map pr_road_id roads' = map pr_road_id (publicRoads (persist env))
  \/ exists id,
       ~ In id (roadIds env)
       /\ map pr_road_id roads' = map pr_road_id (publicRoads (persist env)) ++ [id].
Proof.
  unfold addEntryPoint.
  set (roads := publicRoads (persist env)).
  destruct (activePublicIdx env) as [i|].
  - cbn [mbind option_bind].
    destruct (roads !! i) as [r|] eqn:Hr; [|discriminate]. cbn [mbind option_bind].
    destruct (existsb _ _); intros [= <- <-]; left; [reflexivity|].
    apply insert_public_ids. exact Hr.
  - destruct (nextGlobalRoadId_returns_free env) as (n & Hsome & Hfree).
    rewrite Hsome. cbn [mbind option_bind].
    set (newRoad := {| pr_road_id := roadIdOf n; pr_width := _; pr_entry_points := [] |}).
    destruct ((roads ++ [newRoad]) !! length roads) as [r|] eqn:Hr; [|discriminate].
    cbn [mbind option_bind].
    assert (Hids : map pr_road_id (roads ++ [newRoad]) = map pr_road_id roads ++ [roadIdOf n])
      by (rewrite map_app; reflexivity).
    destruct (existsb _ _); intros [= <- <-]; right; exists (roadIdOf n);
      (split; [exact Hfree|]).
    + exact Hids.
    + rewrite insert_public_ids by exact Hr. exact Hids.
Qed.

Lemma onCanvasClick_roadIds (env st : Scene num) (e : PointerEvt num) :
  onCanvasClick env e = Some st ->
  roadIds st = roadIds env
  \/ exists id, ~ In id (roadIds env) /\ roadIds st = roadIds env ++ [id].
Proof.
  unfold onCanvasClick. destruct (mode env).
  - destruct (computePreviewPoint env e); [destruct (boundaryClosed (persist env))|];
      intros [= <-]; left; reflexivity.
  - destruct (computePreviewPoint env e) as [p|]; [|intros [= <-]; left; reflexivity].
    match goal with
    | |- context [addEntryPoint ?env ?pt ?rs] =>
        destruct (addEntryPoint env pt rs) as [[roads' idx]|] eqn:Hadd; [|discriminate]
    end.
    cbn [mbind option_bind]. intros [= <-].
    apply addEntryPoint_ids in Hadd as [Hids|(id & Hfree & Hids)]; unfold roadIds; cbn;
      rewrite Hids.
    + left. reflexivity.
    + right. exists id. split; [exact Hfree|]. rewrite app_assoc. reflexivity.
  - destruct (computePreviewPoint env e); intros [= <-]; left; reflexivity.
  - destruct (computePreviewPoint env e); intros [= <-]; left; reflexivity.
  - intros [= <-]. left. reflexivity.
Qed.

(** X13.  When the identifiers of the internal and public roads of the
    scene are pairwise different, they still are after [closeShape] (which
    always returns), after a click on the canvas, and after a deletion: a
    road is created with an identifier that is free, and no handler renames
    a road. *)
Theorem road_ids_stay_distinct (ed : Editor num) (e : PointerEvt num) :
  NoDup (roadIds (ed_scene ed)) ->
  (exists ed', closeShape estimateRoadWidth ed = Some ed'
               /\ NoDup (roadIds (ed_scene ed')))
  /\ (forall st, onCanvasClick (ed_scene ed) e = Some st -> NoDup (roadIds st))
  /\ (forall st, onDeleteSelection (ed_scene ed) = Some st -> NoDup (roadIds st)).
Proof using Type*.
  intros Hnd. split; [|split].
  - unfold closeShape.
    destruct (3 <=? length (current (ed_scene ed))); [|eexists; split; [reflexivity|exact Hnd]].
    destruct (mode (ed_scene ed)); try (eexists; split; [reflexivity|exact Hnd]).
    unfold nextInternalRoadId.
    destruct (nextGlobalRoadId_returns_free (ed_scene ed)) as (n & Hsome & Hfree).
    rewrite Hsome. cbn [mbind option_bind].
    eexists. split; [reflexivity|].
    cbn. unfold roadIds in *. rewrite map_app, <- app_assoc. cbn [map app].
    rewrite <- Permutation_middle. apply NoDup_cons. split; [|exact Hnd].
    intros Hin. apply Hfree. apply list_elem_of_In. exact Hin.
  - intros st Hclick.
    apply onCanvasClick_roadIds in Hclick as [->|(id & Hfree & ->)]; [exact Hnd|].
    apply NoDup_app. split; [exact Hnd|]. split; [|apply NoDup_singleton].
    intros x Hx Hx'. apply list_elem_of_singleton in Hx'. subst x.
    apply Hfree, list_elem_of_In, Hx.
  - intros st Hdel.
    eapply sublist_NoDup; [exact Hnd|apply onDeleteSelection_roadIds; exact Hdel].
Qed.

End DistinctRoadIds.
(** ** Undo and redo *)

Section UndoRedo.
Context {num : Type} {N : JSNumber num}.

Lemma redoHistory_spec (env st : Scene num) (next : Snapshot num)
    (rest : list (Snapshot num)) :
  future st = next :: rest ->
  history (redoHistory env st) = history st ++ [makeSnapshot env]
  /\ future (redoHistory env st) = rest
  /\ persist (redoHistory env st) = next.
Proof.
  intros Hf. unfold redoHistory. rewrite Hf.
  cbn [set_future history future persist].
  rewrite restoreSnapshot_history, restoreSnapshot_persist. auto.
Qed.

(** X14.  Undo and redo are inverse to each other on the five persistent
    cells and the two stacks, as long as the scenes involved survive the
    JSON round trip of [deepCopy] unchanged: after an undo, redo brings back
    the scene, the undo stack and the redo stack from before the undo, and
    after a redo, undo does the same.  A new edit empties the redo stack, so
    a redo right after [pushHistory] changes nothing. *)
Theorem undo_redo_round_trip (s0 env : Scene num) :
  makeSnapshot s0 = persist s0 ->
  (forall h top,
     history s0 = h ++ [top] ->
     let s1 := undoHistory s0 s0 in
     makeSnapshot s1 = persist s1 ->
     let s2 := redoHistory s1 s1 in
     persist s2 = persist s0 /\ history s2 = history s0 /\ future s2 = future s0)
  /\ (forall next rest,
        future s0 = next :: rest ->
        let s1 := redoHistory s0 s0 in
        makeSnapshot s1 = persist s1 ->
        let s2 := undoHistory s1 s1 in
        persist s2 = persist s0 /\ history s2 = history s0 /\ future s2 = future s0)
  /\ redoHistory s0 (pushHistory env s0) = pushHistory env s0.
Proof.
  intros Hstable. split; [|split].
  - intros h top Hh s1 Hs1 s2.
    destruct (undoHistory_spec s0 s0 h top Hh) as (H1 & H2 & H3).
    fold s1 in H1, H2, H3.
    destruct (redoHistory_spec s1 s1 _ _ H2) as (R1 & R2 & R3).
    fold s2 in R1, R2, R3.
    split; [rewrite R3; exact Hstable|]. split; [|exact R2].
    rewrite R1, H1, Hs1, H3, Hh. reflexivity.
  - intros next rest Hf s1 Hs1 s2.
    destruct (redoHistory_spec s0 s0 next rest Hf) as (R1 & R2 & R3).
    fold s1 in R1, R2, R3.
    destruct (undoHistory_spec s1 s1 _ _ R1) as (H1 & H2 & H3).
    fold s2 in H1, H2, H3.
    split; [rewrite H3; exact Hstable|]. split; [exact H1|].
    rewrite H2, R2, Hs1, R3, Hf. reflexivity.
  - reflexivity.
Qed.

End UndoRedo.
(** ** The exported document and the scene *)

Section ExportConsistency.
Context {num : Type} {N : JSNumber num}.
Variable atan2 : num -> num -> num.

Lemma internalRoadLoop_id (tol : num) (lotEdges : list (@Segment num))
    (roads : list (InternalRoad num)) (id : string) :
  internalRoadLoop tol lotEdges roads = Some id -> In id (map ir_road_id roads).
Proof.
  induction roads as [|r roads IH]; cbn [internalRoadLoop map]; [discriminate|].
  destruct (lotEdgeLoop _ _ _).
  - intros [= <-]. left. reflexivity.
  - intros H. right. apply IH, H.
Qed.

Lemma publicRoadLoop_id (tol : num) (lotEdges : list (@Segment num))
    (boundary : list (@Point num)) (roads : list (PublicRoad num)) (id : string) :
  publicRoadLoop tol lotEdges boundary roads = Some (Some id) ->
  In id (map pr_road_id roads).
Proof.
  induction roads as [|pr roads IH]; cbn [publicRoadLoop map]; [discriminate|].
  destruct (length (pr_entry_points pr) <? 2); [intros H; right; apply IH, H|].
  destruct (nearestBoundaryIndex _ _) as [iA|]; [|intros H; right; apply IH, H].
  destruct (nearestBoundaryIndex _ _) as [iB|]; [|intros H; right; apply IH, H].
  destruct (iA =? iB); [intros H; right; apply IH, H|].
  destruct (pathSegsBetweenIndices boundary iA iB) as [segsAB|]; [|discriminate].
  cbn [mbind option_bind].
  destruct (pathSegsBetweenIndices boundary iB iA) as [segsBA|]; [|discriminate].
  cbn [mbind option_bind].
  destruct (lotEdgeLoop _ _ _).
  - intros [= <-]. left. reflexivity.
  - intros H. right. apply IH, H.
Qed.

(** The front road of a lot is a road of the context. *)
Lemma computeFrontRoadForLot_id (lotPoly : list (@Point num)) (ctx : FrontCtx num)
    (tol : num) (id : string) :
  computeFrontRoadForLot lotPoly ctx tol = Some (Some id) ->
  In id (map ir_road_id (ctx_internalRoads ctx) ++ map pr_road_id (ctx_publicRoads ctx)).
Proof.
  unfold computeFrontRoadForLot.
  destruct (length lotPoly <? 3); [discriminate|].
  destruct (internalRoadLoop _ _ _) as [id'|] eqn:Hint.
  - intros [= <-]. apply in_or_app. left. apply (internalRoadLoop_id _ _ _ _ Hint).
  - destruct (ctx_boundaryClosed ctx && _); [|discriminate].
    intros H. apply in_or_app. right. apply (publicRoadLoop_id _ _ _ _ _ H).
Qed.

Lemma exportLotInfos_spec (env : Scene num) (ctx : FrontCtx num) (tol : num)
    (ls : list (Lot num)) (k : nat) (infos : list (@LotInfo num)) :
  mapM (fun '(idx, l) => exportLotInfo atan2 env ctx tol idx l)
       (imap (fun idx l => ((k + idx)%nat, l)) ls) = Some infos ->
  map li_id infos
  = imap (fun i l => default (fallbackLotId (landId (settings env)) (k + i)) (lot_id l)) ls
  /\ Forall (fun li => forall id, li_front li = Some id ->
               In id (map ir_road_id (ctx_internalRoads ctx)
                      ++ map pr_road_id (ctx_publicRoads ctx))) infos.
Proof.
  revert k infos. induction ls as [|l ls IH]; intros k infos.
  - cbn. intros [= <-]. split; [reflexivity|constructor].
  - rewrite !imap_cons. cbn [mapM].
    destruct (exportLotInfo atan2 env ctx tol (k + 0) l) as [li|] eqn:Hli;
      [|discriminate].
    cbn [mbind option_bind].
    rewrite (imap_ext _ (fun idx l0 => ((S k + idx)%nat, l0)))
      by (intros; cbn; f_equal; lia).
    destruct (mapM _ (imap (fun idx l0 => ((S k + idx)%nat, l0)) ls)) as [rest|] eqn:Hrest;
      [|discriminate].
    cbn [mbind option_bind mret option_ret]. intros [= <-].
    destruct (IH (S k) rest Hrest) as [Hids Hfront].
    unfold exportLotInfo in Hli.
    destruct (computeFrontRoadForLot _ ctx tol) as [front|] eqn:Hfr; [|discriminate].
    cbn [mbind option_bind] in Hli. injection Hli as <-.
    split.
    + cbn [map li_id]. f_equal. rewrite Hids. apply imap_ext. intros i x _.
      cbn. do 2 f_equal. lia.
    + constructor; [|exact Hfront]. cbn [li_front]. intros id ->.
      apply (computeFrontRoadForLot_id _ _ _ _ Hfr).
Qed.

(** X15.  The export always produces its document, and the document keeps
    step with the scene: the land id; the public roads and the internal
    roads, one for one, in order, under their own identifiers; the lots, one
    for one, in order, each under its own [lot_id] or, when it has none,
    under the land id and its two-digit position.  A [front_road] that is
    not null is the identifier of one of the exported roads. *)
Theorem exportJSON_keeps_step_with_scene (env : Scene num) :
  exists doc,
    exportJSON atan2 env = Some doc
    /\ x_land_id doc = landId (settings env)
    /\ map xp_road_id (x_roads doc) = map pr_road_id (publicRoads (persist env))
    /\ map xp_entry_points (x_roads doc) = map pr_entry_points (publicRoads (persist env))
    /\ map xi_road_id (x_internal_roads doc) = map ir_road_id (internalRoads (persist env))
    /\ map xl_lot_id (x_lots doc)
       = imap (fun i l => default (fallbackLotId (landId (settings env)) i) (lot_id l))
              (lots (persist env))
    /\ Forall
         (fun xl : ExportLot num =>
            forall id, xl_front_road xl = Some id ->
              In id (map xi_road_id (x_internal_roads doc) ++ map xp_road_id (x_roads doc)))
         (x_lots doc).
Proof using Type*.
  destruct (exportJSON_returns atan2 env) as [doc Hdoc].
  exists doc. split; [exact Hdoc|].
  unfold exportJSON in Hdoc.
  match type of Hdoc with
  | context [mapM ?f ?l] => destruct (mapM f l) as [lotInfos|] eqn:Hinfos; [|discriminate]
  end.
  cbn [mbind option_bind] in Hdoc. injection Hdoc as <-.
  cbn [x_land_id x_roads x_internal_roads x_lots].
  rewrite !map_map. cbn [xp_road_id xp_entry_points xi_road_id xl_lot_id].
  apply (exportLotInfos_spec env _ _ _ 0) in Hinfos as [Hids Hfront]. cbn [ctx_internalRoads ctx_publicRoads] in Hfront.
  split; [reflexivity|]. split; [reflexivity|]. split; [reflexivity|].
  split; [reflexivity|]. split; [exact Hids|].
  apply List.Forall_forall. intros xl Hxl.
  apply in_map_iff in Hxl as (li & <- & Hli). cbn [xl_front_road].
  rewrite List.Forall_forall in Hfront. apply Hfront, Hli.
Qed.

End ExportConsistency.
(** ** Drawing: closing a shape, clicking, undoing *)

Section DrawingProperties.
Context {num : Type} {N : JSNumber num}.
Variable estimateRoadWidth : list (@Point num) -> num.

(** X16.  [closeShape] does nothing while fewer than three points are
    drawn.  With three or more, closing the boundary pushes one snapshot,
    which one undo restores; closing an internal road or a lot appends it
    (the road under the identifier of [nextGlobalRoadId], the lot under
    [nextLotId]) and empties the drawing, and leaves both history stacks as
    they are: these two creations are not recorded for undo. *)
Theorem closeShape_records_only_the_boundary (ed : Editor num) :
  let env := ed_scene ed in
  let auto := ed_auto ed in
  (length (current env) < 3 -> closeShape estimateRoadWidth ed = Some ed)
  /\ (3 <= length (current env) ->
      match mode env with
      | boundaryMode =>
          exists ed',
            closeShape estimateRoadWidth ed = Some ed'
            /\ boundary (persist (ed_scene ed'))
               = closePoly auto (autoApplyBoundary auto) (current env)
            /\ boundaryClosed (persist (ed_scene ed')) = true
            /\ current (ed_scene ed') = []
            /\ history (ed_scene ed') = history env ++ [makeSnapshot env]
            /\ future (ed_scene ed') = []
            /\ persist (undoHistory (ed_scene ed') (ed_scene ed')) = makeSnapshot env
            /\ history (undoHistory (ed_scene ed') (ed_scene ed')) = history env
      | internalRoadMode =>
          exists ed' id,
            closeShape estimateRoadWidth ed = Some ed'
            /\ nextGlobalRoadId env = Some id
            /\ exists w,
                 internalRoads (persist (ed_scene ed'))
                 = internalRoads (persist env)
                   ++ [{| ir_road_id := id;
                          ir_polygon :=
                            closePoly auto (autoApplyInternalRoad auto) (current env);
                          ir_width := Some w |}]
            /\ current (ed_scene ed') = []
            /\ history (ed_scene ed') = history env
            /\ future (ed_scene ed') = future env
      | lotMode =>
          exists ed',
            closeShape estimateRoadWidth ed = Some ed'
            /\ lots (persist (ed_scene ed'))
               = lots (persist env)
                 ++ [{| lot_id := Some (nextLotId env);
                        lot_polygon := closePoly auto (autoApplyLot auto) (current env) |}]
            /\ current (ed_scene ed') = []
            /\ history (ed_scene ed') = history env
            /\ future (ed_scene ed') = future env
      | _ => closeShape estimateRoadWidth ed = Some ed
      end).
Proof using Type*.
  intros env auto. subst env auto. unfold closeShape. split.
  - intros Hlt. destruct (Nat.leb_spec 3 (length (current (ed_scene ed)))); [lia|reflexivity].
  - intros Hge. destruct (Nat.leb_spec 3 (length (current (ed_scene ed)))); [|lia].
    destruct (mode (ed_scene ed)); try reflexivity.
    + set (env := ed_scene ed).
      set (st := setCurrent []
                   (setBoundaryClosed true
                      (setBoundary
                         (closePoly (ed_auto ed) (autoApplyBoundary (ed_auto ed)) (current env))
                         (pushHistory env env)))).
      exists (setHover None (with_scene (fun _ => st) ed)).
      split; [reflexivity|]. cbn [setHover with_scene ed_scene].
      destruct (undoHistory_spec st st (history env) (makeSnapshot env) eq_refl)
        as (H1 & _ & H3).
      repeat (split; [reflexivity|]). split; [exact H3|exact H1].
    + unfold nextInternalRoadId.
      destruct (nextGlobalRoadId_returns_free (ed_scene ed)) as (n & Hsome & _).
      rewrite Hsome. cbn [mbind option_bind].
      eexists. exists (roadIdOf n). split; [reflexivity|]. split; [reflexivity|].
      eexists. cbn. repeat split; reflexivity.
    + eexists. split; [reflexivity|]. cbn. repeat split; reflexivity.
Qed.

(** X17.  A click while a boundary, an internal road or a lot is being
    drawn hands the previewed point to [dedupPush].  When the point is
    appended, [smartUndo] right after the click gives back the state from
    before it.  When the point is merged into the last one (nothing is
    appended), [smartUndo] removes the point drawn before. *)
Theorem click_then_smartUndo (env : Scene num) (e : PointerEvt num) (p : @Point num) :
  (mode env = internalRoadMode \/ mode env = lotMode
   \/ (mode env = boundaryMode /\ boundaryClosed (persist env) = false)) ->
  computePreviewPoint env e = Some p ->
  exists st,
    onCanvasClick env e = Some st
    /\ current st = dedupPush (current env) p
    /\ persist st = persist env /\ history st = history env
    /\ (dedupPush (current env) p = current env ++ [p] -> smartUndo st st = env)
    /\ (dedupPush (current env) p = current env ->
        current (smartUndo st st) = dropLast (current env)
        /\ persist (smartUndo st st) = persist env).
Proof.
  intros Hmode Hp. unfold onCanvasClick. rewrite Hp.
  assert (Hst : (mode env = boundaryMode -> boundaryClosed (persist env) = false) /\
                exists m, mode env = m /\ m <> publicRoadMode /\ m <> selectMode).
  { destruct Hmode as [H|[H|[H H']]]; rewrite H; (split; [try discriminate; auto|]);
      eexists; (split; [reflexivity|split; discriminate]). }
  destruct Hst as [Hopen (m & Hm & Hm1 & Hm2)].
  exists (setCurrent (dedupPush (current env) p) env).
  split.
  { destruct (mode env) eqn:E; try reflexivity.
    - rewrite Hopen by reflexivity. reflexivity.
    - subst m. contradiction.
    - subst m. contradiction. }
  split; [reflexivity|]. split; [reflexivity|]. split; [reflexivity|].
  unfold smartUndo. cbn [setCurrent current mode persist].
  split.
  - intros Happ. rewrite Happ.
    destruct (current env ++ [p]) as [|x l] eqn:Hcur.
    { destruct (current env); discriminate. }
    rewrite <- Hcur. rewrite dropLast_snoc.
    assert (Hm' : mode env = boundaryMode \/ mode env = internalRoadMode \/ mode env = lotMode)
      by (destruct Hmode as [H|[H|[H _]]]; auto).
    destruct env as [pe he fe me ce ae se te]. cbn in *.
    destruct Hm' as [->|[->| ->]]; reflexivity.
  - intros Hsame. rewrite Hsame.
    assert (Hm' : mode env = boundaryMode \/ mode env = internalRoadMode \/ mode env = lotMode)
      by (destruct Hmode as [H|[H|[H _]]]; auto).
    destruct (current env) as [|x l] eqn:Hcur.
    { unfold dedupPush in Hsame. cbn in Hsame. discriminate. }
    destruct Hm' as [->|[->| ->]]; split; reflexivity.
Qed.

End DrawingProperties.
(** ** Selecting *)

Section HitTests.
Context {num : Type} {N : JSNumber num}.

Lemma vertexWithin_Some (p : @Point num) (tol : num) (poly : list (@Point num)) (j : nat) :
  vertexWithin p tol poly = Some j ->
  j < length poly /\ nleb (distance (at_ poly j) p) tol = true.
Proof.
  unfold vertexWithin. intros H. apply find_some in H as [Hin Hj].
  apply in_seq in Hin. split; [lia|exact Hj].
Qed.

Lemma vertexWithin_None (p : @Point num) (tol : num) (poly : list (@Point num)) (j : nat) :
  vertexWithin p tol poly = None -> j < length poly ->
  nleb (distance (at_ poly j) p) tol = false.
Proof.
  unfold vertexWithin. intros H Hj.
  apply (find_none _ _ H j). apply in_seq. lia.
Qed.

Lemma checkPoly_Some (p : @Point num) (tol : num) (poly : list (@Point num)) (k : nat) :
  checkPoly p tol poly = Some k ->
  2 <= length poly /\ k < length poly
  /\ nleb (nsqrt (d2 (pointSegProjection p (at_ poly k)
                        (at_ poly ((k + 1) mod length poly))))) tol = true.
Proof.
  unfold checkPoly. destruct (Nat.ltb_spec (length poly) 2); [discriminate|].
  intros H'. apply find_some in H' as [Hin Hk].
  apply in_seq in Hin. split; [lia|]. split; [lia|exact Hk].
Qed.

Lemma firstHit_Some (hit : list (@Point num) -> option nat)
    (polys : list (list (@Point num))) (i0 i j : nat) :
  firstHit hit polys i0 = Some (i, j) ->
  exists poly, i0 <= i /\ polys !! (i - i0) = Some poly /\ hit poly = Some j.
Proof.
  revert i0. induction polys as [|poly polys IH]; intros i0; cbn [firstHit]; [discriminate|].
  destruct (hit poly) as [j'|] eqn:Hhit.
  - intros [= <- <-]. exists poly. split; [lia|].
    rewrite Nat.sub_diag. split; [reflexivity|exact Hhit].
  - intros H. apply IH in H as (poly' & Hle & Hl & Hh).
    exists poly'. split; [lia|]. split; [|exact Hh].
    replace (i - i0) with (S (i - S i0)) by lia. exact Hl.
Qed.

Lemma firstHit_None (hit : list (@Point num) -> option nat)
    (polys : list (list (@Point num))) (i0 : nat) :
  firstHit hit polys i0 = None -> forall poly, In poly polys -> hit poly = None.
Proof.
  revert i0. induction polys as [|poly polys IH]; intros i0; cbn [firstHit].
  - intros _ ? [].
  - destruct (hit poly) eqn:Hhit; [discriminate|].
    intros H poly' [<-|Hin]; [exact Hhit|apply (IH _ H), Hin].
Qed.

Lemma lookup_map_Some {A B} (f : A -> B) (l : list A) (i : nat) (y : B) :
  map f l !! i = Some y -> exists x, l !! i = Some x /\ y = f x.
Proof.
  change (map f l) with (f <$> l). rewrite list_lookup_fmap.
  destruct (l !! i) as [x|]; [|discriminate].
  intros [= <-]. exists x. split; reflexivity.
Qed.

(** A vertex hit names an entity of the scene and one of its vertices,
    within the tolerance. *)
Lemma hitTestVertex_valid (env : Scene num) (p : @Point num) (tol : num) (sel : Selection) :
  hitTestVertex env p tol = Some sel ->
  sel_edgeIndex sel = None
  /\ exists j poly,
       sel_vertexIndex sel = Some j
       /\ entityPoints env (sel_kind sel) (sel_index sel) = Some poly
       /\ j < length poly
       /\ nleb (distance (at_ poly j) p) tol = true.
Proof.
  unfold hitTestVertex.
  destruct (firstHit _ (map lot_polygon _) 0) as [[i j]|] eqn:H1.
  { intros [= <-]. split; [reflexivity|].
    apply firstHit_Some in H1 as (poly & _ & Hl & Hh). rewrite Nat.sub_0_r in Hl.
    apply lookup_map_Some in Hl as (l & Hl & ->).
    apply vertexWithin_Some in Hh as [Hj Hd].
    exists j, (lot_polygon l). cbn. rewrite Hl. auto. }
  destruct (firstHit _ (map ir_polygon _) 0) as [[i j]|] eqn:H2.
  { intros [= <-]. split; [reflexivity|].
    apply firstHit_Some in H2 as (poly & _ & Hl & Hh). rewrite Nat.sub_0_r in Hl.
    apply lookup_map_Some in Hl as (r & Hl & ->).
    apply vertexWithin_Some in Hh as [Hj Hd].
    exists j, (ir_polygon r). cbn. rewrite Hl. auto. }
  destruct (if boundaryClosed (persist env) then _ else None) as [j|] eqn:H3.
  { intros [= <-]. split; [reflexivity|].
    destruct (boundaryClosed (persist env)); [|discriminate].
    apply vertexWithin_Some in H3 as [Hj Hd].
    exists j, (boundary (persist env)). cbn. auto. }
  destruct (firstHit _ (map pr_entry_points _) 0) as [[i j]|] eqn:H4; [|discriminate].
  intros [= <-]. split; [reflexivity|].
  apply firstHit_Some in H4 as (poly & _ & Hl & Hh). rewrite Nat.sub_0_r in Hl.
  apply lookup_map_Some in Hl as (r & Hl & ->).
  apply vertexWithin_Some in Hh as [Hj Hd].
  exists j, (pr_entry_points r). cbn. rewrite Hl. auto.
Qed.

Lemma hitTestEdge_valid (env : Scene num) (p : @Point num) (tol : num) (sel : Selection) :
  hitTestEdge env p tol = Some sel ->
  sel_vertexIndex sel = None
  /\ sel_kind sel <> KpublicEP
  /\ exists k poly,
       sel_edgeIndex sel = Some k
       /\ entityPoints env (sel_kind sel) (sel_index sel) = Some poly
       /\ 2 <= length poly /\ k < length poly
       /\ nleb (nsqrt (d2 (pointSegProjection p (at_ poly k)
                             (at_ poly ((k + 1) mod length poly))))) tol = true.
Proof.
  unfold hitTestEdge.
  destruct (firstHit _ (map lot_polygon _) 0) as [[i k]|] eqn:H1.
  { intros [= <-]. split; [reflexivity|]. split; [discriminate|].
    apply firstHit_Some in H1 as (poly & _ & Hl & Hh). rewrite Nat.sub_0_r in Hl.
    apply lookup_map_Some in Hl as (l & Hl & ->).
    apply checkPoly_Some in Hh as (Hn & Hk & Hd).
    exists k, (lot_polygon l). cbn. rewrite Hl. auto. }
  destruct (firstHit _ (map ir_polygon _) 0) as [[i k]|] eqn:H2.
  { intros [= <-]. split; [reflexivity|]. split; [discriminate|].
    apply firstHit_Some in H2 as (poly & _ & Hl & Hh). rewrite Nat.sub_0_r in Hl.
    apply lookup_map_Some in Hl as (r & Hl & ->).
    apply checkPoly_Some in Hh as (Hn & Hk & Hd).
    exists k, (ir_polygon r). cbn. rewrite Hl. auto. }
  destruct (if boundaryClosed (persist env) then _ else None) as [k|] eqn:H3; [|discriminate].
  intros [= <-]. split; [reflexivity|]. split; [discriminate|].
  destruct (boundaryClosed (persist env)); [|discriminate].
  apply checkPoly_Some in H3 as (Hn & Hk & Hd).
  exists k, (boundary (persist env)). cbn. auto.
Qed.

(** X18.  A handle returned by [hitTestVertex] or [hitTestEdge] names an
    entity of the scene and a vertex, or an edge, of its polygon that lies
    within the tolerance of the pointer; an edge hit is never on a public
    road, and a boundary is hit only when it is closed.  When
    [hitTestVertex] answers null, no vertex of a lot, of an internal road,
    of the closed boundary or of a public road is within the tolerance. *)
Theorem hit_tests_return_valid_handles (env : Scene num) (p : @Point num) (tol : num) :
  (forall sel, hitTestVertex env p tol = Some sel ->
     sel_edgeIndex sel = None
     /\ (sel_kind sel = Kboundary -> boundaryClosed (persist env) = true)
     /\ exists j poly,
          sel_vertexIndex sel = Some j
          /\ entityPoints env (sel_kind sel) (sel_index sel) = Some poly
          /\ j < length poly
          /\ nleb (distance (at_ poly j) p) tol = true)
  /\ (hitTestVertex env p tol = None ->
      forall kind index poly j,
        entityPoints env kind index = Some poly ->
        (kind = Kboundary -> boundaryClosed (persist env) = true) ->
        j < length poly ->
        nleb (distance (at_ poly j) p) tol = false)
  /\ (forall sel, hitTestEdge env p tol = Some sel ->
        sel_vertexIndex sel = None
        /\ sel_kind sel <> KpublicEP
        /\ (sel_kind sel = Kboundary -> boundaryClosed (persist env) = true)
        /\ exists k poly,
             sel_edgeIndex sel = Some k
             /\ entityPoints env (sel_kind sel) (sel_index sel) = Some poly
             /\ 2 <= length poly /\ k < length poly
             /\ nleb (nsqrt (d2 (pointSegProjection p (at_ poly k)
                                   (at_ poly ((k + 1) mod length poly))))) tol = true).
Proof.
  split; [|split].
  - intros sel H. destruct (hitTestVertex_valid env p tol sel H) as [He Hex].
    split; [exact He|]. split; [|exact Hex].
    unfold hitTestVertex in H.
    destruct (firstHit _ (map lot_polygon _) 0); [injection H as <-; discriminate|].
    destruct (firstHit _ (map ir_polygon _) 0); [injection H as <-; discriminate|].
    destruct (boundaryClosed (persist env)); [reflexivity|].
    destruct (firstHit _ (map pr_entry_points _) 0); [injection H as <-; discriminate|].
    discriminate.
  - unfold hitTestVertex.
    destruct (firstHit _ (map lot_polygon _) 0) eqn:H1; [discriminate|].
    destruct (firstHit _ (map ir_polygon _) 0) eqn:H2; [discriminate|].
    destruct (if boundaryClosed (persist env) then _ else None) eqn:H3; [discriminate|].
    destruct (firstHit _ (map pr_entry_points _) 0) eqn:H4; [discriminate|].
    intros _ kind index poly j Hent Hclosed Hj.
    apply vertexWithin_None; [|exact Hj].
    destruct kind; cbn in Hent.
    + rewrite (Hclosed eq_refl) in H3. injection Hent as <-. exact H3.
    + destruct (internalRoads (persist env) !! index) as [r|] eqn:Hr; [|discriminate].
      injection Hent as <-. apply (firstHit_None _ _ _ H2).
      apply in_map. apply list_elem_of_In, (list_elem_of_lookup_2 _ _ _ Hr).
    + destruct (lots (persist env) !! index) as [l|] eqn:Hl; [|discriminate].
      injection Hent as <-. apply (firstHit_None _ _ _ H1).
      apply in_map. apply list_elem_of_In, (list_elem_of_lookup_2 _ _ _ Hl).
    + destruct (publicRoads (persist env) !! index) as [r|] eqn:Hr; [|discriminate].
      injection Hent as <-. apply (firstHit_None _ _ _ H4).
      apply in_map. apply list_elem_of_In, (list_elem_of_lookup_2 _ _ _ Hr).
  - intros sel H. destruct (hitTestEdge_valid env p tol sel H) as (Hv & Hk & Hex).
    split; [exact Hv|]. split; [exact Hk|]. split; [|exact Hex].
    unfold hitTestEdge in H.
    destruct (firstHit _ (map lot_polygon _) 0); [injection H as <-; discriminate|].
    destruct (firstHit _ (map ir_polygon _) 0); [injection H as <-; discriminate|].
    destruct (boundaryClosed (persist env)); [reflexivity|discriminate].
Qed.

End HitTests.
(** ** Dragging *)

Section DragGesture.
Context {num : Type} {N : JSNumber num}.
Variable estimateRoadWidth : list (@Point num) -> num.

Lemma entityPoints_lot (st : Scene num) (index : nat) :
  is_Some (entityPoints st Klot index) -> is_Some (lots (persist st) !! index).
Proof. cbn. destruct (lots (persist st) !! index); [eauto|intros [? H]; discriminate]. Qed.

Lemma entityPoints_internal (st : Scene num) (index : nat) :
  is_Some (entityPoints st Kinternal index) ->
  is_Some (internalRoads (persist st) !! index).
Proof.
  cbn. destruct (internalRoads (persist st) !! index); [eauto|intros [? H]; discriminate].
Qed.

Lemma entityPoints_public (st : Scene num) (index : nat) :
  is_Some (entityPoints st KpublicEP index) ->
  is_Some (publicRoads (persist st) !! index).
Proof.
  cbn. destruct (publicRoads (persist st) !! index); [eauto|intros [? H]; discriminate].
Qed.

(** With the selected entity in the scene, the deletion does not throw. *)
Lemma onDeleteSelection_returns (env : Scene num) :
  (forall sel, selection env = Some sel ->
     is_Some (entityPoints env (sel_kind sel) (sel_index sel))) ->
  exists st, onDeleteSelection env = Some st.
Proof.
  intros Hvalid. unfold onDeleteSelection.
  destruct (selection env) as [sel|]; [|eauto].
  specialize (Hvalid sel eq_refl).
  destruct (sel_edgeIndex sel) as [k|].
  - unfold deleteEdge. destruct (sel_kind sel); cbn [mbind option_bind].
    + destruct (length (boundary (persist env)) <? 3);
        [|destruct (length (splice1 _ _) <? 3)]; eauto.
    + apply entityPoints_internal in Hvalid as [r Hr].
      unfold deleteEdgeRoads. cbn [pushHistory set_future set_history persist].
      rewrite Hr. cbn [mbind option_bind].
      destruct (length (ir_polygon r) <? 3); [|destruct (length (splice1 _ _) <? 3)];
        cbn [mbind option_bind]; eauto.
    + apply entityPoints_lot in Hvalid as [l Hl].
      unfold deleteEdgeLots. cbn [pushHistory set_future set_history persist].
      rewrite Hl. cbn [mbind option_bind].
      destruct (length (lot_polygon l) <? 3); [|destruct (length (splice1 _ _) <? 3)];
        cbn [mbind option_bind]; eauto.
    + eauto.
  - destruct (sel_kind sel), (sel_vertexIndex sel) as [v|];
      cbn [pushHistory set_future set_history persist mbind option_bind]; eauto.
    + destruct (length (splice1 _ _) <? 3); eauto.
    + apply entityPoints_internal in Hvalid as [r Hr].
      unfold deleteVertexRoads. rewrite Hr. cbn [mbind option_bind].
      destruct (length (splice1 _ _) <? 3); cbn [mbind option_bind]; eauto.
    + apply entityPoints_lot in Hvalid as [l Hl].
      unfold deleteVertexLots. rewrite Hl. cbn [mbind option_bind].
      destruct (length (splice1 _ _) <? 3); cbn [mbind option_bind]; eauto.
    + apply entityPoints_public in Hvalid as [r Hr].
      rewrite Hr. cbn [mbind option_bind]. eauto.
Qed.

Lemma getGeomSnapshot_length (env : Scene num) (sel : Selection) (poly : list (@Point num)) :
  entityPoints env (sel_kind sel) (sel_index sel) = Some poly ->
  exists geom, getGeomSnapshot env sel = Some geom /\ length geom = length poly.
Proof.
  unfold getGeomSnapshot, entityPoints. destruct (sel_kind sel).
  - intros [= <-]. eexists. split; [reflexivity|apply length_fmap].
  - destruct (internalRoads (persist env) !! sel_index sel); [|discriminate].
    intros [= <-]. eexists. split; [reflexivity|apply length_fmap].
  - destruct (lots (persist env) !! sel_index sel); [|discriminate].
    intros [= <-]. eexists. split; [reflexivity|apply length_fmap].
  - destruct (publicRoads (persist env) !! sel_index sel); [|discriminate].
    intros [= <-]. eexists. split; [reflexivity|apply length_fmap].
Qed.

(** What the pointer going down leaves: nothing new, or a selection, one
    snapshot more and a drag that fits the scene. *)
Lemma onPointerDown_spec (ed : Editor num) (e : PointerEvt num) :
  ed_dragging ed = None ->
  exists ed',
    onPointerDown ed e = Some ed'
    /\ persist (ed_scene ed') = persist (ed_scene ed)
    /\ ed_auto ed' = ed_auto ed
    /\ ((ed_dragging ed' = None /\ history (ed_scene ed') = history (ed_scene ed)
         /\ ((ed' = ed /\ (mode (ed_scene ed) <> selectMode \/ raw0 e = None))
             \/ selection (ed_scene ed') = None))
        \/ (exists d,
              ed_dragging ed' = Some d
              /\ DragInRange (ed_scene ed') d
              /\ history (ed_scene ed')
                 = history (ed_scene ed) ++ [makeSnapshot (ed_scene ed)])).
Proof.
  intros Hd. unfold onPointerDown.
  assert (Hsame : mode (ed_scene ed) <> selectMode \/ raw0 e = None ->
            exists ed', Some ed = Some ed'
            /\ persist (ed_scene ed') = persist (ed_scene ed)
            /\ ed_auto ed' = ed_auto ed
            /\ ((ed_dragging ed' = None /\ history (ed_scene ed') = history (ed_scene ed)
                 /\ ((ed' = ed /\ (mode (ed_scene ed) <> selectMode \/ raw0 e = None))
             \/ selection (ed_scene ed') = None))
                \/ (exists d, ed_dragging ed' = Some d
                      /\ DragInRange (ed_scene ed') d
                      /\ history (ed_scene ed')
                         = history (ed_scene ed) ++ [makeSnapshot (ed_scene ed)]))).
  { intros Hwhy. exists ed. split; [reflexivity|]. split; [reflexivity|].
    split; [reflexivity|].
    left. split; [exact Hd|]. split; [reflexivity|left; split; [reflexivity|exact Hwhy]]. }
  destruct (mode (ed_scene ed)); try (apply Hsame; left; discriminate).
  destruct (raw0 e) as [p|]; [|apply Hsame; right; reflexivity].
  clear Hsame.
  assert (Hstart : forall (W : Prop) sel handle shift poly,
             entityPoints (ed_scene ed) (sel_kind sel) (sel_index sel) = Some poly ->
             match handle with DragVertex v => v < length poly | DragEdge i => i < length poly end ->
             exists ed', startDrag ed sel handle p shift = Some ed'
               /\ persist (ed_scene ed') = persist (ed_scene ed)
               /\ ed_auto ed' = ed_auto ed
               /\ ((ed_dragging ed' = None /\ history (ed_scene ed') = history (ed_scene ed)
                    /\ ((ed' = ed /\ W)
             \/ selection (ed_scene ed') = None))
                   \/ (exists d, ed_dragging ed' = Some d
                         /\ DragInRange (ed_scene ed') d
                         /\ history (ed_scene ed')
                            = history (ed_scene ed) ++ [makeSnapshot (ed_scene ed)]))).
  { intros W sel handle shift poly Hent Hh. unfold startDrag.
    destruct (getGeomSnapshot_length _ _ _ Hent) as (geom & -> & Hlen).
    cbn [mbind option_bind]. eexists. split; [reflexivity|].
    split; [reflexivity|]. split; [reflexivity|]. right.
    eexists. split; [reflexivity|]. split; [|reflexivity].
    unfold DragInRange. cbn [d_kind d_index d_handle d_startGeom setDragging with_scene ed_scene].
    split; [|split].
    - change (entityPoints (pushHistory (ed_scene ed) (set_selection (Some sel) (ed_scene ed)))
                (sel_kind sel) (sel_index sel))
        with (entityPoints (ed_scene ed) (sel_kind sel) (sel_index sel)).
      rewrite Hent. eauto.
    - rewrite Hlen. exact Hh.
    - exists sel. split; [reflexivity|]. split; reflexivity. }
  destruct (hitTestVertex _ p _) as [vhit|] eqn:Hv.
  { destruct (hitTestVertex_valid _ _ _ _ Hv) as (_ & j & poly & Hj & Hent & Hlt & _).
    rewrite Hj. change (default 0 (Some j)) with j.
    apply (Hstart _ vhit (DragVertex j) false poly Hent Hlt). }
  destruct (hitTestEdge _ p _) as [ehit|] eqn:He.
  { destruct (hitTestEdge_valid _ _ _ _ He) as (_ & _ & k & poly & Hk & Hent & _ & Hlt & _).
    rewrite Hk. change (default 0 (Some k)) with k.
    apply (Hstart _ ehit (DragEdge k) (shiftKey e) poly Hent Hlt). }
  eexists. split; [reflexivity|]. split; [reflexivity|]. split; [reflexivity|].
  left. split; [exact Hd|]. split; [reflexivity|right; reflexivity].
Qed.

Lemma assignAt_inside {A} (i : nat) (x : A) (arr : list A) :
  i < length arr -> assignAt i x arr = Some (<[i := x]> arr).
Proof.
  intros Hi. unfold assignAt. destruct (Nat.ltb_spec i (length arr)); [reflexivity|lia].
Qed.

Lemma applyGeom_keeps (kind : Kind) (index : nat) (poly : list (@Point num))
    (st : Scene num) :
  is_Some (entityPoints st kind index) ->
  exists st',
    applyGeom kind index poly st = Some st'
    /\ is_Some (entityPoints st' kind index)
    /\ history st' = history st /\ future st' = future st
    /\ selection st' = selection st.
Proof.
  intros Hent. unfold applyGeom. destruct kind.
  - eexists. split; [reflexivity|]. cbn. eauto.
  - apply entityPoints_internal in Hent as [r Hr]. rewrite Hr. cbn [mbind option_bind].
    eexists. split; [reflexivity|]. split; [|auto]. cbn.
    rewrite list_lookup_insert_eq by (apply (lookup_lt_Some _ _ _ Hr)). cbn. eauto.
  - apply entityPoints_lot in Hent as [l Hl]. rewrite Hl.
    rewrite (assignAt_inside _ _ _ (lookup_lt_Some _ _ _ Hl)). cbn [mbind option_bind].
    eexists. split; [reflexivity|]. split; [|auto]. cbn.
    rewrite list_lookup_insert_eq by (apply (lookup_lt_Some _ _ _ Hl)). cbn. eauto.
  - apply entityPoints_public in Hent as [r Hr]. rewrite Hr. cbn [mbind option_bind].
    eexists. split; [reflexivity|]. split; [|auto]. cbn.
    rewrite list_lookup_insert_eq by (apply (lookup_lt_Some _ _ _ Hr)). cbn. eauto.
Qed.

(** A move of a drag that fits the scene does not throw, and leaves a drag
    that fits the scene and the same history. *)
Lemma onDragMove_keeps (ed : Editor num) (d : Dragging num) (e : PointerEvt num) :
  ed_dragging ed = Some d -> DragInRange (ed_scene ed) d ->
  exists ed',
    onDragMove ed e = Some ed'
    /\ ed_dragging ed' = Some d
    /\ DragInRange (ed_scene ed') d
    /\ history (ed_scene ed') = history (ed_scene ed)
    /\ ed_auto ed' = ed_auto ed.
Proof.
  intros Hd Hin. unfold onDragMove. rewrite Hd.
  assert (Hsame : exists ed', Some ed = Some ed' /\ ed_dragging ed' = Some d
                    /\ DragInRange (ed_scene ed') d
                    /\ history (ed_scene ed') = history (ed_scene ed)
                    /\ ed_auto ed' = ed_auto ed) by (exists ed; auto).
  destruct (raw0 e) as [p|]; [|exact Hsame].
  destruct Hin as (Hent & Hhandle & sel & Hsel & Hk & Hi).
  assert (Happly : forall poly,
             exists ed',
               (st ← applyGeom (d_kind d) (d_index d) poly (ed_scene ed);
                Some (with_scene (fun _ => st) ed)) = Some ed'
               /\ ed_dragging ed' = Some d
               /\ DragInRange (ed_scene ed') d
               /\ history (ed_scene ed') = history (ed_scene ed)
               /\ ed_auto ed' = ed_auto ed).
  { intros poly.
    destruct (applyGeom_keeps (d_kind d) (d_index d) poly (ed_scene ed) Hent)
      as (st' & -> & Hent' & Hh & _ & Hs).
    cbn [mbind option_bind]. eexists. split; [reflexivity|].
    split; [exact Hd|]. split; [|split; [exact Hh|reflexivity]].
    split; [exact Hent'|]. split; [exact Hhandle|].
    exists sel. cbn [with_scene ed_scene]. rewrite Hs. auto. }
  destruct (d_handle d) as [v|i].
  - rewrite assignAt_inside by (rewrite length_fmap; exact Hhandle).
    cbn [mbind option_bind]. apply Happly.
  - destruct (d_kind d) eqn:Hkind; try exact Hsame;
      rewrite length_fmap;
      (destruct (Nat.ltb_spec (length (d_startGeom d)) 2); [exact Hsame|]);
      (destruct ((copyPoint <$> d_startGeom d) !! i) as [a0|] eqn:Ha;
       [|apply lookup_ge_None in Ha; rewrite length_fmap in Ha; lia]);
      cbn [mbind option_bind];
      (destruct ((copyPoint <$> d_startGeom d) !! ((i + 1) mod length (d_startGeom d)))
         as [b0|] eqn:Hb;
       [|apply lookup_ge_None in Hb; rewrite length_fmap in Hb;
         pose proof (Nat.mod_upper_bound (i + 1) (length (d_startGeom d))); lia]);
      cbn [mbind option_bind]; apply Happly.
Qed.

Lemma dragMoves_keep (moves : list (PointerEvt num)) (ed : Editor num) (d : Dragging num) :
  ed_dragging ed = Some d -> DragInRange (ed_scene ed) d ->
  exists ed',
    foldl (fun acc e => ed ← acc; onDragMove ed e) (Some ed) moves = Some ed'
    /\ ed_dragging ed' = Some d
    /\ DragInRange (ed_scene ed') d
    /\ history (ed_scene ed') = history (ed_scene ed)
    /\ ed_auto ed' = ed_auto ed.
Proof.
  revert ed. induction moves as [|e moves IH]; intros ed Hd Hin; cbn [foldl].
  - exists ed. auto.
  - cbn [mbind option_bind].
    destruct (onDragMove_keeps ed d e Hd Hin) as (ed1 & -> & Hd1 & Hin1 & Hh1 & Ha1).
    destruct (IH ed1 Hd1 Hin1) as (ed' & Hfold & Hd' & Hin' & Hh' & Ha').
    exists ed'. split; [exact Hfold|]. split; [exact Hd'|]. split; [exact Hin'|].
    split; [congruence|congruence].
Qed.

Lemma dragMoves_idle (moves : list (PointerEvt num)) (ed : Editor num) :
  ed_dragging ed = None ->
  foldl (fun acc e => ed ← acc; onDragMove ed e) (Some ed) moves = Some ed.
Proof.
  intros Hd. induction moves as [|e moves IH]; cbn [foldl]; [reflexivity|].
  cbn [mbind option_bind]. unfold onDragMove at 2. rewrite Hd. exact IH.
Qed.

Lemma endDrag_keeps (ed : Editor num) (d : Dragging num) :
  DragInRange (ed_scene ed) d ->
  exists ed',
    endDrag estimateRoadWidth ed = Some ed'
    /\ ed_dragging ed' = None
    /\ history (ed_scene ed') = history (ed_scene ed).
Proof.
  intros (Hent & _ & sel & Hsel & Hk & Hi). unfold endDrag. rewrite Hsel.
  destruct (sel_kind sel) eqn:Hkind; try (eexists; split; [reflexivity|split; reflexivity]).
  cbn [setDragging ed_auto].
  destruct (autoInternalWidth (ed_auto ed)); [|eexists; split; [reflexivity|split; reflexivity]].
  rewrite <- Hk, <- Hi in Hent. apply entityPoints_internal in Hent as [r Hr].
  rewrite Hr. cbn [fmap option_fmap option_map default].
  destruct (nisFinite _ && _); cbn [mbind option_bind];
    eexists; (split; [reflexivity|split; reflexivity]).
Qed.

(** X19.  A drag never throws and is undone in one step.  From an editor
    with no drag in progress, the pointer going down, moving any number of
    times and going up either leaves the scene and the undo stack as they
    were (nothing was hit), or leaves the undo stack one snapshot longer,
    however many moves there were, and one undo restores the scene from
    before the pointer went down.  After the gesture no drag is in
    progress. *)
Theorem drag_gesture_is_one_undo_step (ed : Editor num) (down : PointerEvt num)
    (moves : list (PointerEvt num)) :
  ed_dragging ed = None ->
  exists ed',
    dragGesture estimateRoadWidth ed down moves = Some ed'
    /\ ed_dragging ed' = None
    /\ ((history (ed_scene ed') = history (ed_scene ed)
         /\ persist (ed_scene ed') = persist (ed_scene ed))
        \/ (history (ed_scene ed') = history (ed_scene ed) ++ [makeSnapshot (ed_scene ed)]
            /\ persist (undoHistory (ed_scene ed') (ed_scene ed'))
               = makeSnapshot (ed_scene ed)
            /\ history (undoHistory (ed_scene ed') (ed_scene ed'))
               = history (ed_scene ed))).
Proof using Type*.
  intros Hd. unfold dragGesture.
  destruct (onPointerDown_spec ed down Hd)
    as (ed1 & -> & Hp1 & _ & [(Hd1 & Hh1 & _)|(d & Hd1 & Hin1 & Hh1)]);
    cbn [mbind option_bind].
  - rewrite (dragMoves_idle moves ed1 Hd1). cbn [mbind option_bind].
    unfold onPointerUp. rewrite Hd1.
    exists ed1. split; [reflexivity|]. split; [exact Hd1|]. left. auto.
  - destruct (dragMoves_keep moves ed1 d Hd1 Hin1) as (ed2 & -> & Hd2 & Hin2 & Hh2 & _).
    cbn [mbind option_bind]. unfold onPointerUp. rewrite Hd2.
    destruct (endDrag_keeps ed2 d Hin2) as (ed3 & -> & Hd3 & Hh3).
    exists ed3. split; [reflexivity|]. split; [exact Hd3|]. right.
    assert (Hh : history (ed_scene ed3)
                 = history (ed_scene ed) ++ [makeSnapshot (ed_scene ed)]) by congruence.
    destruct (undoHistory_spec (ed_scene ed3) (ed_scene ed3) _ _ Hh) as (H1 & _ & H3).
    auto.
Qed.

(** X20.  In select mode, whatever the pointer goes down on, the Delete
    key pressed next does not throw: the selection set by [onPointerDown]
    names an entity of the scene.  The pointer going down changes none of
    the five persistent cells. *)
Theorem select_then_delete_never_throws (ed : Editor num) (e : PointerEvt num)
    (p : @Point num) :
  ed_dragging ed = None ->
  mode (ed_scene ed) = selectMode ->
  raw0 e = Some p ->
  exists ed' st,
    onPointerDown ed e = Some ed'
    /\ persist (ed_scene ed') = persist (ed_scene ed)
    /\ onDeleteSelection (ed_scene ed') = Some st.
Proof.
  intros Hd Hmode Hraw.
  destruct (onPointerDown_spec ed e Hd) as (ed1 & Hdown & Hp1 & _ & Hcase).
  assert (Hvalid : forall sel, selection (ed_scene ed1) = Some sel ->
            is_Some (entityPoints (ed_scene ed1) (sel_kind sel) (sel_index sel))).
  { destruct Hcase as [(_ & _ & [[_ [Hm|Hr]]|Hnone])|(d & _ & (Hent & _ & sel & Hsel & Hk & Hi) & _)].
    - contradiction.
    - congruence.
    - intros sel Hsel. congruence.
    - intros sel' Hsel'. rewrite Hsel in Hsel'. injection Hsel' as <-.
      rewrite Hk, Hi. exact Hent. }
  destruct (onDeleteSelection_returns (ed_scene ed1) Hvalid) as [st Hst].
  exists ed1, st. auto.
Qed.

End DragGesture.
(** ** Rounding, the grid, and scaling in exact arithmetic *)

Section ExactRounding.
Context {m : Exact.MathLib}.
Local Open Scope Q_scope.

Lemma Qfloor_half (x : Q) :
  x - (1 # 2) < inject_Z (Qfloor (x + (1 # 2))) <= x + (1 # 2).
Proof.
  pose proof (Qfloor_le (x + (1 # 2))) as Hle.
  pose proof (Qlt_floor (x + (1 # 2))) as Hlt.
  rewrite inject_Z_plus in Hlt. change (inject_Z 1) with 1 in Hlt.
  split; lra.
Qed.

(** [Math.round] is within one half of its argument. *)
Lemma exact_round_near (x : Q) : Qabs (nround x - x) <= 1 # 2.
Proof.
  cbn [nround Exact.number]. unfold Exact.round.
  destruct (Qfloor_half x) as [H1 H2]. apply Qabs_Qle_condition. split; lra.
Qed.

(** [Number(x.toFixed(2))] is a whole number of hundredths within half a
    hundredth of [x]. *)
Lemma exact_toFixed2 (x : Q) :
  Qabs (ntoFixed 2 x - x) <= 1 # 200
  /\ exists k : Z, ntoFixed 2 x == inject_Z k / 100.
Proof.
  cbn [ntoFixed Exact.number]. unfold Exact.toFixed.
  change (inject_Z (10 ^ Z.of_nat 2)) with 100.
  destruct (Qle_bool 0 x).
  - destruct (Qfloor_half (x * 100)) as [H1 H2]. split.
    + apply Qabs_Qle_condition.
      set (k := inject_Z (Qfloor (x * 100 + (1 # 2)))) in *.
      assert (E : k / 100 - x == (k - x * 100) / 100) by field.
      rewrite E. split.
      * apply Qle_shift_div_l; [reflexivity|]. lra.
      * apply Qle_shift_div_r; [reflexivity|]. lra.
    + eexists. reflexivity.
  - destruct (Qfloor_half (- x * 100)) as [H1 H2]. split.
    + apply Qabs_Qle_condition.
      set (k := inject_Z (Qfloor (- x * 100 + (1 # 2)))) in *.
      assert (E : - (k / 100) - x == (- k - x * 100) / 100) by field.
      rewrite E. split.
      * apply Qle_shift_div_l; [reflexivity|]. lra.
      * apply Qle_shift_div_r; [reflexivity|]. lra.
    + exists (- Qfloor (- x * 100 + (1 # 2)))%Z.
      rewrite inject_Z_opp. field.
Qed.

(** X21.  In exact arithmetic [transformPoint] returns the point scaled
    about the centre, rounded to hundredths: each coordinate is a whole
    number of hundredths within half a hundredth of the scaled one.  So
    does every vertex of the polygon [scalePolygonToArea] returns when it
    scales, and the polygon keeps its number of vertices. *)
Theorem transformPoint_rounds_to_hundredths (p : @Point Q) (s cx cy : Q)
    (poly : list (@Point Q)) (targetArea : Q) :
  let q := transformPoint p s cx cy in
  Qabs (q.1 - (cx + s * (p.1 - cx))) <= 1 # 200
  /\ Qabs (q.2 - (cy + s * (p.2 - cy))) <= 1 # 200
  /\ (exists kx ky : Z, q.1 == inject_Z kx / 100 /\ q.2 == inject_Z ky / 100)
  /\ length (scalePolygonToArea poly targetArea) = length poly
  /\ (scalePolygonToArea poly targetArea = poly
      \/ Forall (fun v => exists kx ky : Z, v.1 == inject_Z kx / 100 /\ v.2 == inject_Z ky / 100)
           (scalePolygonToArea poly targetArea)).
Proof.
  intros q. subst q. unfold transformPoint. cbn [fst snd nadd nsub nmul Exact.number].
  destruct (exact_toFixed2 (cx + s * (p.1 - cx))) as [Hx [kx Ex]].
  destruct (exact_toFixed2 (cy + s * (p.2 - cy))) as [Hy [ky Ey]].
  split; [exact Hx|]. split; [exact Hy|]. split; [exists kx, ky; split; assumption|].
  unfold scalePolygonToArea.
  destruct (negb (nisFinite targetArea) || nleb targetArea n0 || nleb (shoelaceArea poly) n0).
  - split; [reflexivity|left; reflexivity].
  - destruct (polygonCentroid poly) as [ccx ccy]. split; [apply length_map|].
    right. apply List.Forall_forall. intros v Hv.
    apply in_map_iff in Hv as (pt & <- & _). unfold transformPoint.
    cbn [fst snd nadd nsub nmul Exact.number].
    destruct (exact_toFixed2 (ccx + nsqrt (targetArea / shoelaceArea poly) * (pt.1 - ccx)))
      as [_ [k1 E1]].
    destruct (exact_toFixed2 (ccy + nsqrt (targetArea / shoelaceArea poly) * (pt.2 - ccy)))
      as [_ [k2 E2]].
    exists k1, k2. split; assumption.
Qed.

Lemma exact_falsy (x : Q) : falsy x = true <-> x == 0.
Proof.
  unfold falsy. cbn [neqb nofZ Exact.number].
  assert (Hxx : Qeq_bool x x = true) by (apply Qeq_bool_iff; reflexivity).
  rewrite Hxx. cbn [negb]. rewrite orb_false_r. apply Qeq_bool_iff.
Qed.

(** X22.  In exact arithmetic [snapToGrid] returns the point unchanged
    when the step is not positive.  With a positive step the grid point it
    computes is within half a step, plus the half hundredth of the
    rounding, of the point in each coordinate; strict snapping returns that
    grid point, and snapping within a tolerance returns it or the point
    itself. *)
Theorem snapToGrid_within_half_step (p origin : @Point Q) (step tolUnits : Q) :
  (step <= 0 -> forall always, snapToGrid p step origin tolUnits always = p)
  /\ (0 < step ->
      let g := snapToGrid p step origin tolUnits true in
      Qabs (g.1 - p.1) <= step / 2 + (1 # 200)
      /\ Qabs (g.2 - p.2) <= step / 2 + (1 # 200)
      /\ (snapToGrid p step origin tolUnits false = g
          \/ snapToGrid p step origin tolUnits false = p)).
Proof.
  split.
  - intros Hle always. unfold snapToGrid.
    assert (H : nleb step n0 = true) by (apply exact_leb_le; exact Hle).
    rewrite H, orb_true_r. reflexivity.
  - intros Hpos g. subst g. unfold snapToGrid.
    assert (H1 : falsy step = false).
    { apply not_true_iff_false. intros H. apply exact_falsy in H.
      rewrite H in Hpos. discriminate. }
    assert (H2 : nleb step n0 = false) by (apply exact_leb_gt; exact Hpos).
    rewrite H1, H2. cbn [orb fst snd].
    assert (Hnear : forall x o,
               Qabs (ntoFixed 2 (nround ((x - o) / step) * step + o) - x)
               <= step / 2 + (1 # 200)).
    { intros x o.
      destruct (exact_toFixed2 (nround ((x - o) / step) * step + o)) as [Hf _].
      pose proof (exact_round_near ((x - o) / step)) as Hr.
      apply Qabs_Qle_condition in Hf as [Hf1 Hf2].
      apply Qabs_Qle_condition in Hr as [Hr1 Hr2].
      set (r := nround ((x - o) / step)) in *.
      set (f := ntoFixed 2 (r * step + o)) in *.
      assert (Hq : (x - o) / step * step == x - o)
        by (field; intros E; rewrite E in Hpos; discriminate).
      assert (Hs1 : (r - (x - o) / step) * step <= (1 # 2) * step) by nra.
      assert (Hs2 : - ((1 # 2) * step) <= (r - (x - o) / step) * step) by nra.
      assert (Hs : (r - (x - o) / step) * step == r * step - (x - o))
        by (rewrite <- Hq at 2; ring).
      rewrite Hs in Hs1, Hs2.
      apply Qabs_Qle_condition. split.
      - assert (E : step / 2 == (1 # 2) * step) by field. rewrite E. lra.
      - assert (E : step / 2 == (1 # 2) * step) by field. rewrite E. lra. }
    split; [apply Hnear|]. split; [apply Hnear|].
    cbn [nadd nsub nmul ndiv Exact.number].
    destruct (nleb _ tolUnits); [left|right]; reflexivity.
Qed.

(** X23.  In exact arithmetic the centroid [polygonCentroid] computes
    for a triangle is the mean of its three vertices, whether the area
    formula or the fallback for a flat triangle is used. *)
Theorem polygonCentroid_triangle_is_vertex_mean (a b c : @Point Q) :
  (polygonCentroid [a; b; c]).1 == (a.1 + b.1 + c.1) / 3
  /\ (polygonCentroid [a; b; c]).2 == (a.2 + b.2 + c.2) / 3.
Proof.
  destruct a as [ax ay], b as [bx by_], c as [cx cy].
  cbv beta iota zeta delta
    [polygonCentroid meanOfPoints fold_left at_ nth length seq Nat.ltb Nat.leb Nat.modulo
     Nat.divmod Nat.add Nat.sub fst snd Z.of_nat Pos.of_succ_nat Pos.succ].
  cbn [nadd nsub nmul ndiv nofZ nabs Exact.number].
  change (inject_Z 0) with 0. change (inject_Z 6) with 6. change (inject_Z 3) with 3.
  set (A := (0 + (ax * by_ - bx * ay) + (bx * cy - cx * by_) + (cx * ay - ax * cy))
            * lit_half).
  assert (Hhalf : @lit_half Q _ == 1 # 2) by (vm_compute; reflexivity).
  assert (E : A == (ax * by_ - bx * ay + (bx * cy - cx * by_) + (cx * ay - ax * cy)) * (1 # 2))
    by (subst A; rewrite Hhalf; ring).
  destruct (nltb (Qabs A) lit_1e12) eqn:Hflat.
  - split; apply Qdiv_comp; try reflexivity; ring.
  - apply exact_ltb_ge in Hflat. rewrite exact_lit_1e12 in Hflat.
    assert (HA : ~ A == 0).
    { intros E0. rewrite E0 in Hflat. revert Hflat. vm_compute. congruence. }
    clearbody A.
    split; field_simplify_eq; try exact HA; rewrite E; ring.
Qed.

End ExactRounding.
(** ** Zooming and dragging an edge in exact arithmetic *)

Section ExactView.
Context {m : Exact.MathLib}.
Local Open Scope Q_scope.

(** X24.  In exact arithmetic [zoomAt] divides the size of the view box
    by the factor and keeps the anchor where it is in the box: the anchor is
    at the same fraction of the width and of the height before and after.
    Zooming by [f] and then by [g] at the same anchor is zooming by [f * g],
    and [zoomOutCenter] keeps the centre of the view box. *)
Theorem zoomAt_keeps_anchor (ux uy f g : Q) (vb : ViewBox Q) :
  ~ vb_w vb == 0 -> ~ vb_h vb == 0 -> ~ f == 0 -> ~ g == 0 ->
  let vb1 := zoomAt ux uy f vb in
  let vb2 := zoomAt ux uy g vb1 in
  let vb3 := zoomAt ux uy (f * g) vb in
  vb_w vb1 == vb_w vb / f /\ vb_h vb1 == vb_h vb / f
  /\ (ux - vb_x vb1) / vb_w vb1 == (ux - vb_x vb) / vb_w vb
  /\ (uy - vb_y vb1) / vb_h vb1 == (uy - vb_y vb) / vb_h vb
  /\ vb_x vb2 == vb_x vb3 /\ vb_y vb2 == vb_y vb3
  /\ vb_w vb2 == vb_w vb3 /\ vb_h vb2 == vb_h vb3
  /\ vb_x (zoomOutCenter vb) + vb_w (zoomOutCenter vb) / 2 == vb_x vb + vb_w vb / 2
  /\ vb_y (zoomOutCenter vb) + vb_h (zoomOutCenter vb) / 2 == vb_y vb + vb_h vb / 2.
Proof.
  intros Hw Hh Hf Hg vb1 vb2 vb3. subst vb1 vb2 vb3.
  destruct vb as [x y w h]. unfold zoomAt, zoomOutCenter.
  cbn [vb_x vb_y vb_w vb_h nadd nsub nmul ndiv nofZ Exact.number] in *.
  change (inject_Z 2) with 2. change (inject_Z 12) with 12. change (inject_Z 10) with 10.
  repeat split; field; auto.
Qed.

Lemma moveEdge_lookup (startPoly : list (Q * Q)) (i i2 k : nat) (mv : Q * Q) :
  moveEdge startPoly i i2 mv !! k
  = (fun pt : Q * Q => if (k =? i)%nat then (pt.1 + mv.1, pt.2 + mv.2)
               else if (k =? i2)%nat then (pt.1 + mv.1, pt.2 + mv.2) else pt)
    <$> startPoly !! k.
Proof. unfold moveEdge, Point. apply list_lookup_imap. Qed.

(** X25.  In exact arithmetic dragging an edge keeps the polygon's
    number of vertices, moves the two ends of the edge by the same
    displacement, so that the edge keeps its direction and its length, and
    leaves every other vertex where it was.  Without Shift the
    displacement is the pointer's; with Shift it is at right angles to the
    edge. *)
Theorem edge_drag_translates_the_edge (startPoly : list (@Point Q)) (i : nat)
    (a0 b0 : @Point Q) (shift : bool) (dx dy : Q) :
  startPoly !! i = Some a0 ->
  startPoly !! ((i + 1) mod length startPoly)%nat = Some b0 ->
  let i2 := ((i + 1) mod length startPoly)%nat in
  let mv := edgeMove shift a0 b0 dx dy in
  let newPoly := moveEdge startPoly i i2 mv in
  length newPoly = length startPoly
  /\ newPoly !! i = Some (a0.1 + mv.1, a0.2 + mv.2)
  /\ newPoly !! i2 = Some (b0.1 + mv.1, b0.2 + mv.2)
  /\ (forall k, k <> i -> k <> i2 -> newPoly !! k = startPoly !! k)
  /\ (b0.1 + mv.1) - (a0.1 + mv.1) == b0.1 - a0.1
  /\ (b0.2 + mv.2) - (a0.2 + mv.2) == b0.2 - a0.2
  /\ (shift = false -> mv = (dx, dy))
  /\ (shift = true -> mv.1 * (b0.1 - a0.1) + mv.2 * (b0.2 - a0.2) == 0).
Proof.
  intros Ha Hb i2 mv newPoly. subst newPoly. unfold Point in *.
  split; [unfold moveEdge; apply length_imap|].
  split; [rewrite moveEdge_lookup, Ha, Nat.eqb_refl; reflexivity|].
  split.
  { rewrite moveEdge_lookup. subst i2. rewrite Hb. cbn [fmap option_fmap option_map].
    rewrite Nat.eqb_refl. destruct (_ =? i)%nat; reflexivity. }
  split.
  { intros k Hk Hk2. rewrite moveEdge_lookup.
    destruct (Nat.eqb_spec k i); [contradiction|].
    destruct (Nat.eqb_spec k i2); [contradiction|].
    destruct (startPoly !! k); reflexivity. }
  split; [ring|]. split; [ring|]. subst mv. unfold edgeMove. split.
  - intros ->. reflexivity.
  - intros ->. cbn [fst snd nadd nsub nmul ndiv nofZ Exact.number].
    unfold Qdiv. ring.
Qed.

End ExactView.
(** ** Scaling the scene, deleting a vertex *)

Section ScaleAndDelete.
Context {num : Type} {N : JSNumber num}.

(** X26.  [applyScaleFactor] does nothing for a factor that is not
    finite or not positive.  Otherwise it moves points only: the scene keeps
    its roads and lots with their identifiers, in order, every polygon and
    entry-point list keeps its number of points, and the boundary stays
    open or closed as it was.  Scaling is not recorded for undo: neither
    history stack changes. *)
Theorem applyScaleFactor_moves_points_only (panel : ScalePanel num) (env : Scene num)
    (s : num) :
  let st := applyScaleFactor panel env s in
  (nisFinite s = false \/ nleb s n0 = true -> st = env)
  /\ history st = history env /\ future st = future env
  /\ selection st = selection env /\ mode st = mode env
  /\ boundaryClosed (persist st) = boundaryClosed (persist env)
  /\ length (boundary (persist st)) = length (boundary (persist env))
  /\ length (current st) = length (current env)
  /\ map pr_road_id (publicRoads (persist st)) = map pr_road_id (publicRoads (persist env))
  /\ map (fun r => length (pr_entry_points r)) (publicRoads (persist st))
     = map (fun r => length (pr_entry_points r)) (publicRoads (persist env))
  /\ map ir_road_id (internalRoads (persist st))
     = map ir_road_id (internalRoads (persist env))
  /\ map (fun r => length (ir_polygon r)) (internalRoads (persist st))
     = map (fun r => length (ir_polygon r)) (internalRoads (persist env))
  /\ map lot_id (lots (persist st)) = map lot_id (lots (persist env))
  /\ map (fun l => length (lot_polygon l)) (lots (persist st))
     = map (fun l => length (lot_polygon l)) (lots (persist env)).
Proof.
  intros st. subst st. unfold applyScaleFactor.
  destruct (nisFinite s) eqn:Hfin; cbn [negb orb].
  2:{ split; [reflexivity|]. repeat split; reflexivity. }
  destruct (nleb s n0) eqn:Hle.
  { split; [reflexivity|]. repeat split; reflexivity. }
  split; [intros [H|H]; discriminate|].
  destruct (getAnchor panel env) as [cx cy]. cbn.
  rewrite !length_map, !map_map. cbn.
  repeat split; try reflexivity; apply map_ext; intros x; rewrite length_map; reflexivity.
Qed.


End ScaleAndDelete.
(** ** Frontage and the tolerance *)

Section FrontageTolerance.
Context {m : Exact.MathLib}.
Local Open Scope Q_scope.

Lemma edgePairHit_mono (tol tol' : Q) (ab cd : @Segment Q) :
  tol <= tol' -> edgePairHit tol ab cd = true -> edgePairHit tol' ab cd = true.
Proof.
  intros Hle. unfold edgePairHit.
  destruct (segmentsIntersectOrTouch _ _ _ _); [reflexivity|].
  destruct (nltb n0 tol) eqn:Hpos; [|discriminate]. cbn [andb].
  destruct (nleb (segmentDistance ab.1 ab.2 cd.1 cd.2) tol) eqn:Hd; [|discriminate].
  intros _. apply exact_ltb_lt in Hpos. apply exact_leb_le in Hd.
  assert (H1 : nltb n0 tol' = true)
    by (apply exact_ltb_lt; apply (Qlt_le_trans _ _ _ Hpos Hle)).
  assert (H2 : nleb (segmentDistance ab.1 ab.2 cd.1 cd.2) tol' = true)
    by (apply exact_leb_le; apply (Qle_trans _ _ _ Hd Hle)).
  rewrite H1, H2. reflexivity.
Qed.

Lemma roadEdgeLoop_mono (tol tol' : Q) (ab : @Segment Q) (segs : list (@Segment Q)) :
  tol <= tol' -> roadEdgeLoop tol ab segs = true -> roadEdgeLoop tol' ab segs = true.
Proof.
  intros Hle. induction segs as [|cd segs IH]; cbn [roadEdgeLoop]; [discriminate|].
  destruct (edgePairHit tol ab cd) eqn:Hhit.
  - rewrite (edgePairHit_mono tol tol' ab cd Hle Hhit). reflexivity.
  - intros H. rewrite (IH H). destruct (edgePairHit tol' ab cd); reflexivity.
Qed.

Lemma lotEdgeLoop_mono (tol tol' : Q) (lotEdges segs : list (@Segment Q)) :
  tol <= tol' -> lotEdgeLoop tol lotEdges segs = true -> lotEdgeLoop tol' lotEdges segs = true.
Proof.
  intros Hle. induction lotEdges as [|ab lotEdges IH]; cbn [lotEdgeLoop]; [discriminate|].
  destruct (roadEdgeLoop tol ab segs) eqn:Hhit.
  - rewrite (roadEdgeLoop_mono tol tol' ab segs Hle Hhit). reflexivity.
  - intros H. rewrite (IH H). destruct (roadEdgeLoop tol' ab segs); reflexivity.
Qed.

Lemma internalRoadLoop_mono (tol tol' : Q) (lotEdges : list (@Segment Q))
    (roads : list (InternalRoad Q)) (id : string) :
  tol <= tol' -> internalRoadLoop tol lotEdges roads = Some id ->
  exists id', internalRoadLoop tol' lotEdges roads = Some id'.
Proof.
  intros Hle. induction roads as [|r roads IH]; cbn [internalRoadLoop]; [discriminate|].
  destruct (lotEdgeLoop tol lotEdges _) eqn:Hhit.
  - rewrite (lotEdgeLoop_mono tol tol' _ _ Hle Hhit). eauto.
  - intros H. destruct (lotEdgeLoop tol' lotEdges _); [eauto|]. apply IH, H.
Qed.

Lemma publicRoadLoop_mono (tol tol' : Q) (lotEdges : list (@Segment Q))
    (boundary : list (@Point Q)) (roads : list (PublicRoad Q)) (id : string) :
  tol <= tol' -> publicRoadLoop tol lotEdges boundary roads = Some (Some id) ->
  exists id', publicRoadLoop tol' lotEdges boundary roads = Some (Some id').
Proof.
  intros Hle. induction roads as [|pr roads IH]; cbn [publicRoadLoop]; [discriminate|].
  destruct (length (pr_entry_points pr) <? 2)%nat; [exact IH|].
  destruct (nearestBoundaryIndex _ _) as [iA|]; [|exact IH].
  destruct (nearestBoundaryIndex _ _) as [iB|]; [|exact IH].
  destruct (iA =? iB)%nat; [exact IH|].
  destruct (pathSegsBetweenIndices boundary iA iB) as [segsAB|]; [|discriminate].
  cbn [mbind option_bind].
  destruct (pathSegsBetweenIndices boundary iB iA) as [segsBA|]; [|discriminate].
  cbn [mbind option_bind].
  destruct (lotEdgeLoop tol lotEdges _) eqn:Hhit.
  - rewrite (lotEdgeLoop_mono tol tol' _ _ Hle Hhit). eauto.
  - intros H. destruct (lotEdgeLoop tol' lotEdges _); [eauto|]. apply IH, H.
Qed.

(** X28.  In exact arithmetic a larger tolerance never takes the front
    road away: a lot that [computeFrontRoadForLot] gives a front road at one
    tolerance is given one at every larger tolerance, and a lot that the
    loop over the internal roads assigns to one of them is still assigned
    to an internal road.  A lot of fewer than three vertices has no front
    road at any tolerance. *)
Theorem computeFrontRoadForLot_tolerance_monotone (lotPoly : list (@Point Q))
    (ctx : FrontCtx Q) (tol tol' : Q) :
  ((length lotPoly < 3)%nat -> computeFrontRoadForLot lotPoly ctx tol = Some None)
  /\ (tol <= tol' ->
      (forall id,
         internalRoadLoop tol (edgesFromPolygon lotPoly true) (ctx_internalRoads ctx)
         = Some id ->
         exists id',
           internalRoadLoop tol' (edgesFromPolygon lotPoly true) (ctx_internalRoads ctx)
           = Some id')
      /\ (forall id,
            computeFrontRoadForLot lotPoly ctx tol = Some (Some id) ->
            exists id', computeFrontRoadForLot lotPoly ctx tol' = Some (Some id'))).
Proof.
  split.
  - intros Hlt. unfold computeFrontRoadForLot.
    destruct (Nat.ltb_spec (length lotPoly) 3); [reflexivity|lia].
  - intros Hle. split; [intros id; apply internalRoadLoop_mono, Hle|].
    intros id. unfold computeFrontRoadForLot.
    destruct (length lotPoly <? 3)%nat; [discriminate|].
    destruct (internalRoadLoop tol _ _) as [i|] eqn:Hint.
    + intros _.
      destruct (internalRoadLoop_mono tol tol' _ _ _ Hle Hint) as [id' Hid'].
      rewrite Hid'. exists id'. reflexivity.
    + destruct (ctx_boundaryClosed ctx && _); [|discriminate].
      intros Hpub.
      destruct (internalRoadLoop tol' _ _) as [i'|]; [exists i'; reflexivity|].
      apply (publicRoadLoop_mono tol tol' _ _ _ _ Hle Hpub).
Qed.

End FrontageTolerance.
(** ** Entry points of public roads *)

Section EntryPoints.
Context {num : Type} {N : JSNumber num}.

Lemma existsb_false_Forall {A} (f : A -> bool) (l : list A) :
  existsb f l = false -> Forall (fun x => f x = false) l.
Proof.
  induction l as [|x l IH]; cbn [existsb]; [constructor|].
  intros H. apply orb_false_iff in H as [Hx Hl]. constructor; [exact Hx|apply IH, Hl].
Qed.

(** X29.  A click in public-road mode never throws when no road is
    active or the active index is an index of the public roads.  With no
    road active it appends one road, under the identifier of
    [nextGlobalRoadId] and with the default width, and makes it the active
    one; otherwise the number of roads stays.  The active road keeps its
    entry points and gets at most one more, which is not within 1e-6 of any
    it had: an entry point is never entered twice.  The other roads, the
    boundary, the internal roads, the lots and both history stacks are left
    as they were. *)
Theorem onCanvasClick_adds_entry_point_once (env : Scene num) (e : PointerEvt num)
    (p : @Point num) :
  mode env = publicRoadMode ->
  computePreviewPoint env e = Some p ->
  (forall i, activePublicIdx env = Some i -> i < length (publicRoads (persist env))) ->
  exists st idx r0 r',
    onCanvasClick env e = Some st
    /\ activePublicIdx st = Some idx
    /\ match activePublicIdx env with
       | Some i => idx = i /\ publicRoads (persist env) !! i = Some r0
       | None =>
           idx = length (publicRoads (persist env))
           /\ nextGlobalRoadId env = Some (pr_road_id r0)
           /\ pr_width r0 = Some (defaultPublicWidth (settings env))
           /\ pr_entry_points r0 = []
       end
    /\ publicRoads (persist st)
       = <[idx := r']> (match activePublicIdx env with
                        | Some _ => publicRoads (persist env)
                        | None => publicRoads (persist env) ++ [r0]
                        end)
    /\ pr_road_id r' = pr_road_id r0 /\ pr_width r' = pr_width r0
    /\ (pr_entry_points r' = pr_entry_points r0
        \/ exists q,
             pr_entry_points r' = pr_entry_points r0 ++ [q]
             /\ Forall (fun q0 => nleb (nsqrt (dist2 q0 q)) lit_1e6 = false)
                  (pr_entry_points r0))
    /\ boundary (persist st) = boundary (persist env)
    /\ internalRoads (persist st) = internalRoads (persist env)
    /\ lots (persist st) = lots (persist env)
    /\ history st = history env /\ future st = future env.
Proof.
  intros Hmode Hp Hidx. unfold onCanvasClick. rewrite Hmode, Hp.
  match goal with
  | |- context [addEntryPoint env ?pt _] => set (point := pt); clearbody point
  end.
  unfold addEntryPoint.
  destruct (activePublicIdx env) as [i|] eqn:Hact.
  - cbn [mbind option_bind].
    destruct (lookup_lt_is_Some_2 _ _ (Hidx i eq_refl)) as [r Hr].
    rewrite Hr. cbn [mbind option_bind].
    destruct (existsb _ (pr_entry_points r)) eqn:Hdup; cbn [mbind option_bind].
    + exists (set_activePublicIdx (Some i) (setPublicRoads (publicRoads (persist env)) env)),
        i, r, r.
      split; [reflexivity|]. split; [reflexivity|]. split; [split; reflexivity|].
      split; [cbn; symmetry; apply list_insert_id, Hr|].
      split; [reflexivity|]. split; [reflexivity|]. split; [left; reflexivity|].
      repeat split; reflexivity.
    + eexists _, i, r, _.
      split; [reflexivity|]. split; [reflexivity|]. split; [split; reflexivity|].
      split; [reflexivity|].
      split; [reflexivity|]. split; [reflexivity|]. split.
      * right. eexists. split; [reflexivity|]. apply existsb_false_Forall in Hdup.
        exact Hdup.
      * repeat split; reflexivity.
  - destruct (nextGlobalRoadId_returns_free env) as (n & Hsome & _).
    rewrite Hsome. cbn [mbind option_bind].
    set (newRoad := {| pr_road_id := roadIdOf n;
                       pr_width := Some (defaultPublicWidth (settings env));
                       pr_entry_points := [] |}).
    assert (Hr : (publicRoads (persist env) ++ [newRoad]) !! length (publicRoads (persist env))
                 = Some newRoad).
    { rewrite lookup_app_r by lia. rewrite Nat.sub_diag. reflexivity. }
    rewrite Hr. cbn [mbind option_bind existsb pr_entry_points newRoad].
    eexists _, (length (publicRoads (persist env))), newRoad, _.
    split; [reflexivity|]. split; [reflexivity|].
    split; [repeat split; reflexivity|].
    split; [reflexivity|]. split; [reflexivity|]. split; [reflexivity|]. split.
    + right. eexists. split; [reflexivity|]. constructor.
    + repeat split; reflexivity.
Qed.

End EntryPoints.
(** ** Segments in the plane (exact arithmetic)

    Leaving the unit square along a line; the nearest points of two
    segments. *)

Section UnitSquare.
Local Open Scope Q_scope.

Lemma exit_interval (x v : Q) :
  0 <= x <= 1 -> ~ v == 0 ->
  exists tau,
    0 <= tau
    /\ (x + tau * v == 0 \/ x + tau * v == 1)
    /\ (forall mu, 0 <= mu <= tau -> 0 <= x + mu * v <= 1)
    /\ (forall mu, tau < mu -> ~ 0 <= x + mu * v <= 1).
Proof.
  intros [Hx0 Hx1] Hv.
  destruct (Qlt_le_dec 0 v) as [Hpos|Hneg].
  - exists ((1 - x) / v).
    assert (E : x + (1 - x) / v * v == 1) by (field; exact Hv).
    assert (Ht : 0 <= (1 - x) / v).
    { apply Qle_shift_div_l; [exact Hpos|]. lra. }
    split; [exact Ht|]. split; [right; exact E|]. split.
    + intros mu [Hm0 Hm1]. split; [nra|].
      assert (mu * v <= (1 - x) / v * v) by (apply Qmult_le_compat_r; [exact Hm1|lra]).
      lra.
    + intros mu Hm [_ H1].
      assert ((1 - x) / v * v < mu * v) by (apply Qmult_lt_compat_r; assumption).
      lra.
  - assert (Hlt : v < 0).
    { apply Qnot_le_lt. intros H. apply Hv. lra. }
    exists (x / - v).
    assert (Hv' : ~ - v == 0) by (intros E; apply Hv; lra).
    assert (E : x + x / - v * v == 0) by (field; exact Hv).
    assert (Ht : 0 <= x / - v).
    { apply Qle_shift_div_l; lra. }
    split; [exact Ht|]. split; [left; exact E|]. split.
    + intros mu [Hm0 Hm1]. split; [|nra].
      assert (mu * - v <= x / - v * - v) by (apply Qmult_le_compat_r; [exact Hm1|lra]).
      lra.
    + intros mu Hm [H0 _].
      assert (x / - v * - v < mu * - v) by (apply Qmult_lt_compat_r; [lra|assumption]).
      lra.
Qed.

Lemma exit_square (s t ds dt : Q) :
  0 <= s <= 1 -> 0 <= t <= 1 -> ~ (ds == 0 /\ dt == 0) ->
  exists lam,
    0 <= lam
    /\ 0 <= s + lam * ds <= 1 /\ 0 <= t + lam * dt <= 1
    /\ (s + lam * ds == 0 \/ s + lam * ds == 1 \/ t + lam * dt == 0 \/ t + lam * dt == 1)
    /\ (forall mu, 0 <= mu ->
          ~ (0 <= s + mu * ds <= 1 /\ 0 <= t + mu * dt <= 1) -> lam <= mu).
Proof.
  intros Hs Ht Hd.
  assert (Hone : forall x y dx dy,
             0 <= x <= 1 -> 0 <= y <= 1 -> dx == 0 -> ~ dy == 0 ->
             exists lam,
               0 <= lam
               /\ 0 <= x + lam * dx <= 1 /\ 0 <= y + lam * dy <= 1
               /\ (y + lam * dy == 0 \/ y + lam * dy == 1)
               /\ (forall mu, 0 <= mu ->
                     ~ (0 <= x + mu * dx <= 1 /\ 0 <= y + mu * dy <= 1) -> lam <= mu)).
  { intros x y dx dy Hx Hy Ex Ny.
    destruct (exit_interval y dy Hy Ny) as (tau & Htau & Hend & Hin & _).
    assert (Hx' : forall mu, 0 <= x + mu * dx <= 1).
    { intros mu. assert (E : mu * dx == 0) by (rewrite Ex; ring). lra. }
    exists tau. split; [exact Htau|]. split; [apply Hx'|].
    split; [apply Hin; split; [exact Htau|apply Qle_refl]|]. split; [exact Hend|].
    intros mu Hmu Hout. destruct (Qlt_le_dec mu tau) as [Hlt|Hge]; [|exact Hge].
    exfalso. apply Hout. split; [apply Hx'|]. apply Hin. split; [exact Hmu|lra]. }
  destruct (Qeq_dec ds 0) as [Es|Ns].
  - assert (Nt : ~ dt == 0) by (intros E; apply Hd; split; assumption).
    destruct (Hone s t ds dt Hs Ht Es Nt) as (lam & H0 & H1 & H2 & H3 & H4).
    exists lam. split; [exact H0|]. split; [exact H1|]. split; [exact H2|].
    split; [tauto|exact H4].
  - destruct (Qeq_dec dt 0) as [Et|Nt].
    + destruct (Hone t s dt ds Ht Hs Et Ns) as (lam & H0 & H1 & H2 & H3 & H4).
      exists lam. split; [exact H0|]. split; [exact H2|]. split; [exact H1|].
      split; [tauto|]. intros mu Hmu Hout. apply H4; [exact Hmu|tauto].
    + destruct (exit_interval s ds Hs Ns) as (ts & Hts & Hes & Hins & _).
      destruct (exit_interval t dt Ht Nt) as (tt & Htt & Het & Hint & _).
      destruct (Qlt_le_dec tt ts) as [Hlt|Hge].
      * exists tt. split; [exact Htt|].
        split; [apply Hins; split; [exact Htt|lra]|].
        split; [apply Hint; split; [exact Htt|apply Qle_refl]|].
        split; [tauto|].
        intros mu Hmu Hout. destruct (Qlt_le_dec mu tt) as [Hl|Hg]; [|exact Hg].
        exfalso. apply Hout. split; [apply Hins|apply Hint]; split; lra.
      * exists ts. split; [exact Hts|].
        split; [apply Hins; split; [exact Hts|apply Qle_refl]|].
        split; [apply Hint; split; [exact Hts|exact Hge]|].
        split; [tauto|].
        intros mu Hmu Hout. destruct (Qlt_le_dec mu ts) as [Hl|Hg]; [|exact Hg].
        exfalso. apply Hout. split; [apply Hins|apply Hint]; split; lra.
Qed.

(** Along parallel lines the two parameters can be moved together to the
    edge of the unit square without changing the distance. *)
Lemma slide_along_parallel (a b c d : @Point Q) (s t : Q) :
  0 <= s <= 1 -> 0 <= t <= 1 ->
  (b.1 - a.1) * (d.2 - c.2) - (b.2 - a.2) * (d.1 - c.1) == 0 ->
  exists s' t', 0 <= s' <= 1 /\ 0 <= t' <= 1
                /\ (s' == 0 \/ s' == 1 \/ t' == 0 \/ t' == 1)
                /\ paramDist2 a b c d s' t' == paramDist2 a b c d s t.
Proof.
  intros Hs Ht.
  destruct a as [a1 a2], b as [b1 b2], c as [c1 c2], d as [d1 d2]. unfold paramDist2.
  cbn [fst snd].
  set (u1 := b1 - a1). set (u2 := b2 - a2). set (w1 := d1 - c1). set (w2 := d2 - c2).
  set (X := a1 + s * u1 - (c1 + t * w1)). set (Y := a2 + s * u2 - (c2 + t * w2)).
  intros Ez.
  assert (Hmove : forall ds dt,
             ~ (ds == 0 /\ dt == 0) ->
             ds * u1 - dt * w1 == 0 -> ds * u2 - dt * w2 == 0 ->
             exists s' t', 0 <= s' <= 1 /\ 0 <= t' <= 1
               /\ (s' == 0 \/ s' == 1 \/ t' == 0 \/ t' == 1)
               /\ (a1 + s' * u1 - (c1 + t' * w1)) * (a1 + s' * u1 - (c1 + t' * w1))
                  + (a2 + s' * u2 - (c2 + t' * w2)) * (a2 + s' * u2 - (c2 + t' * w2))
                  == X * X + Y * Y).
  { intros ds dt Hd E1 E2.
    destruct (exit_square s t ds dt Hs Ht Hd) as (lam & _ & H1 & H2 & H3 & _).
    exists (s + lam * ds), (t + lam * dt).
    split; [exact H1|]. split; [exact H2|]. split; [exact H3|].
    assert (Ex : a1 + (s + lam * ds) * u1 - (c1 + (t + lam * dt) * w1)
                 == X + lam * (ds * u1 - dt * w1)) by (unfold X; ring).
    assert (Ey : a2 + (s + lam * ds) * u2 - (c2 + (t + lam * dt) * w2)
                 == Y + lam * (ds * u2 - dt * w2)) by (unfold Y; ring).
    rewrite Ex, Ey, E1, E2. ring. }
  destruct (Qeq_dec (w1 * w1 + w2 * w2) 0) as [Ew|Nw].
  - assert (Ew1 : w1 == 0) by nra. assert (Ew2 : w2 == 0) by nra.
    apply (Hmove 0 1).
    + intros [_ H]. revert H. discriminate.
    + rewrite Ew1. ring.
    + rewrite Ew2. ring.
  - apply (Hmove (w1 * w1 + w2 * w2) (u1 * w1 + u2 * w2)).
    + intros [H _]. exact (Nw H).
    + assert (E : (w1 * w1 + w2 * w2) * u1 - (u1 * w1 + u2 * w2) * w1
                  == w2 * (u1 * w2 - u2 * w1)) by ring.
      rewrite E, Ez. ring.
    + assert (E : (w1 * w1 + w2 * w2) * u2 - (u1 * w1 + u2 * w2) * w2
                  == - w1 * (u1 * w2 - u2 * w1)) by ring.
      rewrite E, Ez. ring.
Qed.

Lemma closest_pair_at_end (a b c d : @Point Q) (s t : Q) :
  0 <= s <= 1 -> 0 <= t <= 1 ->
  (exists s' t', 0 <= s' <= 1 /\ 0 <= t' <= 1
                 /\ a.1 + s' * (b.1 - a.1) == c.1 + t' * (d.1 - c.1)
                 /\ a.2 + s' * (b.2 - a.2) == c.2 + t' * (d.2 - c.2))
  \/ exists s' t', 0 <= s' <= 1 /\ 0 <= t' <= 1
                   /\ (s' == 0 \/ s' == 1 \/ t' == 0 \/ t' == 1)
                   /\ paramDist2 a b c d s' t' <= paramDist2 a b c d s t.
Proof.
  intros Hs Ht.
  destruct (Qeq_dec ((b.1 - a.1) * (d.2 - c.2) - (b.2 - a.2) * (d.1 - c.1)) 0) as [Ez|Nz].
  { right. destruct (slide_along_parallel a b c d s t Hs Ht Ez) as (s' & t' & H1 & H2 & H3 & H4).
    exists s', t'. split; [exact H1|]. split; [exact H2|]. split; [exact H3|].
    rewrite H4. apply Qle_refl. }
  destruct a as [a1 a2], b as [b1 b2], c as [c1 c2], d as [d1 d2]. unfold paramDist2.
  cbn [fst snd] in *.
  set (u1 := b1 - a1) in *. set (u2 := b2 - a2) in *.
  set (w1 := d1 - c1) in *. set (w2 := d2 - c2) in *.
  set (X := a1 + s * u1 - (c1 + t * w1)). set (Y := a2 + s * u2 - (c2 + t * w2)).
  set (Dl := u1 * w2 - u2 * w1) in *.
  set (s0 := ((c1 - a1) * w2 - (c2 - a2) * w1) / Dl).
  set (t0 := ((c1 - a1) * u2 - (c2 - a2) * u1) / Dl).
  assert (E1 : a1 + s0 * u1 == c1 + t0 * w1) by (unfold s0, t0, Dl; field; exact Nz).
  assert (E2 : a2 + s0 * u2 == c2 + t0 * w2) by (unfold s0, t0, Dl; field; exact Nz).
  destruct (Qlt_le_dec s0 0) as [Ha|Ha];
    [|destruct (Qlt_le_dec 1 s0) as [Hb|Hb];
      [|destruct (Qlt_le_dec t0 0) as [Hc|Hc];
        [|destruct (Qlt_le_dec 1 t0) as [Hd|Hd]]]].
  5:{ left. exists s0, t0. split; [split; assumption|]. split; [split; assumption|].
      split; assumption. }
  all: right.
  all: assert (Hout : ~ (0 <= s + 1 * (s0 - s) <= 1 /\ 0 <= t + 1 * (t0 - t) <= 1))
         by (intros [[? ?] [? ?]]; lra).
  all: assert (Hd' : ~ (s0 - s == 0 /\ t0 - t == 0))
         by (intros [? ?]; destruct Hs, Ht; lra).
  all: destruct (exit_square s t (s0 - s) (t0 - t) Hs Ht Hd')
         as (lam & Hl0 & H1 & H2 & H3 & Hmin).
  all: assert (Hl1 : lam <= 1) by (apply Hmin; [lra|exact Hout]).
  all: exists (s + lam * (s0 - s)), (t + lam * (t0 - t)).
  all: split; [exact H1|]; split; [exact H2|]; split; [exact H3|].
  all: assert (Ex : a1 + (s + lam * (s0 - s)) * u1 - (c1 + (t + lam * (t0 - t)) * w1)
                    == (1 - lam) * X)
         by (unfold X; assert (Z : a1 + s0 * u1 - (c1 + t0 * w1) == 0) by lra; nra).
  all: assert (Ey : a2 + (s + lam * (s0 - s)) * u2 - (c2 + (t + lam * (t0 - t)) * w2)
                    == (1 - lam) * Y)
         by (unfold Y; assert (Z : a2 + s0 * u2 - (c2 + t0 * w2) == 0) by lra; nra).
  all: rewrite Ex, Ey.
  all: assert (Hk : (1 - lam) * (1 - lam) <= 1) by nra.
  all: assert (Hsq : 0 <= X * X + Y * Y) by nra.
  all: assert (Hfin : (1 - lam) * X * ((1 - lam) * X) + (1 - lam) * Y * ((1 - lam) * Y)
                      == (1 - lam) * (1 - lam) * (X * X + Y * Y)) by ring.
  all: rewrite Hfin; clearbody X Y; nra.
Qed.

End UnitSquare.

(** ** Frontage in exact arithmetic

    What the pair test, the comparison of the two walks and the search
    for the nearest vertex compute, over the rationals and with a monotone
    square root. *)

Section FrontageExact.
Context {m : Exact.MathLib}.
Hypothesis Hsqrt : SqrtMonotone.
Local Open Scope Q_scope.

Lemma sqrt_le_tol (x y tol : Q) :
  x <= y -> Exact.sqrt y <= tol -> Exact.sqrt x <= tol.
Proof. intros Hxy Hy. apply (Qle_trans _ (Exact.sqrt y)); [apply Hsqrt, Hxy|exact Hy]. Qed.

Lemma OnSeg_first (a b : @Point Q) : OnSeg (a, b) a.
Proof. exists 0. split; [split; discriminate|]. cbn [fst snd]. split; ring. Qed.

Lemma OnSeg_second (a b : @Point Q) : OnSeg (a, b) b.
Proof. exists 1. split; [split; discriminate|]. cbn [fst snd]. split; ring. Qed.

Lemma OnSeg_at (a b : @Point Q) (s : Q) :
  0 <= s <= 1 -> OnSeg (a, b) (a.1 + s * (b.1 - a.1), a.2 + s * (b.2 - a.2)).
Proof. intros Hs. exists s. split; [exact Hs|]. cbn [fst snd]. split; reflexivity. Qed.

(** The projection is a point of the segment, and [d2] the squared
    distance to it. *)
Lemma projection_on_segment (p a b : @Point Q) :
  OnSeg (a, b) (proj (pointSegProjection p a b))
  /\ d2 (pointSegProjection p a b) = dist2 p (proj (pointSegProjection p a b)).
Proof.
  unfold pointSegProjection. cbn [nadd nsub nmul ndiv Exact.number].
  destruct (nleb _ lit_1e12).
  - cbn [proj d2]. split; [apply OnSeg_first|reflexivity].
  - cbn [proj d2]. split; [|reflexivity].
    match goal with |- context [nmax n0 (nmin n1 ?x)] => destruct (clamp_unit x) as [[_ E]|[[H E]|[_ E]]] end.
    + eexists. split; [|cbn [fst snd]; split; reflexivity]. rewrite E. split; discriminate.
    + eexists. split; [|cbn [fst snd]; split; reflexivity]. rewrite E. exact H.
    + eexists. split; [|cbn [fst snd]; split; reflexivity]. rewrite E. split; discriminate.
Qed.

(** No point of a segment longer than 1e-6 is nearer than the
    projection. *)
Lemma projection_least (p a b q : @Point Q) :
  Long (a, b) -> OnSeg (a, b) q ->
  d2 (pointSegProjection p a b)
  <= (p.1 - q.1) * (p.1 - q.1) + (p.2 - q.2) * (p.2 - q.2).
Proof.
  intros Hlong (s & [Hs0 Hs1] & Hq1 & Hq2). cbn [fst snd] in Hq1, Hq2.
  assert (E : (p.1 - q.1) * (p.1 - q.1) + (p.2 - q.2) * (p.2 - q.2)
              == dist2 p (a.1 + s * (b.1 - a.1), a.2 + s * (b.2 - a.2))).
  { unfold dist2. cbn [nadd nsub nmul Exact.number fst snd]. rewrite Hq1, Hq2. reflexivity. }
  rewrite E. clear E Hq1 Hq2 q.
  unfold Long in Hlong. cbn [fst snd] in Hlong.
  unfold pointSegProjection. cbn [nadd nsub nmul ndiv Exact.number].
  set (vv := (b.1 - a.1) * (b.1 - a.1) + (b.2 - a.2) * (b.2 - a.2)) in *.
  set (c := (p.1 - a.1) * (b.1 - a.1) + (p.2 - a.2) * (b.2 - a.2)).
  destruct (nleb vv lit_1e12) eqn:Hvv.
  - apply exact_leb_le in Hvv. rewrite exact_lit_1e12 in Hvv.
    exfalso. apply (Qlt_irrefl vv).
    apply (Qle_lt_trans _ (1 # 1000000000000)); assumption.
  - cbn [proj d2 t fst snd].
    set (tt := nmax n0 (nmin n1 (c / vv))).
    assert (Hvv0 : 0 < vv) by (apply (Qlt_trans _ (1 # 1000000000000)); [reflexivity|exact Hlong]).
    assert (Hc : c / vv * vv == c) by (field; intros E; rewrite E in Hvv0; discriminate).
    assert (Hclamp := clamp_unit (c / vv)). fold tt in Hclamp.
    fold (fst a) (snd a).
    rewrite (dist2_along p a b tt), (dist2_along p a b s).
    fold c. fold vv.
    set (s0 := c / vv) in *. clearbody tt s0. clearbody c vv.
    assert (Hgoal : 0 <= (s - tt) * (vv * (s + tt) - 2 * (s0 * vv))).
    { destruct Hclamp as [[Hx E]|[[[H0 H1] E]|[Hx E]]]; rewrite E.
      - assert (0 <= vv * s) by nra.
        assert (0 <= - (s0 * vv)) by nra. nra.
      - assert (Hsq : (s - s0) * (vv * (s + s0) - 2 * (s0 * vv)) == vv * ((s - s0) * (s - s0)))
          by ring.
        rewrite Hsq. apply Qmult_le_0_compat; [apply Qlt_le_weak; exact Hvv0|].
        generalize (s - s0). intros x. clear. nra.
      - assert (0 <= (1 - s) * vv) by nra.
        assert (0 <= (s0 - 1) * vv) by nra. nra. }
    rewrite Hc in Hgoal. nra.
Qed.

(** Two segments longer than 1e-6 with no point in common: the least of
    the four squared distances from an end point to the other segment is
    the least squared distance between their points. *)
Lemma segmentDistance_least (a b c d p q : @Point Q) :
  Long (a, b) -> Long (c, d) -> ~ Cross (a, b) (c, d) ->
  OnSeg (a, b) p -> OnSeg (c, d) q ->
  nmin (nmin (nmin (d2 (pointSegProjection a c d)) (d2 (pointSegProjection b c d)))
             (d2 (pointSegProjection c a b)))
       (d2 (pointSegProjection d a b))
  <= (p.1 - q.1) * (p.1 - q.1) + (p.2 - q.2) * (p.2 - q.2).
Proof.
  intros Hab Hcd Hcross (s & Hs & Hp1 & Hp2) (t & Ht & Hq1 & Hq2).
  cbn [fst snd] in Hp1, Hp2, Hq1, Hq2.
  assert (E : (p.1 - q.1) * (p.1 - q.1) + (p.2 - q.2) * (p.2 - q.2)
              == paramDist2 a b c d s t).
  { unfold paramDist2. rewrite Hp1, Hp2, Hq1, Hq2. reflexivity. }
  rewrite E. clear E Hp1 Hp2 Hq1 Hq2 p q.
  set (d1 := d2 (pointSegProjection a c d)). set (d2_ := d2 (pointSegProjection b c d)).
  set (d3 := d2 (pointSegProjection c a b)). set (d4 := d2 (pointSegProjection d a b)).
  destruct (exact_min_le (nmin (nmin d1 d2_) d3) d4) as [H123 H4].
  destruct (exact_min_le (nmin d1 d2_) d3) as [H12 H3].
  destruct (exact_min_le d1 d2_) as [H1 H2].
  destruct (closest_pair_at_end a b c d s t Hs Ht)
    as [(s' & t' & Hs' & Ht' & E1 & E2)|(s' & t' & Hs' & Ht' & Hend & Hle)].
  { exfalso. apply Hcross.
    exists (a.1 + s' * (b.1 - a.1), a.2 + s' * (b.2 - a.2)).
    split; [apply OnSeg_at, Hs'|].
    exists t'. split; [exact Ht'|]. cbn [fst snd]. split; assumption. }
  apply (Qle_trans _ (paramDist2 a b c d s' t')); [|exact Hle].
  destruct Hend as [E|[E|[E|E]]].
  - apply (Qle_trans _ d1); [eauto using Qle_trans|].
    assert (Hd : paramDist2 a b c d s' t'
                 == (a.1 - (c.1 + t' * (d.1 - c.1))) * (a.1 - (c.1 + t' * (d.1 - c.1)))
                    + (a.2 - (c.2 + t' * (d.2 - c.2))) * (a.2 - (c.2 + t' * (d.2 - c.2))))
      by (unfold paramDist2; rewrite E; ring).
    rewrite Hd.
    apply (projection_least a c d (c.1 + t' * (d.1 - c.1), c.2 + t' * (d.2 - c.2)) Hcd).
    apply OnSeg_at, Ht'.
  - apply (Qle_trans _ d2_); [eauto using Qle_trans|].
    assert (Hd : paramDist2 a b c d s' t'
                 == (b.1 - (c.1 + t' * (d.1 - c.1))) * (b.1 - (c.1 + t' * (d.1 - c.1)))
                    + (b.2 - (c.2 + t' * (d.2 - c.2))) * (b.2 - (c.2 + t' * (d.2 - c.2))))
      by (unfold paramDist2; rewrite E; ring).
    rewrite Hd.
    apply (projection_least b c d (c.1 + t' * (d.1 - c.1), c.2 + t' * (d.2 - c.2)) Hcd).
    apply OnSeg_at, Ht'.
  - apply (Qle_trans _ d3); [eauto using Qle_trans|].
    assert (Hd : paramDist2 a b c d s' t'
                 == (c.1 - (a.1 + s' * (b.1 - a.1))) * (c.1 - (a.1 + s' * (b.1 - a.1)))
                    + (c.2 - (a.2 + s' * (b.2 - a.2))) * (c.2 - (a.2 + s' * (b.2 - a.2))))
      by (unfold paramDist2; rewrite E; ring).
    rewrite Hd.
    apply (projection_least c a b (a.1 + s' * (b.1 - a.1), a.2 + s' * (b.2 - a.2)) Hab).
    apply OnSeg_at, Hs'.
  - apply (Qle_trans _ d4); [exact H4|].
    assert (Hd : paramDist2 a b c d s' t'
                 == (d.1 - (a.1 + s' * (b.1 - a.1))) * (d.1 - (a.1 + s' * (b.1 - a.1)))
                    + (d.2 - (a.2 + s' * (b.2 - a.2))) * (d.2 - (a.2 + s' * (b.2 - a.2))))
      by (unfold paramDist2; rewrite E; ring).
    rewrite Hd.
    apply (projection_least d a b (a.1 + s' * (b.1 - a.1), a.2 + s' * (b.2 - a.2)) Hab).
    apply OnSeg_at, Hs'.
Qed.

(** A pair the test accepts passes the orientation test or has two
    points within the tolerance. *)
Lemma edgePairHit_sound (tol : Q) (ab cd : @Segment Q) :
  edgePairHit tol ab cd = true -> EdgesMeet tol ab cd.
Proof.
  destruct ab as [a b], cd as [c d]. unfold edgePairHit, EdgesMeet. cbn [fst snd].
  destruct (segmentsIntersectOrTouch a b c d); [left; reflexivity|].
  destruct (nltb n0 tol) eqn:Htol; [|discriminate]. cbn [andb].
  destruct (nleb (segmentDistance a b c d) tol) eqn:Hd; [|discriminate].
  intros _. right. apply exact_ltb_lt in Htol. split; [exact Htol|].
  apply exact_leb_le in Hd. unfold segmentDistance in Hd. cbn [nsqrt Exact.number] in Hd.
  set (d1 := d2 (pointSegProjection a c d)) in *.
  set (d2_ := d2 (pointSegProjection b c d)) in *.
  set (d3 := d2 (pointSegProjection c a b)) in *.
  set (d4 := d2 (pointSegProjection d a b)) in *.
  assert (Hmin : nmin (nmin (nmin d1 d2_) d3) d4 = d1
                 \/ nmin (nmin (nmin d1 d2_) d3) d4 = d2_
                 \/ nmin (nmin (nmin d1 d2_) d3) d4 = d3
                 \/ nmin (nmin (nmin d1 d2_) d3) d4 = d4).
  { destruct (exact_min_spec (nmin (nmin d1 d2_) d3) d4) as [[_ ->]|[_ ->]]; [|tauto].
    destruct (exact_min_spec (nmin d1 d2_) d3) as [[_ ->]|[_ ->]]; [|tauto].
    destruct (exact_min_spec d1 d2_) as [[_ ->]|[_ ->]]; tauto. }
  destruct Hmin as [E|[E|[E|E]]]; rewrite E in Hd; clear E.
  - destruct (projection_on_segment a c d) as [Hon Heq]. fold d1 in Heq.
    exists a, (proj (pointSegProjection a c d)).
    split; [apply OnSeg_first|]. split; [exact Hon|].
    unfold pointDistance. rewrite Heq in Hd. exact Hd.
  - destruct (projection_on_segment b c d) as [Hon Heq]. fold d2_ in Heq.
    exists b, (proj (pointSegProjection b c d)).
    split; [apply OnSeg_second|]. split; [exact Hon|].
    unfold pointDistance. rewrite Heq in Hd. exact Hd.
  - destruct (projection_on_segment c a b) as [Hon Heq]. fold d3 in Heq.
    exists (proj (pointSegProjection c a b)), c.
    split; [exact Hon|]. split; [apply OnSeg_first|].
    unfold pointDistance. rewrite Heq in Hd.
    apply (sqrt_le_tol _ (dist2 c (proj (pointSegProjection c a b)))); [|exact Hd].
    unfold dist2. cbn [nadd nsub nmul Exact.number].
    apply Qle_lteq. right. ring.
  - destruct (projection_on_segment d a b) as [Hon Heq]. fold d4 in Heq.
    exists (proj (pointSegProjection d a b)), d.
    split; [exact Hon|]. split; [apply OnSeg_second|].
    unfold pointDistance. rewrite Heq in Hd.
    apply (sqrt_le_tol _ (dist2 d (proj (pointSegProjection d a b)))); [|exact Hd].
    unfold dist2. cbn [nadd nsub nmul Exact.number].
    apply Qle_lteq. right. ring.
Qed.

(** *** The orientation test *)

Lemma onSegment_of_OnSeg (a b p : @Point Q) : OnSeg (a, b) p -> onSegment a b p = true.
Proof.
  intros (s & [Hs0 Hs1] & H1 & H2).
  destruct a as [a1 a2], b as [b1 b2], p as [p1 p2]. cbn [fst snd] in *.
  assert (Hbox : forall x y z, z == x + s * (y - x) -> nmin x y <= z <= nmax x y).
  { intros x y z Hz. rewrite Hz.
    assert (0 <= s * (y - x) \/ s * (y - x) <= 0) as Hsign.
    { destruct (Qlt_le_dec x y); [left|right]; nra. }
    destruct (exact_min_spec x y) as [[H ->]|[H ->]],
             (exact_max_spec x y) as [[H' ->]|[H' ->]]; split; nra. }
  apply onSegment_intro; cbn [fst snd].
  - apply Hbox, H1.
  - apply Hbox, H2.
  - rewrite H1, H2. ring.
Qed.

(** On a clear cross product the orientation is its sign. *)
Lemma orient_sign (a b c : @Point Q) :
  Clear (cr a b c) ->
  (cr a b c == 0 /\ orient a b c = 0%Z)
  \/ (0 < cr a b c /\ orient a b c = 1%Z)
  \/ (cr a b c < 0 /\ orient a b c = (-1)%Z).
Proof.
  unfold Clear, orient, cr. cbn [nsub nmul Exact.number].
  set (v := (b.1 - a.1) * (c.2 - a.2) - (b.2 - a.2) * (c.1 - a.1)).
  intros [E|Hbig].
  - left. split; [exact E|]. rewrite exact_small_zero by exact E. reflexivity.
  - assert (Hnz : nltb (nabs v) lit_1e9 = false)
      by (apply exact_ltb_ge; rewrite exact_lit_1e9; exact Hbig).
    rewrite Hnz. destruct (nltb n0 v) eqn:Hpos.
    + right. left. apply exact_ltb_lt in Hpos. split; [exact Hpos|reflexivity].
    + right. right. apply exact_ltb_ge in Hpos. split; [|reflexivity].
      change (@nofZ Q _ 0) with 0 in Hpos.
      apply Qle_lteq in Hpos as [Hlt|Heq]; [exact Hlt|].
      exfalso. rewrite Heq in Hbig. revert Hbig. vm_compute. intros H. apply H. reflexivity.
Qed.

(** Two segments with a point in common pass the orientation test when
    the four cross products are clear. *)
Lemma touch_complete (a b c d : @Point Q) :
  Cross (a, b) (c, d) ->
  Clear (cr a b c) -> Clear (cr a b d) -> Clear (cr c d a) -> Clear (cr c d b) ->
  segmentsIntersectOrTouch a b c d = true.
Proof.
  intros (x & (s & Hs & Hx1 & Hx2) & (t & Ht & Hy1 & Hy2)) C1 C2 C3 C4.
  cbn [fst snd] in Hx1, Hx2, Hy1, Hy2.
  assert (E1 : a.1 + s * (b.1 - a.1) == c.1 + t * (d.1 - c.1))
    by (rewrite <- Hx1; exact Hy1).
  assert (E2 : a.2 + s * (b.2 - a.2) == c.2 + t * (d.2 - c.2))
    by (rewrite <- Hx2; exact Hy2).
  clear Hx1 Hx2 Hy1 Hy2 x.
  set (D := (b.1 - a.1) * (d.2 - c.2) - (b.2 - a.2) * (d.1 - c.1)).
  assert (Z1 : c.1 + t * (d.1 - c.1) - (a.1 + s * (b.1 - a.1)) == 0) by (rewrite E1; ring).
  assert (Z2 : c.2 + t * (d.2 - c.2) - (a.2 + s * (b.2 - a.2)) == 0) by (rewrite E2; ring).
  assert (V1 : cr a b c == - t * D).
  { assert (Hid : cr a b c
                  == - t * D
                     + ((b.1 - a.1) * (c.2 + t * (d.2 - c.2) - (a.2 + s * (b.2 - a.2)))
                        - (b.2 - a.2) * (c.1 + t * (d.1 - c.1) - (a.1 + s * (b.1 - a.1)))))
      by (unfold cr, D; ring).
    rewrite Hid, Z1, Z2. ring. }
  assert (V2 : cr a b d == (1 - t) * D).
  { assert (Hid : cr a b d
                  == (1 - t) * D
                     + ((b.1 - a.1) * (c.2 + t * (d.2 - c.2) - (a.2 + s * (b.2 - a.2)))
                        - (b.2 - a.2) * (c.1 + t * (d.1 - c.1) - (a.1 + s * (b.1 - a.1)))))
      by (unfold cr, D; ring).
    rewrite Hid, Z1, Z2. ring. }
  assert (V3 : cr c d a == s * D).
  { assert (Hid : cr c d a
                  == s * D
                     + ((d.2 - c.2) * (c.1 + t * (d.1 - c.1) - (a.1 + s * (b.1 - a.1)))
                        - (d.1 - c.1) * (c.2 + t * (d.2 - c.2) - (a.2 + s * (b.2 - a.2)))))
      by (unfold cr, D; ring).
    rewrite Hid, Z1, Z2. ring. }
  assert (V4 : cr c d b == - (1 - s) * D).
  { assert (Hid : cr c d b
                  == - (1 - s) * D
                     + ((d.2 - c.2) * (c.1 + t * (d.1 - c.1) - (a.1 + s * (b.1 - a.1)))
                        - (d.1 - c.1) * (c.2 + t * (d.2 - c.2) - (a.2 + s * (b.2 - a.2)))))
      by (unfold cr, D; ring).
    rewrite Hid, Z1, Z2. ring. }
  destruct (Qeq_dec D 0) as [Ez|Nz].
  - (* parallel: an end point of one segment lies on the other *)
    assert (O1 : orient a b c = 0%Z).
    { unfold orient. cbn [nsub nmul Exact.number]. rewrite exact_small_zero; [reflexivity|].
      unfold cr in V1. rewrite V1, Ez. ring. }
    assert (O2 : orient a b d = 0%Z).
    { unfold orient. cbn [nsub nmul Exact.number]. rewrite exact_small_zero; [reflexivity|].
      unfold cr in V2. rewrite V2, Ez. ring. }
    assert (O3 : orient c d a = 0%Z).
    { unfold orient. cbn [nsub nmul Exact.number]. rewrite exact_small_zero; [reflexivity|].
      unfold cr in V3. rewrite V3, Ez. ring. }
    assert (O4 : orient c d b = 0%Z).
    { unfold orient. cbn [nsub nmul Exact.number]. rewrite exact_small_zero; [reflexivity|].
      unfold cr in V4. rewrite V4, Ez. ring. }
    assert (Hend : onSegment a b c = true \/ onSegment a b d = true
                   \/ onSegment c d a = true \/ onSegment c d b = true).
    { destruct (slide_along_parallel a b c d s t Hs Ht Ez)
        as (s' & t' & Hs' & Ht' & Hedge & Hd).
      assert (H0 : paramDist2 a b c d s t == 0).
      { unfold paramDist2.
        assert (K1 : a.1 + s * (b.1 - a.1) - (c.1 + t * (d.1 - c.1)) == 0) by (rewrite E1; ring).
        assert (K2 : a.2 + s * (b.2 - a.2) - (c.2 + t * (d.2 - c.2)) == 0) by (rewrite E2; ring).
        rewrite K1, K2. ring. }
      rewrite H0 in Hd. unfold paramDist2 in Hd.
      set (X := a.1 + s' * (b.1 - a.1) - (c.1 + t' * (d.1 - c.1))) in Hd.
      set (Y := a.2 + s' * (b.2 - a.2) - (c.2 + t' * (d.2 - c.2))) in Hd.
      assert (HX : X == 0) by (clearbody X Y; nra).
      assert (HY : Y == 0) by (clearbody X Y; nra).
      unfold X in HX. unfold Y in HY. clear X Y Hd.
      destruct Hedge as [E|[E|[E|E]]].
      - right. right. left. apply onSegment_of_OnSeg.
        exists t'. split; [exact Ht'|]. cbn [fst snd]. rewrite E in HX, HY. split; lra.
      - right. right. right. apply onSegment_of_OnSeg.
        exists t'. split; [exact Ht'|]. cbn [fst snd]. rewrite E in HX, HY. split; lra.
      - left. apply onSegment_of_OnSeg.
        exists s'. split; [exact Hs'|]. cbn [fst snd]. rewrite E in HX, HY. split; lra.
      - right. left. apply onSegment_of_OnSeg.
        exists s'. split; [exact Hs'|]. cbn [fst snd]. rewrite E in HX, HY. split; lra. }
    unfold segmentsIntersectOrTouch. rewrite O1, O2, O3, O4. cbn [Z.eqb negb andb].
    destruct Hend as [H|[H|[H|H]]]; rewrite H;
      repeat match goal with
             | |- context [if ?c then _ else _] => destruct c
             end; reflexivity.
  - (* the lines cross: the end points of each segment fall on both sides *)
    assert (N12 : (orient a b c =? orient a b d)%Z = false).
    { destruct Ht as [Ht0 Ht1].
      destruct (orient_sign a b c C1) as [[e1 ->]|[[e1 ->]|[e1 ->]]],
               (orient_sign a b d C2) as [[e2 ->]|[[e2 ->]|[e2 ->]]];
        try reflexivity; exfalso; rewrite V1 in e1; rewrite V2 in e2.
      - apply Nz. lra.
      - destruct (Qlt_le_dec 0 D); nra.
      - destruct (Qlt_le_dec 0 D); nra. }
    assert (N34 : (orient c d a =? orient c d b)%Z = false).
    { destruct Hs as [Hs0 Hs1].
      destruct (orient_sign c d a C3) as [[e1 ->]|[[e1 ->]|[e1 ->]]],
               (orient_sign c d b C4) as [[e2 ->]|[[e2 ->]|[e2 ->]]];
        try reflexivity; exfalso; rewrite V3 in e1; rewrite V4 in e2.
      - apply Nz. lra.
      - destruct (Qlt_le_dec 0 D); nra.
      - destruct (Qlt_le_dec 0 D); nra. }
    unfold segmentsIntersectOrTouch. rewrite N12, N34. reflexivity.
Qed.

(** On a regular pair the test accepts every pair that meets. *)
Lemma edgePairHit_complete (tol : Q) (ab cd : @Segment Q) :
  Regular ab cd -> Meets tol ab cd -> edgePairHit tol ab cd = true.
Proof.
  destruct ab as [a b], cd as [c d]. unfold edgePairHit, Meets, Regular. cbn [fst snd].
  intros (Hab & Hcd & C1 & C2 & C3 & C4) Hmeet.
  destruct (segmentsIntersectOrTouch a b c d) eqn:Htouch; [reflexivity|].
  assert (Hcross : ~ Cross (a, b) (c, d)).
  { intros H. rewrite (touch_complete a b c d H C1 C2 C3 C4) in Htouch. discriminate. }
  destruct Hmeet as [Hf|(Htol & p & q & Hp & Hq & Hd)]; [contradiction|].
  assert (H0 : nltb n0 tol = true) by (apply exact_ltb_lt; exact Htol).
  rewrite H0. cbn [andb].
  assert (H1 : nleb (segmentDistance a b c d) tol = true).
  { apply exact_leb_le. unfold segmentDistance. cbn [nsqrt Exact.number].
    apply (sqrt_le_tol _ ((p.1 - q.1) * (p.1 - q.1) + (p.2 - q.2) * (p.2 - q.2)));
      [|exact Hd].
    apply segmentDistance_least; assumption. }
  rewrite H1. reflexivity.
Qed.

Lemma hits_fronts (tol : Q) (lotPoly : list (@Point Q)) (segs : list (@Segment Q)) :
  HitsSegments tol lotPoly segs -> FrontsSegments tol lotPoly segs.
Proof.
  intros (ab & cd & Hab & Hcd & Hhit). exists ab, cd.
  rewrite edgesFromPolygon_closed in Hab.
  split; [exact Hab|]. split; [exact Hcd|]. apply edgePairHit_sound, Hhit.
Qed.

Lemma fronts_hits (tol : Q) (lotPoly : list (@Point Q)) (segs : list (@Segment Q)) :
  FrontsRegularly tol lotPoly segs -> HitsSegments tol lotPoly segs.
Proof.
  intros (ab & cd & Hab & Hcd & Hmeet & Hreg). exists ab, cd.
  rewrite edgesFromPolygon_closed.
  split; [exact Hab|]. split; [exact Hcd|]. apply edgePairHit_complete; assumption.
Qed.

Lemma not_fronts_not_hits (tol : Q) (lotPoly : list (@Point Q))
    (roads : list (InternalRoad Q)) :
  Forall (fun r => ~ FrontsInternal tol lotPoly r) roads ->
  Forall (fun r => ~ HitsInternal tol lotPoly r) roads.
Proof.
  intros H. eapply Forall_impl; [exact H|].
  intros r Hr Hhit. apply Hr. unfold FrontsInternal.
  rewrite <- edgesFromPolygon_closed. apply hits_fronts, Hhit.
Qed.

(** The first internal road the lot meets decides. *)
Lemma internal_first_front (lotPoly : list (@Point Q)) (ctx : FrontCtx Q) (tol : Q)
    (pre post : list (InternalRoad Q)) (r : InternalRoad Q) :
  (3 <= length lotPoly)%nat ->
  ctx_internalRoads ctx = pre ++ r :: post ->
  Forall (fun r' => ~ FrontsInternal tol lotPoly r') pre ->
  FrontsInternalRegularly tol lotPoly r ->
  computeFrontRoadForLot lotPoly ctx tol = Some (Some (ir_road_id r)).
Proof.
  intros Hlen Hroads Hpre Hr.
  apply (internal_first_hit lotPoly ctx tol pre post r Hlen Hroads).
  - apply not_fronts_not_hits, Hpre.
  - unfold HitsInternal. rewrite edgesFromPolygon_closed. apply fronts_hits, Hr.
Qed.

(** *** The public arc *)

Lemma len_walkLength (segs : list (@Segment Q)) : len segs == walkLength segs.
Proof.
  unfold len.
  assert (H : forall acc,
             fold_left (fun s seg => nadd s (nhypot (nsub seg.2.1 seg.1.1)
                                                    (nsub seg.2.2 seg.1.2))) segs acc
             == acc + walkLength segs).
  { induction segs as [|seg segs IH]; intros acc; cbn [fold_left walkLength].
    - ring.
    - rewrite IH. cbn [nadd nsub nhypot Exact.number]. symmetry. apply Qplus_assoc. }
  rewrite H. change (@nofZ Q _ 0) with 0. ring.
Qed.

(** The walk the resolver keeps is the shorter one. *)
Lemma chosenWalk_publicArc (boundary : list (@Point Q)) (iA iB : nat) :
  chosenWalk boundary iA iB = publicArc boundary iA iB.
Proof.
  unfold chosenWalk, publicArc. cbn [nleb Exact.number].
  destruct (Qle_bool (len _) (len _)) eqn:H1, (Qle_bool (walkLength _) (walkLength _)) eqn:H2;
    try reflexivity; exfalso.
  - apply Qle_bool_iff in H1. rewrite !len_walkLength in H1.
    apply Qle_bool_iff in H1. congruence.
  - apply Qle_bool_iff in H2. rewrite <- !len_walkLength in H2.
    apply Qle_bool_iff in H2. congruence.
Qed.

(** The search returns the first nearest vertex, and finds it whenever
    there is one. *)
Lemma nearestBoundaryIndex_nearest (pt : @Point Q) (boundary : list (@Point Q)) (i : nat) :
  nearestBoundaryIndex pt boundary = Some i <-> NearestVertex boundary pt i.
Proof.
  assert (Hfwd : forall k, nearestBoundaryIndex pt boundary = Some k ->
                           NearestVertex boundary pt k).
  { intros k H.
    pose proof (nearestBoundaryIndex_lt pt boundary k H) as Hk.
    unfold nearestBoundaryIndex in H.
    destruct (nearestBoundary_fold pt boundary (seq 0 (length boundary)) (None, ninfinity))
      as (_ & Hall & Hcase).
    cbn zeta in Hall, Hcase.
    destruct Hcase as [[H1 _]|(pre & i' & post & Hseq & H1 & H2 & H3 & H4)].
    { rewrite H in H1. discriminate. }
    rewrite H in H1. injection H1 as <-.
    split; [exact Hk|]. split; [exact H4|]. split.
    - intros j Hj. change (distance pt (at_ boundary k) <= distance pt (at_ boundary j)).
      rewrite <- H2. apply Hall. apply in_seq. lia.
    - intros j Hj. apply H3.
      assert (Hpre : pre = seq 0 k) by (apply (seq_split_at _ _ _ _ Hseq)).
      rewrite Hpre. apply in_seq. lia. }
  split; [apply Hfwd|].
  intros (Hi & Hfin & Hle & Hlt).
  destruct (nearestBoundaryIndex pt boundary) as [k|] eqn:Hk.
  - destruct (Hfwd k eq_refl) as (Hk' & _ & Hle' & Hlt').
    f_equal. destruct (Nat.lt_trichotomy k i) as [Hc|[Hc|Hc]]; [|exact Hc|]; exfalso.
    + specialize (Hlt k Hc). specialize (Hle' i Hi). cbv zeta in Hlt, Hle'.
      apply (Qlt_irrefl (Exact.hypot (pt.1 - (at_ boundary i).1) (pt.2 - (at_ boundary i).2))).
      eapply Qlt_le_trans; eassumption.
    + specialize (Hlt' i Hc). specialize (Hle k Hk'). cbv zeta in Hlt', Hle.
      apply (Qlt_irrefl (Exact.hypot (pt.1 - (at_ boundary k).1) (pt.2 - (at_ boundary k).2))).
      eapply Qlt_le_trans; eassumption.
  - exfalso. unfold nearestBoundaryIndex in Hk.
    destruct (nearestBoundary_fold pt boundary (seq 0 (length boundary)) (None, ninfinity))
      as (_ & Hall & Hcase).
    cbn zeta in Hall, Hcase.
    destruct Hcase as [[_ H2]|(pre & i' & post & _ & H1 & _)].
    + cbn [snd] in H2. specialize (Hall i ltac:(apply in_seq; lia)).
      rewrite H2 in Hall. cbv zeta in Hfin.
      apply (Qlt_irrefl Exact.infinity). eapply Qle_lt_trans; [exact Hall|exact Hfin].
    + rewrite Hk in H1. discriminate.
Qed.

Lemma hitsPublic_frontsPublic (tol : Q) (lotPoly boundary : list (@Point Q))
    (pr : PublicRoad Q) :
  HitsPublic tol lotPoly boundary pr -> FrontsPublic FrontsSegments tol lotPoly boundary pr.
Proof.
  intros (Hlen & iA & iB & HA & HB & Hhit). split; [exact Hlen|].
  exists iA, iB. split; [apply nearestBoundaryIndex_nearest, HA|].
  split; [apply nearestBoundaryIndex_nearest, HB|].
  rewrite <- chosenWalk_publicArc. apply hits_fronts, Hhit.
Qed.

Lemma frontsPublic_hitsPublic (tol : Q) (lotPoly boundary : list (@Point Q))
    (pr : PublicRoad Q) :
  FrontsPublic FrontsRegularly tol lotPoly boundary pr -> HitsPublic tol lotPoly boundary pr.
Proof.
  intros (Hlen & iA & iB & HA & HB & Hf). split; [exact Hlen|].
  exists iA, iB. split; [apply nearestBoundaryIndex_nearest, HA|].
  split; [apply nearestBoundaryIndex_nearest, HB|].
  rewrite chosenWalk_publicArc. apply fronts_hits, Hf.
Qed.

(** The first public road whose arc the lot meets decides; without one
    the answer is null. *)
Lemma public_first_front (lotPoly : list (@Point Q)) (ctx : FrontCtx Q) (tol : Q) :
  (3 <= length lotPoly)%nat ->
  ctx_boundaryClosed ctx = true ->
  (3 <= length (ctx_boundary ctx))%nat ->
  Forall (fun r => ~ FrontsInternal tol lotPoly r) (ctx_internalRoads ctx) ->
  (forall pre pr post,
     ctx_publicRoads ctx = pre ++ pr :: post ->
     Forall (fun pr' => ~ FrontsPublic FrontsSegments tol lotPoly (ctx_boundary ctx) pr') pre ->
     FrontsPublic FrontsRegularly tol lotPoly (ctx_boundary ctx) pr ->
     computeFrontRoadForLot lotPoly ctx tol = Some (Some (pr_road_id pr)))
  /\ (Forall (fun pr => ~ FrontsPublic FrontsSegments tol lotPoly (ctx_boundary ctx) pr)
        (ctx_publicRoads ctx) ->
      computeFrontRoadForLot lotPoly ctx tol = Some None).
Proof.
  intros Hlen Hclosed Hb Hint.
  destruct (public_first_hit lotPoly ctx tol Hlen Hclosed Hb (not_fronts_not_hits _ _ _ Hint))
    as (res & Hres & Hfm).
  rewrite Hres.
  assert (Hmiss : forall l,
             Forall (fun pr => ~ FrontsPublic FrontsSegments tol lotPoly (ctx_boundary ctx) pr) l ->
             Forall (fun pr => ~ HitsPublic tol lotPoly (ctx_boundary ctx) pr) l).
  { intros l H. eapply Forall_impl; [exact H|].
    intros pr Hpr Hhit. apply Hpr. apply hitsPublic_frontsPublic, Hhit. }
  split.
  - intros pre pr post Hroads Hpre Hpr. f_equal.
    apply (FirstMatch_unique _ _ _ _ _ Hfm).
    right. exists pre, pr, post. split; [exact Hroads|]. split; [apply Hmiss, Hpre|].
    split; [apply frontsPublic_hitsPublic, Hpr|reflexivity].
  - intros Hnone. f_equal.
    apply (FirstMatch_unique _ _ _ _ _ Hfm).
    left. split; [reflexivity|apply Hmiss, Hnone].
Qed.

End FrontageExact.



(** ** The code on concrete scenes (IEEE doubles) *)

Section Concrete.
Import Examples.
Local Open Scope float_scope.

(** C8.  [scalePolygonToArea] on the 10 x 10 square with target 200: the
    vertices are scaled about the centroid (5, 5) by sqrt 2 and then rounded
    to two decimals by [transformPoint], which gives the square from -2.07
    to 12.07, of area 199.9396.  The component's own smoke test
    [Math.abs(shoelaceArea(auto) - 200) < 1e-6] is false on it. *)
Theorem scalePolygonToArea_square_200 :
  shoelaceArea square10 = 100
  /\ polygonCentroid square10 = (5, 5)
  /\ scalePolygonToArea square10 200
     = [(-2.07, -2.07); (12.07, -2.07); (12.07, 12.07); (-2.07, 12.07)]
  /\ shoelaceArea (scalePolygonToArea square10 200) = 199.93960000000001
  /\ nltb (nabs (nsub (shoelaceArea (scalePolygonToArea square10 200)) 200)) lit_1e6 = false.
Proof. vm_compute. repeat split; reflexivity. Qed.

(** C2, against the claim.  In [sceneTie] the grid candidate (1, 5) and the
    line candidate (0, 5) are both 0.5 away from the pointer, and the line
    candidate is committed.  In [sceneShift] the pointer (3.5, -1) is locked
    to (3.5, 0); the grid candidate (4, 0) is nearer to the pointer before
    the lock than the line candidate (3.5, 0.25) is, and the line candidate
    is committed, being nearer to the locked point. *)
Lemma preview_tie_and_axis_lock :
  previewGrid sceneTie (0.5, 5) = (1, 5)
  /\ distance (0.5, 5) (1, 5) = 0.5
  /\ distance (0.5, 5) (0, 5) = 0.5
  /\ computePreviewPoint sceneTie evTie = Some (0, 5)
  /\ previewAligned sceneShift evShift (3.5, -1) = (3.5, 0)
  /\ previewGrid sceneShift (3.5, 0) = (4, 0)
  /\ nltb (distance (3.5, -1) (4, 0)) (distance (3.5, -1) (3.5, 0.25)) = true
  /\ computePreviewPoint sceneShift evShift = Some (3.5, 0.25).
Proof. vm_compute. repeat split; reflexivity. Qed.

Lemma preview_prefers_line_on_tie_witness :
  computePreviewPoint sceneTie evTie = Some (0, 5).
Proof.
  destruct (preview_prefers_line_on_tie sceneTie evTie (0.5, 5) (0, 5) eq_refl)
    as [Hline _].
  - vm_compute. reflexivity.
  - rewrite Hline; [|vm_compute; reflexivity]. vm_compute. reflexivity.
Defined.

(** C9, against the claim.  Two points that are not in lexicographic order
    come back sorted, not unchanged. *)
Lemma convexHull_two_points_sorted :
  convexHull [(1, 0); (0, 0)] = [(0, 0); (1, 0)].
Proof. vm_compute. reflexivity. Qed.

(** A closed square with a point inside and a point on an edge: the
    closing duplicate, the inner point and the edge point are dropped and
    the corners come back counter-clockwise from the lowest leftmost. *)
Lemma convexHull_square_with_inner_points :
  convexHull [(2, 2); (0, 2); (1, 1); (0, 0); (1, 0); (2, 0); (2, 2)]
  = [(0, 0); (2, 0); (2, 2); (0, 2)].
Proof. vm_compute. reflexivity. Qed.

(** C10, against the claim.  Deleting the selected edge of [sceneA] pushes
    two snapshots, and a single undo brings back the scene from before the
    deletion. *)
Lemma onDeleteSelection_edge_one_undo :
  (st ← onDeleteSelection sceneA;
   Some (length (history st), lots (persist st), persist (undoHistory st st)))
  = Some (2%nat,
          [ {| lot_id := Some "L001-01";
               lot_polygon := [(19, 1); (19, 9); (11, 9)] |} ],
          persist sceneA).
Proof. vm_compute. reflexivity. Qed.

Lemma onDeleteSelection_edge_pushes_twice_witness :
  exists st,
    onDeleteSelection sceneA = Some st
    /\ history st = [persist sceneA; persist sceneA]
    /\ persist (undoHistory st st) = persist sceneA.
Proof.
  destruct (onDeleteSelection sceneA) as [st|] eqn:Hdel;
    [|vm_compute in Hdel; discriminate].
  exists st. split; [reflexivity|].
  destruct (onDeleteSelection_edge_pushes_twice sceneA st selEdge3 3 eq_refl eq_refl Hdel)
    as (H1 & H2 & _).
  split; [exact H1|exact H2].
Defined.


Lemma pushHistory_then_undo_restores_witness :
  makeSnapshot sceneA = persist sceneA
  /\ persist (undoHistory (setLots [] (pushHistory sceneA sceneA))
                (setLots [] (pushHistory sceneA sceneA)))
     = persist sceneA.
Proof.
  split; [vm_compute; reflexivity|].
  apply (pushHistory_then_undo_restores sceneA (setLots [] (pushHistory sceneA sceneA)));
    vm_compute; reflexivity.
Defined.

End Concrete.

Section ConcreteExact.
Import Examples.
Existing Instance sampleLib.
Local Open Scope Q_scope.

Lemma exported_ring_closed_and_not_clockwise_witness :
  exists doc,
    exportJSON diamondAngle sceneQ = Some doc
    /\ x_boundary doc = [(0, 0); (4, 0); (0, 3); (0, 0)]
    /\ ptsEqual (at_ (x_boundary doc) 0) (at_ (x_boundary doc) (length (x_boundary doc) - 1))
       = true
    /\ 0 <= signedArea (x_boundary doc).
Proof.
  destruct (exportJSON_returns diamondAngle sceneQ) as [doc Hdoc].
  exists doc. split; [exact Hdoc|].
  assert (Hb : x_boundary doc = [(0, 0); (4, 0); (0, 3); (0, 0)]).
  { vm_compute in Hdoc. injection Hdoc as <-. reflexivity. }
  split; [exact Hb|].
  destruct (proj2 exported_ring_closed_and_not_clockwise sampleLib diamondAngle sceneQ doc
              (x_boundary doc) Hdoc (or_introl eq_refl))
    as (poly & _ & _ & Hclosed & _ & Hpos).
  - rewrite Hb. simpl. lia.
  - split; [exact Hclosed|exact Hpos].
Defined.

End ConcreteExact.
(** ** The further properties on concrete scenes *)

Section ConcreteEditor.
Import Examples.
Local Open Scope float_scope.

Lemma pathSegsBetweenIndices_arcs_partition_ring_witness :
  pathSegsBetweenIndices boundary20 1 3 = Some [((20, 0), (20, 10)); ((20, 10), (0, 10))]
  /\ exists segsAB segsBA,
       pathSegsBetweenIndices boundary20 1 3 = Some segsAB
       /\ pathSegsBetweenIndices boundary20 3 1 = Some segsBA
       /\ (length segsAB + length segsBA = 4)%nat.
Proof.
  split; [vm_compute; reflexivity|].
  destruct (pathSegsBetweenIndices_arcs_partition_ring boundary20 1 3)
    as (ab & ba & H1 & H2 & _ & _ & H3 & _).
  - vm_compute. lia.
  - vm_compute. lia.
  - lia.
  - exists ab, ba. split; [exact H1|]. split; [exact H2|exact H3].
Defined.

Lemma pathSegsBetweenIndices_target_outside_never_ends_witness :
  pathSegsLoop 1000 boundary20 0 4 [] = None
  /\ pathSegsBetweenIndices boundary20 0 4 = None.
Proof.
  destruct (pathSegsBetweenIndices_target_outside_never_ends boundary20 0 4) as [H1 H2].
  - vm_compute. lia.
  - vm_compute. lia.
  - split; [apply H1|exact H2].
Defined.

Lemma road_ids_stay_distinct_witness :
  roadIds sceneA = ["R001"; "R003"]
  /\ exists ed',
       closeShape (fun _ => 6) editorA = Some ed' /\ NoDup (roadIds (ed_scene ed')).
Proof.
  split; [reflexivity|].
  apply (road_ids_stay_distinct (fun _ => 6) editorA evDown).
  change (NoDup ["R001"; "R003"]%string).
  apply NoDup_cons. split; [|apply NoDup_singleton].
  intros H. apply list_elem_of_singleton in H. discriminate.
Defined.

Lemma undo_redo_round_trip_witness :
  persist (redoHistory (undoHistory sceneAfterEdit sceneAfterEdit)
             (undoHistory sceneAfterEdit sceneAfterEdit))
  = persist sceneAfterEdit
  /\ history (redoHistory (undoHistory sceneAfterEdit sceneAfterEdit)
                (undoHistory sceneAfterEdit sceneAfterEdit))
     = history sceneAfterEdit.
Proof.
  destruct (undo_redo_round_trip sceneAfterEdit sceneAfterEdit) as [H _].
  - vm_compute. reflexivity.
  - destruct (H [] (persist sceneA)) as (H1 & H2 & _).
    + reflexivity.
    + vm_compute. reflexivity.
    + split; [exact H1|exact H2].
Defined.

Lemma click_then_smartUndo_witness :
  exists st,
    onCanvasClick sceneTie evTie = Some st
    /\ current st = [(0, 5)]
    /\ smartUndo st st = sceneTie.
Proof.
  destruct (click_then_smartUndo sceneTie evTie (0, 5)) as (st & H1 & H2 & _ & _ & H3 & _).
  - right. left. reflexivity.
  - vm_compute. reflexivity.
  - exists st. split; [exact H1|]. split; [rewrite H2; vm_compute; reflexivity|].
    apply H3. vm_compute. reflexivity.
Defined.

Lemma drag_gesture_is_one_undo_step_witness :
  exists ed',
    dragGesture (fun _ => 6) editorA evDown [evMove; evMove] = Some ed'
    /\ ed_dragging ed' = None
    /\ lots (persist (ed_scene ed'))
       = [ {| lot_id := Some "L001-01";
              lot_polygon := [(12, 2); (19, 1); (19, 9); (11, 9)] |} ]
    /\ persist (undoHistory (ed_scene ed') (ed_scene ed')) = persist sceneA.
Proof.
  destruct (drag_gesture_is_one_undo_step (fun _ => 6) editorA evDown [evMove; evMove])
    as (ed' & Hg & Hd & Hcase).
  - reflexivity.
  - exists ed'. split; [exact Hg|]. split; [exact Hd|].
    assert (Hed : dragGesture (fun _ => 6) editorA evDown [evMove; evMove] = Some ed')
      by exact Hg.
    vm_compute in Hed. injection Hed as <-.
    split; vm_compute; reflexivity.
Defined.

Lemma select_then_delete_never_throws_witness :
  exists ed' st,
    onPointerDown editorA evDown = Some ed'
    /\ selection (ed_scene ed')
       = Some {| sel_kind := Klot; sel_index := 0; sel_vertexIndex := Some 0%nat;
                 sel_edgeIndex := None |}
    /\ onDeleteSelection (ed_scene ed') = Some st.
Proof.
  destruct (select_then_delete_never_throws editorA evDown (11, 1))
    as (ed' & st & H1 & _ & H3).
  - reflexivity.
  - reflexivity.
  - reflexivity.
  - exists ed', st. split; [exact H1|]. split; [|exact H3].
    assert (Hed : onPointerDown editorA evDown = Some ed') by exact H1.
    vm_compute in Hed. injection Hed as <-. reflexivity.
Defined.


Lemma onCanvasClick_adds_entry_point_once_witness :
  exists st,
    onCanvasClick scenePublic evEntry = Some st
    /\ map pr_entry_points (publicRoads (persist st)) = [[(0, 0); (20, 0); (10, 0)]]
    /\ history st = [].
Proof.
  destruct (onCanvasClick_adds_entry_point_once scenePublic evEntry (10, 0))
    as (st & idx & r0 & r' & H1 & _ & _ & _ & _ & _ & _ & _ & _ & _ & H5 & _).
  - reflexivity.
  - vm_compute. reflexivity.
  - intros i [= <-]. vm_compute. lia.
  - exists st. split; [exact H1|]. split; [|exact H5].
    assert (Hst : onCanvasClick scenePublic evEntry = Some st) by exact H1.
    vm_compute in Hst. injection Hst as <-. reflexivity.
Defined.

End ConcreteEditor.

Section ConcreteExactEditor.
Import Examples.
Existing Instance sampleLib.
Local Open Scope Q_scope.

Lemma zoomAt_keeps_anchor_witness :
  vb_w (zoomAt 25 20 2 viewQ) == 125 / 2
  /\ (25 - vb_x (zoomAt 25 20 2 viewQ)) / vb_w (zoomAt 25 20 2 viewQ) == 25 / 125.
Proof.
  destruct (zoomAt_keeps_anchor 25 20 2 3 viewQ) as (H1 & _ & H3 & _);
    try (vm_compute; discriminate).
  split; [exact H1|]. rewrite H3. reflexivity.
Defined.

Lemma edge_drag_translates_the_edge_witness :
  moveEdge triangleQ 1 2 (edgeMove false (4, 0) (0, 3) 1 1) = [(0, 0); (5, 1); (1, 4)]
  /\ length (moveEdge triangleQ 1 2 (edgeMove true (4, 0) (0, 3) 1 1)) = 3%nat
  /\ (edgeMove true (4, 0) (0, 3) 1 1).1 * (0 - 4)
     + (edgeMove true (4, 0) (0, 3) 1 1).2 * (3 - 0) == 0.
Proof.
  split; [vm_compute; reflexivity|].
  destruct (edge_drag_translates_the_edge triangleQ 1 (4, 0) (0, 3) true 1 1)
    as (H1 & _ & _ & _ & _ & _ & _ & H8); try reflexivity.
  split; [exact H1|]. apply H8. reflexivity.
Defined.

End ConcreteExactEditor.

(** ** Frontage and export on concrete scenes *)

Section ConcreteFrontage.
Import Examples.
Existing Instance sampleLib.

(** The square root of [sampleLib] is monotone. *)
Lemma sqrtQ_monotone : @SqrtMonotone sampleLib.
Proof.
  intros x y Hxy. cbn [Exact.sqrt sampleLib]. unfold sqrtQ.
  apply Qmult_le_compat_r; [|vm_compute; discriminate].
  rewrite <- Zle_Qle. apply Z.sqrt_le_mono.
  unfold Qle in Hxy.
  set (K := (10 ^ 18)%Z). assert (HK : (0 < K)%Z) by reflexivity. clearbody K.
  apply Z.div_le_lower_bound; [reflexivity|].
  pose proof (Z.mul_div_le (Qnum x * K) (Zpos (Qden x)) ltac:(reflexivity)) as Hx.
  set (A := (Qnum x * K / Zpos (Qden x))%Z) in *. clearbody A.
  assert (Hdx : (0 < Zpos (Qden x))%Z) by reflexivity.
  assert (Hdy : (0 < Zpos (Qden y))%Z) by reflexivity.
  nia.
Qed.

(** Two segments apart along the x axis have no two points within a
    tolerance below the gap. *)
Lemma not_within_apart (tol k g : Q) (ab cd : @Segment Q) :
  (ab.1.1 <= k)%Q -> (ab.2.1 <= k)%Q ->
  (k + g <= cd.1.1)%Q -> (k + g <= cd.2.1)%Q ->
  (0 <= g)%Q -> (tol < Exact.sqrt (g * g))%Q ->
  ~ Within tol ab cd.
Proof.
  intros Ha Hb Hc Hd Hg Htol (p & q & (s & [Hs0 Hs1] & Hp & _) & (t & [Ht0 Ht1] & Hq & _) & Hle).
  apply (Qlt_irrefl tol). apply (Qlt_le_trans _ _ _ Htol).
  apply (Qle_trans _ (pointDistance p q)); [|exact Hle].
  unfold pointDistance. apply sqrtQ_monotone.
  destruct ab as [[a1 a2] [b1 b2]], cd as [[c1 c2] [d1 d2]], p as [p1 p2], q as [q1 q2].
  cbn [fst snd] in *.
  assert (Hp' : (p1 <= k)%Q).
  { assert (0 <= (1 - s) * (k - a1))%Q by (apply Qmult_le_0_compat; lra).
    assert (0 <= s * (k - b1))%Q by (apply Qmult_le_0_compat; lra).
    lra. }
  assert (Hq' : (k + g <= q1)%Q).
  { assert (0 <= (1 - t) * (c1 - (k + g)))%Q by (apply Qmult_le_0_compat; lra).
    assert (0 <= t * (d1 - (k + g)))%Q by (apply Qmult_le_0_compat; lra).
    lra. }
  assert (H1 : (0 <= (q1 - p1 - g) * (q1 - p1 + g))%Q) by (apply Qmult_le_0_compat; lra).
  assert (H2 : (0 <= (p2 - q2) * (p2 - q2))%Q) by (generalize (p2 - q2)%Q; intros z; clear; nra).
  lra.
Qed.

Local Ltac cases_of H :=
  apply list_elem_of_In in H; vm_compute in H;
  repeat match type of H with
         | _ \/ _ => destruct H as [H|H]
         end.

Local Ltac clear_product :=
  first [ left; vm_compute; reflexivity | right; vm_compute; discriminate ].

Local Ltac concrete :=
  first [ reflexivity | discriminate | (vm_compute; reflexivity) | (vm_compute; discriminate) ].



Local Open Scope float_scope.



(** C7, against the claim.  A boundary of three collinear vertices is
    exported as the ring (0,0), (2,0), (1,0), (0,0): closed, of three
    vertices and more, and of signed area 0, which is not positive.  And on
    doubles the orientation of a ring can be lost: the sliver is
    counter-clockwise, of exact area 2^-13, but the products of its shoelace
    sum are rounded to multiples of 2^-12 and the sum comes out as 0, so
    that [normalizeCCW], which keeps the sorted ring only on a positive
    area, reverses it; the exported ring runs clockwise, its exact signed
    area is negative. *)
Lemma export_ring_not_counter_clockwise :
  let ring := [(499992, 4000000); (500000, 4000000 + 0x1p-17); (500008, 4000000);
               (500000, 4000000 - 0x1p-17); (499992, 4000000)] in
  (doc ← exportJSON atan2_y0 sceneCollinear; Some (x_boundary doc))
  = Some [(0, 0); (2, 0); (1, 0); (0, 0)]
  /\ signedArea [(0, 0); (2, 0); (1, 0); (0, 0)] = 0
  /\ nltb 0 (signedArea [(0, 0); (2, 0); (1, 0); (0, 0)]) = false
  /\ (doc ← exportJSON atan2_axes sceneSliver; Some (x_boundary doc)) = Some ring
  /\ signedArea sliver = 0
  /\ (signedArea (map (fun p => (Float64.toQ p.1, Float64.toQ p.2)) sliver) == 1 # 8192)%Q
  /\ (signedArea (map (fun p => (Float64.toQ p.1, Float64.toQ p.2)) ring) == - (1 # 8192))%Q.
Proof.
  cbv zeta. repeat split; vm_compute; reflexivity.
Qed.

End ConcreteFrontage.
